(** * Verification of fecpp: forward error correction over GF(2^8)

    A shallow embedding of [fecpp.cpp] (tables, [init_fec], [addmul],
    [invert_matrix], [create_inverted_vdm], the [fec_code] constructor,
    [encode] and [decode]) together with the properties of the codec.

    Conventions of the embedding:
    - [byte] (an [unsigned char]) is [Byte.byte];
    - [size_t] is [N], subtraction and increments wrap modulo 2^64;
    - [int] is [Z], conversions from [size_t] wrap modulo 2^32;
    - a [std::vector] or a raw buffer is a [list]; every access is
      checked and an access outside the buffer yields [Undefined];
    - a pointer is the buffer it points into and an offset; an offset
      may leave the buffer (as [lim] in [addmul] does for short
      lengths), only accesses are checked.  The storage of a non-empty
      buffer lies at an address from which the offsets computed here do
      not wrap; the data pointer of an empty [std::vector] is the null
      pointer, and an offset from it wraps modulo 2^64 ([ptr_add]);
    - a [std::vector] of more than [max_size()] bytes throws
      [std::length_error]; this shows in the constructor, whose member
      [enc_matrix(n * k)] is built before [k] and [n] are checked (the
      other vectors hold at most [k * k] bytes with [k <= 256], or as
      many bytes as a buffer the caller passed in).  An allocation
      within [max_size()] succeeds;
    - a C++ exception is [Throw];
    - the output callback is the trace of its invocations, each with the
      bytes that the callback is given to read. *)

From Stdlib Require Import List NArith ZArith Lia Bool Sorted Permutation.
From Stdlib Require Strings.String.
From Stdlib Require Import Init.Byte Strings.Byte.
From Stdlib Require Import Ring.
Import ListNotations.
Import String.StringSyntax.
Abbreviation string := String.string.

Set Implicit Arguments.
Local Open Scope N_scope.
Local Open Scope string_scope.

(** ** Outcomes of a call *)

Inductive exception : Type :=
| invalid_argument (what : string)
| logic_error (what : string)
| length_error (what : string).

Inductive result (A : Type) : Type :=
| Ok (a : A)
| Throw (e : exception)
| Undefined
| OutOfFuel.

Arguments Ok {A} a.
Arguments Throw {A} e.
Arguments Undefined {A}.
Arguments OutOfFuel {A}.

Definition bind {A B} (m : result A) (f : A -> result B) : result B :=
  match m with
  | Ok a => f a
  | Throw e => Throw e
  | Undefined => Undefined
  | OutOfFuel => OutOfFuel
  end.

Notation "x <- m ;; f" := (bind m (fun x => f))
  (at level 61, m at next level, right associativity).
Notation "' pat <- m ;; f" := (bind m (fun x => match x with pat => f end))
  (at level 61, pat pattern, m at next level, right associativity).

(** ** Machine integers *)

Abbreviation size_t := N.
Definition SIZE_WIDTH : N := 2 ^ 64.

Definition size_sub (a b : size_t) : size_t := (a + SIZE_WIDTH - b) mod SIZE_WIDTH.
Definition size_add (a b : size_t) : size_t := (a + b) mod SIZE_WIDTH.
Definition size_mul (a b : size_t) : size_t := (a * b) mod SIZE_WIDTH.

Definition INT_MAX : Z := 2147483647.
Definition INT_MIN : Z := -2147483648.

(** Conversion of a [size_t] to [int] keeps the low 32 bits. *)
Definition int_of_size_t (x : size_t) : Z :=
  let r := Z.of_N (x mod 2 ^ 32) in
  if (r <=? INT_MAX)%Z then r else (r - 2 ^ 32)%Z.

(** Conversion of an [int] to [size_t] sign-extends and wraps. *)
Definition size_t_of_int (x : Z) : size_t := Z.to_N (x mod 2 ^ 64).

(** ** Checked buffers *)

Section Buffers.
Variable A : Type.

Fixpoint upd (l : list A) (i : nat) (x : A) : list A :=
  match l, i with
  | [], _ => []
  | _ :: t, O => x :: t
  | h :: t, S j => h :: upd t j x
  end.

Definition vget (v : list A) (i : size_t) : result A :=
  if i <? N.of_nat (length v) then
    match nth_error v (N.to_nat i) with
    | Some x => Ok x
    | None => Undefined
    end
  else Undefined.

Definition vset (v : list A) (i : size_t) (x : A) : result (list A) :=
  if i <? N.of_nat (length v) then Ok (upd v (N.to_nat i) x) else Undefined.

(** Pointer dereference: the pointer is an offset, possibly negative or
    past the end, from the start of the buffer it was derived from. *)
Definition pget (v : list A) (p : Z) : result A :=
  if (p <? 0)%Z then Undefined else vget v (Z.to_N p).

Definition pset (v : list A) (p : Z) (x : A) : result (list A) :=
  if (p <? 0)%Z then Undefined else vset v (Z.to_N p) x.

(** The [len] elements at offset [off], as a callback or [memcpy]
    reads them. *)
Definition vslice (v : list A) (off len : size_t) : result (list A) :=
  if off + len <=? N.of_nat (length v)
  then Ok (firstn (N.to_nat len) (skipn (N.to_nat off) v))
  else Undefined.

(** [p + n] for a pointer at offset [p] of the buffer [v].  A non-empty
    buffer lies where the sum does not wrap.  The data pointer of an
    empty vector is null: the sum is taken modulo 2^64, so that a
    negative offset lands far above the pointer. *)
Definition ptr_add (v : list A) (p n : Z) : Z :=
  match v with
  | [] => ((p + n) mod 2 ^ 64)%Z
  | _ :: _ => (p + n)%Z
  end.
End Buffers.

(** [std::vector<byte> v(count)]: [count] zero bytes, or
    [std::length_error] beyond [max_size()], which is [PTRDIFF_MAX] for
    a vector of bytes. *)
Definition max_size : size_t := 2 ^ 63 - 1.

Definition vector_new (count : size_t) : result (list Byte.byte) :=
  if max_size <? count then
    Throw (length_error "cannot create std::vector larger than max_size()")
  else Ok (repeat x00 (N.to_nat count)).

(** ** Loops

    Every loop re-tests its condition before each iteration, as in the
    source; [fuel] bounds the number of iterations and is chosen by the
    caller large enough for the loop to finish. *)

Section Loops.
Variable S : Type.

(** [for (i = lo; i != hi; i += step) body] *)
Fixpoint loop_ne (fuel : nat) (i hi step : size_t)
         (body : size_t -> S -> result S) (s : S) : result S :=
  if i =? hi then Ok s
  else match fuel with
       | O => OutOfFuel
       | Datatypes.S f =>
           s' <- body i s ;; loop_ne f (size_add i step) hi step body s'
       end.

(** [for (i = lo; i < hi; ++i) body] *)
Fixpoint loop_lt (fuel : nat) (i hi : size_t)
         (body : size_t -> S -> result S) (s : S) : result S :=
  if i <? hi then
    match fuel with
    | O => OutOfFuel
    | Datatypes.S f => s' <- body i s ;; loop_lt f (size_add i 1) hi body s'
    end
  else Ok s.

Definition for_ne (lo hi : size_t) := loop_ne (N.to_nat (size_sub hi lo)) lo hi 1.
Definition for_lt (lo hi : size_t) := loop_lt (N.to_nat (hi - lo)) lo hi.

(** [for (int i = hi; i >= 0; i--) body] *)
Fixpoint loop_down (fuel : nat) (i : Z)
         (body : Z -> S -> result S) (s : S) : result S :=
  if (0 <=? i)%Z then
    match fuel with
    | O => OutOfFuel
    | Datatypes.S f => s' <- body i s ;; loop_down f (i - 1)%Z body s'
    end
  else Ok s.

Definition for_down (hi : Z) := loop_down (Z.to_nat (hi + 1)) hi.
End Loops.

(** A loop that may leave its function by [return]. *)
Inductive control (S R : Type) : Type :=
| Continue (s : S)
| Return (r : R).
Arguments Continue {S R} s.
Arguments Return {S R} r.

Section SearchLoops.
Variables S R : Type.

Fixpoint loop_ne_ret (fuel : nat) (i hi : size_t)
         (body : size_t -> S -> result (control S R)) (s : S)
  : result (control S R) :=
  if i =? hi then Ok (Continue s)
  else match fuel with
       | O => OutOfFuel
       | Datatypes.S f =>
           c <- body i s ;;
           match c with
           | Continue s' => loop_ne_ret f (size_add i 1) hi body s'
           | Return r => Ok (Return r)
           end
       end.

Definition for_ne_ret (lo hi : size_t) :=
  loop_ne_ret (N.to_nat (size_sub hi lo)) lo hi.
End SearchLoops.

(** ** The output callback

    [encode] and [decode] hand their results to a callback
    [output(index, total, data, length)].  A call is modelled by the list
    of the callback's invocations, in order, next to its outcome; the
    invocations made before a failure stay visible.  An invocation is
    recorded with the [length] bytes at [data], which the buffer behind
    the pointer has to hold. *)

Record emission : Type := Emit {
  em_index : size_t;
  em_total : size_t;
  em_data : list byte;
  em_length : size_t
}.

Definition io (A : Type) : Type := list emission -> list emission * result A.

Definition io_ret {A} (a : A) : io A := fun tr => (tr, Ok a).

Definition io_bind {A B} (m : io A) (f : A -> io B) : io B :=
  fun tr =>
    match m tr with
    | (tr', Ok a) => f a tr'
    | (tr', Throw e) => (tr', Throw e)
    | (tr', Undefined) => (tr', Undefined)
    | (tr', OutOfFuel) => (tr', OutOfFuel)
    end.

Definition lift {A} (m : result A) : io A := fun tr => (tr, m).

Definition output (index total : size_t) (data : list byte) (len : size_t) : io unit :=
  fun tr => (tr ++ [Emit index total data len], Ok tt).

Definition run {A} (m : io A) : list emission * result A := m [].

Notation "x <~ m ;; f" := (io_bind m (fun x => f))
  (at level 61, m at next level, right associativity).
Notation "' pat <~ m ;; f" := (io_bind m (fun x => match x with pat => f end))
  (at level 61, pat pattern, m at next level, right associativity).

Section IoLoops.
Variable S : Type.

Fixpoint io_loop_ne (fuel : nat) (i hi : size_t)
         (body : size_t -> S -> io S) (s : S) : io S :=
  if i =? hi then io_ret s
  else match fuel with
       | O => lift OutOfFuel
       | Datatypes.S f =>
           s' <~ body i s ;; io_loop_ne f (size_add i 1) hi body s'
       end.

Definition io_for_ne (lo hi : size_t) :=
  io_loop_ne (N.to_nat (size_sub hi lo)) lo hi.
End IoLoops.

(** * Tables for arithmetic in GF(2^8) *)

(** [gf_exp[i] = alpha^i]; the table has size 2*255 so that a product
    can be looked up without reducing the sum of two logarithms. *)
Definition GF_EXP : list byte := [
  x01; x02; x04; x08; x10; x20; x40; x80; x1d; x3a; x74; xe8; xcd; x87; x13;
  x26; x4c; x98; x2d; x5a; xb4; x75; xea; xc9; x8f; x03; x06; x0c; x18; x30;
  x60; xc0; x9d; x27; x4e; x9c; x25; x4a; x94; x35; x6a; xd4; xb5; x77; xee;
  xc1; x9f; x23; x46; x8c; x05; x0a; x14; x28; x50; xa0; x5d; xba; x69; xd2;
  xb9; x6f; xde; xa1; x5f; xbe; x61; xc2; x99; x2f; x5e; xbc; x65; xca; x89;
  x0f; x1e; x3c; x78; xf0; xfd; xe7; xd3; xbb; x6b; xd6; xb1; x7f; xfe; xe1;
  xdf; xa3; x5b; xb6; x71; xe2; xd9; xaf; x43; x86; x11; x22; x44; x88; x0d;
  x1a; x34; x68; xd0; xbd; x67; xce; x81; x1f; x3e; x7c; xf8; xed; xc7; x93;
  x3b; x76; xec; xc5; x97; x33; x66; xcc; x85; x17; x2e; x5c; xb8; x6d; xda;
  xa9; x4f; x9e; x21; x42; x84; x15; x2a; x54; xa8; x4d; x9a; x29; x52; xa4;
  x55; xaa; x49; x92; x39; x72; xe4; xd5; xb7; x73; xe6; xd1; xbf; x63; xc6;
  x91; x3f; x7e; xfc; xe5; xd7; xb3; x7b; xf6; xf1; xff; xe3; xdb; xab; x4b;
  x96; x31; x62; xc4; x95; x37; x6e; xdc; xa5; x57; xae; x41; x82; x19; x32;
  x64; xc8; x8d; x07; x0e; x1c; x38; x70; xe0; xdd; xa7; x53; xa6; x51; xa2;
  x59; xb2; x79; xf2; xf9; xef; xc3; x9b; x2b; x56; xac; x45; x8a; x09; x12;
  x24; x48; x90; x3d; x7a; xf4; xf5; xf7; xf3; xfb; xeb; xcb; x8b; x0b; x16;
  x2c; x58; xb0; x7d; xfa; xe9; xcf; x83; x1b; x36; x6c; xd8; xad; x47; x8e;
  x01; x02; x04; x08; x10; x20; x40; x80; x1d; x3a; x74; xe8; xcd; x87; x13;
  x26; x4c; x98; x2d; x5a; xb4; x75; xea; xc9; x8f; x03; x06; x0c; x18; x30;
  x60; xc0; x9d; x27; x4e; x9c; x25; x4a; x94; x35; x6a; xd4; xb5; x77; xee;
  xc1; x9f; x23; x46; x8c; x05; x0a; x14; x28; x50; xa0; x5d; xba; x69; xd2;
  xb9; x6f; xde; xa1; x5f; xbe; x61; xc2; x99; x2f; x5e; xbc; x65; xca; x89;
  x0f; x1e; x3c; x78; xf0; xfd; xe7; xd3; xbb; x6b; xd6; xb1; x7f; xfe; xe1;
  xdf; xa3; x5b; xb6; x71; xe2; xd9; xaf; x43; x86; x11; x22; x44; x88; x0d;
  x1a; x34; x68; xd0; xbd; x67; xce; x81; x1f; x3e; x7c; xf8; xed; xc7; x93;
  x3b; x76; xec; xc5; x97; x33; x66; xcc; x85; x17; x2e; x5c; xb8; x6d; xda;
  xa9; x4f; x9e; x21; x42; x84; x15; x2a; x54; xa8; x4d; x9a; x29; x52; xa4;
  x55; xaa; x49; x92; x39; x72; xe4; xd5; xb7; x73; xe6; xd1; xbf; x63; xc6;
  x91; x3f; x7e; xfc; xe5; xd7; xb3; x7b; xf6; xf1; xff; xe3; xdb; xab; x4b;
  x96; x31; x62; xc4; x95; x37; x6e; xdc; xa5; x57; xae; x41; x82; x19; x32;
  x64; xc8; x8d; x07; x0e; x1c; x38; x70; xe0; xdd; xa7; x53; xa6; x51; xa2;
  x59; xb2; x79; xf2; xf9; xef; xc3; x9b; x2b; x56; xac; x45; x8a; x09; x12;
  x24; x48; x90; x3d; x7a; xf4; xf5; xf7; xf3; xfb; xeb; xcb; x8b; x0b; x16;
  x2c; x58; xb0; x7d; xfa; xe9; xcf; x83; x1b; x36; x6c; xd8; xad; x47; x8e
]%list.

(** [gf_log[alpha^i] = i]; the entry of 0 is unused. *)
Definition GF_LOG : list byte := [
  xff; x00; x01; x19; x02; x32; x1a; xc6; x03; xdf; x33; xee; x1b; x68; xc7;
  x4b; x04; x64; xe0; x0e; x34; x8d; xef; x81; x1c; xc1; x69; xf8; xc8; x08;
  x4c; x71; x05; x8a; x65; x2f; xe1; x24; x0f; x21; x35; x93; x8e; xda; xf0;
  x12; x82; x45; x1d; xb5; xc2; x7d; x6a; x27; xf9; xb9; xc9; x9a; x09; x78;
  x4d; xe4; x72; xa6; x06; xbf; x8b; x62; x66; xdd; x30; xfd; xe2; x98; x25;
  xb3; x10; x91; x22; x88; x36; xd0; x94; xce; x8f; x96; xdb; xbd; xf1; xd2;
  x13; x5c; x83; x38; x46; x40; x1e; x42; xb6; xa3; xc3; x48; x7e; x6e; x6b;
  x3a; x28; x54; xfa; x85; xba; x3d; xca; x5e; x9b; x9f; x0a; x15; x79; x2b;
  x4e; xd4; xe5; xac; x73; xf3; xa7; x57; x07; x70; xc0; xf7; x8c; x80; x63;
  x0d; x67; x4a; xde; xed; x31; xc5; xfe; x18; xe3; xa5; x99; x77; x26; xb8;
  xb4; x7c; x11; x44; x92; xd9; x23; x20; x89; x2e; x37; x3f; xd1; x5b; x95;
  xbc; xcf; xcd; x90; x87; x97; xb2; xdc; xfc; xbe; x61; xf2; x56; xd3; xab;
  x14; x2a; x5d; x9e; x84; x3c; x39; x53; x47; x6d; x41; xa2; x1f; x2d; x43;
  xd8; xb7; x7b; xa4; x76; xc4; x17; x49; xec; x7f; x0c; x6f; xf6; x6c; xa1;
  x3b; x52; x29; x9d; x55; xaa; xfb; x60; x86; xb1; xbb; xcc; x3e; x5a; xcb;
  x59; x5f; xb0; x9c; xa9; xa0; x51; x0b; xf5; x16; xeb; x7a; x75; x2c; xd7;
  x4f; xae; xd5; xe9; xe6; xe7; xad; xe8; x74; xd6; xf4; xea; xa8; x50; x58;
  xaf
]%list.

Definition GF_INVERSE : list byte := [
  x00; x01; x8e; xf4; x47; xa7; x7a; xba; xad; x9d; xdd; x98; x3d; xaa; x5d;
  x96; xd8; x72; xc0; x58; xe0; x3e; x4c; x66; x90; xde; x55; x80; xa0; x83;
  x4b; x2a; x6c; xed; x39; x51; x60; x56; x2c; x8a; x70; xd0; x1f; x4a; x26;
  x8b; x33; x6e; x48; x89; x6f; x2e; xa4; xc3; x40; x5e; x50; x22; xcf; xa9;
  xab; x0c; x15; xe1; x36; x5f; xf8; xd5; x92; x4e; xa6; x04; x30; x88; x2b;
  x1e; x16; x67; x45; x93; x38; x23; x68; x8c; x81; x1a; x25; x61; x13; xc1;
  xcb; x63; x97; x0e; x37; x41; x24; x57; xca; x5b; xb9; xc4; x17; x4d; x52;
  x8d; xef; xb3; x20; xec; x2f; x32; x28; xd1; x11; xd9; xe9; xfb; xda; x79;
  xdb; x77; x06; xbb; x84; xcd; xfe; xfc; x1b; x54; xa1; x1d; x7c; xcc; xe4;
  xb0; x49; x31; x27; x2d; x53; x69; x02; xf5; x18; xdf; x44; x4f; x9b; xbc;
  x0f; x5c; x0b; xdc; xbd; x94; xac; x09; xc7; xa2; x1c; x82; x9f; xc6; x34;
  xc2; x46; x05; xce; x3b; x0d; x3c; x9c; x08; xbe; xb7; x87; xe5; xee; x6b;
  xeb; xf2; xbf; xaf; xc5; x64; x07; x7b; x95; x9a; xae; xb6; x12; x59; xa5;
  x35; x65; xb8; xa3; x9e; xd2; xf7; x62; x5a; x85; x7d; xa8; x3a; x29; x71;
  xc8; xf6; xf9; x43; xd7; xd6; x10; x73; x76; x78; x99; x0a; x19; x91; x14;
  x3f; xe6; xf0; x86; xb1; xe2; xf1; xfa; x74; xf3; xb4; x6d; x21; xb2; x6a;
  xe3; xe7; xb5; xea; x03; x8f; xd3; xc9; x42; xd4; xe8; x75; x7f; xff; x7e;
  xfd
]%list.

(** Addition in the field: the [^] of two bytes. *)
Definition bxor (a b : byte) : byte :=
  let '(a0, (a1, (a2, (a3, (a4, (a5, (a6, a7))))))) := Byte.to_bits a in
  let '(b0, (b1, (b2, (b3, (b4, (b5, (b6, b7))))))) := Byte.to_bits b in
  Byte.of_bits (xorb a0 b0, (xorb a1 b1, (xorb a2 b2, (xorb a3 b3,
               (xorb a4 b4, (xorb a5 b5, (xorb a6 b6, xorb a7 b7))))))).

Definition mul_table : Type := list (list byte).

(** Objects of static storage duration start zeroed. *)
Record fec_globals : Type := {
  fec_initialized : bool;
  MUL_TABLE : mul_table
}.

Definition initial_globals : fec_globals :=
  {| fec_initialized := false; MUL_TABLE := repeat (repeat x00 256) 256 |}.

Definition table_set (t : mul_table) (i j : size_t) (x : byte) : result mul_table :=
  row <- vget t i ;;
  row' <- vset row j x ;;
  vset t i row'.

Definition init_fec (g : fec_globals) : result fec_globals :=
  if negb (fec_initialized g) then
    t <- for_ne 0 256 (fun i t =>
           for_ne 0 256 (fun j t =>
             li <- vget GF_LOG i ;;
             lj <- vget GF_LOG j ;;
             e <- vget GF_EXP ((Byte.to_N li + Byte.to_N lj) mod 255) ;;
             table_set t i j e) t) (MUL_TABLE g) ;;
    t <- for_ne 0 256 (fun i t =>
           t <- table_set t i 0 x00 ;;
           table_set t 0 i x00) t ;;
    Ok {| fec_initialized := true; MUL_TABLE := t |}
  else Ok g.

(** The table as every function below finds it: they are reachable only
    through a [fec_code] object, whose constructor runs [init_fec]. *)
Definition GF_MUL_TABLE :=
  Eval vm_compute in
    match init_fec initial_globals with
    | Ok g => MUL_TABLE g
    | _ => []
    end.

(** * Linear algebra *)

(** The buffer a [const byte*] argument points into: the destination
    buffer itself, or another one. *)
Inductive srcbuf : Type :=
| SameBuffer
| Buffer (b : list byte).

Definition src_read (dst : list byte) (src : srcbuf) (p : Z) : result byte :=
  match src with
  | SameBuffer => pget dst p
  | Buffer b => pget b p
  end.

(** [dst[j] ^= mul_c[src[j]]] with [dst], [src] the current pointers *)
Definition xor_mul (mul_c : list byte) (src : srcbuf) (d s : Z) (j : Z)
           (buf : list byte) : result (list byte) :=
  x <- src_read buf src (s + j) ;;
  m <- vget mul_c (Byte.to_N x) ;;
  y <- pget buf (d + j) ;;
  pset buf (d + j) (bxor y m).

Fixpoint addmul_unrolled (fuel : nat) (mul_c : list byte) (src : srcbuf)
         (lim : Z) (buf : list byte) (d s : Z) : result (list byte * Z * Z) :=
  if (d <? lim)%Z then
    match fuel with
    | O => OutOfFuel
    | S f =>
        buf <- xor_mul mul_c src d s 0 buf ;;
        buf <- xor_mul mul_c src d s 1 buf ;;
        buf <- xor_mul mul_c src d s 2 buf ;;
        buf <- xor_mul mul_c src d s 3 buf ;;
        buf <- xor_mul mul_c src d s 4 buf ;;
        buf <- xor_mul mul_c src d s 5 buf ;;
        buf <- xor_mul mul_c src d s 6 buf ;;
        buf <- xor_mul mul_c src d s 7 buf ;;
        buf <- xor_mul mul_c src d s 8 buf ;;
        buf <- xor_mul mul_c src d s 9 buf ;;
        buf <- xor_mul mul_c src d s 10 buf ;;
        buf <- xor_mul mul_c src d s 11 buf ;;
        buf <- xor_mul mul_c src d s 12 buf ;;
        buf <- xor_mul mul_c src d s 13 buf ;;
        buf <- xor_mul mul_c src d s 14 buf ;;
        buf <- xor_mul mul_c src d s 15 buf ;;
        addmul_unrolled f mul_c src lim buf (d + 16) (s + 16)
    end
  else Ok (buf, d, s).

Fixpoint addmul_tail (fuel : nat) (mul_c : list byte) (src : srcbuf)
         (lim : Z) (buf : list byte) (d s : Z) : result (list byte) :=
  if (d <? lim)%Z then
    match fuel with
    | O => OutOfFuel
    | S f =>
        buf <- xor_mul mul_c src d s 0 buf ;;
        addmul_tail f mul_c src lim buf (d + 1) (s + 1)
    end
  else Ok buf.

(** [addmul(dst, src, c, sz)]: [dst] and [src] are pointers, given by the
    buffer they point into and their offset in it.  The result is the
    destination buffer after the call.  [lim = &dst[sz - 16 + 1]] lies
    below [dst] for [sz < 15]; when [dst] is the null pointer of an empty
    vector it wraps around instead, both loops are entered and write
    through the null pointer. *)
Definition addmul (buf : list byte) (dst : Z) (src : srcbuf) (srcp : Z)
           (c : byte) (sz : Z) : result (list byte) :=
  if Byte.eqb c x00 then Ok buf
  else
    mul_c <- vget GF_MUL_TABLE (Byte.to_N c) ;;
    if (sz - 16 <? INT_MIN)%Z then Undefined
    else
      let lim := ptr_add buf dst (sz - 16 + 1) in
      '(buf', d, s) <- addmul_unrolled (S (Z.to_nat sz)) mul_c src lim buf dst srcp ;;
      let lim := ptr_add buf lim (16 - 1) in
      addmul_tail (S (Z.to_nat sz)) mul_c src lim buf' d s.

(** ** [invert_matrix] *)

Definition swap_at (v : list byte) (i j : size_t) : result (list byte) :=
  a <- vget v i ;;
  b <- vget v j ;;
  v <- vset v i b ;;
  vset v j a.

Fixpoint bytes_eqb (a b : list byte) : bool :=
  match a, b with
  | [], [] => true
  | x :: a', y :: b' => Byte.eqb x y && bytes_eqb a' b'
  | _, _ => false
  end.

(** [memcmp(p, q, len) != 0] *)
Definition memcmp_ne (v : list byte) (p : size_t) (w : list byte) (q : size_t)
           (len : size_t) : result bool :=
  a <- vslice v p len ;;
  b <- vslice w q len ;;
  Ok (negb (bytes_eqb a b)).

(** [pivot_searcher::operator()]; [ipiv] marks the elements already used
    as pivots and is returned updated. *)
Definition pivot_search (ipiv : list bool) (col : size_t) (src : list byte)
  : result (list bool * (size_t * size_t)) :=
  let k := N.of_nat (length ipiv) in
  used <- vget ipiv col ;;
  diag <- (if used then Ok false
           else x <- vget src (col * k + col) ;; Ok (negb (Byte.eqb x x00))) ;;
  if diag then
    ipiv <- vset ipiv col true ;;
    Ok (ipiv, (col, col))
  else
    found <- for_ne_ret 0 k (fun row (_ : unit) =>
      used <- vget ipiv row ;;
      if used then Ok (Continue tt)
      else
        for_ne_ret 0 k (fun i (_ : unit) =>
          used <- vget ipiv i ;;
          nz <- (if used then Ok false
                 else x <- vget src (row * k + i) ;; Ok (negb (Byte.eqb x x00))) ;;
          if nz then
            ipiv <- vset ipiv i true ;;
            Ok (Return (ipiv, (row, i)))
          else Ok (Continue tt)) tt) tt ;;
    match found with
    | Return r => Ok r
    | Continue _ => Throw (invalid_argument "pivot not found in invert_matrix")
    end.

Record gauss_jordan : Type := {
  gj_src : list byte;
  gj_indxc : list Z;
  gj_indxr : list Z;
  gj_id_row : list byte;
  gj_ipiv : list bool
}.

(** Swap the rows [irow] and [icol]. *)
Definition swap_rows (k irow icol : size_t) (src : list byte) : result (list byte) :=
  for_ne 0 k (fun i src => swap_at src (irow * k + i) (icol * k + i)) src.

(** Scale the pivot row by the inverse of the pivot [c]. *)
Definition normalize_row (k pivot_row icol : size_t) (c : byte) (src : list byte)
  : result (list byte) :=
  c <- vget GF_INVERSE (Byte.to_N c) ;;
  src <- vset src (pivot_row + icol) x01 ;;
  mul_c <- vget GF_MUL_TABLE (Byte.to_N c) ;;
  for_ne 0 k (fun i src =>
    x <- vget src (pivot_row + i) ;;
    y <- vget mul_c (Byte.to_N x) ;;
    vset src (pivot_row + i) y) src.

(** Remove multiples of the pivot row from all other rows; [p] is the
    pointer to the current row. *)
Definition eliminate (k pivot_row icol : size_t) (src : list byte) : result (list byte) :=
  '(src, _) <- for_ne 0 k (fun i '(src, p) =>
    src <- (if negb (i =? icol) then
              c <- vget src (p + icol) ;;
              src <- vset src (p + icol) x00 ;;
              addmul src (Z.of_N p) SameBuffer (Z.of_N pivot_row)
                     c (int_of_size_t k)
            else Ok src) ;;
    Ok (src, p + k)) (src, 0) ;;
  Ok src.

(** One iteration of the loop over the columns. *)
Definition invert_column (k : size_t) (col : size_t) (st : gauss_jordan)
  : result gauss_jordan :=
  let src := gj_src st in
  '(ipiv, icolrow) <- pivot_search (gj_ipiv st) col src ;;
  let icol := fst icolrow in
  let irow := snd icolrow in
  src <- (if negb (irow =? icol) then swap_rows k irow icol src else Ok src) ;;
  indxr <- vset (gj_indxr st) col (int_of_size_t irow) ;;
  indxc <- vset (gj_indxc st) col (int_of_size_t icol) ;;
  let pivot_row := icol * k in
  c <- vget src (pivot_row + icol) ;;
  if Byte.eqb c x00 then Throw (invalid_argument "singlar matrix")
  else
    src <- (if negb (Byte.eqb c x01) then normalize_row k pivot_row icol c src
            else Ok src) ;;
    id_row <- vset (gj_id_row st) icol x01 ;;
    differs <- memcmp_ne src pivot_row id_row 0 k ;;
    src <- (if differs then eliminate k pivot_row icol src else Ok src) ;;
    id_row <- vset id_row icol x00 ;;
    Ok {| gj_src := src; gj_indxc := indxc; gj_indxr := indxr;
          gj_id_row := id_row; gj_ipiv := ipiv |}.

(** The loop after the columns: undo the recorded swaps. *)
Definition unscramble (k : size_t) (st : gauss_jordan) : result (list byte) :=
  for_ne 0 k (fun i src =>
    r <- vget (gj_indxr st) i ;;
    c <- vget (gj_indxc st) i ;;
    if negb (r =? c)%Z then
      for_ne 0 k (fun row src =>
        swap_at src (row * k + size_t_of_int r) (row * k + size_t_of_int c)) src
    else Ok src) (gj_src st).

Definition invert_matrix (src : list byte) (k : size_t) : result (list byte) :=
  let kn := N.to_nat k in
  st <- for_ne 0 k (invert_column k)
          {| gj_src := src; gj_indxc := repeat 0%Z kn; gj_indxr := repeat 0%Z kn;
             gj_id_row := repeat x00 kn; gj_ipiv := repeat false kn |} ;;
  unscramble k st.

(** ** [create_inverted_vdm]

    Generates and inverts the Vandermonde matrix of the points
    [0, alpha^1, ..., alpha^(k-1)], written to [vdm[0 .. k*k)]. *)

(** The first loop: the coefficients of [P(x) = Prod (x - p_i)]. *)
Definition vdm_coeffs (k : size_t) (c : list byte) : result (list byte) :=
  for_lt 1 k (fun i c =>
    p_i <- vget GF_EXP i ;;
    mul_p_i <- vget GF_MUL_TABLE (Byte.to_N p_i) ;;
    c <- for_lt (size_sub (size_sub k 1) (size_sub i 1)) (size_sub k 1)
           (fun j c =>
              cj <- vget c j ;;
              cj1 <- vget c (j + 1) ;;
              m <- vget mul_p_i (Byte.to_N cj1) ;;
              vset c j (bxor cj m)) c ;;
    ck <- vget c (size_sub k 1) ;;
    vset c (size_sub k 1) (bxor ck p_i)) c.

(** One iteration of the second loop: synthetic division by [x - p_row],
    then column [row] of the result. *)
Definition vdm_row (k : size_t) (c : list byte) (row : size_t)
           (st : list byte * list byte) : result (list byte * list byte) :=
  let '(vdm, b) := st in
  p_row <- (if row =? 0 then Ok x00 else vget GF_EXP row) ;;
  mul_p_row <- vget GF_MUL_TABLE (Byte.to_N p_row) ;;
  b <- vset b (size_sub k 1) x01 ;;
  '(b, t) <- for_down (int_of_size_t (size_sub k 2)) (fun i '(b, t) =>
    let i := size_t_of_int i in
    ci1 <- vget c (i + 1) ;;
    bi1 <- vget b (i + 1) ;;
    m <- vget mul_p_row (Byte.to_N bi1) ;;
    b <- vset b i (bxor ci1 m) ;;
    bi <- vget b i ;;
    mt <- vget mul_p_row (Byte.to_N t) ;;
    Ok (b, bxor bi mt)) (b, x01) ;;
  t_inv <- vget GF_INVERSE (Byte.to_N t) ;;
  mul_t_inv <- vget GF_MUL_TABLE (Byte.to_N t_inv) ;;
  vdm <- for_ne 0 k (fun col vdm =>
           bc <- vget b col ;;
           m <- vget mul_t_inv (Byte.to_N bc) ;;
           vset vdm (col * k + row) m) vdm ;;
  Ok (vdm, b).

Definition create_inverted_vdm (vdm : list byte) (k : size_t) : result (list byte) :=
  if k =? 1 then vset vdm 0 x01
  else
    let b := repeat x00 (N.to_nat k) in
    let c := repeat x00 (N.to_nat k) in
    c <- vset c (size_sub k 1) x00 ;;
    c <- vdm_coeffs k c ;;
    '(vdm, _) <- for_lt 0 k (vdm_row k c) (vdm, b) ;;
    Ok vdm.

(** * The codec *)

Record fec_code : Type := {
  fec_k : size_t;
  fec_n : size_t;
  enc_matrix : list byte
}.

(** The innermost loop of the matrix product: the entry of row [row / k]
    and column [col], with [pa] running along a row of the lower part of
    [tmp_m] and [pb] down a column of its upper part. *)
Definition product_loop (tmp_m : list byte) (k row col : size_t)
  : result (byte * (size_t * size_t)) :=
  for_lt 0 k (fun i '(acc, (pa, pb)) =>
    a <- vget tmp_m pa ;;
    b <- vget tmp_m pb ;;
    mul_a <- vget GF_MUL_TABLE (Byte.to_N a) ;;
    m <- vget mul_a (Byte.to_N b) ;;
    Ok (bxor acc m, (pa + 1, pb + k))) (x00, (row, col)).

Definition product_entry (tmp_m : list byte) (k row col : size_t) : result byte :=
  '(acc, _) <- product_loop tmp_m k row col ;;
  Ok acc.

(** The constructor [fec_code::fec_code(k_arg, n_arg)].  The member
    [enc_matrix(n * k)] is built by the initialiser list, before the body
    checks [k] and [n]; the two vectors of [n * k] bytes are
    value-initialised, that is zeroed. *)
Definition fec_code_ctor (k_arg n_arg : size_t) : result fec_code :=
  let k := k_arg in
  let n := n_arg in
  enc_matrix <- vector_new (size_mul n k) ;;
  if (256 <? k) || (256 <? n) then
    Throw (invalid_argument "fec_code: k and n must be < 256")
  else if n <? k then
    Throw (invalid_argument "fec_code: k must be <= n")
  else
    tmp_m <- vector_new (size_mul n k) ;;
    tmp_m <- create_inverted_vdm tmp_m k ;;
    tmp_m <- for_ne (k * k) (N.of_nat (length tmp_m)) (fun i tmp_m =>
               e <- vget GF_EXP (((i / k) * (i mod k)) mod 255) ;;
               vset tmp_m i e) tmp_m ;;
    enc_matrix <- for_ne 0 k (fun i enc_matrix =>
                    vset enc_matrix (i * (k + 1)) x01) enc_matrix ;;
    enc_matrix <- loop_ne (N.to_nat n) (k * k) (n * k) k (fun row enc_matrix =>
      for_lt 0 k (fun col enc_matrix =>
        acc <- product_entry tmp_m k row col ;;
        vset enc_matrix (row + col) acc) enc_matrix) enc_matrix ;;
    Ok {| fec_k := k; fec_n := n; enc_matrix := enc_matrix |}.

(** [fec_code::encode(input, size, output)]; the pair of the pointer
    [input] and [size] is the list of the [size] bytes.  [&fec_buf[0]] is
    offset 0 of [fec_buf]: with [block_size = 0] the vector is empty and
    [addmul] receives its null data pointer. *)
Definition encode (self : fec_code) (input : list byte) : io unit :=
  let k := fec_k self in
  let n := fec_n self in
  let size := N.of_nat (length input) in
  if k =? 0 then lift Undefined
  else if negb (size mod k =? 0) then
    lift (Throw (invalid_argument "encode: input must be multiple of k bytes"))
  else
    let block_size := size / k in
    _ <~ io_for_ne 0 k (fun i (_ : unit) =>
           data <~ lift (vslice input (i * block_size) block_size) ;;
           output i n data block_size) tt ;;
    io_for_ne k n (fun i (_ : unit) =>
      let fec_buf := repeat x00 (N.to_nat block_size) in
      fec_buf <~ lift (for_ne 0 k (fun j fec_buf =>
                   c <- vget (enc_matrix self) (i * k + j) ;;
                   addmul fec_buf 0 (Buffer input) (Z.of_N (j * block_size))
                          c (int_of_size_t block_size)) fec_buf) ;;
      output i n fec_buf (N.of_nat (length fec_buf))) tt.

(** ** [decode]

    A [std::map<size_t, const byte*>] is the list of its entries in
    increasing order of the keys; an iterator is a position in that list
    (in the reversed list for a reverse iterator). *)

Definition share_map : Type := list (size_t * list byte).

Definition is_map (shares : share_map) : Prop :=
  StronglySorted N.lt (map fst shares).

Definition deref (shares : share_map) (it : nat) : result (size_t * list byte) :=
  match nth_error shares it with
  | Some e => Ok e
  | None => Undefined
  end.

(** [memcpy(&dst[off], data, length data)] *)
Definition vblit (dst : list byte) (off : size_t) (data : list byte) : result (list byte) :=
  if off + N.of_nat (length data) <=? N.of_nat (length dst) then
    Ok (firstn (N.to_nat off) dst ++ data
        ++ skipn (N.to_nat off + length data) dst)
  else Undefined.

Record selection : Type := {
  m_dec : list byte;
  indexes : list size_t;
  sharesv : list (list byte);
  shares_b_iter : nat;
  shares_e_iter : nat
}.

(** The second half of an iteration of the selection loop: the check of
    the identifier, the row of the decoding matrix and the bookkeeping. *)
Definition store_share (self : fec_code) (share_size : size_t) (i : size_t)
           (st : selection) (share_id : size_t) (share_data : list byte)
           (b_iter e_iter : nat) : io selection :=
  let k := fec_k self in
  let n := fec_n self in
  if n <=? share_id then
    lift (Throw (logic_error "Invalid share identifier detected during decode"))
  else
    m <~ (if share_id <? k then
            m <~ lift (vset (m_dec st) (i * (k + 1)) x01) ;;
            data <~ lift (vslice share_data 0 share_size) ;;
            _ <~ output share_id k data share_size ;;
            io_ret m
          else
            row <~ lift (vslice (enc_matrix self) (share_id * k) k) ;;
            lift (vblit (m_dec st) (i * k) row)) ;;
    sv <~ lift (vset (sharesv st) i share_data) ;;
    ix <~ lift (vset (indexes st) i share_id) ;;
    io_ret {| m_dec := m; indexes := ix; sharesv := sv;
              shares_b_iter := b_iter; shares_e_iter := e_iter |}.

(** One iteration of the loop that picks the share of position [i]:
    the share [i] itself if the forward iterator is at it, the unused one
    closest to [n] otherwise. *)
Definition select_share (self : fec_code) (shares : share_map) (share_size : size_t)
           (i : size_t) (st : selection) : io selection :=
  front <~ lift (deref shares (shares_b_iter st)) ;;
  if fst front =? i then
    store_share self share_size i st (fst front) (snd front)
                (S (shares_b_iter st)) (shares_e_iter st)
  else
    back <~ lift (deref (rev shares) (shares_e_iter st)) ;;
    store_share self share_size i st (fst back) (snd back)
                (shares_b_iter st) (S (shares_e_iter st)).

Definition select_shares (self : fec_code) (shares : share_map) (share_size : size_t)
  : io selection :=
  let kn := N.to_nat (fec_k self) in
  io_for_ne 0 (fec_k self) (select_share self shares share_size)
    {| m_dec := repeat x00 (kn * kn); indexes := repeat 0 kn;
       sharesv := repeat [] kn; shares_b_iter := O; shares_e_iter := O |}.

(** The loop after the inversion: the blocks whose share was missing.
    [&buf[0]] is offset 0 of [buf]: with [share_size = 0] the vector is
    empty and [addmul] receives its null data pointer. *)
Definition recover_blocks (self : fec_code) (share_size : size_t)
           (m_dec : list byte) (st : selection) : io unit :=
  let k := fec_k self in
  io_for_ne 0 (N.of_nat (length (indexes st))) (fun i (_ : unit) =>
    ix <~ lift (vget (indexes st) i) ;;
    if k <=? ix then
      let buf := repeat x00 (N.to_nat share_size) in
      buf <~ lift (for_lt 0 k (fun col buf =>
               src <- vget (sharesv st) col ;;
               c <- vget m_dec (i * k + col) ;;
               addmul buf 0 (Buffer src) 0 c (int_of_size_t share_size)) buf) ;;
      data <~ lift (vslice buf 0 share_size) ;;
      output i k data share_size
    else io_ret tt) tt.

Definition decode (self : fec_code) (shares : share_map) (share_size : size_t)
  : io unit :=
  let k := fec_k self in
  if N.of_nat (length shares) <? k then
    lift (Throw (logic_error "Could not decode, less than k surviving shares"))
  else
    st <~ select_shares self shares share_size ;;
    m <~ lift (invert_matrix (m_dec st) k) ;;
    recover_blocks self share_size m st.

(** * Specification-level notions *)

(** ** The field GF(2^8) as the tables define it *)

Definition gmul (a b : byte) : byte :=
  nth (Byte.to_nat b) (nth (Byte.to_nat a) GF_MUL_TABLE []) x00.

Definition ginv (a : byte) : byte := nth (Byte.to_nat a) GF_INVERSE x00.

Definition gexp (i : nat) : byte := nth i GF_EXP x00.

Definition glog (a : byte) : nat := Byte.to_nat (nth (Byte.to_nat a) GF_LOG x00).

Definition byte_of_nat (i : nat) : byte :=
  match Byte.of_nat i with
  | Some b => b
  | None => x00
  end.

Definition all_bytes : list byte := Eval vm_compute in map byte_of_nat (seq 0 256).

(** Multiplication written out along the bits of the right operand. *)
Definition pick (u : bool) (g : byte) : byte := if u then g else x00.

Definition gmul_bits (a b : byte) : byte :=
  let '(b0, (b1, (b2, (b3, (b4, (b5, (b6, b7))))))) := Byte.to_bits b in
  bxor (pick b0 (gmul a x01)) (bxor (pick b1 (gmul a x02))
  (bxor (pick b2 (gmul a x04)) (bxor (pick b3 (gmul a x08))
  (bxor (pick b4 (gmul a x10)) (bxor (pick b5 (gmul a x20))
  (bxor (pick b6 (gmul a x40)) (pick b7 (gmul a x80)))))))).

(** ** What [addmul] computes *)

Definition src_data (src : srcbuf) (buf : list byte) : list byte :=
  match src with
  | SameBuffer => buf
  | Buffer b => b
  end.

(** The buffer [buf] after [dst[j] ^= c * src[j]] for the first [m]
    indices [j], where [dst] starts at offset [d] of [buf] and [src] at
    offset [s] of [data]. *)
Definition addmul_result (buf : list byte) (d : nat) (data : list byte) (s : nat)
           (c : byte) (m : nat) : list byte :=
  map (fun j =>
         if Nat.leb d j && Nat.ltb j (d + m)
         then bxor (nth j buf x00) (gmul c (nth (s + (j - d)) data x00))
         else nth j buf x00)
      (seq 0 (length buf)).

(** ** Sums, powers and polynomials over the field *)

(** [gsum n f] is the sum of [f 0], ..., [f (n-1)]. *)
Fixpoint gsum (n : nat) (f : nat -> byte) : byte :=
  match n with
  | O => x00
  | S m => bxor (gsum m f) (f m)
  end.

Fixpoint gpow (x : byte) (n : nat) : byte :=
  match n with
  | O => x01
  | S m => gmul x (gpow x m)
  end.

(** The value at [x] of the polynomial with coefficients [cs], lowest
    degree first. *)
Fixpoint peval (cs : list byte) (x : byte) : byte :=
  match cs with
  | [] => x00
  | c :: cs' => bxor c (gmul x (peval cs' x))
  end.

(** The quotient of the polynomial [cs] by [X - p] (synthetic division). *)
Fixpoint quot (p : byte) (cs : list byte) : list byte :=
  match cs with
  | [] => []
  | _ :: cs' =>
      match cs' with
      | [] => []
      | _ => peval cs' p :: quot p cs'
      end
  end.

(** The product of [X - p] and the polynomial [cs]. *)
Fixpoint mul_linear (p : byte) (cs : list byte) : list byte :=
  match cs with
  | [] => []
  | c :: cs' =>
      gmul p c :: match cs' with
                  | [] => [c]
                  | c' :: _ =>
                      match mul_linear p cs' with
                      | [] => []
                      | m :: ms => bxor c m :: ms
                      end
                  end
  end.

(** The sample point of row [r] of the encoding matrix: 0 for the first
    row, [alpha^r] for the others. *)
Definition point (r : nat) : byte :=
  match r with
  | O => x00
  | _ => gexp r
  end.

(** The polynomial with roots [rs] and leading coefficient 1. *)
Fixpoint roots_poly (rs : list byte) : list byte :=
  match rs with
  | [] => [x01]
  | r :: rs' => mul_linear r (roots_poly rs')
  end.

(** ** The matrices of the code *)

(** The polynomial whose roots are the first [k] sample points. *)
Definition vdm_poly (k : nat) : list byte :=
  roots_poly (rev (map point (seq 0 k))).

(** Entry [(i, l)] of the inverse of the [k]x[k] Vandermonde matrix:
    the coefficient of degree [i] of the polynomial that is 1 at point
    [l] and 0 at the other points. *)
Definition vdm_entry (k i l : nat) : byte :=
  let b := quot (point l) (vdm_poly k) in
  gmul (ginv (peval b (point l))) (nth i b x00).

(** Entry [(r, l)] of the encoding matrix. *)
Definition enc_entry (k r l : nat) : byte :=
  if Nat.ltb r k then (if Nat.eqb r l then x01 else x00)
  else gsum k (fun i => gmul (gpow (point r) i) (vdm_entry k i l)).

(** Entry [(i, j)] of a [k]x[k] or [n]x[k] matrix stored row by row. *)
Definition mat (k : nat) (m : list byte) (i j : nat) : byte :=
  nth (i * k + j) m x00.

(** A configuration as the constructor builds it. *)
Definition valid_code (self : fec_code) : Prop :=
  1 <= fec_k self /\ fec_k self <= fec_n self /\ fec_n self <= 256 /\
  length (enc_matrix self) = (N.to_nat (fec_n self) * N.to_nat (fec_k self))%nat /\
  forall r l, (r < N.to_nat (fec_n self))%nat -> (l < N.to_nat (fec_k self))%nat ->
    mat (N.to_nat (fec_k self)) (enc_matrix self) r l
    = enc_entry (N.to_nat (fec_k self)) r l.

(** ** Gauss-Jordan elimination *)

(** The matrix after the elimination step on the pivot [(c, c)]: the
    pivot row is scaled by the inverse of the pivot, whose place takes
    that inverse, and a multiple of it is added to each other row. *)
Definition pivot_step (B : nat -> nat -> byte) (c : nat) : nat -> nat -> byte :=
  fun i j =>
    let piv := ginv (B c c) in
    let row j := if Nat.eqb j c then piv else gmul piv (B c j) in
    if Nat.eqb i c then row j
    else if Nat.eqb j c then gmul (B i c) piv
         else bxor (B i j) (gmul (B i c) (row j)).

(** The product of the [k]x[k] matrix [A] and the vector [x]. *)
Definition mulv (k : nat) (A : nat -> nat -> byte) (x : nat -> byte) : nat -> byte :=
  fun i => gsum k (fun l => gmul (A i l) (x l)).

(** After the pivots [0 .. c) the matrix [B] exchanges, in [y = A x],
    the first [c] components of [x] and [y]. *)
Definition exchanged (k : nat) (A B : nat -> nat -> byte) (c : nat) : Prop :=
  forall x i, (i < k)%nat ->
    (if Nat.ltb i c then x i else mulv k A x i)
    = gsum k (fun j => gmul (B i j) (if Nat.ltb j c then mulv k A x j else x j)).

(** Row [c] of [A] is independent of the rows before it and of the
    unit vectors after it. *)
Definition independent (k : nat) (A : nat -> nat -> byte) (c : nat) : Prop :=
  exists x, (forall j, (c < j < k)%nat -> x j = x00) /\
            (forall j, (j < c)%nat -> mulv k A x j = x00) /\
            mulv k A x c <> x00.

(** ** The selection of shares in [decode] *)

(** The share taken for position [i], with the iterators after it. *)
Definition pick_share (shares : share_map) (i : size_t) (st : selection)
  : (size_t * list byte) * nat * nat :=
  let front := nth (shares_b_iter st) shares (0, []) in
  if fst front =? i then (front, S (shares_b_iter st), shares_e_iter st)
  else (nth (shares_e_iter st) (rev shares) (0, []),
        shares_b_iter st, S (shares_e_iter st)).

(** The state after position [i] received the share [sh]. *)
Definition place_share (self : fec_code) (i : size_t) (sh : size_t * list byte)
           (b e : nat) (st : selection) : selection :=
  let k := fec_k self in
  {| m_dec :=
       if fst sh <? k then upd (m_dec st) (N.to_nat (i * (k + 1))) x01
       else firstn (N.to_nat (i * k)) (m_dec st)
            ++ firstn (N.to_nat k) (skipn (N.to_nat (fst sh * k)) (enc_matrix self))
            ++ skipn (N.to_nat (i * k) + N.to_nat k) (m_dec st);
     indexes := upd (indexes st) (N.to_nat i) (fst sh);
     sharesv := upd (sharesv st) (N.to_nat i) (snd sh);
     shares_b_iter := b;
     shares_e_iter := e |}.

(** The selection loop as a function: the state and the trace after the
    first [i] positions, when none of them fails. *)
Fixpoint selected (self : fec_code) (shares : share_map) (share_size : size_t)
         (i : nat) : selection * list emission :=
  match i with
  | O => ({| m_dec := repeat x00 (N.to_nat (fec_k self) * N.to_nat (fec_k self));
             indexes := repeat 0 (N.to_nat (fec_k self));
             sharesv := repeat [] (N.to_nat (fec_k self));
             shares_b_iter := O; shares_e_iter := O |}, [])
  | S j =>
      let '(st, tr) := selected self shares share_size j in
      let '(sh, b, e) := pick_share shares (N.of_nat j) st in
      (place_share self (N.of_nat j) sh b e st,
       if fst sh <? fec_k self
       then tr ++ [Emit (fst sh) (fec_k self)
                        (firstn (N.to_nat share_size) (snd sh)) share_size]
       else tr)
  end.

(** The share that position [i] receives. *)
Definition share_at (self : fec_code) (shares : share_map) (share_size : size_t)
           (i : nat) : size_t * list byte :=
  fst (fst (pick_share shares (N.of_nat i) (fst (selected self shares share_size i)))).

(** The invocation of the callback in the selection loop for position
    [i]: one if the share is a primary block, none otherwise. *)
Definition passed_through (self : fec_code) (shares : share_map) (share_size : size_t)
           (i : nat) : list emission :=
  let sh := share_at self shares share_size i in
  if fst sh <? fec_k self
  then [Emit (fst sh) (fec_k self) (firstn (N.to_nat share_size) (snd sh)) share_size]
  else [].

(** ** The rule of the specification

    The pool holds the supplied shares that the rule has not consumed
    yet.  Position [i] takes the share of the smallest index in the pool
    if that index is [i], the share of the largest index in the pool
    otherwise. *)

Fixpoint smallest (sh : size_t * list byte) (pool : share_map) : size_t * list byte :=
  match pool with
  | [] => sh
  | x :: rest => smallest (if fst x <? fst sh then x else sh) rest
  end.

Fixpoint largest (sh : size_t * list byte) (pool : share_map) : size_t * list byte :=
  match pool with
  | [] => sh
  | x :: rest => largest (if fst sh <? fst x then x else sh) rest
  end.

Definition consume (sh : size_t * list byte) (pool : share_map) : share_map :=
  filter (fun x => negb (fst x =? fst sh)) pool.

Definition rule_step (i : nat) (acc : list (size_t * list byte) * share_map)
  : list (size_t * list byte) * share_map :=
  let '(taken, pool) := acc in
  match pool with
  | [] => acc
  | x :: rest =>
      let lo := smallest x rest in
      let sh := if fst lo =? N.of_nat i then lo else largest x rest in
      (taken ++ [sh], consume sh pool)
  end.

Definition selection_rule (k : nat) (shares : share_map) : list (size_t * list byte) :=
  fst (fold_left (fun acc i => rule_step i acc) (seq 0 k) ([], shares)).

(** ** What [encode] emits *)

(** Block [i] of the input cut into blocks of [bs] bytes. *)
Definition block (bs : nat) (input : list byte) (i : nat) : list byte :=
  firstn bs (skipn (i * bs) input).

(** Share [r] of the input: byte [t] is the combination of the bytes [t]
    of the [k] blocks with the coefficients of row [r] of the encoding
    matrix. *)
Definition combination (k bs : nat) (input : list byte) (r : nat) : list byte :=
  map (fun t => gsum k (fun j => gmul (enc_entry k r j) (nth (j * bs + t) input x00)))
      (seq 0 bs).

Definition share_data (k bs : nat) (input : list byte) (r : nat) : list byte :=
  if Nat.ltb r k then block bs input r else combination k bs input r.

Definition encoded (self : fec_code) (input : list byte) : list emission :=
  let k := N.to_nat (fec_k self) in
  let bs := (length input / k)%nat in
  map (fun i => Emit (N.of_nat i) (fec_n self) (share_data k bs input i) (N.of_nat bs))
      (seq 0 (N.to_nat (fec_n self))).

(** ** What [decode] emits *)

(** Whether the primary share of position [i] is among the shares. *)
Definition supplied (shares : share_map) (i : nat) : bool :=
  existsb (N.eqb (N.of_nat i)) (map fst shares).

(** The blocks passed through first, in the order of the positions, then
    the recovered blocks, in the order of the positions. *)
Definition decoded (self : fec_code) (shares : share_map) (bs : nat)
           (input : list byte) : list emission :=
  let k := N.to_nat (fec_k self) in
  let emit i := Emit (N.of_nat i) (fec_k self) (block bs input i) (N.of_nat bs) in
  map emit (filter (supplied shares) (seq 0 k))
  ++ map emit (filter (fun i => negb (supplied shares i)) (seq 0 k)).

(** The shares are shares of [input], each under its index. *)
Definition shares_of (self : fec_code) (bs : nat) (input : list byte)
           (shares : share_map) : Prop :=
  forall id data, In (id, data) shares ->
    id < fec_n self /\ data = share_data (N.to_nat (fec_k self)) bs input (N.to_nat id).

(** ** The caller's side of a round trip *)

(** A callback that stores a block at the place of its index:
    [memcpy(&buf[index * length], data, length)]. *)
Definition place (buf : list byte) (e : emission) : list byte :=
  let at_ := (N.to_nat (em_index e) * N.to_nat (em_length e))%nat in
  firstn at_ buf ++ em_data e ++ skipn (at_ + length (em_data e)) buf.

(** The buffer of [size] bytes after the invocations [tr]. *)
Definition reassemble (size : nat) (tr : list emission) : list byte :=
  fold_left place tr (repeat x00 size).

(** The shares of the positions [idxs] of the trace of [encode], each
    with the index it was emitted with. *)
Definition shares_from (emitted : list emission) (idxs : list nat) : share_map :=
  map (fun i => let e := nth i emitted (Emit 0 0 [] 0) in (em_index e, em_data e)) idxs.

(** An input of one block of [2^32] bytes. *)
Definition wide_input : list byte := repeat x01 (N.to_nat 4294967296).

(** * Auxiliary definitions *)

(** ** Outcomes of calls *)

(** [m] returns a value that satisfies [P]. *)
Definition returns {A} (m : result A) (P : A -> Prop) : Prop :=
  exists a, m = Ok a /\ P a.

(** [m], started with the trace [tr], returns a value and a trace that
    satisfy [P]. *)
Definition io_returns {A} (m : io A) (tr : list emission)
           (P : A -> list emission -> Prop) : Prop :=
  exists a tr', m tr = (tr', Ok a) /\ P a tr'.

(** After [m], started with the trace [tr]: [Q] if it returns, [F] of the
    trace if it does not. *)
Definition io_yields {A} (m : io A) (tr : list emission)
           (Q : A -> list emission -> Prop) (F : list emission -> Prop) : Prop :=
  match m tr with
  | (tr', Ok a) => Q a tr'
  | (tr', _) => F tr'
  end.

(** ** Bitwise XOR on the bits of two bytes *)

Definition xor8 (x y : bool * (bool * (bool * (bool * (bool * (bool * (bool * bool)))))))
  : bool * (bool * (bool * (bool * (bool * (bool * (bool * bool)))))) :=
  let '(a0, (a1, (a2, (a3, (a4, (a5, (a6, a7))))))) := x in
  let '(b0, (b1, (b2, (b3, (b4, (b5, (b6, b7))))))) := y in
  (xorb a0 b0, (xorb a1 b1, (xorb a2 b2, (xorb a3 b3,
  (xorb a4 b4, (xorb a5 b5, (xorb a6 b6, xorb a7 b7))))))).

(** The ring structure, for the [ring] tactic; the opposite of an
    element is the element itself. *)
Definition gopp (a : byte) : byte := a.
Definition gsub (a b : byte) : byte := bxor a b.

(** A list of bytes without repetition, decided. *)
Fixpoint nodupb (l : list byte) : bool :=
  match l with
  | [] => true
  | x :: t => negb (existsb (Byte.eqb x) t) && nodupb t
  end.

(** ** Invariants of loops *)

(** The coefficients of the polynomial, as the first loop of
    [create_inverted_vdm] leaves them in [c] after [i] factors. *)
Definition coeffs_inv (kn i : nat) (c : list byte) : Prop :=
  length c = kn /\
  forall m, (m < kn)%nat ->
    nth m c x00 = if Nat.ltb m (kn - i) then x00
                  else nth (m - (kn - i)) (vdm_poly i) x00.

(** The columns of the inverse that the second loop has written, in a
    buffer of [L] bytes. *)
Definition rows_inv (kn L row : nat) (st : list byte * list byte) : Prop :=
  length (fst st) = L /\ length (snd st) = kn /\
  forall col r, (col < kn)%nat -> (r < row)%nat ->
    nth (col * kn + r) (fst st) x00 = vdm_entry kn col r.

(** The state of the elimination before column [c], all the pivots
    so far having been found on the diagonal. *)
Definition gj_ok (kn c : nat) (B : nat -> nat -> byte) (st : gauss_jordan) : Prop :=
  length (gj_src st) = (kn * kn)%nat /\
  (forall i j, (i < kn)%nat -> (j < kn)%nat -> mat kn (gj_src st) i j = B i j) /\
  length (gj_indxr st) = kn /\ length (gj_indxc st) = kn /\
  (forall j, (j < c)%nat -> nth j (gj_indxr st) 0%Z = nth j (gj_indxc st) 0%Z) /\
  gj_id_row st = repeat x00 kn /\
  length (gj_ipiv st) = kn /\
  (forall j, (j < kn)%nat -> nth j (gj_ipiv st) false = Nat.ltb j c).

(** The part of the state of the selection loop of [decode] that does
    not depend on the shares, before position [i]. *)
Definition shape (self : fec_code) (i : nat) (st : selection) : Prop :=
  let k := fec_k self in
  let kn := N.to_nat k in
  length (m_dec st) = (kn * kn)%nat /\
  length (indexes st) = kn /\
  length (sharesv st) = kn /\
  (shares_b_iter st + shares_e_iter st = i)%nat.

(** The outcome of one iteration. *)
Inductive step_outcome : Type :=
| StepOk
| StepInvalid      (* the share identifier is not below n *)
| StepShort.       (* the buffer of the share is shorter than share_size *)

(** The outcome of the iteration for position [i] in the state [st]. *)
Definition step_result (self : fec_code) (shares : share_map) (share_size : size_t)
           (i : nat) (st : selection) : step_outcome :=
  let k := fec_k self in
  let n := fec_n self in
  let '(sh, _, _) := pick_share shares (N.of_nat i) st in
  if n <=? fst sh then StepInvalid
  else if (fst sh <? k) && (N.of_nat (length (snd sh)) <? share_size) then StepShort
  else StepOk.

(** No failure before position [i]. *)
Definition all_ok (self : fec_code) (shares : share_map) (share_size : size_t)
           (i : nat) : Prop :=
  forall j, (j < i)%nat ->
    step_result self shares share_size j (fst (selected self shares share_size j)) = StepOk.

(** What the loop makes of an iteration that does not succeed. *)
Definition failure (o : step_outcome) : result selection :=
  match o with
  | StepInvalid => Throw (logic_error "Invalid share identifier detected during decode")
  | _ => Undefined
  end.

(** ** Sample configurations *)

Definition no_code : fec_code := {| fec_k := 0; fec_n := 0; enc_matrix := [] |}.

(** The configuration that [fec_code(3, 5)] constructs. *)
Definition code_3_5 : fec_code :=
  Eval vm_compute in match fec_code_ctor 3 5 with Ok c => c | _ => no_code end.

(** The configuration that [fec_code(1, 2)] constructs: both rows of the
    encoding matrix are [1], the second share is a copy of the input. *)
Definition code_1_2 : fec_code :=
  Eval vm_compute in match fec_code_ctor 1 2 with Ok c => c | _ => no_code end.

(** * More of [fecpp.cpp] *)

(** [addmul_k(dst, srcs, cs, size, k)]: [dst] is a pointer as in
    [addmul]; [srcs] is the array of the source pointers, each the buffer
    it points into ([dst]'s own or another one) and its offset; [cs] is
    the array of the coefficients, a buffer of its own. *)
Definition addmul_k (buf : list byte) (dst : Z) (srcs : list (srcbuf * Z))
           (cs : list byte) (size k : size_t) : result (list byte) :=
  for_ne 0 k (fun i buf =>
    c <- vget cs i ;;
    if Byte.eqb c x00 then Ok buf
    else
      mul_c <- vget GF_MUL_TABLE (Byte.to_N c) ;;
      '(src, srcp) <- vget srcs i ;;
      for_ne 0 size (fun j buf => xor_mul mul_c src dst srcp (Z.of_N j) buf) buf) buf.

(** The calls [addmul(dst, srcs[i], cs[i], size)] for [i = 0, ..., k-1],
    one after the other. *)
Fixpoint addmul_each (buf : list byte) (dst : Z) (srcs : list (srcbuf * Z))
         (cs : list byte) (sz : Z) : result (list byte) :=
  match srcs, cs with
  | (src, srcp) :: srcs', c :: cs' =>
      buf <- addmul buf dst src srcp c sz ;;
      addmul_each buf dst srcs' cs' sz
  | _, _ => Ok buf
  end.

(** The XOR of two buffers, byte by byte. *)
Definition xor_bytes (a b : list byte) : list byte :=
  map (fun p => bxor (fst p) (snd p)) (combine a b).

(** The configuration that [fec_code(3, 4)] constructs. *)
Definition code_3_4 : fec_code :=
  Eval vm_compute in match fec_code_ctor 3 4 with Ok c => c | _ => no_code end.

(** ** Interpolation at given points *)

(** The sum of two polynomials. *)
Fixpoint padd (a b : list byte) : list byte :=
  match a, b with
  | [], _ => b
  | _, [] => a
  | x :: a', y :: b' => bxor x y :: padd a' b'
  end.

(** The polynomial of degree less than [length ps] with the values [ys]
    at the points [ps] (Newton's form, from the last point on). *)
Fixpoint interpolate (ps ys : list byte) : list byte :=
  match ps, ys with
  | p :: ps', y :: ys' =>
      let g := interpolate ps' ys' in
      let r := roots_poly ps' in
      padd g (map (gmul (gmul (bxor y (peval g p)) (ginv (peval r p)))) r)
  | _, _ => []
  end.

(** The input of [k] blocks of [bs] bytes whose bytes [t] are the values,
    at the first [k] points, of the polynomial that at the point of each
    share's index has the byte [t] of that share. *)
Definition interpolated_input (k bs : nat) (shares : share_map) : list byte :=
  map (fun p =>
         peval (interpolate (map (fun sh => point (N.to_nat (fst sh))) shares)
                            (map (fun sh => nth (p mod bs) (snd sh) x00) shares))
               (point (p / bs)))
      (seq 0 (k * bs)).

(** * Reasoning about the embedding *)

(** ** Buffers *)

Section BufferFacts.
Variable A : Type.
Implicit Types (l v : list A) (x d : A).

Lemma upd_length l i x : length (upd l i x) = length l.
Proof. revert i; induction l; intros [|i]; simpl; auto. Qed.

Lemma nth_upd_eq l i x d : (i < length l)%nat -> nth i (upd l i x) d = x.
Proof.
  revert i; induction l; intros [|i] H; simpl in *; try lia; auto.
  apply IHl; lia.
Qed.

Lemma nth_upd_neq l i j x d : i <> j -> nth j (upd l i x) d = nth j l d.
Proof.
  revert i j; induction l; intros [|i] [|j] H; simpl; auto; try congruence.
Qed.

Lemma nth_upd l i j x d :
  nth j (upd l i x) d = if Nat.eqb i j && Nat.ltb i (length l) then x else nth j l d.
Proof.
  destruct (Nat.eqb_spec i j) as [->|Hne]; simpl.
  - destruct (Nat.ltb_spec j (length l)).
    + now apply nth_upd_eq.
    + rewrite !nth_overflow; auto; rewrite ?upd_length; lia.
  - now apply nth_upd_neq.
Qed.

Lemma upd_same l i d : upd l i (nth i l d) = l.
Proof.
  revert i; induction l; intros [|i]; simpl; auto. now rewrite IHl.
Qed.

Lemma vget_ok v i d :
  i < N.of_nat (length v) -> vget v i = Ok (nth (N.to_nat i) v d).
Proof.
  intros H. unfold vget.
  destruct (N.ltb_spec i (N.of_nat (length v))); [|lia].
  destruct (nth_error v (N.to_nat i)) eqn:E.
  - now rewrite (nth_error_nth _ _ d E).
  - apply nth_error_None in E. lia.
Qed.

Lemma vget_undefined v i : N.of_nat (length v) <= i -> vget v i = Undefined.
Proof.
  intros H. unfold vget.
  destruct (N.ltb_spec i (N.of_nat (length v))); [lia|reflexivity].
Qed.

Lemma vset_ok v i x :
  i < N.of_nat (length v) -> vset v i x = Ok (upd v (N.to_nat i) x).
Proof.
  intros H. unfold vset.
  destruct (N.ltb_spec i (N.of_nat (length v))); [reflexivity|lia].
Qed.

Lemma vset_undefined v i x : N.of_nat (length v) <= i -> vset v i x = Undefined.
Proof.
  intros H. unfold vset.
  destruct (N.ltb_spec i (N.of_nat (length v))); [lia|reflexivity].
Qed.

Lemma pget_ok v p d :
  (0 <= p < Z.of_nat (length v))%Z -> pget v p = Ok (nth (Z.to_nat p) v d).
Proof.
  intros H. unfold pget.
  destruct (Z.ltb_spec p 0); [lia|].
  rewrite (@vget_ok v (Z.to_N p) d) by lia.
  now rewrite Z_N_nat.
Qed.

Lemma pset_ok v p x :
  (0 <= p < Z.of_nat (length v))%Z -> pset v p x = Ok (upd v (Z.to_nat p) x).
Proof.
  intros H. unfold pset.
  destruct (Z.ltb_spec p 0); [lia|].
  rewrite vset_ok by lia.
  now rewrite Z_N_nat.
Qed.

Lemma vslice_ok v off len :
  off + len <= N.of_nat (length v) ->
  vslice v off len = Ok (firstn (N.to_nat len) (skipn (N.to_nat off) v)).
Proof.
  intros H. unfold vslice.
  destruct (N.leb_spec (off + len) (N.of_nat (length v))); [reflexivity|lia].
Qed.

Lemma nth_slice v off len j d :
  (j < len)%nat ->
  nth j (firstn len (skipn off v)) d = nth (off + j) v d.
Proof.
  intros H. rewrite nth_firstn.
  destruct (Nat.ltb_spec j len); [|lia].
  now rewrite nth_skipn.
Qed.

Lemma length_slice v off len :
  (off + len <= length v)%nat -> length (firstn len (skipn off v)) = len.
Proof. intros H. rewrite length_firstn, length_skipn. lia. Qed.

Lemma nth_map_seq (f : nat -> A) n : forall a j d,
  (j < n)%nat -> nth j (map f (seq a n)) d = f (a + j)%nat.
Proof.
  induction n as [|n IH]; intros a [|j] d H; simpl; try lia.
  - now rewrite Nat.add_0_r.
  - rewrite IH by lia. f_equal. lia.
Qed.

Lemma list_ext_nth l1 l2 d :
  length l1 = length l2 ->
  (forall i, (i < length l1)%nat -> nth i l1 d = nth i l2 d) -> l1 = l2.
Proof.
  intros Hl H. apply (nth_ext l1 l2 d d); auto.
Qed.
End BufferFacts.

(** ** Outcomes *)

Lemma returns_ok A (a : A) (P : A -> Prop) : P a -> returns (Ok a) P.
Proof. intros H; exists a; auto. Qed.

Lemma returns_bind A B (m : result A) (f : A -> result B) P Q :
  returns m P -> (forall a, P a -> returns (f a) Q) -> returns (bind m f) Q.
Proof.
  intros (a & -> & Ha) H. simpl. auto.
Qed.

Lemma returns_weaken A (m : result A) (P Q : A -> Prop) :
  returns m P -> (forall a, P a -> Q a) -> returns m Q.
Proof. intros (a & -> & Ha) H. exists a; auto. Qed.

Lemma returns_eq A (m : result A) a : m = Ok a -> returns m (fun x => x = a).
Proof. intros ->. now exists a. Qed.

Lemma returns_inv A (m : result A) a P : m = Ok a -> returns m P -> P a.
Proof. intros -> (b & [= ->] & H). exact H. Qed.

(** ** Loops: invariants *)

Lemma size_add_small a b : a + b < SIZE_WIDTH -> size_add a b = a + b.
Proof. intros H. unfold size_add. now apply N.mod_small. Qed.

Lemma size_sub_small a b : b <= a -> a < SIZE_WIDTH -> size_sub a b = a - b.
Proof.
  intros H1 H2. unfold size_sub.
  replace (a + SIZE_WIDTH - b) with ((a - b) + 1 * SIZE_WIDTH) by lia.
  rewrite N.Div0.mod_add. apply N.mod_small. lia.
Qed.

Lemma SIZE_WIDTH_eq : SIZE_WIDTH = 18446744073709551616.
Proof. reflexivity. Qed.

Section LoopRules.
Variable S : Type.
Implicit Types (body : size_t -> S -> result S) (I : size_t -> S -> Prop).

Lemma loop_ne_step_inv I body step fuel : forall cnt lo hi s,
  0 < step -> hi = lo + N.of_nat cnt * step -> hi < SIZE_WIDTH ->
  (cnt <= fuel)%nat ->
  I lo s ->
  (forall i s, lo <= i < hi -> (exists j, i = lo + j * step) -> I i s ->
               returns (body i s) (I (i + step))) ->
  returns (loop_ne fuel lo hi step body s) (I hi).
Proof.
  induction fuel as [|fuel IH]; intros cnt lo hi s Hstep Hhi Hw Hf H0 Hbody.
  - assert (cnt = 0%nat) by lia. subst cnt. simpl in Hhi.
    rewrite N.add_0_r in Hhi. subst hi. simpl. rewrite N.eqb_refl.
    now apply returns_ok.
  - simpl. destruct (N.eqb_spec lo hi) as [->|Hne].
    + now apply returns_ok.
    + destruct cnt as [|cnt]; [simpl in Hhi; lia|].
      eapply returns_bind.
      * apply Hbody; auto. { nia. } exists 0. lia.
      * intros s' Hs'. rewrite size_add_small by nia.
        apply (IH cnt); auto; try lia; try nia.
        intros i s0 Hi (j & Hj) Hs0. apply Hbody; auto. { nia. }
        exists (j + 1). nia.
Qed.

Lemma for_ne_inv I body lo hi s :
  lo <= hi -> hi < SIZE_WIDTH ->
  I lo s ->
  (forall i s, lo <= i < hi -> I i s -> returns (body i s) (I (i + 1))) ->
  returns (for_ne lo hi body s) (I hi).
Proof.
  intros Hle Hw H0 Hbody. unfold for_ne.
  apply loop_ne_step_inv with (cnt := N.to_nat (hi - lo)); auto; try lia.
  rewrite size_sub_small by lia. lia.
Qed.

Lemma loop_lt_inv I body fuel : forall lo hi s,
  lo <= hi -> hi < SIZE_WIDTH -> (N.to_nat (hi - lo) <= fuel)%nat ->
  I lo s ->
  (forall i s, lo <= i < hi -> I i s -> returns (body i s) (I (i + 1))) ->
  returns (loop_lt fuel lo hi body s) (I hi).
Proof.
  induction fuel as [|fuel IH]; intros lo hi s Hle Hw Hf H0 Hbody.
  - assert (lo = hi) by lia. subst. simpl. rewrite N.ltb_irrefl.
    now apply returns_ok.
  - simpl. destruct (N.ltb_spec lo hi) as [Hlt|Hge].
    + eapply returns_bind.
      * apply Hbody; auto. lia.
      * intros s' Hs'. rewrite size_add_small by lia.
        apply IH; auto; try lia.
        intros i s0 Hi Hs0. apply Hbody; auto. lia.
    + assert (lo = hi) by lia. subst. now apply returns_ok.
Qed.

Lemma for_lt_inv I body lo hi s :
  lo <= hi -> hi < SIZE_WIDTH ->
  I lo s ->
  (forall i s, lo <= i < hi -> I i s -> returns (body i s) (I (i + 1))) ->
  returns (for_lt lo hi body s) (I hi).
Proof.
  intros. unfold for_lt. apply loop_lt_inv; auto.
Qed.

(** A loop whose range is empty does not run. *)
Lemma for_lt_empty body lo hi s : hi <= lo -> for_lt lo hi body s = Ok s.
Proof.
  intros H. unfold for_lt. replace (hi - lo) with 0 by lia. simpl.
  destruct (N.ltb_spec lo hi); [lia|reflexivity].
Qed.

Lemma loop_down_inv (I : Z -> S -> Prop) (body : Z -> S -> result S) fuel :
  forall hi s,
  (-1 <= hi)%Z -> (Z.to_nat (hi + 1) <= fuel)%nat ->
  I hi s ->
  (forall i s, (0 <= i <= hi)%Z -> I i s -> returns (body i s) (I (i - 1)%Z)) ->
  returns (loop_down fuel hi body s) (I (-1)%Z).
Proof.
  induction fuel as [|fuel IH]; intros hi s Hhi Hf H0 Hbody.
  - assert (hi = (-1)%Z) by lia. subst. simpl. now apply returns_ok.
  - simpl. destruct (Z.leb_spec 0 hi) as [Hle|Hlt].
    + eapply returns_bind.
      * apply Hbody; auto. lia.
      * intros s' Hs'. apply IH; auto; try lia.
        intros i s0 Hi Hs0. apply Hbody; auto. lia.
    + assert (hi = (-1)%Z) by lia. subst. now apply returns_ok.
Qed.

Lemma for_down_inv (I : Z -> S -> Prop) (body : Z -> S -> result S) hi s :
  (-1 <= hi)%Z ->
  I hi s ->
  (forall i s, (0 <= i <= hi)%Z -> I i s -> returns (body i s) (I (i - 1)%Z)) ->
  returns (for_down hi body s) (I (-1)%Z).
Proof.
  intros. unfold for_down. apply loop_down_inv; auto.
Qed.
End LoopRules.

(** ** Calls with a callback *)

Lemma io_returns_ret A (a : A) tr (P : A -> list emission -> Prop) :
  P a tr -> io_returns (io_ret a) tr P.
Proof. intros H. exists a, tr. auto. Qed.

Lemma io_returns_bind A B (m : io A) (f : A -> io B) tr P Q :
  io_returns m tr P ->
  (forall a tr', P a tr' -> io_returns (f a) tr' Q) ->
  io_returns (io_bind m f) tr Q.
Proof.
  intros (a & tr' & Hm & Ha) H.
  destruct (H a tr' Ha) as (b & tr'' & Hf & Hb).
  exists b, tr''. split; auto. unfold io_bind. now rewrite Hm.
Qed.

Lemma io_returns_lift A (m : result A) tr (P : A -> Prop) (Q : A -> list emission -> Prop) :
  returns m P -> (forall a, P a -> Q a tr) -> io_returns (lift m) tr Q.
Proof.
  intros (a & -> & Ha) H. exists a, tr. split; auto.
Qed.

Lemma io_returns_output i t d l tr (P : unit -> list emission -> Prop) :
  P tt (tr ++ [Emit i t d l]) -> io_returns (output i t d l) tr P.
Proof. intros H. exists tt, (tr ++ [Emit i t d l]). auto. Qed.

Lemma io_returns_weaken A (m : io A) tr (P Q : A -> list emission -> Prop) :
  io_returns m tr P -> (forall a tr', P a tr' -> Q a tr') -> io_returns m tr Q.
Proof. intros (a & tr' & Hm & Ha) H. exists a, tr'. auto. Qed.

Section IoLoopRules.
Variable S : Type.

Lemma io_loop_ne_inv (I : size_t -> S -> list emission -> Prop)
      (body : size_t -> S -> io S) fuel : forall lo hi s tr,
  lo <= hi -> hi < SIZE_WIDTH -> (N.to_nat (hi - lo) <= fuel)%nat ->
  I lo s tr ->
  (forall i s tr, lo <= i < hi -> I i s tr -> io_returns (body i s) tr (I (i + 1))) ->
  io_returns (io_loop_ne fuel lo hi body s) tr (I hi).
Proof.
  induction fuel as [|fuel IH]; intros lo hi s tr Hle Hw Hf H0 Hbody.
  - assert (lo = hi) by lia. subst. simpl. rewrite N.eqb_refl.
    now apply io_returns_ret.
  - simpl. destruct (N.eqb_spec lo hi) as [->|Hne].
    + now apply io_returns_ret.
    + eapply io_returns_bind.
      * apply Hbody; auto. lia.
      * intros s' tr' Hs'. rewrite size_add_small by lia.
        apply IH; auto; try lia.
        intros i s0 tr0 Hi Hs0. apply Hbody; auto. lia.
Qed.

Lemma io_for_ne_inv (I : size_t -> S -> list emission -> Prop)
      (body : size_t -> S -> io S) lo hi s tr :
  lo <= hi -> hi < SIZE_WIDTH ->
  I lo s tr ->
  (forall i s tr, lo <= i < hi -> I i s tr -> io_returns (body i s) tr (I (i + 1))) ->
  io_returns (io_for_ne lo hi body s) tr (I hi).
Proof.
  intros Hle Hw H0 Hbody. unfold io_for_ne.
  apply io_loop_ne_inv; auto.
  rewrite size_sub_small by lia. lia.
Qed.
End IoLoopRules.

(** * The field *)

(** ** Checking a property on all bytes *)

Lemma all_bytes_nth (a : byte) : nth (Byte.to_nat a) all_bytes x00 = a.
Proof. destruct a; reflexivity. Qed.

Lemma all_bytes_In (a : byte) : In a all_bytes.
Proof.
  rewrite <- (all_bytes_nth a). apply nth_In.
  pose proof (Byte.to_nat_bounded a). change (length all_bytes) with 256%nat. lia.
Qed.

Lemma byte_forall (P : byte -> bool) :
  forallb P all_bytes = true -> forall a, P a = true.
Proof.
  intros H a. rewrite forallb_forall in H. apply H, all_bytes_In.
Qed.

Lemma byte_forall2 (P : byte -> byte -> bool) :
  forallb (fun a => forallb (P a) all_bytes) all_bytes = true ->
  forall a b, P a b = true.
Proof.
  intros H a b.
  apply (byte_forall (P a)). apply (byte_forall _ H).
Qed.

Lemma byte_eqb_eq a b : Byte.eqb a b = true <-> a = b.
Proof. split; [apply Byte.byte_dec_bl | apply Byte.byte_dec_lb]. Qed.

Lemma byte_eqb_neq a b : Byte.eqb a b = false <-> a <> b.
Proof.
  split.
  - apply Byte.eqb_false.
  - intros H. destruct (Byte.eqb a b) eqn:E; auto.
    apply byte_eqb_eq in E. contradiction.
Qed.

Lemma to_N_to_nat a : N.to_nat (Byte.to_N a) = Byte.to_nat a.
Proof. now rewrite Byte.to_nat_via_N. Qed.

Lemma to_N_lt a : Byte.to_N a < 256.
Proof. pose proof (Byte.to_N_bounded a). lia. Qed.

Lemma to_nat_lt a : (Byte.to_nat a < 256)%nat.
Proof. pose proof (Byte.to_nat_bounded a). lia. Qed.

(** ** Addition *)

Lemma to_bits_bxor a b : Byte.to_bits (bxor a b) = xor8 (Byte.to_bits a) (Byte.to_bits b).
Proof.
  unfold bxor, xor8.
  destruct (Byte.to_bits a) as (a0 & a1 & a2 & a3 & a4 & a5 & a6 & a7).
  destruct (Byte.to_bits b) as (b0 & b1 & b2 & b3 & b4 & b5 & b6 & b7).
  now rewrite Byte.to_bits_of_bits.
Qed.

Lemma to_bits_inj a b : Byte.to_bits a = Byte.to_bits b -> a = b.
Proof.
  intros H. rewrite <- (Byte.of_bits_to_bits a), <- (Byte.of_bits_to_bits b).
  now rewrite H.
Qed.

Ltac by_bits :=
  apply to_bits_inj; rewrite ?to_bits_bxor; unfold xor8;
  repeat match goal with
         | |- context [Byte.to_bits ?a] =>
             is_var a;
             destruct (Byte.to_bits a) as (? & ? & ? & ? & ? & ? & ? & ?)
         end.

Lemma bxor_comm a b : bxor a b = bxor b a.
Proof. by_bits. repeat (f_equal; try apply xorb_comm). Qed.

Lemma bxor_assoc a b c : bxor a (bxor b c) = bxor (bxor a b) c.
Proof. by_bits. repeat (f_equal; try (symmetry; apply xorb_assoc)). Qed.

Lemma bxor_0_l a : bxor x00 a = a.
Proof. destruct a; reflexivity. Qed.

Lemma bxor_0_r a : bxor a x00 = a.
Proof. destruct a; reflexivity. Qed.

Lemma bxor_nilpotent a : bxor a a = x00.
Proof. destruct a; reflexivity. Qed.

Lemma bxor_cancel_l a b : bxor a (bxor a b) = b.
Proof. now rewrite bxor_assoc, bxor_nilpotent, bxor_0_l. Qed.

Lemma bxor_eq_0 a b : bxor a b = x00 -> a = b.
Proof.
  intros H. rewrite <- (bxor_cancel_l a b), H. now rewrite bxor_0_r.
Qed.

Lemma bxor_interchange a b c d :
  bxor (bxor a b) (bxor c d) = bxor (bxor a c) (bxor b d).
Proof.
  rewrite <- !bxor_assoc. f_equal.
  rewrite !bxor_assoc. f_equal. apply bxor_comm.
Qed.

(** The byte-level [^] is the exclusive or of the numbers. *)
Lemma bxor_lxor a b : Byte.to_N (bxor a b) = N.lxor (Byte.to_N a) (Byte.to_N b).
Proof.
  apply N.eqb_eq.
  revert a b. apply byte_forall2. vm_compute. reflexivity.
Qed.

(** ** The tables *)

Lemma init_fec_initial :
  init_fec initial_globals = Ok {| fec_initialized := true; MUL_TABLE := GF_MUL_TABLE |}.
Proof. vm_compute. reflexivity. Qed.

Lemma init_fec_idempotent g :
  fec_initialized g = true -> init_fec g = Ok g.
Proof. intros H. unfold init_fec. now rewrite H. Qed.

Lemma GF_MUL_TABLE_length : length GF_MUL_TABLE = 256%nat.
Proof. reflexivity. Qed.

Lemma GF_MUL_TABLE_row a :
  vget GF_MUL_TABLE (Byte.to_N a) = Ok (nth (Byte.to_nat a) GF_MUL_TABLE []).
Proof.
  rewrite (@vget_ok _ GF_MUL_TABLE (Byte.to_N a) []).
  - now rewrite to_N_to_nat.
  - rewrite GF_MUL_TABLE_length. pose proof (to_N_lt a). lia.
Qed.

Lemma GF_MUL_TABLE_row_length a :
  length (nth (Byte.to_nat a) GF_MUL_TABLE []) = 256%nat.
Proof. destruct a; reflexivity. Qed.

Lemma mul_row_get a b :
  vget (nth (Byte.to_nat a) GF_MUL_TABLE []) (Byte.to_N b) = Ok (gmul a b).
Proof.
  rewrite (@vget_ok _ _ (Byte.to_N b) x00).
  - now rewrite to_N_to_nat.
  - rewrite GF_MUL_TABLE_row_length. pose proof (to_N_lt b). lia.
Qed.

Lemma GF_INVERSE_get a : vget GF_INVERSE (Byte.to_N a) = Ok (ginv a).
Proof.
  rewrite (@vget_ok _ GF_INVERSE (Byte.to_N a) x00).
  - now rewrite to_N_to_nat.
  - change (length GF_INVERSE) with 256%nat. pose proof (to_N_lt a). lia.
Qed.

Lemma GF_EXP_get i : i < 510 -> vget GF_EXP i = Ok (gexp (N.to_nat i)).
Proof.
  intros H. apply vget_ok. change (length GF_EXP) with 510%nat. lia.
Qed.

(** ** Multiplication *)

(** The table holds [exp[(log a + log b) mod 255]], and 0 where an
    operand is 0. *)
Lemma gmul_spec a b :
  gmul a b = if Byte.eqb a x00 || Byte.eqb b x00 then x00
             else gexp ((glog a + glog b) mod 255).
Proof.
  apply byte_eqb_eq. revert a b. apply byte_forall2. vm_compute. reflexivity.
Qed.

Lemma gmul_comm a b : gmul a b = gmul b a.
Proof.
  apply byte_eqb_eq. revert a b. apply byte_forall2. vm_compute. reflexivity.
Qed.

Lemma gmul_0_l a : gmul x00 a = x00.
Proof. rewrite gmul_spec. reflexivity. Qed.

Lemma gmul_0_r a : gmul a x00 = x00.
Proof. rewrite gmul_comm. apply gmul_0_l. Qed.

Lemma gmul_1_l a : gmul x01 a = a.
Proof. destruct a; reflexivity. Qed.

Lemma gmul_1_r a : gmul a x01 = a.
Proof. rewrite gmul_comm. apply gmul_1_l. Qed.

Lemma gmul_inv a : a <> x00 -> gmul a (ginv a) = x01.
Proof. destruct a; intros H; try reflexivity. congruence. Qed.

Lemma ginv_nonzero a : a <> x00 -> ginv a <> x00.
Proof. destruct a; intros H; try discriminate. congruence. Qed.

Lemma glog_lt a : a <> x00 -> (glog a < 255)%nat.
Proof.
  intros H.
  assert (E : (Byte.eqb a x00 || Nat.ltb (glog a) 255) = true).
  { revert a H. intros a _. revert a. apply byte_forall. vm_compute. reflexivity. }
  apply orb_true_iff in E. destruct E as [E|E].
  - apply byte_eqb_eq in E. contradiction.
  - now apply Nat.ltb_lt in E.
Qed.

Lemma gexp_glog a : a <> x00 -> gexp (glog a) = a.
Proof. destruct a; intros H; try reflexivity. congruence. Qed.

Lemma gexp_facts i :
  (i < 255)%nat -> gexp i <> x00 /\ glog (gexp i) = i /\ gexp (i + 255) = gexp i.
Proof.
  intros H.
  assert (E : forallb (fun i => negb (Byte.eqb (gexp i) x00)
                                && Nat.eqb (glog (gexp i)) i
                                && Byte.eqb (gexp (i + 255)) (gexp i)) (seq 0 255) = true)
    by (vm_compute; reflexivity).
  rewrite forallb_forall in E. specialize (E i).
  rewrite in_seq in E. specialize (E ltac:(lia)).
  apply andb_true_iff in E. destruct E as [E E3].
  apply andb_true_iff in E. destruct E as [E1 E2].
  apply negb_true_iff, byte_eqb_neq in E1.
  apply Nat.eqb_eq in E2. apply byte_eqb_eq in E3. auto.
Qed.

Lemma gexp_nonzero i : (i < 255)%nat -> gexp i <> x00.
Proof. intros H. now apply gexp_facts. Qed.

Lemma glog_gexp i : (i < 255)%nat -> glog (gexp i) = i.
Proof. intros H. now apply gexp_facts. Qed.

Lemma gmul_nonzero a b : a <> x00 -> b <> x00 -> gmul a b <> x00.
Proof.
  intros Ha Hb. rewrite gmul_spec.
  apply byte_eqb_neq in Ha, Hb. rewrite Ha, Hb. cbn [orb].
  apply gexp_nonzero. apply Nat.mod_upper_bound. lia.
Qed.

Lemma gmul_eq_0 a b : gmul a b = x00 -> a = x00 \/ b = x00.
Proof.
  intros H.
  destruct (Byte.byte_eq_dec a x00) as [|Ha]; auto.
  destruct (Byte.byte_eq_dec b x00) as [|Hb]; auto.
  exfalso. now apply (gmul_nonzero Ha Hb).
Qed.

Lemma gmul_gexp i j :
  (i < 255)%nat -> (j < 255)%nat -> gmul (gexp i) (gexp j) = gexp ((i + j) mod 255).
Proof.
  intros Hi Hj. rewrite gmul_spec.
  pose proof (gexp_nonzero Hi) as Ni. pose proof (gexp_nonzero Hj) as Nj.
  apply byte_eqb_neq in Ni, Nj. rewrite Ni, Nj. cbn [orb].
  now rewrite !glog_gexp.
Qed.

Lemma gmul_assoc a b c : gmul a (gmul b c) = gmul (gmul a b) c.
Proof.
  destruct (Byte.byte_eq_dec a x00) as [->|Ha].
  { now rewrite !gmul_0_l. }
  destruct (Byte.byte_eq_dec b x00) as [->|Hb].
  { now rewrite gmul_0_l, gmul_0_r, gmul_0_l. }
  destruct (Byte.byte_eq_dec c x00) as [->|Hc].
  { now rewrite !gmul_0_r. }
  rewrite <- (gexp_glog Ha), <- (gexp_glog Hb), <- (gexp_glog Hc).
  pose proof (glog_lt Ha). pose proof (glog_lt Hb). pose proof (glog_lt Hc).
  rewrite !gmul_gexp; auto; try (apply Nat.mod_upper_bound; lia).
  f_equal.
  rewrite Nat.Div0.add_mod_idemp_r, Nat.Div0.add_mod_idemp_l.
  f_equal. lia.
Qed.

Lemma gmul_gmul_bits a b : gmul a b = gmul_bits a b.
Proof.
  apply byte_eqb_eq. revert a b. apply byte_forall2. vm_compute. reflexivity.
Qed.

Lemma pick_xorb u v g : pick (xorb u v) g = bxor (pick u g) (pick v g).
Proof.
  destruct u, v; simpl;
    now rewrite ?bxor_nilpotent, ?bxor_0_l, ?bxor_0_r.
Qed.

Lemma bxor_regroup p q P Q T :
  bxor P Q = T -> bxor (bxor p P) (bxor q Q) = bxor (bxor p q) T.
Proof. intros <-. apply bxor_interchange. Qed.

Lemma gmul_distr_l a b c : gmul a (bxor b c) = bxor (gmul a b) (gmul a c).
Proof.
  rewrite !gmul_gmul_bits. unfold gmul_bits.
  rewrite to_bits_bxor. unfold xor8.
  destruct (Byte.to_bits b) as (b0 & b1 & b2 & b3 & b4 & b5 & b6 & b7).
  destruct (Byte.to_bits c) as (c0 & c1 & c2 & c3 & c4 & c5 & c6 & c7).
  rewrite !pick_xorb. symmetry.
  repeat (apply bxor_regroup). reflexivity.
Qed.

Lemma gmul_distr_r a b c : gmul (bxor a b) c = bxor (gmul a c) (gmul b c).
Proof.
  rewrite gmul_comm, gmul_distr_l. now rewrite (gmul_comm c a), (gmul_comm c b).
Qed.

Lemma gmul_inv_l a : a <> x00 -> gmul (ginv a) a = x01.
Proof. intros H. rewrite gmul_comm. now apply gmul_inv. Qed.

Lemma gmul_cancel_l a b c : a <> x00 -> gmul a b = gmul a c -> b = c.
Proof.
  intros Ha H.
  rewrite <- (gmul_1_l b), <- (gmul_1_l c), <- (gmul_inv_l Ha).
  now rewrite <- !gmul_assoc, H.
Qed.

Lemma gf_ring : ring_theory x00 x01 bxor gmul gsub gopp (@eq byte).
Proof.
  constructor.
  - apply bxor_0_l.
  - apply bxor_comm.
  - apply bxor_assoc.
  - apply gmul_1_l.
  - apply gmul_comm.
  - apply gmul_assoc.
  - apply gmul_distr_r.
  - reflexivity.
  - apply bxor_nilpotent.
Qed.

Add Ring gf_ring_inst : gf_ring.

(** * [addmul] *)

Lemma src_read_data (cur buf : list byte) (src : srcbuf) (p : nat) :
  (p < length (src_data src buf))%nat ->
  length cur = length buf ->
  (src = SameBuffer -> nth p cur x00 = nth p buf x00) ->
  src_read cur src (Z.of_nat p) = Ok (nth p (src_data src buf) x00).
Proof.
  intros Hp Hl Hsame. destruct src as [|b]; simpl in *.
  - rewrite (@pget_ok _ _ _ x00) by lia.
    now rewrite Nat2Z.id, Hsame.
  - rewrite (@pget_ok _ _ _ x00) by lia.
    now rewrite Nat2Z.id.
Qed.

(** A pointer into a buffer that is not empty. *)
Lemma ptr_add_object A (buf : list A) (p n : Z) :
  (0 < length buf)%nat -> ptr_add buf p n = (p + n)%Z.
Proof. destruct buf; cbn [length]; [lia | reflexivity]. Qed.

Section Addmul.
Variables (buf : list byte) (d : nat) (src : srcbuf) (s : nat) (c : byte).

Local Abbreviation data := (src_data src buf).
Let mul_c := nth (Byte.to_nat c) GF_MUL_TABLE [].

Lemma addmul_result_length m : length (addmul_result buf d data s c m) = length buf.
Proof. unfold addmul_result. now rewrite length_map, length_seq. Qed.

Lemma nth_addmul_result m j :
  nth j (addmul_result buf d data s c m) x00 =
  if Nat.leb d j && Nat.ltb j (d + m) && Nat.ltb j (length buf)
  then bxor (nth j buf x00) (gmul c (nth (s + (j - d)) data x00))
  else nth j buf x00.
Proof.
  unfold addmul_result.
  destruct (Nat.ltb_spec j (length buf)) as [Hj|Hj].
  - rewrite andb_true_r. now rewrite nth_map_seq by lia.
  - rewrite andb_false_r.
    rewrite !nth_overflow; auto. rewrite length_map, length_seq. lia.
Qed.

Lemma addmul_result_0 : addmul_result buf d data s c 0 = buf.
Proof.
  apply (@list_ext_nth _ _ _ x00).
  - apply addmul_result_length.
  - intros j Hj. rewrite nth_addmul_result.
    destruct (Nat.ltb_spec j (d + 0)), (Nat.leb_spec d j); simpl; auto; lia.
Qed.

Lemma addmul_result_S m :
  (d + m < length buf)%nat ->
  upd (addmul_result buf d data s c m) (d + m)
      (bxor (nth (d + m) buf x00) (gmul c (nth (s + m) data x00)))
  = addmul_result buf d data s c (S m).
Proof.
  intros H. apply (@list_ext_nth _ _ _ x00).
  - now rewrite upd_length, !addmul_result_length.
  - intros j Hj. rewrite nth_upd, !nth_addmul_result, addmul_result_length.
    destruct (Nat.eqb_spec (d + m) j) as [<-|Hne].
    + destruct (Nat.ltb_spec (d + m) (length buf)); [|lia]. simpl.
      destruct (Nat.leb_spec d (d + m)); [|lia].
      destruct (Nat.ltb_spec (d + m) (d + S m)); [|lia]. simpl.
      do 3 f_equal. lia.
    + simpl.
      destruct (Nat.leb_spec d j); simpl; auto.
      destruct (Nat.ltb_spec j (d + m)), (Nat.ltb_spec j (d + S m));
        simpl; auto; lia.
Qed.

(** The source bytes are in range, and are not among the bytes written. *)
Variable sz : nat.
Hypothesis dst_range : (d + sz <= length buf)%nat.
Hypothesis src_range : (s + sz <= length data)%nat.
Hypothesis disjoint :
  src = SameBuffer -> (s + sz <= d \/ d + sz <= s)%nat.

Lemma xor_mul_step m (dp sp j : Z) :
  (m < sz)%nat ->
  (dp + j = Z.of_nat (d + m))%Z -> (sp + j = Z.of_nat (s + m))%Z ->
  xor_mul mul_c src dp sp j (addmul_result buf d data s c m)
  = Ok (addmul_result buf d data s c (S m)).
Proof.
  intros Hm Hd Hs. unfold xor_mul. rewrite Hd, Hs.
  assert (Hread : src_read (addmul_result buf d data s c m) src (Z.of_nat (s + m))
                  = Ok (nth (s + m) data x00)).
  { apply src_read_data; [lia | apply addmul_result_length |].
    intros E. rewrite nth_addmul_result.
    destruct (disjoint E).
    + destruct (Nat.leb_spec d (s + m)); [lia|reflexivity].
    + destruct (Nat.ltb_spec (s + m) (d + m)); [lia|].
      now rewrite andb_false_r. }
  rewrite Hread. simpl.
  unfold mul_c. rewrite mul_row_get. simpl.
  rewrite (@pget_ok _ _ _ x00) by (rewrite addmul_result_length; lia).
  simpl. rewrite pset_ok by (rewrite addmul_result_length; lia).
  rewrite Nat2Z.id. rewrite nth_addmul_result.
  destruct (Nat.ltb_spec (d + m) (d + m)); [lia|].
  rewrite andb_false_r. simpl.
  now rewrite addmul_result_S by lia.
Qed.

Ltac xor_mul_next :=
  match goal with
  | |- context [xor_mul _ _ _ _ _ (addmul_result _ _ _ _ _ ?m)] =>
      rewrite (@xor_mul_step m) by lia; cbn [bind]
  end.

Lemma addmul_unrolled_spec fuel : forall m (lim : Z),
  lim = (Z.of_nat d + (Z.of_nat sz - 16 + 1))%Z ->
  (m <= sz)%nat -> (sz - m <= 16 * fuel + 15)%nat ->
  exists m', (m <= m' <= sz)%nat /\ (sz < m' + 16)%nat /\
    addmul_unrolled fuel mul_c src lim (addmul_result buf d data s c m)
                    (Z.of_nat (d + m)) (Z.of_nat (s + m))
    = Ok (addmul_result buf d data s c m', Z.of_nat (d + m'), Z.of_nat (s + m')).
Proof.
  induction fuel as [|fuel IH]; intros m lim Hlim Hm Hf.
  - exists m. simpl. destruct (Z.ltb_spec (Z.of_nat (d + m)) lim); [lia|].
    repeat split; auto; lia.
  - simpl. destruct (Z.ltb_spec (Z.of_nat (d + m)) lim) as [Hlt|Hge].
    + do 16 xor_mul_next.
      destruct (IH (16 + m)%nat lim Hlim ltac:(lia) ltac:(lia)) as (m' & Hm' & Hlt' & E).
      exists m'. repeat split; try lia.
      replace (Z.of_nat (d + m) + 16)%Z with (Z.of_nat (d + (16 + m))) by lia.
      replace (Z.of_nat (s + m) + 16)%Z with (Z.of_nat (s + (16 + m))) by lia.
      exact E.
    + exists m. repeat split; auto; lia.
Qed.

Lemma addmul_tail_spec fuel : forall m (lim : Z),
  lim = Z.of_nat (d + sz) ->
  (m <= sz)%nat -> (sz - m <= fuel)%nat ->
  addmul_tail fuel mul_c src lim (addmul_result buf d data s c m)
              (Z.of_nat (d + m)) (Z.of_nat (s + m))
  = Ok (addmul_result buf d data s c sz).
Proof.
  induction fuel as [|fuel IH]; intros m lim Hlim Hm Hf.
  - assert (m = sz) by lia. subst m. simpl.
    destruct (Z.ltb_spec (Z.of_nat (d + sz)) lim); [lia|reflexivity].
  - simpl. destruct (Z.ltb_spec (Z.of_nat (d + m)) lim) as [Hlt|Hge].
    + rewrite (@xor_mul_step m) by lia. cbn [bind].
      replace (Z.of_nat (d + m) + 1)%Z with (Z.of_nat (d + S m)) by lia.
      replace (Z.of_nat (s + m) + 1)%Z with (Z.of_nat (s + S m)) by lia.
      apply IH; auto; lia.
    + assert (m = sz) by lia. now subst m.
Qed.

(** The destination is not the null pointer of an empty vector. *)
Hypothesis not_null : (0 < length buf)%nat.

Lemma addmul_spec :
  addmul buf (Z.of_nat d) src (Z.of_nat s) c (Z.of_nat sz)
  = Ok (addmul_result buf d data s c sz).
Proof.
  unfold addmul. cbv zeta. rewrite !ptr_add_object by exact not_null.
  destruct (Byte.eqb c x00) eqn:Ec.
  - apply byte_eqb_eq in Ec. f_equal.
    apply (@list_ext_nth _ _ _ x00).
    + now rewrite addmul_result_length.
    + intros j Hj. rewrite nth_addmul_result, Ec, gmul_0_l, bxor_0_r.
      now destruct (_ && _).
  - rewrite GF_MUL_TABLE_row. cbn [bind].
    destruct (Z.ltb_spec (Z.of_nat sz - 16) INT_MIN) as [Hov|_].
    { unfold INT_MIN in Hov. lia. }
    destruct (@addmul_unrolled_spec (S (Z.to_nat (Z.of_nat sz))) 0
                (Z.of_nat d + (Z.of_nat sz - 16 + 1))%Z eq_refl
                ltac:(lia) ltac:(lia)) as (m' & Hm' & Hlt & E).
    rewrite addmul_result_0, !Nat.add_0_r in E.
    fold mul_c. rewrite E. cbn [bind].
    apply addmul_tail_spec; lia.
Qed.
End Addmul.

(** ** The null destination *)

(** A dereference yields a value or is undefined. *)
Lemma pget_cases A (v : list A) (p : Z) : (exists x, pget v p = Ok x) \/ pget v p = Undefined.
Proof.
  unfold pget, vget. destruct (p <? 0)%Z; [now right|].
  destruct (Z.to_N p <? N.of_nat (length v)); [|now right].
  destruct (nth_error v (N.to_nat (Z.to_N p))) eqn:E; eauto.
Qed.

Lemma pget_null A (p : Z) : pget (@nil A) p = Undefined.
Proof.
  unfold pget, vget. destruct (p <? 0)%Z; [reflexivity|].
  cbn [length]. now destruct (Z.to_N p).
Qed.

(** [dst[j] ^= mul_c[src[j]]] through the data pointer of an empty vector. *)
Lemma xor_mul_null (c : byte) (src : srcbuf) (d s j : Z) :
  xor_mul (nth (Byte.to_nat c) GF_MUL_TABLE []) src d s j [] = Undefined.
Proof.
  unfold xor_mul.
  assert (H : (exists x, src_read [] src (s + j) = Ok x)
              \/ src_read [] src (s + j) = Undefined)
    by (destruct src; apply pget_cases).
  destruct H as [[x ->]| ->]; [|reflexivity].
  cbn [bind]. rewrite mul_row_get. cbn [bind]. now rewrite pget_null.
Qed.

(** [addmul] on the data pointer of an empty vector, with a coefficient
    that is not 0: [lim] wraps around or lies above, a loop is entered. *)
Lemma addmul_null (src : srcbuf) (s : Z) (c : byte) (sz : Z) :
  c <> x00 -> (INT_MIN + 16 <= sz <= INT_MAX)%Z ->
  addmul [] 0 src s c sz = Undefined.
Proof.
  intros Hc Hsz. apply byte_eqb_neq in Hc. unfold INT_MIN, INT_MAX in Hsz.
  unfold addmul. rewrite Hc, GF_MUL_TABLE_row. cbn [bind ptr_add].
  destruct (Z.ltb_spec (sz - 16) INT_MIN) as [H|_]; [unfold INT_MIN in H; lia|].
  cbn [addmul_unrolled].
  destruct (Z.ltb_spec 0 ((0 + (sz - 16 + 1)) mod 2 ^ 64)) as [Hlt|Hge].
  - now rewrite xor_mul_null.
  - cbn [bind addmul_tail].
    assert (E : ((0 + (sz - 16 + 1)) mod 2 ^ 64 = 0)%Z).
    { pose proof (Z.mod_pos_bound (0 + (sz - 16 + 1)) (2 ^ 64) ltac:(lia)). lia. }
    rewrite E.
    assert (Hsz15 : sz = 15%Z).
    { destruct (Z.le_gt_cases 15 sz) as [H|H].
      - rewrite Z.mod_small in E by lia. lia.
      - replace (0 + (sz - 16 + 1))%Z with ((sz - 15 + 2 ^ 64) + (-1) * 2 ^ 64)%Z in E by lia.
        rewrite Z.mod_add in E by lia. rewrite Z.mod_small in E by lia. lia. }
    change ((0 + (16 - 1)) mod 2 ^ 64)%Z with 15%Z.
    destruct (Z.ltb_spec 0 15); [|lia].
    now rewrite xor_mul_null.
Qed.

(** * Sums and polynomials *)

Lemma gsum_ext n f g :
  (forall i, (i < n)%nat -> f i = g i) -> gsum n f = gsum n g.
Proof.
  induction n as [|n IH]; intros H; simpl; auto.
  rewrite IH, H; auto.
Qed.

Lemma gsum_zero n : gsum n (fun _ => x00) = x00.
Proof. induction n; simpl; auto. now rewrite IHn. Qed.

Lemma gsum_add n f g :
  gsum n (fun i => bxor (f i) (g i)) = bxor (gsum n f) (gsum n g).
Proof.
  induction n as [|n IH]; simpl; auto.
  rewrite IH. apply bxor_interchange.
Qed.

Lemma gsum_scale n c f :
  gsum n (fun i => gmul c (f i)) = gmul c (gsum n f).
Proof.
  induction n as [|n IH]; simpl.
  - now rewrite gmul_0_r.
  - now rewrite IH, gmul_distr_l.
Qed.

Lemma gsum_scale_r n c f :
  gsum n (fun i => gmul (f i) c) = gmul (gsum n f) c.
Proof.
  rewrite (gmul_comm _ c), <- gsum_scale. apply gsum_ext.
  intros. apply gmul_comm.
Qed.

Lemma gsum_exchange n m (f : nat -> nat -> byte) :
  gsum n (fun i => gsum m (fun j => f i j)) = gsum m (fun j => gsum n (fun i => f i j)).
Proof.
  induction n as [|n IH]; simpl.
  - now rewrite gsum_zero.
  - now rewrite IH, gsum_add.
Qed.

(** A sum with a single term. *)
Lemma gsum_single n p f :
  (p < n)%nat -> gsum n (fun j => if Nat.eqb j p then f j else x00) = f p.
Proof.
  induction n as [|n IH]; intros H; [lia|]. simpl.
  destruct (Nat.eqb_spec n p) as [->|Hne].
  - rewrite (@gsum_ext p _ (fun _ => x00)).
    + now rewrite gsum_zero, bxor_0_l.
    + intros i Hi. destruct (Nat.eqb_spec i p); auto; lia.
  - rewrite IH by lia. apply bxor_0_r.
Qed.

(** Taking the term of index [p] out of a sum. *)
Lemma gsum_split n p f :
  (p < n)%nat ->
  gsum n f = bxor (f p) (gsum n (fun j => if Nat.eqb j p then x00 else f j)).
Proof.
  intros H.
  rewrite <- (@gsum_single n p f H) at 1.
  rewrite <- gsum_add. apply gsum_ext. intros i Hi.
  destruct (Nat.eqb_spec i p); now rewrite ?bxor_0_l, ?bxor_0_r.
Qed.

Lemma gsum_all_zero n f : (forall i, (i < n)%nat -> f i = x00) -> gsum n f = x00.
Proof.
  intros H. rewrite (@gsum_ext n f (fun _ => x00)) by exact H. apply gsum_zero.
Qed.

(** ** Powers *)

Lemma gpow_nonzero x n : x <> x00 -> gpow x n <> x00.
Proof.
  intros H. induction n; simpl.
  - discriminate.
  - now apply gmul_nonzero.
Qed.

Lemma gpow_0 n : gpow x00 n = if Nat.eqb n 0 then x01 else x00.
Proof. destruct n; simpl; auto. apply gmul_0_l. Qed.

Lemma gexp_255 : gexp 255 = gexp 0.
Proof. reflexivity. Qed.

Lemma gexp_mod r : (r <= 255)%nat -> gexp (r mod 255) = gexp r.
Proof.
  intros H. destruct (Nat.eq_dec r 255) as [->|Hne].
  - reflexivity.
  - now rewrite Nat.mod_small by lia.
Qed.

(** The entries [GF_EXP[(r * c) % 255]] are the powers of [alpha^r]. *)
Lemma gexp_mul r c : (r <= 255)%nat -> gexp ((r * c) mod 255) = gpow (gexp r) c.
Proof.
  intros H. induction c as [|c IH].
  - rewrite Nat.mul_0_r. reflexivity.
  - simpl gpow. rewrite <- IH, <- (gexp_mod H).
    rewrite gmul_gexp by (apply Nat.mod_upper_bound; lia).
    f_equal. rewrite <- Nat.Div0.add_mod. f_equal. lia.
Qed.

(** ** Polynomials *)

Lemma peval_app cs ds x :
  peval (cs ++ ds) x = bxor (peval cs x) (gmul (gpow x (length cs)) (peval ds x)).
Proof.
  induction cs as [|c cs IH]; simpl.
  - now rewrite gmul_1_l, bxor_0_l.
  - rewrite IH. ring.
Qed.

Lemma peval_gsum cs x :
  peval cs x = gsum (length cs) (fun i => gmul (nth i cs x00) (gpow x i)).
Proof.
  induction cs as [|c cs IH] using rev_ind; simpl; auto.
  rewrite peval_app, length_app. simpl. rewrite Nat.add_1_r. simpl.
  rewrite IH. f_equal.
  - apply gsum_ext. intros i Hi. now rewrite app_nth1.
  - rewrite app_nth2, Nat.sub_diag by lia. simpl. ring.
Qed.

Lemma peval_zeros cs x : Forall (fun c => c = x00) cs -> peval cs x = x00.
Proof.
  induction 1 as [|c cs Hc _ IH]; simpl; auto.
  rewrite Hc, IH. ring.
Qed.

Lemma quot_length p cs : length (quot p cs) = pred (length cs).
Proof.
  induction cs as [|c cs IH]; simpl; auto.
  destruct cs; simpl in *; auto.
Qed.

Lemma nth_quot p cs : forall i,
  (S i < length cs)%nat -> nth i (quot p cs) x00 = peval (skipn (S i) cs) p.
Proof.
  induction cs as [|c cs IH]; intros i H; simpl in H; [lia|].
  destruct cs as [|c' cs]; [simpl in H; lia|].
  destruct i as [|i].
  - reflexivity.
  - change (quot p (c :: c' :: cs)) with (peval (c' :: cs) p :: quot p (c' :: cs)).
    cbn [nth]. rewrite IH by (simpl in *; lia). reflexivity.
Qed.

(** Division with remainder by [X - p]; the remainder is the value at [p]. *)
Lemma quot_spec p cs x :
  peval cs x = bxor (gmul (bxor x p) (peval (quot p cs) x)) (peval cs p).
Proof.
  induction cs as [|c cs IH].
  - simpl. ring.
  - destruct cs as [|c' cs].
    + simpl. ring.
    + change (quot p (c :: c' :: cs)) with (peval (c' :: cs) p :: quot p (c' :: cs)).
      set (Q := c' :: cs) in *.
      cbn [peval]. rewrite IH.
      set (q := peval (quot p Q) x). set (v := peval Q p).
      transitivity (bxor (bxor c (gmul x (gmul (bxor x p) q)))
                         (bxor (gmul x v) x00)); [ring|].
      rewrite <- (bxor_nilpotent (gmul p v)).
      ring.
Qed.

(** A root can be divided out. *)
Lemma quot_root p cs x :
  peval cs p = x00 -> peval cs x = gmul (bxor x p) (peval (quot p cs) x).
Proof. intros H. rewrite (quot_spec p cs x), H. ring. Qed.

Lemma zero_of_suffix_values cs p :
  (forall i, (i < length cs)%nat -> peval (skipn i cs) p = x00) ->
  Forall (fun c => c = x00) cs.
Proof.
  induction cs as [|c cs IH]; intros H; constructor.
  - pose proof (H 0%nat ltac:(simpl; lia)) as H0.
    simpl in H0.
    destruct cs as [|c' cs].
    + simpl in H0. rewrite gmul_0_r, bxor_0_r in H0. exact H0.
    + pose proof (H 1%nat ltac:(simpl; lia)) as H1. simpl in H1.
      simpl in H0. rewrite H1, gmul_0_r, bxor_0_r in H0. exact H0.
  - apply IH. intros i Hi. apply (H (S i)). simpl. lia.
Qed.

(** A polynomial with at least as many distinct roots as coefficients
    is zero. *)
Theorem roots_bound : forall (rs cs : list byte),
  NoDup rs -> (length cs <= length rs)%nat ->
  (forall r, In r rs -> peval cs r = x00) ->
  Forall (fun c => c = x00) cs.
Proof.
  induction rs as [|r rs IH]; intros cs Hnd Hlen Hroots.
  - destruct cs; [constructor | simpl in Hlen; lia].
  - inversion Hnd as [|? ? Hnotin Hnd']; subst.
    assert (Hr : peval cs r = x00) by (apply Hroots; now left).
    assert (Hq : Forall (fun c => c = x00) (quot r cs)).
    { apply IH; auto.
      - rewrite quot_length. simpl in Hlen. lia.
      - intros r' Hin.
        assert (E : peval cs r' = x00) by (apply Hroots; now right).
        rewrite (quot_root r cs r' Hr) in E.
        apply gmul_eq_0 in E. destruct E as [E|E]; auto.
        apply bxor_eq_0 in E. subst r'. contradiction. }
    apply (@zero_of_suffix_values cs r).
    intros i Hi. destruct i as [|i]; [exact Hr|].
    destruct (Nat.eq_dec (S i) (length cs)) as [E|E].
    + rewrite skipn_all2 by lia. reflexivity.
    + rewrite <- nth_quot by lia.
      rewrite Forall_forall in Hq.
      destruct (Nat.lt_ge_cases i (length (quot r cs))) as [Hlt|Hge].
      * apply Hq. now apply nth_In.
      * now apply nth_overflow.
Qed.

(** Two polynomials with the same number of coefficients that agree on
    as many distinct points are equal. *)
Corollary poly_eq_of_values (rs cs ds : list byte) :
  NoDup rs -> length cs = length ds -> (length cs <= length rs)%nat ->
  (forall r, In r rs -> peval cs r = peval ds r) ->
  cs = ds.
Proof.
  revert ds. induction cs as [|c cs IH]; intros [|d ds] Hnd Hl Hlen H;
    simpl in Hl; try discriminate; auto.
  assert (Z : Forall (fun c => c = x00)
                     (map (fun cd => bxor (fst cd) (snd cd)) (combine (c :: cs) (d :: ds)))).
  { apply (@roots_bound rs); auto.
    - rewrite length_map, length_combine. simpl in *. lia.
    - intros r Hr. specialize (H r Hr).
      assert (G : forall l1 l2, length l1 = length l2 ->
                  peval (map (fun cd => bxor (fst cd) (snd cd)) (combine l1 l2)) r
                  = bxor (peval l1 r) (peval l2 r)).
      { induction l1 as [|a l1 IH1]; intros [|b l2] E; simpl in E; try discriminate.
        - simpl. ring.
        - simpl. rewrite IH1 by lia. ring. }
      rewrite G by (simpl; lia). rewrite H. apply bxor_nilpotent. }
  apply (@list_ext_nth _ _ _ x00); [simpl; lia|].
  intros i Hi. rewrite Forall_forall in Z.
  apply bxor_eq_0. 
  specialize (Z (bxor (nth i (c :: cs) x00) (nth i (d :: ds) x00))).
  apply Z.
  apply in_map_iff. exists (nth i (c :: cs) x00, nth i (d :: ds) x00). split; auto.
  rewrite <- combine_nth by (simpl; lia). apply nth_In.
  rewrite length_combine. simpl in *. lia.
Qed.

(** ** Products of linear factors *)

Lemma mul_linear_length p cs : cs <> [] -> length (mul_linear p cs) = S (length cs).
Proof.
  induction cs as [|c cs IH]; intros H; [congruence|].
  destruct cs as [|c' cs]; [reflexivity|].
  change (mul_linear p (c :: c' :: cs))
    with (gmul p c :: match mul_linear p (c' :: cs) with
                      | [] => []
                      | m :: ms => bxor c m :: ms
                      end).
  specialize (IH ltac:(discriminate)).
  destruct (mul_linear p (c' :: cs)) as [|m ms]; simpl in *; [discriminate|lia].
Qed.

Lemma peval_mul_linear p cs x :
  peval (mul_linear p cs) x = gmul (bxor x p) (peval cs x).
Proof.
  induction cs as [|c cs IH].
  - simpl. ring.
  - destruct cs as [|c' cs].
    + simpl. ring.
    + change (mul_linear p (c :: c' :: cs))
        with (gmul p c :: match mul_linear p (c' :: cs) with
                          | [] => []
                          | m :: ms => bxor c m :: ms
                          end).
      pose proof (@mul_linear_length p (c' :: cs) ltac:(discriminate)) as L.
      destruct (mul_linear p (c' :: cs)) as [|m ms] eqn:E; [discriminate|].
      set (Q := c' :: cs) in *.
      cbn [peval] in *.
      transitivity (bxor (gmul p c) (bxor (gmul x c)
                      (gmul x (bxor m (gmul x (peval ms x)))))); [ring|].
      rewrite IH. ring.
Qed.

Lemma roots_poly_length rs : length (roots_poly rs) = S (length rs).
Proof.
  induction rs as [|r rs IH]; simpl; auto.
  rewrite mul_linear_length, IH; auto.
  destruct (roots_poly rs); simpl in *; [lia|discriminate].
Qed.

Lemma peval_roots_poly_root rs r : In r rs -> peval (roots_poly rs) r = x00.
Proof.
  induction rs as [|r' rs IH]; intros H; [contradiction|].
  simpl. rewrite peval_mul_linear.
  destruct H as [->|H].
  - rewrite bxor_nilpotent. ring.
  - rewrite IH by exact H. ring.
Qed.

Lemma peval_roots_poly_nonroot rs x : ~ In x rs -> peval (roots_poly rs) x <> x00.
Proof.
  induction rs as [|r rs IH]; intros H.
  - simpl. rewrite gmul_0_r, bxor_0_r. discriminate.
  - simpl. rewrite peval_mul_linear.
    apply gmul_nonzero.
    + intros E. apply bxor_eq_0 in E. apply H. now left.
    + apply IH. intros Hin. apply H. now right.
Qed.

(** * [create_inverted_vdm] *)

Lemma nth_mul_linear p cs : cs <> [] -> forall m,
  nth m (mul_linear p cs) x00
  = bxor (match m with O => x00 | S m' => nth m' cs x00 end) (gmul p (nth m cs x00)).
Proof.
  induction cs as [|c cs IH]; intros H m; [congruence|].
  destruct cs as [|c' cs].
  - destruct m as [|[|[|m]]]; simpl; ring.
  - change (mul_linear p (c :: c' :: cs))
      with (gmul p c :: match mul_linear p (c' :: cs) with
                        | [] => []
                        | m :: ms => bxor c m :: ms
                        end).
    pose proof (@mul_linear_length p (c' :: cs) ltac:(discriminate)) as L.
    specialize (IH ltac:(discriminate)).
    destruct (mul_linear p (c' :: cs)) as [|x xs] eqn:E; [discriminate|].
    destruct m as [|m].
    + simpl. ring.
    + cbn [nth]. destruct m as [|m].
      * specialize (IH 0%nat). cbn [nth] in IH. rewrite IH. cbn [nth]. ring.
      * specialize (IH (S m)). cbn [nth] in IH. cbn [nth]. rewrite IH. reflexivity.
Qed.

Lemma roots_poly_nonempty rs : roots_poly rs <> [].
Proof.
  intros E. pose proof (roots_poly_length rs) as L. rewrite E in L. discriminate.
Qed.

Lemma roots_poly_leading rs : nth (length rs) (roots_poly rs) x00 = x01.
Proof.
  induction rs as [|r rs IH]; [reflexivity|].
  change (roots_poly (r :: rs)) with (mul_linear r (roots_poly rs)).
  change (length (r :: rs)) with (S (length rs)).
  rewrite nth_mul_linear by apply roots_poly_nonempty.
  rewrite IH.
  rewrite (@nth_overflow _ (roots_poly rs) (S (length rs)))
    by (rewrite roots_poly_length; lia).
  ring.
Qed.

Lemma vdm_poly_S i : vdm_poly (S i) = mul_linear (point i) (vdm_poly i).
Proof.
  unfold vdm_poly. rewrite seq_S, map_app, rev_app_distr. reflexivity.
Qed.

Lemma vdm_poly_length i : length (vdm_poly i) = S i.
Proof.
  unfold vdm_poly. now rewrite roots_poly_length, length_rev, length_map, length_seq.
Qed.

Lemma vdm_poly_leading i : nth i (vdm_poly i) x00 = x01.
Proof.
  pose proof (roots_poly_leading (rev (map point (seq 0 i)))) as H.
  now rewrite length_rev, length_map, length_seq in H.
Qed.

Lemma vdm_poly_const i : (1 <= i)%nat -> nth 0 (vdm_poly i) x00 = x00.
Proof.
  induction i as [|i IH]; intros H; [lia|].
  rewrite vdm_poly_S, nth_mul_linear by apply roots_poly_nonempty.
  destruct i as [|i].
  - reflexivity.
  - rewrite IH by lia. ring.
Qed.

Lemma nth_vdm_poly_S i m :
  nth m (vdm_poly (S i)) x00
  = bxor (match m with O => x00 | S m' => nth m' (vdm_poly i) x00 end)
         (gmul (point i) (nth m (vdm_poly i) x00)).
Proof.
  rewrite vdm_poly_S. apply nth_mul_linear, roots_poly_nonempty.
Qed.

Lemma nth_repeat_x00 n m : nth m (repeat x00 n) x00 = x00.
Proof.
  destruct (Nat.lt_ge_cases m n).
  - now rewrite nth_repeat_lt.
  - now rewrite nth_overflow by (rewrite repeat_length; lia).
Qed.

Ltac lookup :=
  repeat (first
    [ rewrite GF_MUL_TABLE_row
    | rewrite mul_row_get
    | rewrite GF_INVERSE_get
    | rewrite GF_EXP_get by lia ];
  cbn [bind]).

Lemma int_of_size_t_small x : x < 2 ^ 31 -> int_of_size_t x = Z.of_N x.
Proof.
  intros H. unfold int_of_size_t.
  rewrite N.mod_small by (change (2 ^ 32) with 4294967296; change (2 ^ 31) with 2147483648 in H; lia).
  change (2 ^ 31) with 2147483648 in H.
  destruct (Z.leb_spec (Z.of_N x) INT_MAX) as [_|Hgt]; auto.
  unfold INT_MAX in Hgt. lia.
Qed.

Lemma size_t_of_int_small z : (0 <= z < 2 ^ 64)%Z -> size_t_of_int z = Z.to_N z.
Proof.
  intros H. unfold size_t_of_int. now rewrite Z.mod_small.
Qed.

Lemma skipn_nth_cons (l : list byte) i :
  (i < length l)%nat -> skipn i l = nth i l x00 :: skipn (S i) l.
Proof.
  revert i. induction l as [|a l IH]; intros [|i] H; simpl in *; try lia; auto.
  apply IH. lia.
Qed.

Lemma index_inj a b a' b' n :
  (b < n)%nat -> (b' < n)%nat -> (a * n + b = a' * n + b')%nat -> a = a' /\ b = b'.
Proof.
  intros Hb Hb' E.
  assert (a = a').
  { destruct (Nat.lt_trichotomy a a') as [H|[H|H]]; auto.
    - assert (S a * n <= a' * n)%nat by (apply Nat.mul_le_mono_r; lia).
      simpl in *. lia.
    - assert (S a' * n <= a * n)%nat by (apply Nat.mul_le_mono_r; lia).
      simpl in *. lia. }
  subst. split; auto. lia.
Qed.

Section Vdm.
Variable k : N.
Hypothesis k_lo : 2 <= k.
Hypothesis k_hi : k <= 256.

Let kn := N.to_nat k.

Lemma coeffs_loop :
  returns (vdm_coeffs k (repeat x00 kn)) (coeffs_inv kn kn).
Proof.
  pose proof SIZE_WIDTH_eq as W. unfold vdm_coeffs.
  apply for_lt_inv with (I := fun i c => coeffs_inv kn (N.to_nat i) c); try lia.
  - split; [apply repeat_length|]. intros m Hm.
    rewrite nth_repeat_x00.
    destruct (Nat.ltb_spec m (kn - N.to_nat 1)); auto.
    replace (m - (kn - N.to_nat 1))%nat with 0%nat by lia.
    reflexivity.
  - intros i c Hi [Hlen Hc].
    rewrite (@size_sub_small k 1), (@size_sub_small i 1) by lia.
    rewrite size_sub_small by lia.
    lookup.
    assert (Ep : point (N.to_nat i) = gexp (N.to_nat i)).
    { unfold point. destruct (N.to_nat i) eqn:E; [lia|reflexivity]. }
    set (ii := N.to_nat i) in *.
    set (p_i := gexp ii) in *.
    eapply returns_bind.
    + apply for_lt_inv with
        (I := fun j c' =>
                length c' = kn /\
                forall m, (m < kn)%nat ->
                  nth m c' x00 =
                  if Nat.leb (kn - ii) m && Nat.ltb m (N.to_nat j)
                  then nth (m - (kn - 1 - ii)) (vdm_poly (S ii)) x00
                  else nth m c x00); try lia.
      * split; auto. intros m Hm.
        destruct (Nat.leb_spec (kn - ii) m), (Nat.ltb_spec m (N.to_nat (k - 1 - (i - 1))));
          simpl; auto; lia.
      * intros j c' Hj [Hlen' Hc'].
        rewrite (@vget_ok _ c' j x00) by lia. cbn [bind].
        rewrite (@vget_ok _ c' (j + 1) x00) by lia. cbn [bind].
        lookup.
        rewrite vset_ok by lia.
        apply returns_ok. split; [now rewrite upd_length|].
        intros m Hm. rewrite nth_upd.
        destruct (Nat.eqb_spec (N.to_nat j) m) as [<-|Hne].
        -- destruct (Nat.ltb_spec (N.to_nat j) (length c')); [|lia]. simpl.
           rewrite !Hc' by lia.
           destruct (Nat.leb_spec (kn - ii) (N.to_nat j)); [|lia].
           destruct (Nat.ltb_spec (N.to_nat j) (N.to_nat (j + 1))); [|lia].
           destruct (Nat.ltb_spec (N.to_nat j) (N.to_nat j)); [lia|].
           destruct (Nat.ltb_spec (N.to_nat (j + 1)) (N.to_nat j)); [lia|].
           rewrite !andb_false_r. cbn [andb].
           rewrite !Hc by lia.
           destruct (Nat.ltb_spec (N.to_nat j) (kn - ii)); [lia|].
           destruct (Nat.ltb_spec (N.to_nat (j + 1)) (kn - ii)); [lia|].
           rewrite nth_vdm_poly_S, Ep.
           replace (N.to_nat j - (kn - 1 - ii))%nat
             with (S (N.to_nat j - (kn - ii))) by lia.
           replace (N.to_nat (j + 1) - (kn - ii))%nat
             with (S (N.to_nat j - (kn - ii))) by lia.
           reflexivity.
        -- simpl. rewrite Hc' by lia.
           destruct (Nat.leb_spec (kn - ii) m); simpl; auto.
           destruct (Nat.ltb_spec m (N.to_nat j)), (Nat.ltb_spec m (N.to_nat (j + 1)));
             auto; lia.
    + intros c' [Hlen' Hc'].
      rewrite (@vget_ok _ c' (k - 1) x00) by lia. cbn [bind].
      rewrite vset_ok by lia.
      apply returns_ok. split; [now rewrite upd_length|].
      intros m Hm. rewrite nth_upd.
      replace (N.to_nat (i + 1)) with (S ii) by lia.
      destruct (Nat.eqb_spec (N.to_nat (k - 1)) m) as [<-|Hne].
      * destruct (Nat.ltb_spec (N.to_nat (k - 1)) (length c')); [|lia]. simpl.
        rewrite Hc' by lia.
        destruct (Nat.ltb_spec (N.to_nat (k - 1)) (N.to_nat (k - 1))); [lia|].
        rewrite andb_false_r. rewrite Hc by lia.
        destruct (Nat.ltb_spec (N.to_nat (k - 1)) (kn - ii)); [lia|].
        destruct (Nat.ltb_spec (N.to_nat (k - 1)) (kn - S ii)); [lia|].
        rewrite nth_vdm_poly_S, Ep.
        replace (N.to_nat (k - 1) - (kn - S ii))%nat with (S (ii - 1)) by lia.
        replace (N.to_nat (k - 1) - (kn - ii))%nat with (ii - 1)%nat by lia.
        replace (S (ii - 1)) with ii by lia.
        rewrite vdm_poly_leading. ring.
      * simpl. rewrite Hc' by lia.
        destruct (Nat.leb_spec (kn - ii) m) as [Hle|Hgt].
        -- destruct (Nat.ltb_spec m (N.to_nat (k - 1))); [|lia]. simpl.
           destruct (Nat.ltb_spec m (kn - S ii)); [lia|].
           f_equal. lia.
        -- simpl. rewrite Hc by lia.
           destruct (Nat.ltb_spec m (kn - ii)); [|lia].
           destruct (Nat.ltb_spec m (kn - S ii)); auto.
           replace (m - (kn - S ii))%nat with 0%nat by lia.
           symmetry. apply vdm_poly_const. lia.
Qed.

Variable L : nat.
Hypothesis L_ok : (kn * kn <= L)%nat.
Variable c : list byte.
Hypothesis c_ok : coeffs_inv kn kn c.

Lemma rows_loop vdm :
  length vdm = L ->
  returns (for_lt 0 k (vdm_row k c) (vdm, repeat x00 kn)) (rows_inv kn L kn).
Proof.
  intros Hvdm. pose proof SIZE_WIDTH_eq as W.
  destruct c_ok as [Hclen Hc].
  assert (HcP : forall m, (m < kn)%nat -> nth m c x00 = nth m (vdm_poly kn) x00).
  { intros m Hm. rewrite Hc by lia. rewrite Nat.sub_diag.
    destruct (Nat.ltb_spec m 0); [lia|]. f_equal. lia. }
  apply for_lt_inv with (I := fun row st => rows_inv kn L (N.to_nat row) st); try lia.
  - split; [|split]; simpl; auto using repeat_length.
    intros col r _ Hr. change (N.to_nat 0) with 0%nat in Hr. lia.
  - intros row [vdm1 b1] Hrow (Hl1 & Hb1 & Hent). simpl in Hl1, Hb1, Hent.
    unfold vdm_row.
    set (rr := N.to_nat row) in *.
    assert (Ep : (if row =? 0 then Ok x00 else vget GF_EXP row) = Ok (point rr)).
    { destruct (N.eqb_spec row 0) as [->|Hne]; [reflexivity|].
      rewrite GF_EXP_get by lia. unfold point. fold rr.
      destruct rr eqn:E; [lia|reflexivity]. }
    rewrite Ep. cbn [bind]. lookup.
    rewrite (@size_sub_small k 1), (@size_sub_small k 2) by lia.
    rewrite vset_ok by lia. cbn [bind].
    rewrite int_of_size_t_small by (change (2 ^ 31) with 2147483648; lia).
    set (p := point rr).
    set (P := vdm_poly kn).
    set (Q := quot p P).
    assert (HP : length P = S kn) by apply vdm_poly_length.
    assert (HQ : length Q = kn) by (unfold Q; rewrite quot_length, HP; reflexivity).
    assert (HQn : forall i, (i < kn)%nat -> nth i Q x00 = peval (skipn (S i) P) p).
    { intros i Hi. apply nth_quot. lia. }
    eapply returns_bind.
    + apply for_down_inv with
        (I := fun i (st : list byte * byte) =>
                length (fst st) = kn /\
                (forall m, (i < Z.of_nat m)%Z -> (m < kn)%nat ->
                           nth m (fst st) x00 = nth m Q x00) /\
                snd st = peval (skipn (Z.to_nat (i + 1)) Q) p); try lia.
      * cbn [fst snd]. split; [now rewrite upd_length|]. split.
        -- intros m Hm1 Hm2. assert (m = N.to_nat (k - 1)) as -> by lia.
           rewrite nth_upd_eq by lia.
           rewrite HQn by lia.
           replace (S (N.to_nat (k - 1))) with kn by lia.
           rewrite (@skipn_nth_cons P kn) by lia.
           rewrite skipn_all2 by lia. unfold P. rewrite vdm_poly_leading.
           simpl. ring.
        -- replace (Z.to_nat (Z.of_N (k - 2) + 1)) with (kn - 1)%nat by lia.
           rewrite (@skipn_nth_cons Q (kn - 1)) by lia.
           rewrite skipn_all2 by lia.
           rewrite HQn by lia.
           replace (S (kn - 1)) with kn by lia.
           rewrite (@skipn_nth_cons P kn) by lia.
           rewrite skipn_all2 by lia. unfold P. rewrite vdm_poly_leading.
           simpl. ring.
      * intros i [b t] Hi (Hbl & Hb & Ht). cbn [fst snd] in *.
        rewrite size_t_of_int_small by lia.
        set (im := Z.to_nat i).
        assert (Ei : N.to_nat (Z.to_N i) = im) by lia.
        assert (Ei1 : N.to_nat (Z.to_N i + 1) = S im) by lia.
        rewrite (@vget_ok _ c (Z.to_N i + 1) x00) by lia. cbn [bind].
        rewrite (@vget_ok _ b (Z.to_N i + 1) x00) by lia. cbn [bind].
        lookup.
        rewrite vset_ok by lia. cbn [bind].
        rewrite (@vget_ok _ _ (Z.to_N i) x00) by (rewrite upd_length; lia).
        cbn [bind]. lookup.
        apply returns_ok. cbn [fst snd].
        rewrite Ei, Ei1.
        rewrite nth_upd_eq by lia.
        assert (Enew : bxor (nth (S im) c x00) (gmul p (nth (S im) b x00)) = nth im Q x00).
        { rewrite HcP by lia. rewrite Hb by lia.
          rewrite (HQn im) by lia. rewrite (HQn (S im)) by lia.
          rewrite (@skipn_nth_cons P (S im)) by lia.
          reflexivity. }
        rewrite Enew.
        split; [now rewrite upd_length|]. split.
        -- intros m Hm1 Hm2. rewrite nth_upd.
           destruct (Nat.eqb_spec im m) as [<-|Hne].
           ++ destruct (Nat.ltb_spec im (length b)); [reflexivity|lia].
           ++ simpl. apply Hb; lia.
        -- rewrite Ht.
           replace (Z.to_nat (i + 1)) with (S im) by lia.
           replace (Z.to_nat (i - 1 + 1)) with im by lia.
           rewrite (@skipn_nth_cons Q im) by lia.
           reflexivity.
    + intros [b t] (Hbl & Hb & Ht). cbn [fst snd] in *.
      change (Z.to_nat (-1 + 1)) with 0%nat in Ht. cbn [skipn] in Ht.
      lookup.
      eapply returns_bind.
      * apply for_ne_inv with
          (I := fun col v =>
                  length v = L /\
                  forall col' r, (col' < kn)%nat ->
                    (r < rr \/ (r = rr /\ col' < N.to_nat col))%nat ->
                    nth (col' * kn + r) v x00 = vdm_entry kn col' r); try lia.
        -- split; auto. intros col' r Hc' [Hr|[_ Hr]]; [now apply Hent|].
           change (N.to_nat 0) with 0%nat in Hr. lia.
        -- intros col v Hcol (Hvl & Hv).
           rewrite (@vget_ok _ b col x00) by lia. cbn [bind]. lookup.
           assert (Eidx : N.to_nat (col * k + row) = (N.to_nat col * kn + rr)%nat) by lia.
           rewrite vset_ok by nia.
           apply returns_ok. split; [now rewrite upd_length|].
           intros col' r Hc' Hr. rewrite Eidx, nth_upd.
           destruct (Nat.eqb_spec (N.to_nat col * kn + rr) (col' * kn + r)) as [E|Hne].
           ++ apply index_inj in E; try lia. destruct E as [<- <-].
              destruct (Nat.ltb_spec (N.to_nat col * kn + rr) (length v)); [|nia].
              simpl. unfold vdm_entry. fold p P Q.
              rewrite Ht. f_equal. apply Hb; lia.
           ++ simpl. apply Hv; auto.
              destruct Hr as [Hr|[-> Hr]]; [now left|right].
              split; auto.
              assert (col' <> N.to_nat col) by (intros ->; apply Hne; reflexivity).
              lia.
      * intros v (Hvl & Hv). apply returns_ok.
        split; [|split]; cbn [fst snd]; auto.
        intros col r Hc' Hr. apply Hv; auto.
        destruct (Nat.eq_dec r rr); [right|left]; lia.
Qed.
End Vdm.

(** [create_inverted_vdm] writes the entries [vdm_entry] into the first
    [k * k] bytes. *)
Theorem create_inverted_vdm_spec (vdm : list byte) (k : N) :
  1 <= k <= 256 -> (N.to_nat k * N.to_nat k <= length vdm)%nat ->
  returns (create_inverted_vdm vdm k)
    (fun v => length v = length vdm /\
              forall i l, (i < N.to_nat k)%nat -> (l < N.to_nat k)%nat ->
                nth (i * N.to_nat k + l) v x00 = vdm_entry (N.to_nat k) i l).
Proof.
  intros Hk Hlen. unfold create_inverted_vdm.
  destruct (N.eqb_spec k 1) as [->|Hne].
  - change (N.to_nat 1) with 1%nat in *.
    rewrite vset_ok by lia. apply returns_ok.
    split; [now rewrite upd_length|].
    intros i l Hi Hl. assert (i = 0%nat) as -> by lia. assert (l = 0%nat) as -> by lia.
    simpl. destruct vdm; [simpl in Hlen; lia|]. reflexivity.
  - pose proof SIZE_WIDTH_eq as W.
    rewrite (@size_sub_small k 1) by lia.
    rewrite vset_ok by (rewrite repeat_length; lia). cbn [bind].
    assert (E : upd (repeat x00 (N.to_nat k)) (N.to_nat (k - 1)) x00 = repeat x00 (N.to_nat k)).
    { rewrite <- (@nth_repeat_x00 (N.to_nat k) (N.to_nat (k - 1))) at 2.
      apply upd_same. }
    rewrite E.
    eapply returns_bind.
    + apply coeffs_loop; lia.
    + intros c Hc.
      eapply returns_bind.
      * apply (@rows_loop k ltac:(lia) ltac:(lia) (length vdm) Hlen c Hc vdm eq_refl).
      * intros [v b] (Hv & _ & Hent). apply returns_ok. split; auto.
Qed.

(** * The sample points and interpolation *)

Lemma nodupb_NoDup l : nodupb l = true -> NoDup l.
Proof.
  induction l as [|x t IH]; intros H; constructor; simpl in H;
    apply andb_true_iff in H; destruct H as [H1 H2]; auto.
  intros Hin. apply negb_true_iff in H1.
  assert (E : existsb (Byte.eqb x) t = true).
  { apply existsb_exists. exists x. split; auto. now apply byte_eqb_eq. }
  congruence.
Qed.

Lemma points_NoDup_256 : NoDup (map point (seq 0 256)).
Proof. apply nodupb_NoDup. vm_compute. reflexivity. Qed.

Lemma points_NoDup k : (k <= 256)%nat -> NoDup (map point (seq 0 k)).
Proof.
  intros H. pose proof points_NoDup_256 as N.
  replace 256%nat with (k + (256 - k))%nat in N by lia.
  rewrite seq_app, map_app in N.
  now apply NoDup_app_remove_r in N.
Qed.

Lemma point_inj a b : (a < 256)%nat -> (b < 256)%nat -> point a = point b -> a = b.
Proof.
  intros Ha Hb E. pose proof points_NoDup_256 as N.
  rewrite (NoDup_nth _ x00) in N.
  specialize (N a b). rewrite length_map, length_seq in N.
  specialize (N Ha Hb).
  rewrite !nth_map_seq in N by lia.
  now apply N.
Qed.

Lemma point_In k m : (m < k)%nat -> In (point m) (map point (seq 0 k)).
Proof. intros H. apply in_map, in_seq. lia. Qed.

Section Interpolation.
Variable k : nat.
Hypothesis k_lo : (1 <= k)%nat.
Hypothesis k_hi : (k <= 256)%nat.

Let P := vdm_poly k.

Lemma vdm_poly_root m : (m < k)%nat -> peval P (point m) = x00.
Proof.
  intros H. apply peval_roots_poly_root. rewrite <- in_rev. now apply point_In.
Qed.

Lemma quot_length_k l : length (quot (point l) P) = k.
Proof. unfold P. now rewrite quot_length, vdm_poly_length. Qed.

Lemma quot_other_root l j :
  (l < k)%nat -> (j < k)%nat -> j <> l -> peval (quot (point l) P) (point j) = x00.
Proof.
  intros Hl Hj Hne.
  pose proof (quot_root (point l) P (point j) (vdm_poly_root Hl)) as E.
  rewrite (vdm_poly_root Hj) in E. symmetry in E.
  apply gmul_eq_0 in E. destruct E as [E|E]; auto.
  apply bxor_eq_0 in E. apply point_inj in E; try lia.
Qed.

Lemma quot_own_value l :
  (l < k)%nat -> peval (quot (point l) P) (point l) <> x00.
Proof.
  intros Hl Hz.
  assert (Z : Forall (fun c => c = x00) (quot (point l) P)).
  { apply (@roots_bound (map point (seq 0 k))).
    - now apply points_NoDup.
    - now rewrite quot_length_k, length_map, length_seq.
    - intros r Hr. apply in_map_iff in Hr. destruct Hr as (j & <- & Hj).
      apply in_seq in Hj.
      destruct (Nat.eq_dec j l) as [->|Hne]; auto.
      apply quot_other_root; lia. }
  rewrite Forall_forall in Z.
  assert (E : nth (k - 1) (quot (point l) P) x00 = x01).
  { rewrite nth_quot by (unfold P; rewrite vdm_poly_length; lia).
    replace (S (k - 1)) with k by lia.
    rewrite (@skipn_nth_cons P k) by (unfold P; rewrite vdm_poly_length; lia).
    rewrite skipn_all2 by (unfold P; rewrite vdm_poly_length; lia).
    unfold P. rewrite vdm_poly_leading. simpl. ring. }
  assert (E0 : nth (k - 1) (quot (point l) P) x00 = x00).
  { apply Z. apply nth_In. rewrite quot_length_k. lia. }
  rewrite E in E0. discriminate.
Qed.

(** The Vandermonde matrix times [vdm_entry] is the identity. *)
Lemma vdm_entry_inverse j l :
  (j < k)%nat -> (l < k)%nat ->
  gsum k (fun i => gmul (gpow (point j) i) (vdm_entry k i l))
  = if Nat.eqb j l then x01 else x00.
Proof.
  intros Hj Hl. unfold vdm_entry. fold P.
  set (b := quot (point l) P).
  set (t := peval b (point l)).
  rewrite (@gsum_ext k _ (fun i => gmul (ginv t) (gmul (nth i b x00) (gpow (point j) i))))
    by (intros; ring).
  rewrite gsum_scale.
  pose proof (peval_gsum b (point j)) as E.
  unfold b at 2 in E. rewrite quot_length_k in E. fold b in E. rewrite <- E.
  destruct (Nat.eqb_spec j l) as [->|Hne].
  - fold t. apply gmul_inv_l. now apply quot_own_value.
  - unfold b. rewrite quot_other_root by auto. ring.
Qed.

(** [vdm_entry] recovers the coefficients of a polynomial from its
    values at the [k] points. *)
Lemma vdm_entry_coefficients cs i :
  length cs = k -> (i < k)%nat ->
  gsum k (fun l => gmul (vdm_entry k i l) (peval cs (point l))) = nth i cs x00.
Proof.
  intros Hcs Hi.
  set (ds := map (fun i => gsum k (fun l => gmul (vdm_entry k i l) (peval cs (point l))))
                 (seq 0 k)).
  assert (E : ds = cs).
  { apply (@poly_eq_of_values (map point (seq 0 k))).
    - now apply points_NoDup.
    - unfold ds. now rewrite length_map, length_seq.
    - unfold ds. now rewrite !length_map, !length_seq.
    - intros r Hr. apply in_map_iff in Hr. destruct Hr as (j & <- & Hj).
      apply in_seq in Hj.
      rewrite (peval_gsum ds). unfold ds at 1. rewrite length_map, length_seq.
      rewrite (@gsum_ext k _
                 (fun i => gsum k (fun l =>
                    gmul (peval cs (point l))
                         (gmul (gpow (point j) i) (vdm_entry k i l))))).
      2:{ intros m Hm. unfold ds. rewrite nth_map_seq by lia. simpl.
          rewrite <- gsum_scale_r. apply gsum_ext. intros; ring. }
      rewrite gsum_exchange.
      rewrite (@gsum_ext k _
                 (fun l => if Nat.eqb l j then peval cs (point l) else x00)).
      2:{ intros l Hl. rewrite gsum_scale, vdm_entry_inverse by lia.
          rewrite Nat.eqb_sym. destruct (Nat.eqb l j); ring. }
      apply gsum_single. lia. }
  transitivity (nth i ds x00); [|now rewrite E].
  unfold ds. now rewrite nth_map_seq by lia.
Qed.

(** Row [r] of the encoding matrix maps the values of a polynomial of
    degree less than [k] at the first [k] points to its value at
    point [r]. *)
Theorem enc_entry_interpolates cs r :
  length cs = k ->
  gsum k (fun l => gmul (enc_entry k r l) (peval cs (point l))) = peval cs (point r).
Proof.
  intros Hcs. unfold enc_entry.
  destruct (Nat.ltb_spec r k) as [Hr|Hr].
  - rewrite (@gsum_ext k _ (fun l => if Nat.eqb l r then peval cs (point l) else x00)).
    + now apply gsum_single.
    + intros l Hl. rewrite Nat.eqb_sym. destruct (Nat.eqb l r); ring.
  - rewrite (@gsum_ext k _
               (fun l => gsum k (fun i =>
                  gmul (gpow (point r) i)
                       (gmul (vdm_entry k i l) (peval cs (point l)))))).
    2:{ intros l Hl. rewrite <- gsum_scale_r. apply gsum_ext. intros; ring. }
    rewrite gsum_exchange.
    rewrite (@gsum_ext k _ (fun i => gmul (nth i cs x00) (gpow (point r) i))).
    + rewrite (peval_gsum cs), Hcs. reflexivity.
    + intros i Hi. rewrite gsum_scale, vdm_entry_coefficients by auto. ring.
Qed.
End Interpolation.

(** * The constructor *)

Lemma div_mod_index r c n : (c < n)%nat -> ((r * n + c) / n = r /\ (r * n + c) mod n = c)%nat.
Proof.
  intros H. split.
  - rewrite Nat.div_add_l by lia. rewrite Nat.div_small by lia. lia.
  - rewrite Nat.add_comm, Nat.Div0.mod_add. now apply Nat.mod_small.
Qed.

Lemma index_decompose idx n : (0 < n)%nat -> idx = ((idx / n) * n + idx mod n)%nat.
Proof.
  intros H. rewrite Nat.mul_comm. apply Nat.div_mod_eq.
Qed.

Lemma row_bound r n m : (r < n)%nat -> (r * m + m <= n * m)%nat.
Proof.
  intros H. replace (r * m + m)%nat with (S r * m)%nat by (simpl; lia).
  apply Nat.mul_le_mono_r. lia.
Qed.

Lemma point_pos r : (1 <= r)%nat -> point r = gexp r.
Proof. destruct r; [lia|reflexivity]. Qed.

Section Constructor.
Variables k n : N.
Hypothesis k_lo : 1 <= k.
Hypothesis k_n : k <= n.
Hypothesis n_hi : n <= 256.

Let kn := N.to_nat k.
Let nn := N.to_nat n.

(** The lower part of [tmp_m]: row [r] holds the powers of point [r]. *)
Lemma fill_powers tmp1 :
  length tmp1 = (nn * kn)%nat ->
  returns
    (for_ne (k * k) (N.of_nat (length tmp1)) (fun i tmp_m =>
       e <- vget GF_EXP (((i / k) * (i mod k)) mod 255) ;;
       vset tmp_m i e) tmp1)
    (fun tmp => length tmp = (nn * kn)%nat /\
                (forall idx, (idx < kn * kn)%nat -> nth idx tmp x00 = nth idx tmp1 x00) /\
                forall r c, (kn <= r < nn)%nat -> (c < kn)%nat ->
                  nth (r * kn + c) tmp x00 = gpow (point r) c).
Proof.
  intros Hlen. pose proof SIZE_WIDTH_eq as W.
  assert (Hkk : (kn * kn <= nn * kn)%nat) by (apply Nat.mul_le_mono_r; lia).
  assert (Hnk : n * k <= 256 * 256) by (apply N.mul_le_mono; lia).
  eapply returns_weaken.
  - apply for_ne_inv with
      (I := fun i tmp =>
              length tmp = (nn * kn)%nat /\
              (forall idx, (idx < kn * kn)%nat -> nth idx tmp x00 = nth idx tmp1 x00) /\
              forall idx, (kn * kn <= idx < N.to_nat i)%nat ->
                nth idx tmp x00 = gpow (point (idx / kn)) (idx mod kn)); try lia.
    + repeat split; auto. intros idx Hidx. lia.
    + intros i tmp Hi (Hl & Hlow & Hup).
      set (im := N.to_nat i).
      assert (Er : N.to_nat (i / k) = (im / kn)%nat) by apply N2Nat.inj_div.
      assert (Ec : N.to_nat (i mod k) = (im mod kn)%nat) by apply N2Nat.inj_mod.
      assert (Hr : (kn <= im / kn < nn)%nat).
      { split.
        - apply Nat.div_le_lower_bound; lia.
        - apply Nat.Div0.div_lt_upper_bound. lia. }
      assert (Hc : (im mod kn < kn)%nat) by (apply Nat.mod_upper_bound; lia).
      rewrite GF_EXP_get by (pose proof (N.mod_upper_bound (i / k * (i mod k)) 255); lia).
      cbn [bind].
      rewrite vset_ok by lia.
      apply returns_ok. split; [now rewrite upd_length|]. split.
      * intros idx Hidx. rewrite nth_upd_neq by lia. now apply Hlow.
      * intros idx Hidx. rewrite nth_upd. fold im.
        destruct (Nat.eqb_spec im idx) as [<-|Hne].
        -- destruct (Nat.ltb_spec im (length tmp)); [|lia]. simpl.
           rewrite N2Nat.inj_mod, N2Nat.inj_mul, Er, Ec.
           change (N.to_nat 255) with 255%nat.
           rewrite gexp_mul by lia.
           now rewrite point_pos by lia.
        -- simpl. apply Hup. lia.
  - intros tmp (Hl & Hlow & Hup). repeat split; auto.
    intros r c Hr Hc.
    assert (kn * kn <= r * kn)%nat by (apply Nat.mul_le_mono_r; lia).
    assert (S r * kn <= nn * kn)%nat by (apply Nat.mul_le_mono_r; lia).
    rewrite Hup by lia.
    destruct (@div_mod_index r c kn Hc) as [-> ->]. reflexivity.
Qed.

(** The identity at the top of [enc_matrix]. *)
Lemma fill_identity :
  returns
    (for_ne 0 k (fun i enc_matrix => vset enc_matrix (i * (k + 1)) x01)
            (repeat x00 (N.to_nat (n * k))))
    (fun enc => length enc = (nn * kn)%nat /\
                forall r l, (r < kn)%nat -> (l < kn)%nat ->
                  nth (r * kn + l) enc x00 = if Nat.eqb r l then x01 else x00).
Proof.
  pose proof SIZE_WIDTH_eq as W.
  assert (Hkk : (kn * kn <= nn * kn)%nat) by (apply Nat.mul_le_mono_r; lia).
  eapply returns_weaken.
  - apply for_ne_inv with
      (I := fun i enc =>
              length enc = (nn * kn)%nat /\
              forall r l, (r < kn)%nat -> (l < kn)%nat ->
                nth (r * kn + l) enc x00
                = if Nat.eqb r l && Nat.ltb r (N.to_nat i) then x01 else x00); try lia.
    + split; [rewrite repeat_length; lia|].
      intros r l Hr Hl. rewrite nth_repeat_x00.
      change (N.to_nat 0) with 0%nat.
      destruct (Nat.ltb_spec r 0); [lia|]. now rewrite andb_false_r.
    + intros i enc Hi (Hl & Hent).
      assert (Eidx : N.to_nat (i * (k + 1)) = (N.to_nat i * kn + N.to_nat i)%nat) by lia.
      assert (S (N.to_nat i) * kn <= kn * kn)%nat by (apply Nat.mul_le_mono_r; lia).
      rewrite vset_ok by lia.
      apply returns_ok. split; [now rewrite upd_length|].
      intros r l Hr Hl'. rewrite Eidx, nth_upd.
      destruct (Nat.eqb_spec (N.to_nat i * kn + N.to_nat i) (r * kn + l)) as [E|Hne].
      * apply index_inj in E; try lia. destruct E as [<- <-].
        destruct (Nat.ltb_spec (N.to_nat i * kn + N.to_nat i) (length enc));
          [|lia].
        rewrite Nat.eqb_refl.
        destruct (Nat.ltb_spec (N.to_nat i) (N.to_nat (i + 1))); [reflexivity|lia].
      * simpl. rewrite Hent by auto.
        destruct (Nat.eqb_spec r l) as [<-|Hrl]; simpl; auto.
        destruct (Nat.ltb_spec r (N.to_nat i)), (Nat.ltb_spec r (N.to_nat (i + 1)));
          auto; try lia.
        assert (r = N.to_nat i) by lia. subst r. contradiction.
  - intros enc (Hl & Hent). split; auto.
    intros r l Hr Hl'. rewrite Hent by auto.
    destruct (Nat.ltb_spec r (N.to_nat k)); [|lia]. now rewrite andb_true_r.
Qed.

Variable tmp : list byte.
Hypothesis tmp_length : length tmp = (nn * kn)%nat.
Hypothesis tmp_upper : forall i l, (i < kn)%nat -> (l < kn)%nat ->
  nth (i * kn + l) tmp x00 = vdm_entry kn i l.
Hypothesis tmp_lower : forall r c, (kn <= r < nn)%nat -> (c < kn)%nat ->
  nth (r * kn + c) tmp x00 = gpow (point r) c.

Lemma product_entry_spec r col :
  (kn <= r < nn)%nat -> (col < kn)%nat ->
  product_entry tmp k (N.of_nat (r * kn)) (N.of_nat col) = Ok (enc_entry kn r col).
Proof.
  intros Hr Hcol. pose proof SIZE_WIDTH_eq as W.
  assert (Hkk : (kn * kn <= nn * kn)%nat) by (apply Nat.mul_le_mono_r; lia).
  assert (Hrk : (r * kn + kn <= nn * kn)%nat) by (apply row_bound; lia).
  unfold product_entry.
  assert (R : returns (product_loop tmp k (N.of_nat (r * kn)) (N.of_nat col))
    (fun st => fst st = enc_entry kn r col)).
  { unfold product_loop. eapply returns_weaken.
    - apply for_lt_inv with
        (I := fun i (st : byte * (N * N)) =>
                fst st = gsum (N.to_nat i)
                           (fun m => gmul (gpow (point r) m) (vdm_entry kn m col)) /\
                fst (snd st) = N.of_nat (r * kn) + i /\
                snd (snd st) = N.of_nat col + i * k); try lia.
      + cbn [fst snd]. repeat split; lia.
      + intros i [acc [pa pb]] Hi (Hacc & Hpa & Hpb). cbn [fst snd] in *. subst pa pb.
        assert (S (N.to_nat i) * kn <= kn * kn)%nat by (apply Nat.mul_le_mono_r; lia).
        rewrite (@vget_ok _ tmp _ x00) by lia. cbn [bind].
        rewrite (@vget_ok _ tmp _ x00) by lia. cbn [bind].
        lookup. apply returns_ok. cbn [fst snd].
        replace (N.to_nat (i + 1)) with (S (N.to_nat i)) by lia.
        cbn [gsum]. rewrite <- Hacc.
        replace (N.to_nat (N.of_nat (r * kn) + i)) with (r * kn + N.to_nat i)%nat by lia.
        replace (N.to_nat (N.of_nat col + i * k)) with (N.to_nat i * kn + col)%nat by lia.
        rewrite tmp_lower, tmp_upper by lia.
        repeat split; lia.
    - intros [acc [pa pb]] (Hacc & _). cbn [fst] in *. rewrite Hacc.
      unfold enc_entry. destruct (Nat.ltb_spec r kn); [lia|]. reflexivity. }
  destruct R as ([acc [pa pb]] & E & Hacc). cbn [fst] in Hacc.
  rewrite E. cbn [bind]. now rewrite Hacc.
Qed.

Lemma fill_product enc0 :
  length enc0 = (nn * kn)%nat ->
  (forall r l, (r < kn)%nat -> (l < kn)%nat ->
     nth (r * kn + l) enc0 x00 = if Nat.eqb r l then x01 else x00) ->
  returns
    (loop_ne (N.to_nat n) (k * k) (n * k) k (fun row enc_matrix =>
       for_lt 0 k (fun col enc_matrix =>
         acc <- product_entry tmp k row col ;;
         vset enc_matrix (row + col) acc) enc_matrix) enc0)
    (fun enc => length enc = (nn * kn)%nat /\
                forall r l, (r < nn)%nat -> (l < kn)%nat ->
                  nth (r * kn + l) enc x00 = enc_entry kn r l).
Proof.
  intros Hlen Hid. pose proof SIZE_WIDTH_eq as W.
  assert (Hkk : (kn * kn <= nn * kn)%nat) by (apply Nat.mul_le_mono_r; lia).
  assert (Hnk : n * k <= 256 * 256) by (apply N.mul_le_mono; lia).
  eapply returns_weaken.
  - apply loop_ne_step_inv with
      (cnt := (nn - kn)%nat)
      (I := fun row enc =>
              length enc = (nn * kn)%nat /\
              forall r l, (r * kn < N.to_nat row)%nat -> (l < kn)%nat ->
                nth (r * kn + l) enc x00 = enc_entry kn r l); try lia.
    + unfold nn, kn. rewrite Nat2N.inj_sub, !N2Nat.id, N.mul_sub_distr_r.
      assert (k * k <= n * k) by (apply N.mul_le_mono_r; lia). lia.
    + split; auto. intros r l Hr Hl.
      assert (r < kn)%nat by (apply (Nat.mul_lt_mono_pos_r kn); lia).
      rewrite Hid by auto. unfold enc_entry.
      destruct (Nat.ltb_spec r kn); [reflexivity|lia].
    + intros row enc Hrow (j & Hj) (Hl & Hent).
      assert (Erow : N.to_nat row = ((kn + N.to_nat j) * kn)%nat) by lia.
      set (r0 := (kn + N.to_nat j)%nat) in *.
      assert (Hr0 : (kn <= r0 < nn)%nat).
      { split; [lia|]. apply (Nat.mul_lt_mono_pos_r kn); lia. }
      assert (Hrk : (r0 * kn + kn <= nn * kn)%nat) by (apply row_bound; lia).
      eapply returns_weaken.
      * apply for_lt_inv with
          (I := fun col enc' =>
                  length enc' = (nn * kn)%nat /\
                  forall r l, (l < kn)%nat ->
                    (r < r0 \/ (r = r0 /\ l < N.to_nat col))%nat ->
                    nth (r * kn + l) enc' x00 = enc_entry kn r l); try lia.
        -- split; auto. intros r l Hl' [Hr|[_ Hr]]; [|lia].
           apply Hent; auto. rewrite Erow. apply Nat.mul_lt_mono_pos_r; lia.
        -- intros col enc' Hcol (Hl' & Hent').
           replace row with (N.of_nat (r0 * kn)) by lia.
           replace col with (N.of_nat (N.to_nat col)) at 1 by lia.
           rewrite product_entry_spec by lia. cbn [bind].
           rewrite vset_ok by lia.
           apply returns_ok. split; [now rewrite upd_length|].
           intros r l Hl2 Hr.
           replace (N.to_nat (N.of_nat (r0 * kn) + col)) with (r0 * kn + N.to_nat col)%nat by lia.
           rewrite nth_upd.
           destruct (Nat.eqb_spec (r0 * kn + N.to_nat col) (r * kn + l)) as [E|Hne].
           ++ apply index_inj in E; try lia. destruct E as [<- <-].
              destruct (Nat.ltb_spec (r0 * kn + N.to_nat col) (length enc'));
                [reflexivity|lia].
           ++ simpl. apply Hent'; auto.
              destruct Hr as [Hr|[-> Hr]]; [now left|right]. split; auto.
              assert (l <> N.to_nat col) by (intros ->; now apply Hne). lia.
      * intros enc' (Hl' & Hent'). split; auto.
        intros r l Hr Hl2. apply Hent'; auto.
        assert (r < S r0)%nat by (apply (Nat.mul_lt_mono_pos_r kn); lia).
        destruct (Nat.eq_dec r r0); [right|left]; lia.
  - intros enc (Hl & Hent). split; auto.
    intros r l Hr Hl'. apply Hent; auto.
    replace (N.to_nat (n * k)) with (nn * kn)%nat by lia.
    apply Nat.mul_lt_mono_pos_r; lia.
Qed.
End Constructor.

(** A vector within [max_size()]. *)
Lemma vector_new_ok (count : size_t) :
  count <= max_size -> vector_new count = Ok (repeat x00 (N.to_nat count)).
Proof.
  intros H. unfold vector_new. destruct (N.ltb_spec max_size count); [lia | reflexivity].
Qed.

Lemma size_mul_small (a b : size_t) : a * b < SIZE_WIDTH -> size_mul a b = a * b.
Proof. intros H. unfold size_mul. now apply N.mod_small. Qed.

(** For [1 <= k <= n <= 256] the constructor returns the configuration
    with the encoding matrix [enc_entry]. *)
Theorem fec_code_ctor_spec (k n : N) :
  1 <= k -> k <= n -> n <= 256 ->
  returns (fec_code_ctor k n)
          (fun self => fec_k self = k /\ fec_n self = n /\ valid_code self).
Proof.
  intros Hk Hkn Hn. unfold fec_code_ctor. cbv zeta.
  pose proof SIZE_WIDTH_eq as W.
  assert (Hnk : n * k <= 65536) by nia.
  rewrite size_mul_small by lia.
  rewrite vector_new_ok by (unfold max_size; cbn; lia). cbn [bind].
  destruct (N.ltb_spec 256 k); [lia|]. destruct (N.ltb_spec 256 n); [lia|].
  destruct (N.ltb_spec n k); [lia|]. cbn [orb].
  assert (Hkk : (N.to_nat k * N.to_nat k <= N.to_nat n * N.to_nat k)%nat)
    by (apply Nat.mul_le_mono_r; lia).
  eapply returns_bind.
  { apply create_inverted_vdm_spec; [lia|]. rewrite repeat_length. lia. }
  intros tmp1 (Hl1 & Hent1). rewrite repeat_length in Hl1.
  eapply returns_bind.
  { apply (@fill_powers k n); auto. lia. }
  intros tmp (Hl & Hlow & Hup).
  eapply returns_bind.
  { apply (@fill_identity k n); auto. }
  intros enc0 (Hl0 & Hid).
  eapply returns_bind.
  { apply (@fill_product k n Hk Hkn Hn tmp Hl); auto.
    intros i l Hi Hl'. rewrite Hlow.
    - now apply Hent1.
    - assert (S i * N.to_nat k <= N.to_nat k * N.to_nat k)%nat
        by (apply Nat.mul_le_mono_r; lia).
      lia. }
  intros enc (Hle & Hent). apply returns_ok. cbn.
  repeat split; auto.
Qed.

(** * Gauss-Jordan elimination *)

Section Exchange.
Variable k : nat.
Variable A : nat -> nat -> byte.

Lemma exchanged_init : exchanged k A A 0.
Proof. intros x i Hi. reflexivity. Qed.

Lemma exchanged_pivot_nonzero B c :
  exchanged k A B c -> (c < k)%nat -> independent k A c -> B c c <> x00.
Proof.
  intros HB Hc (x & Hafter & Hbefore & Hown) Hz.
  specialize (HB x c Hc). rewrite Nat.ltb_irrefl in HB.
  apply Hown. rewrite HB. apply gsum_all_zero. intros j Hj.
  destruct (Nat.ltb_spec j c) as [Hlt|Hge].
  - rewrite Hbefore by lia. ring.
  - destruct (Nat.eq_dec j c) as [->|Hne].
    + rewrite Hz. ring.
    + rewrite Hafter by lia. ring.
Qed.

Lemma exchanged_step B c :
  exchanged k A B c -> (c < k)%nat -> B c c <> x00 ->
  exchanged k A (pivot_step B c) (S c).
Proof.
  intros HB Hc Hnz x i Hi.
  set (y := mulv k A x).
  set (u := fun j => if Nat.ltb j c then y j else x j).
  set (rest := fun i => gsum k (fun j => if Nat.eqb j c then x00 else gmul (B i j) (u j))).
  set (piv := ginv (B c c)).
  assert (Hpiv : gmul piv (B c c) = x01) by (now apply gmul_inv_l).
  assert (Hrow : forall i, (i < k)%nat ->
            (if Nat.ltb i c then x i else y i) = bxor (gmul (B i c) (x c)) (rest i)).
  { intros i' Hi'. unfold y, rest, u. rewrite (HB x i' Hi').
    rewrite (@gsum_split k c) by exact Hc.
    rewrite Nat.ltb_irrefl. reflexivity. }
  assert (Hyc : y c = bxor (gmul (B c c) (x c)) (rest c)).
  { rewrite <- Hrow by exact Hc. now rewrite Nat.ltb_irrefl. }
  change (mulv k A x) with y.
  rewrite (@gsum_split k c) by exact Hc.
  destruct (Nat.ltb_spec c (S c)) as [_|]; [|lia].
  destruct (Nat.eq_dec i c) as [->|Hne].
  - (* the pivot row *)
    destruct (Nat.ltb_spec c (S c)) as [_|]; [|lia].
    rewrite (@gsum_ext k _ (fun j => gmul piv (if Nat.eqb j c then x00 else gmul (B c j) (u j)))).
    2:{ intros j Hj. unfold pivot_step. rewrite Nat.eqb_refl. fold piv.
        destruct (Nat.eqb_spec j c) as [->|Hjc]; [ring|].
        unfold u. destruct (Nat.ltb_spec j c), (Nat.ltb_spec j (S c)); try lia; ring. }
    rewrite gsum_scale. fold (rest c).
    unfold pivot_step. rewrite !Nat.eqb_refl. fold piv. rewrite Hyc.
    transitivity (bxor (gmul (gmul piv (B c c)) (x c))
                       (bxor (gmul piv (rest c)) (gmul piv (rest c)))); [|ring].
    rewrite Hpiv, bxor_nilpotent. ring.
  - (* another row *)
    rewrite (@gsum_ext k _
               (fun j => bxor (if Nat.eqb j c then x00 else gmul (B i j) (u j))
                              (gmul (gmul (B i c) piv)
                                    (if Nat.eqb j c then x00 else gmul (B c j) (u j))))).
    2:{ intros j Hj. unfold pivot_step. fold piv.
        destruct (Nat.eqb_spec i c) as [|_]; [contradiction|].
        destruct (Nat.eqb_spec j c) as [->|Hjc]; [ring|].
        unfold u. destruct (Nat.ltb_spec j c), (Nat.ltb_spec j (S c)); try lia; ring. }
    rewrite gsum_add, gsum_scale. fold (rest i). fold (rest c).
    unfold pivot_step. fold piv.
    destruct (Nat.eqb_spec i c) as [|_]; [contradiction|].
    rewrite Nat.eqb_refl. rewrite Hyc.
    transitivity (if Nat.ltb i c then x i else y i).
    { destruct (Nat.ltb_spec i c), (Nat.ltb_spec i (S c)); auto; lia. }
    rewrite Hrow by exact Hi.
    transitivity (bxor (bxor (gmul (gmul (B i c) (gmul piv (B c c))) (x c)) (rest i))
                       (bxor (gmul (gmul (B i c) piv) (rest c))
                             (gmul (gmul (B i c) piv) (rest c)))); [|ring].
    rewrite Hpiv, bxor_nilpotent. ring.
Qed.

(** When all [k] pivots are done the matrix is a left inverse. *)
Lemma exchanged_final B x i :
  exchanged k A B k -> (i < k)%nat ->
  x i = gsum k (fun j => gmul (B i j) (mulv k A x j)).
Proof.
  intros HB Hi. specialize (HB x i Hi).
  destruct (Nat.ltb_spec i k); [|lia].
  rewrite HB. apply gsum_ext. intros j Hj.
  destruct (Nat.ltb_spec j k); [reflexivity|lia].
Qed.
End Exchange.

(** * [invert_matrix] *)

Lemma bytes_eqb_eq a b : bytes_eqb a b = true <-> a = b.
Proof.
  revert b. induction a as [|x a IH]; intros [|y b]; simpl; split; intros H;
    try discriminate; auto.
  - apply andb_true_iff in H. destruct H as [H1 H2].
    apply byte_eqb_eq in H1. apply IH in H2. now subst.
  - injection H as -> ->. apply andb_true_iff. split.
    + now apply byte_eqb_eq.
    + now apply IH.
Qed.

Lemma pivot_search_diagonal (ipiv : list bool) (col : N) (src : list byte) :
  col < N.of_nat (length ipiv) ->
  nth (N.to_nat col) ipiv false = false ->
  (N.to_nat col * length ipiv + N.to_nat col < length src)%nat ->
  nth (N.to_nat col * length ipiv + N.to_nat col) src x00 <> x00 ->
  pivot_search ipiv col src = Ok (upd ipiv (N.to_nat col) true, (col, col)).
Proof.
  intros Hcol Hfree Hlen Hnz. unfold pivot_search.
  rewrite (@vget_ok _ ipiv col false) by lia. cbn [bind]. rewrite Hfree.
  rewrite (@vget_ok _ src _ x00) by lia. cbn [bind].
  replace (N.to_nat (col * N.of_nat (length ipiv) + col))
    with (N.to_nat col * length ipiv + N.to_nat col)%nat by lia.
  apply byte_eqb_neq in Hnz. rewrite Hnz. cbn [negb].
  rewrite vset_ok by lia. reflexivity.
Qed.

Lemma cell_index i j n : (i < n)%nat -> (j < n)%nat -> (i * n + j < n * n)%nat.
Proof.
  intros Hi Hj. pose proof (@row_bound i n n Hi). lia.
Qed.

Section Column.
Variable k : N.
Hypothesis k_hi : k <= 256.
Let kn := N.to_nat k.

Variable B : nat -> nat -> byte.
Variable c : nat.
Hypothesis c_lt : (c < kn)%nat.

Let piv := ginv (B c c).
Let prow := fun j => if Nat.eqb j c then piv else gmul piv (B c j).

Lemma row_index i j : (i < kn)%nat -> (j < kn)%nat -> (i * kn + j < kn * kn)%nat.
Proof.
  intros Hi Hj. pose proof (@row_bound i kn kn Hi). lia.
Qed.

(** The pivot row after [normalize_row]. *)
Lemma normalize_row_spec src :
  length src = (kn * kn)%nat ->
  (forall i j, (i < kn)%nat -> (j < kn)%nat -> mat kn src i j = B i j) ->
  returns (normalize_row k (N.of_nat (c * kn)) (N.of_nat c) (B c c) src)
    (fun src' => length src' = (kn * kn)%nat /\
                 forall i j, (i < kn)%nat -> (j < kn)%nat ->
                   mat kn src' i j = if Nat.eqb i c then prow j else B i j).
Proof.
  intros Hlen HB. pose proof SIZE_WIDTH_eq as W.
  pose proof (row_index c_lt c_lt) as Hcc.
  unfold normalize_row. lookup.
  rewrite vset_ok by lia. cbn [bind]. lookup.
  replace (N.to_nat (N.of_nat (c * kn) + N.of_nat c)) with (c * kn + c)%nat by lia.
  eapply returns_weaken.
  - apply for_ne_inv with
      (I := fun i src' =>
              length src' = (kn * kn)%nat /\
              forall i' j, (i' < kn)%nat -> (j < kn)%nat ->
                mat kn src' i' j =
                if Nat.eqb i' c then
                  (if Nat.ltb j (N.to_nat i) then prow j
                   else if Nat.eqb j c then x01 else B c j)
                else B i' j); try lia.
    + split; [now rewrite upd_length|].
      intros i' j Hi' Hj. unfold mat. rewrite nth_upd.
      change (N.to_nat 0) with 0%nat.
      destruct (Nat.ltb_spec j 0); [lia|].
      destruct (Nat.eqb_spec (c * kn + c) (i' * kn + j)) as [E|Hne].
      * apply index_inj in E; try lia. destruct E as [<- <-].
        rewrite !Nat.eqb_refl.
        destruct (Nat.ltb_spec (c * kn + c) (length src)); [reflexivity|lia].
      * simpl. fold (mat kn src i' j). rewrite HB by auto.
        destruct (Nat.eqb_spec i' c) as [->|]; auto.
        destruct (Nat.eqb_spec j c) as [->|]; auto. contradiction.
    + intros i src' Hi (Hl' & Hent).
      pose proof (@row_index c (N.to_nat i) c_lt ltac:(lia)) as Hci.
      rewrite (@vget_ok _ src' _ x00) by lia. cbn [bind]. lookup.
      rewrite vset_ok by lia.
      apply returns_ok. split; [now rewrite upd_length|].
      intros i' j Hi' Hj. unfold mat.
      replace (N.to_nat (N.of_nat (c * kn) + i)) with (c * kn + N.to_nat i)%nat by lia.
      rewrite nth_upd.
      destruct (Nat.eqb_spec (c * kn + N.to_nat i) (i' * kn + j)) as [E|Hne].
      * apply index_inj in E; try lia. destruct E as [<- <-].
        destruct (Nat.ltb_spec (c * kn + N.to_nat i) (length src')); [|lia].
        rewrite Nat.eqb_refl.
        destruct (Nat.ltb_spec (N.to_nat i) (N.to_nat (i + 1))); [|lia].
        cbn [andb]. fold (mat kn src' c (N.to_nat i)). rewrite Hent by lia.
        rewrite Nat.eqb_refl, Nat.ltb_irrefl.
        unfold prow. fold piv.
        destruct (Nat.eqb_spec (N.to_nat i) c); [ring|reflexivity].
      * simpl. fold (mat kn src' i' j). rewrite Hent by auto.
        destruct (Nat.eqb_spec i' c) as [->|]; auto.
        destruct (Nat.ltb_spec j (N.to_nat i)), (Nat.ltb_spec j (N.to_nat (i + 1)));
          auto; lia.
  - intros src' (Hl' & Hent). split; auto.
    intros i j Hi Hj. rewrite Hent by auto.
    destruct (Nat.ltb_spec j (N.to_nat k)); [reflexivity|lia].
Qed.

(** The other rows after [eliminate], the pivot row being [prow]. *)
Lemma eliminate_spec src :
  length src = (kn * kn)%nat ->
  (forall i j, (i < kn)%nat -> (j < kn)%nat ->
     mat kn src i j = if Nat.eqb i c then prow j else B i j) ->
  returns (eliminate k (N.of_nat (c * kn)) (N.of_nat c) src)
    (fun src' => length src' = (kn * kn)%nat /\
                 forall i j, (i < kn)%nat -> (j < kn)%nat ->
                   mat kn src' i j = pivot_step B c i j).
Proof.
  intros Hlen HB. pose proof SIZE_WIDTH_eq as W.
  assert (Hkk : (kn * kn <= 256 * kn)%nat) by (apply Nat.mul_le_mono_r; lia).
  unfold eliminate.
  eapply returns_bind with
    (P := fun st : list byte * N =>
            length (fst st) = (kn * kn)%nat /\
            forall i j, (i < kn)%nat -> (j < kn)%nat ->
              mat kn (fst st) i j = pivot_step B c i j).
  - eapply returns_weaken.
    + apply for_ne_inv with
        (I := fun i (st : list byte * N) =>
                snd st = i * k /\
                length (fst st) = (kn * kn)%nat /\
                forall i' j, (i' < kn)%nat -> (j < kn)%nat ->
                  mat kn (fst st) i' j =
                  if Nat.ltb i' (N.to_nat i) then pivot_step B c i' j
                  else if Nat.eqb i' c then prow j else B i' j); try lia.
      * cbn [fst snd]. repeat split; auto.
      * intros i [src' p] Hi (Hp & Hl' & Hent). cbn [fst snd] in *. subst p.
        set (im := N.to_nat i) in *.
        assert (Him : (im < kn)%nat) by lia.
        destruct (N.eqb_spec i (N.of_nat c)) as [Eic|Hic]; cbn [negb bind].
        -- (* the pivot row itself *)
           apply returns_ok. cbn [fst snd]. repeat split; auto; try lia.
           intros i' j Hi' Hj. rewrite Hent by auto.
           destruct (Nat.ltb_spec i' im), (Nat.ltb_spec i' (N.to_nat (i + 1)));
             auto; try lia.
           assert (i' = c) by lia. subst i'.
           rewrite Nat.eqb_refl. unfold pivot_step. rewrite Nat.eqb_refl. reflexivity.
        -- pose proof (@row_index im c Him c_lt) as Hic'.
           pose proof (@row_bound im kn kn Him) as Hrow.
           pose proof (@row_bound c kn kn c_lt) as Hcrow.
           rewrite (@vget_ok _ src' _ x00) by lia. cbn [bind].
           rewrite vset_ok by lia. cbn [bind].
           replace (N.to_nat (i * k + N.of_nat c)) with (im * kn + c)%nat by lia.
           rewrite int_of_size_t_small by (change (2 ^ 31) with 2147483648; lia).
           replace (Z.of_N (i * k)) with (Z.of_nat (im * kn)) by lia.
           replace (Z.of_N (N.of_nat (c * kn))) with (Z.of_nat (c * kn)) by lia.
           replace (Z.of_N k) with (Z.of_nat kn) by lia.
           rewrite addmul_spec.
           2:{ rewrite upd_length. lia. }
           2:{ simpl. rewrite upd_length. lia. }
           2:{ intros _.
               destruct (Nat.lt_ge_cases im c) as [Hlt|Hge].
               - right. pose proof (@row_bound im c kn Hlt). lia.
               - left. assert (Hlt : (c < im)%nat) by lia.
                 pose proof (@row_bound c im kn Hlt). lia. }
           2:{ rewrite upd_length. lia. }
           cbn [bind]. apply returns_ok. cbn [fst snd].
           split; [lia|]. split; [now rewrite addmul_result_length, upd_length|].
           intros i' j Hi' Hj. unfold mat.
           pose proof (@row_index i' j Hi' Hj) as Hij.
           rewrite nth_addmul_result. cbn [src_data].
           rewrite upd_length.
           destruct (Nat.ltb_spec (i' * kn + j) (length src')) as [_|]; [|lia].
           rewrite andb_true_r.
           assert (Hpivrow : forall j', (j' < kn)%nat ->
                     nth (c * kn + j') (upd src' (im * kn + c) x00) x00 = prow j').
           { intros j' Hj'. rewrite nth_upd_neq.
             - fold (mat kn src' c j'). rewrite Hent by auto.
               destruct (Nat.ltb_spec c im) as [Hlt|_].
               + unfold pivot_step. rewrite Nat.eqb_refl. reflexivity.
               + now rewrite Nat.eqb_refl.
             - intros E. apply index_inj in E; lia. }
           destruct (Nat.eq_dec i' im) as [->|Hne].
           ++ destruct (Nat.leb_spec (im * kn) (im * kn + j)); [|lia].
              destruct (Nat.ltb_spec (im * kn + j) (im * kn + kn)); [|lia].
              cbn [andb].
              replace (im * kn + j - im * kn)%nat with j by lia.
              rewrite Hpivrow by auto.
              destruct (Nat.ltb_spec im (N.to_nat (i + 1))); [|lia].
              fold (mat kn src' im c). rewrite (Hent im c) by auto.
              destruct (Nat.ltb_spec im im); [lia|].
              destruct (Nat.eqb_spec im c) as [|_]; [lia|].
              unfold pivot_step.
              destruct (Nat.eqb_spec im c) as [|_]; [lia|].
              rewrite nth_upd.
              destruct (Nat.eqb_spec (im * kn + c) (im * kn + j)) as [E|Hjc].
              ** assert (j = c) as -> by lia.
                 destruct (Nat.ltb_spec (im * kn + c) (length src')); [|lia].
                 cbn [andb]. rewrite Nat.eqb_refl.
                 unfold prow. rewrite Nat.eqb_refl. fold piv. ring.
              ** cbn [andb]. fold (mat kn src' im j). rewrite Hent by auto.
                 destruct (Nat.ltb_spec im im); [lia|].
                 destruct (Nat.eqb_spec im c) as [|_]; [lia|].
                 unfold prow.
                 destruct (Nat.eqb_spec j c) as [->|_]; [lia|].
                 reflexivity.
           ++ assert (Hout : (Nat.leb (im * kn) (i' * kn + j)
                              && Nat.ltb (i' * kn + j) (im * kn + kn)) = false).
              { destruct (Nat.lt_ge_cases i' im) as [Hlt|Hge].
                - pose proof (@row_bound i' im kn Hlt).
                  destruct (Nat.leb_spec (im * kn) (i' * kn + j)); [lia|reflexivity].
                - assert (Hlt : (im < i')%nat) by lia.
                  pose proof (@row_bound im i' kn Hlt).
                  destruct (Nat.ltb_spec (i' * kn + j) (im * kn + kn)); [lia|].
                  apply andb_false_r. }
              rewrite Hout.
              rewrite nth_upd_neq by (intros E; apply index_inj in E; lia).
              fold (mat kn src' i' j). rewrite Hent by auto.
              destruct (Nat.ltb_spec i' im), (Nat.ltb_spec i' (N.to_nat (i + 1)));
                auto; lia.
    + intros [src' p] (_ & Hl' & Hent). cbn [fst snd] in *. split; auto.
      intros i j Hi Hj. rewrite Hent by auto.
      destruct (Nat.ltb_spec i (N.to_nat k)); [reflexivity|lia].
  - intros [src' p] (Hl' & Hent). cbn [fst snd] in *. apply returns_ok. auto.
Qed.
End Column.

Lemma upd_upd_repeat kn c (x : byte) :
  upd (upd (repeat x00 kn) c x) c x00 = repeat x00 kn.
Proof.
  apply (@list_ext_nth _ _ _ x00).
  - now rewrite !upd_length.
  - intros i Hi. rewrite !nth_upd, nth_repeat_x00, upd_length.
    now destruct (Nat.eqb c i && Nat.ltb c (length (repeat x00 kn))).
Qed.

Lemma invert_column_spec (k : N) (B : nat -> nat -> byte) (c : nat) (st : gauss_jordan) :
  k <= 256 -> (c < N.to_nat k)%nat -> B c c <> x00 ->
  gj_ok (N.to_nat k) c B st ->
  returns (invert_column k (N.of_nat c) st) (gj_ok (N.to_nat k) (S c) (pivot_step B c)).
Proof.
  intros Hk Hc Hnz (Hlen & HB & Hr & Hcl & Hrc & Hid & Hpl & Hp).
  set (kn := N.to_nat k) in *.
  pose proof (@cell_index c c kn Hc Hc) as Hcc.
  pose proof (@row_bound c kn kn Hc) as Hcrow.
  unfold invert_column.
  rewrite pivot_search_diagonal; rewrite ?Hpl, ?Nat2N.id; try lia.
  2:{ rewrite Hp by lia. apply Nat.ltb_irrefl. }
  2:{ fold (mat kn (gj_src st) c c). now rewrite HB. }
  cbn [bind fst snd]. rewrite N.eqb_refl. cbn [negb bind].
  rewrite !vset_ok by lia. cbn [bind].
  rewrite (@vget_ok _ (gj_src st) _ x00) by lia. cbn [bind].
  replace (N.to_nat (N.of_nat c * k + N.of_nat c)) with (c * kn + c)%nat by lia.
  fold (mat kn (gj_src st) c c). rewrite HB by auto.
  pose proof Hnz as Hnz'. apply byte_eqb_neq in Hnz'. rewrite Hnz'.
  set (piv := ginv (B c c)).
  set (prow := fun j => if Nat.eqb j c then piv else gmul piv (B c j)).
  replace (N.of_nat c * k) with (N.of_nat (c * kn)) by lia.
  eapply returns_bind with
    (P := fun src2 => length src2 = (kn * kn)%nat /\
                      forall i j, (i < kn)%nat -> (j < kn)%nat ->
                        mat kn src2 i j = if Nat.eqb i c then prow j else B i j).
  { destruct (Byte.eqb (B c c) x01) eqn:E1; cbn [negb].
    - apply byte_eqb_eq in E1. apply returns_ok. split; auto.
      intros i j Hi Hj. rewrite HB by auto.
      destruct (Nat.eqb_spec i c) as [->|]; auto.
      unfold prow, piv. rewrite E1.
      destruct (Nat.eqb_spec j c) as [->|]; [now rewrite E1|].
      change (ginv x01) with x01. ring.
    - apply normalize_row_spec; auto. }
  intros src2 (Hl2 & H2).
  rewrite Hid. rewrite vset_ok by (rewrite repeat_length; lia). cbn [bind].
  unfold memcmp_ne.
  rewrite !vslice_ok by (rewrite ?upd_length, ?repeat_length; lia). cbn [bind].
  rewrite !Nat2N.id. change (N.to_nat 0) with 0%nat. cbn [skipn]. fold kn.
  set (id_row := upd (repeat x00 kn) c x01).
  eapply returns_bind with
    (P := fun src3 => length src3 = (kn * kn)%nat /\
                      forall i j, (i < kn)%nat -> (j < kn)%nat ->
                        mat kn src3 i j = pivot_step B c i j).
  { destruct (bytes_eqb (firstn kn (skipn (c * kn) src2)) (firstn kn id_row)) eqn:E;
      cbn [negb].
    - apply bytes_eqb_eq in E. apply returns_ok. split; auto.
      assert (Hprow : forall j, (j < kn)%nat -> prow j = if Nat.eqb j c then x01 else x00).
      { intros j Hj.
        assert (E' : nth j (firstn kn (skipn (c * kn) src2)) x00
                     = nth j (firstn kn id_row) x00) by now rewrite E.
        rewrite nth_slice in E' by exact Hj.
        fold (mat kn src2 c j) in E'. rewrite H2, Nat.eqb_refl in E' by auto.
        rewrite E'. rewrite nth_firstn.
        destruct (Nat.ltb_spec j kn); [|lia].
        unfold id_row. rewrite nth_upd, nth_repeat_x00, repeat_length.
        rewrite Nat.eqb_sym.
        destruct (Nat.ltb_spec c kn); [|lia]. now rewrite andb_true_r. }
      intros i j Hi Hj. rewrite H2 by auto. unfold pivot_step. fold piv. fold prow.
      destruct (Nat.eqb_spec i c) as [->|Hic]; auto.
      assert (Ep : piv = x01).
      { pose proof (Hprow c Hc) as E'. unfold prow in E'.
        now rewrite Nat.eqb_refl in E'. }
      destruct (Nat.eqb_spec j c) as [->|Hjc].
      + rewrite Ep. ring.
      + pose proof (Hprow j Hj) as E'. unfold prow in E'.
        destruct (Nat.eqb_spec j c); [contradiction|]. rewrite E'. ring.
    - replace k with (N.of_nat kn) at 1 by lia.
      replace (N.of_nat kn) with k by lia.
      apply eliminate_spec; auto. }
  intros src3 (Hl3 & H3).
  rewrite vset_ok by (unfold id_row; rewrite upd_length, repeat_length; lia).
  cbn [bind]. apply returns_ok. unfold gj_ok. cbn.
  rewrite !upd_length, !Nat2N.id.
  repeat split; auto.
  - intros j Hj. rewrite !nth_upd.
    destruct (Nat.eqb_spec c j) as [<-|Hne].
    + rewrite Hr, Hcl. destruct (Nat.ltb_spec c kn); [reflexivity|lia].
    + simpl. apply Hrc. lia.
  - unfold id_row. apply upd_upd_repeat.
  - intros j Hj. rewrite nth_upd, Hpl.
    destruct (Nat.eqb_spec c j) as [<-|Hne].
    + destruct (Nat.ltb_spec c kn); [|lia].
      cbn [andb]. symmetry. apply Nat.leb_le. lia.
    + simpl. rewrite Hp by auto.
      destruct (Nat.ltb_spec j c), (Nat.leb_spec j c); auto; lia.
Qed.

Lemma exchanged_ext k A B B' c :
  (forall i j, (i < k)%nat -> (j < k)%nat -> B i j = B' i j) ->
  exchanged k A B c -> exchanged k A B' c.
Proof.
  intros HB H x i Hi. rewrite (H x i Hi). apply gsum_ext.
  intros j Hj. now rewrite HB.
Qed.

(** [invert_matrix] on a matrix each of whose rows is independent of
    the rows before it: every pivot is found on the diagonal, and the
    result is a left inverse. *)
Theorem invert_matrix_spec (m : list byte) (k : N) :
  k <= 256 -> length m = (N.to_nat k * N.to_nat k)%nat ->
  (forall c, (c < N.to_nat k)%nat -> independent (N.to_nat k) (mat (N.to_nat k) m) c) ->
  returns (invert_matrix m k)
    (fun m' => length m' = (N.to_nat k * N.to_nat k)%nat /\
               forall x i, (i < N.to_nat k)%nat ->
                 x i = gsum (N.to_nat k)
                         (fun j => gmul (mat (N.to_nat k) m' i j)
                                        (mulv (N.to_nat k) (mat (N.to_nat k) m) x j))).
Proof.
  intros Hk Hlen Hind. set (kn := N.to_nat k) in *.
  set (A := mat kn m).
  pose proof SIZE_WIDTH_eq as W.
  unfold invert_matrix. fold kn.
  eapply returns_bind.
  - apply for_ne_inv with
      (I := fun col st => exists B, gj_ok kn (N.to_nat col) B st
                                    /\ exchanged kn A B (N.to_nat col)); try lia.
    + exists A. split; [|apply exchanged_init].
      unfold gj_ok. cbn. rewrite !repeat_length.
      repeat split; auto.
      intros j Hj. change (N.to_nat 0) with 0%nat.
      rewrite nth_repeat_lt by lia. reflexivity.
    + intros col st Hcol (B & Hok & Hex).
      assert (Hnz : B (N.to_nat col) (N.to_nat col) <> x00).
      { apply (exchanged_pivot_nonzero Hex); [lia|]. apply Hind. lia. }
      replace col with (N.of_nat (N.to_nat col)) at 1 by lia.
      eapply returns_weaken.
      * apply (@invert_column_spec k B (N.to_nat col) st); auto. lia.
      * intros st' Hok'. exists (pivot_step B (N.to_nat col)).
        replace (N.to_nat (col + 1)) with (S (N.to_nat col)) by lia.
        split; auto. apply exchanged_step; auto. lia.
  - intros st (B & (Hl & HB & Hr & Hc & Hrc & Hid & Hpl & Hp) & Hex).
    unfold unscramble.
    eapply returns_weaken.
    + apply for_ne_inv with (I := fun (_ : N) src => src = gj_src st); try lia; auto.
      intros i src Hi ->.
      rewrite (@vget_ok _ (gj_indxr st) i 0%Z) by lia. cbn [bind].
      rewrite (@vget_ok _ (gj_indxc st) i 0%Z) by lia. cbn [bind].
      rewrite Hrc by lia. rewrite Z.eqb_refl. cbn [negb]. now apply returns_ok.
    + intros src ->. split; auto.
      intros x i Hi.
      apply (@exchanged_final kn A (mat kn (gj_src st))); auto.
      apply (@exchanged_ext kn A B); auto.
      intros i' j Hi' Hj. symmetry. now apply HB.
Qed.

(** * The selection of shares *)

Lemma io_for_ne_0 S (body : size_t -> S -> io S) hi s :
  hi < SIZE_WIDTH ->
  io_for_ne 0 hi body s = io_loop_ne (N.to_nat hi) 0 hi body s.
Proof.
  intros H. unfold io_for_ne. rewrite size_sub_small by lia.
  now rewrite N.sub_0_r.
Qed.

Section Selection.
Variable self : fec_code.
Variable shares : share_map.
Variable share_size : size_t.

Let k := fec_k self.
Let n := fec_n self.
Let kn := N.to_nat k.

Hypothesis k_hi : k <= 256.
Hypothesis enc_length : length (enc_matrix self) = (N.to_nat n * kn)%nat.
Hypothesis enough : (kn <= length shares)%nat.

Lemma store_share_eq i st tr (sh : size_t * list byte) b e :
  (i < kn)%nat -> shape self i st ->
  store_share self share_size (N.of_nat i) st (fst sh) (snd sh) b e tr =
  match (if n <=? fst sh then StepInvalid
         else if (fst sh <? k) && (N.of_nat (length (snd sh)) <? share_size)
              then StepShort else StepOk) with
  | StepInvalid =>
      (tr, Throw (logic_error "Invalid share identifier detected during decode"))
  | StepShort => (tr, Undefined)
  | StepOk =>
      ((if fst sh <? k
        then tr ++ [Emit (fst sh) k (firstn (N.to_nat share_size) (snd sh)) share_size]
        else tr),
       Ok (place_share self (N.of_nat i) sh b e st))
  end.
Proof.
  intros Hi (Hm & Hix & Hsv & Hbe).
  pose proof (@cell_index i i kn Hi Hi) as Hii.
  pose proof (@row_bound i kn kn Hi) as Hrow.
  unfold store_share. fold k n.
  destruct (N.leb_spec n (fst sh)) as [Hn|Hn]; [reflexivity|].
  destruct (N.ltb_spec (fst sh) k) as [Hk|Hk]; cbn [andb].
  - destruct (N.ltb_spec (N.of_nat (length (snd sh))) share_size) as [Hs|Hs].
    + unfold io_bind, lift. rewrite vset_ok by lia.
      unfold vslice.
      destruct (N.leb_spec (0 + share_size) (N.of_nat (length (snd sh))));
        [lia|reflexivity].
    + unfold io_bind, lift, output, io_ret. rewrite vset_ok by lia.
      rewrite vslice_ok by lia. rewrite !vset_ok by lia.
      unfold place_share. fold k.
      destruct (N.ltb_spec (fst sh) k); [|lia].
      change (N.to_nat 0) with 0%nat. cbn [skipn]. reflexivity.
  - assert (Hrow' : (N.to_nat (fst sh) * kn + kn <= N.to_nat n * kn)%nat)
      by (apply row_bound; lia).
    unfold io_bind, lift, io_ret.
    rewrite vslice_ok by lia.
    unfold vblit. rewrite length_slice by lia.
    destruct (N.leb_spec (N.of_nat i * k + N.of_nat (N.to_nat k))
                         (N.of_nat (length (m_dec st)))); [|lia].
    rewrite !vset_ok by lia.
    unfold place_share. fold k.
    destruct (N.ltb_spec (fst sh) k); [lia|].
    rewrite ?length_slice by lia. reflexivity.
Qed.

Lemma select_share_eq i st tr :
  (i < kn)%nat -> shape self i st ->
  select_share self shares share_size (N.of_nat i) st tr =
  let '(sh, b, e) := pick_share shares (N.of_nat i) st in
  match step_result self shares share_size i st with
  | StepInvalid =>
      (tr, Throw (logic_error "Invalid share identifier detected during decode"))
  | StepShort => (tr, Undefined)
  | StepOk =>
      ((if fst sh <? k
        then tr ++ [Emit (fst sh) k (firstn (N.to_nat share_size) (snd sh)) share_size]
        else tr),
       Ok (place_share self (N.of_nat i) sh b e st))
  end.
Proof.
  intros Hi Hshape. pose proof Hshape as (Hm & Hix & Hsv & Hbe).
  unfold select_share, step_result, pick_share.
  assert (Hb : (shares_b_iter st < length shares)%nat) by lia.
  assert (He : (shares_e_iter st < length (rev shares))%nat) by (rewrite length_rev; lia).
  unfold deref.
  destruct (nth_error shares (shares_b_iter st)) as [front|] eqn:Ef;
    [|apply nth_error_None in Ef; lia].
  set (fr := nth (shares_b_iter st) shares _) in *.
  assert (Hfr : fr = front) by (apply nth_error_nth; exact Ef).
  clearbody fr. subst fr.
  unfold lift at 1. unfold io_bind at 1.
  destruct (N.eqb_spec (fst front) (N.of_nat i)) as [E|E].
  - now apply store_share_eq.
  - destruct (nth_error (rev shares) (shares_e_iter st)) as [back|] eqn:Eb;
      [|apply nth_error_None in Eb; lia].
    set (bk := nth (shares_e_iter st) (rev shares) _) in *.
    assert (Hbk : bk = back) by (apply nth_error_nth; exact Eb).
    clearbody bk. subst bk.
    unfold lift at 1. unfold io_bind at 1.
    now apply store_share_eq.
Qed.

Lemma place_share_shape i st sh b e :
  (i < kn)%nat -> shape self i st -> (b + e = S i)%nat ->
  (k <= fst sh -> fst sh < n) ->
  shape self (S i) (place_share self (N.of_nat i) sh b e st).
Proof.
  intros Hi (Hm & Hix & Hsv & Hbe) Hbe' Hn.
  pose proof (@row_bound i kn kn Hi) as Hrow.
  unfold shape, place_share. cbn. fold k. rewrite !upd_length.
  repeat split; auto.
  destruct (N.ltb_spec (fst sh) k) as [Hk|Hk]; cbv iota.
  - now rewrite upd_length.
  - assert (Hrow' : (N.to_nat (fst sh) * kn + kn <= N.to_nat n * kn)%nat)
      by (apply row_bound; specialize (Hn Hk); lia).
    rewrite !length_app, length_firstn, length_slice, length_skipn by lia.
    lia.
Qed.

Lemma pick_share_iters i st :
  shape self i st ->
  let '(_, b, e) := pick_share shares (N.of_nat i) st in (b + e = S i)%nat.
Proof.
  intros (_ & _ & _ & Hbe). unfold pick_share.
  destruct (fst _ =? N.of_nat i); lia.
Qed.

Lemma selected_shape i : (i <= kn)%nat -> all_ok self shares share_size i -> shape self i (fst (selected self shares share_size i)).
Proof.
  induction i as [|i IH]; intros Hi Hok.
  - unfold shape. cbn. fold k kn. rewrite !repeat_length. auto.
  - assert (Hok' : all_ok self shares share_size i) by (intros j Hj; apply Hok; lia).
    specialize (IH ltac:(lia) Hok').
    pose proof (Hok i ltac:(lia)) as Hstep. unfold step_result in Hstep.
    pose proof (pick_share_iters IH) as Hit.
    cbn [selected].
    destruct (selected self shares share_size i) as [st tr]. cbn [fst] in *.
    destruct (pick_share shares (N.of_nat i) st) as [[sh b] e].
    cbn [fst]. apply place_share_shape; auto; try lia.
    intros _. unfold n. destruct (N.leb_spec (fec_n self) (fst sh)); [discriminate|lia].
Qed.

(** The selection loop either completes as [selected] says, or stops
    at the first position whose share is rejected. *)
Theorem select_shares_outcome :
  (all_ok self shares share_size kn /\
   select_shares self shares share_size [] =
   (snd (selected self shares share_size kn),
    Ok (fst (selected self shares share_size kn))))
  \/
  (exists j, (j < kn)%nat /\ all_ok self shares share_size j /\
     step_result self shares share_size j (fst (selected self shares share_size j)) <> StepOk /\
     select_shares self shares share_size [] =
     (snd (selected self shares share_size j),
      failure (step_result self shares share_size j (fst (selected self shares share_size j))))).
Proof.
  pose proof SIZE_WIDTH_eq as W.
  unfold select_shares. fold k kn.
  rewrite io_for_ne_0 by lia. fold kn.
  assert (G : forall fuel i,
    (i + fuel = kn)%nat -> all_ok self shares share_size i ->
    (all_ok self shares share_size kn /\
     io_loop_ne fuel (N.of_nat i) k (select_share self shares share_size)
                (fst (selected self shares share_size i))
                (snd (selected self shares share_size i))
     = (snd (selected self shares share_size kn),
        Ok (fst (selected self shares share_size kn))))
    \/
    (exists j, (j < kn)%nat /\ all_ok self shares share_size j /\
       step_result self shares share_size j (fst (selected self shares share_size j)) <> StepOk /\
       io_loop_ne fuel (N.of_nat i) k (select_share self shares share_size)
                  (fst (selected self shares share_size i))
                  (snd (selected self shares share_size i))
       = (snd (selected self shares share_size j),
          failure (step_result self shares share_size j (fst (selected self shares share_size j)))))).
  { induction fuel as [|fuel IH]; intros i Hi Hok.
    - left. assert (i = kn) by lia. subst i. split; auto.
      cbn [io_loop_ne]. replace (N.of_nat kn) with k by lia.
      rewrite N.eqb_refl. reflexivity.
    - assert (Hshape : shape self i (fst (selected self shares share_size i)))
        by (apply selected_shape; auto; lia).
      assert (Eloop :
        io_loop_ne (S fuel) (N.of_nat i) k (select_share self shares share_size)
                   (fst (selected self shares share_size i))
                   (snd (selected self shares share_size i))
        = match step_result self shares share_size i (fst (selected self shares share_size i)) with
          | StepOk =>
              io_loop_ne fuel (N.of_nat (S i)) k (select_share self shares share_size)
                         (fst (selected self shares share_size (S i)))
                         (snd (selected self shares share_size (S i)))
          | o => (snd (selected self shares share_size i), failure o)
          end).
      { cbn [io_loop_ne].
        destruct (N.eqb_spec (N.of_nat i) k) as [E|_]; [lia|].
        unfold io_bind at 1.
        rewrite select_share_eq by (auto; lia).
        cbn [selected].
        destruct (selected self shares share_size i) as [st tr]. cbn [fst snd] in *.
        destruct (pick_share shares (N.of_nat i) st) as [[sh b] e].
        cbn [fst snd] in *.
        destruct (step_result self shares share_size i st); try reflexivity.
        rewrite size_add_small by lia.
        replace (N.of_nat i + 1) with (N.of_nat (S i)) by lia.
        reflexivity. }
      rewrite Eloop.
      destruct (step_result self shares share_size i (fst (selected self shares share_size i))) eqn:Estep.
      + apply IH; [lia|].
        intros j Hj. destruct (Nat.eq_dec j i) as [->|]; auto. apply Hok. lia.
      + right. exists i. rewrite Estep. repeat split; auto; try lia. discriminate.
      + right. exists i. rewrite Estep. repeat split; auto; try lia. discriminate. }
  apply (G kn 0%nat); [lia|].
  intros j Hj. lia.
Qed.
End Selection.

(** ** The shares that the positions receive *)

Lemma sorted_nth (l : list N) :
  StronglySorted N.lt l ->
  forall p q, (p < q)%nat -> (q < length l)%nat -> nth p l 0 < nth q l 0.
Proof.
  induction 1 as [|a l Hs IH Ha]; intros p q Hpq Hq; [simpl in Hq; lia|].
  destruct q as [|q]; [lia|]. simpl in Hq.
  destruct p as [|p]; simpl.
  - rewrite Forall_forall in Ha. apply Ha. apply nth_In. lia.
  - apply IH; lia.
Qed.

Lemma sorted_gap (l : list N) :
  StronglySorted N.lt l ->
  forall d p, (p + d < length l)%nat -> nth p l 0 + N.of_nat d <= nth (p + d) l 0.
Proof.
  intros Hs d. induction d as [|d IH]; intros p Hp.
  - rewrite Nat.add_0_r. lia.
  - specialize (IH p ltac:(lia)).
    pose proof (@sorted_nth l Hs (p + d) (p + S d) ltac:(lia) Hp). lia.
Qed.

Lemma sorted_NoDup (l : list N) : StronglySorted N.lt l -> NoDup l.
Proof.
  induction 1 as [|a l Hs IH Ha]; constructor; auto.
  intros Hin. rewrite Forall_forall in Ha. specialize (Ha a Hin). lia.
Qed.

Section SelectionFacts.
Variable self : fec_code.
Variable shares : share_map.
Variable share_size : size_t.

Let k := fec_k self.
Let n := fec_n self.
Let kn := N.to_nat k.
Let len := length shares.

Hypothesis shares_map : is_map shares.
Hypothesis enough : (kn <= len)%nat.

Local Abbreviation state i := (fst (selected self shares share_size i)).
Local Abbreviation key p := (fst (nth p shares (0, []))).

Lemma key_nth p : key p = nth p (map fst shares) 0.
Proof. symmetry. apply (map_nth fst shares (0, [])). Qed.

Lemma key_lt p q : (p < q)%nat -> (q < len)%nat -> key p < key q.
Proof.
  intros Hpq Hq. rewrite !key_nth. apply sorted_nth; auto.
  now rewrite length_map.
Qed.

Lemma key_gap p d : (p + d < len)%nat -> key p + N.of_nat d <= key (p + d).
Proof.
  intros H. rewrite !key_nth. apply sorted_gap; auto. now rewrite length_map.
Qed.

Lemma key_inj p q : (p < len)%nat -> (q < len)%nat -> key p = key q -> p = q.
Proof.
  intros Hp Hq E.
  destruct (Nat.lt_trichotomy p q) as [H|[H|H]]; auto.
  - pose proof (key_lt H Hq). lia.
  - pose proof (key_lt H Hp). lia.
Qed.

Lemma selected_S i :
  selected self shares share_size (S i) =
  let '(sh, b, e) := pick_share shares (N.of_nat i) (state i) in
  (place_share self (N.of_nat i) sh b e (state i),
   if fst sh <? k
   then snd (selected self shares share_size i)
        ++ [Emit (fst sh) k (firstn (N.to_nat share_size) (snd sh)) share_size]
   else snd (selected self shares share_size i)).
Proof.
  cbn [selected]. destruct (selected self shares share_size i) as [st tr].
  cbn [fst snd]. destruct (pick_share shares (N.of_nat i) st) as [[sh b] e].
  reflexivity.
Qed.

Lemma iterators_S i :
  let front := nth (shares_b_iter (state i)) shares (0, []) in
  shares_b_iter (state (S i)) =
    (if fst front =? N.of_nat i then S (shares_b_iter (state i))
     else shares_b_iter (state i)) /\
  shares_e_iter (state (S i)) =
    (if fst front =? N.of_nat i then shares_e_iter (state i)
     else S (shares_e_iter (state i))).
Proof.
  rewrite selected_S. unfold pick_share.
  destruct (fst (nth (shares_b_iter (state i)) shares (0, [])) =? N.of_nat i);
    cbn; auto.
Qed.

Lemma iterators_sum i :
  (shares_b_iter (state i) + shares_e_iter (state i) = i)%nat.
Proof.
  induction i as [|i IH]; [reflexivity|].
  destruct (iterators_S i) as [-> ->].
  destruct (_ =? _); lia.
Qed.

(** The forward iterator has passed exactly the keys below the
    position. *)
Lemma front_inv i :
  (i <= kn)%nat ->
  (forall p, (p < shares_b_iter (state i))%nat -> key p < N.of_nat i) /\
  (forall p, (shares_b_iter (state i) <= p < len)%nat -> N.of_nat i <= key p).
Proof.
  induction i as [|i IH]; intros Hi.
  - cbn. split; intros p Hp; lia.
  - destruct (IH ltac:(lia)) as [Hlow Hup].
    pose proof (iterators_sum i) as Hsum.
    destruct (iterators_S i) as [Eb _]. cbv zeta in Eb. rewrite Eb.
    set (b := shares_b_iter (state i)) in *.
    assert (Hb : (b < len)%nat) by lia.
    destruct (N.eqb_spec (key b) (N.of_nat i)) as [E|E].
    + split; intros p Hp.
      * destruct (Nat.eq_dec p b) as [->|]; [lia|].
        specialize (Hlow p ltac:(lia)). lia.
      * pose proof (@key_lt b p ltac:(lia) ltac:(lia)). lia.
    + split; intros p Hp.
      * specialize (Hlow p Hp). lia.
      * specialize (Hup b ltac:(lia)).
        destruct (Nat.eq_dec p b) as [->|]; [lia|].
        pose proof (@key_lt b p ltac:(lia) ltac:(lia)). lia.
Qed.

Lemma share_at_eq i :
  (i < kn)%nat ->
  share_at self shares share_size i =
  if key (shares_b_iter (state i)) =? N.of_nat i
  then nth (shares_b_iter (state i)) shares (0, [])
  else nth (len - 1 - shares_e_iter (state i)) shares (0, []).
Proof.
  intros Hi. unfold share_at, pick_share.
  destruct (_ =? _); cbn [fst]; auto.
  pose proof (iterators_sum i).
  rewrite rev_nth by (fold len; lia). f_equal. fold len. lia.
Qed.

(** A supplied primary share goes to its own position. *)
Lemma share_at_front i :
  (i < kn)%nat -> In (N.of_nat i) (map fst shares) ->
  fst (share_at self shares share_size i) = N.of_nat i.
Proof.
  intros Hi Hin. rewrite share_at_eq by exact Hi.
  destruct (front_inv (i:=i) ltac:(lia)) as [Hlow Hup].
  pose proof (iterators_sum i) as Hsum.
  destruct (N.eqb_spec (key (shares_b_iter (state i))) (N.of_nat i)) as [E|E]; auto.
  exfalso.
  apply (In_nth _ _ 0) in Hin. destruct Hin as (p & Hp & Ep).
  rewrite length_map in Hp. fold len in Hp. rewrite <- key_nth in Ep.
  destruct (Nat.lt_ge_cases p (shares_b_iter (state i))) as [Hlt|Hge].
  - specialize (Hlow p Hlt). lia.
  - destruct (Nat.eq_dec p (shares_b_iter (state i))) as [->|Hne]; [contradiction|].
    specialize (Hup (shares_b_iter (state i)) ltac:(lia)).
    pose proof (@key_lt (shares_b_iter (state i)) p ltac:(lia) Hp). lia.
Qed.

(** A position whose primary share is missing gets a share of index
    at least [k]. *)
Lemma share_at_back i :
  (i < kn)%nat -> ~ In (N.of_nat i) (map fst shares) ->
  k <= fst (share_at self shares share_size i).
Proof.
  intros Hi Hnin. rewrite share_at_eq by exact Hi.
  destruct (front_inv (i:=i) ltac:(lia)) as [Hlow Hup].
  pose proof (iterators_sum i) as Hsum.
  set (b := shares_b_iter (state i)) in *.
  set (e := shares_e_iter (state i)) in *.
  destruct (N.eqb_spec (key b) (N.of_nat i)) as [E|E].
  - exfalso. apply Hnin. rewrite <- E, key_nth. apply nth_In.
    rewrite length_map. fold len. lia.
  - specialize (Hup b ltac:(lia)).
    pose proof (@key_gap b (len - 1 - e - b) ltac:(lia)) as Hgap.
    replace (b + (len - 1 - e - b))%nat with (len - 1 - e)%nat in Hgap by lia.
    lia.
Qed.

Lemma share_at_cases i :
  (i < kn)%nat ->
  (fst (share_at self shares share_size i) = N.of_nat i
   /\ In (N.of_nat i) (map fst shares))
  \/ (k <= fst (share_at self shares share_size i)
      /\ ~ In (N.of_nat i) (map fst shares)).
Proof.
  intros Hi.
  destruct (in_dec N.eq_dec (N.of_nat i) (map fst shares)) as [Hin|Hnin].
  - left. split; auto. now apply share_at_front.
  - right. split; auto. now apply share_at_back.
Qed.

Lemma share_at_In i : (i < kn)%nat -> In (share_at self shares share_size i) shares.
Proof.
  intros Hi. rewrite share_at_eq by exact Hi.
  pose proof (iterators_sum i) as Hsum.
  destruct (_ =? _); apply nth_In; fold len; lia.
Qed.

(** The reverse iterator only moves on. *)
Lemma e_iter_mono i j :
  (i <= j)%nat -> (shares_e_iter (state i) <= shares_e_iter (state j))%nat.
Proof.
  induction 1 as [|j Hij IH]; auto.
  destruct (iterators_S j) as [_ ->]. destruct (_ =? _); lia.
Qed.

(** No share is taken for two positions. *)
Lemma share_at_distinct i j :
  (i < j)%nat -> (j < kn)%nat ->
  fst (share_at self shares share_size i) <> fst (share_at self shares share_size j).
Proof.
  intros Hij Hj.
  destruct (@share_at_cases i ltac:(lia)) as [[Ei _]|[Ei Ni]];
    destruct (@share_at_cases j Hj) as [[Ej _]|[Ej Nj]]; try lia.
  (* both from the back *)
  intros E.
  rewrite !share_at_eq in E by lia.
  pose proof (iterators_sum i) as Hsi. pose proof (iterators_sum j) as Hsj.
  assert (Fi : (key (shares_b_iter (state i)) =? N.of_nat i) = false).
  { apply N.eqb_neq. intros E'. apply Ni. rewrite <- E', key_nth. apply nth_In.
    rewrite length_map. fold len. lia. }
  assert (Fj : (key (shares_b_iter (state j)) =? N.of_nat j) = false).
  { apply N.eqb_neq. intros E'. apply Nj. rewrite <- E', key_nth. apply nth_In.
    rewrite length_map. fold len. lia. }
  rewrite Fi, Fj in E.
  apply key_inj in E; try lia.
  pose proof (@e_iter_mono (S i) j ltac:(lia)) as Hmono.
  destruct (iterators_S i) as [_ Ee]. cbv zeta in Ee. rewrite Fi in Ee. lia.
Qed.

Lemma key_front_iff i :
  (i < kn)%nat ->
  key (shares_b_iter (state i)) = N.of_nat i <-> In (N.of_nat i) (map fst shares).
Proof.
  intros Hi. pose proof (iterators_sum i) as Hsum. split.
  - intros E. rewrite <- E, key_nth. apply nth_In. rewrite length_map. fold len. lia.
  - intros Hin. pose proof (share_at_front Hi Hin) as E.
    rewrite share_at_eq in E by exact Hi.
    destruct (N.eqb_spec (key (shares_b_iter (state i))) (N.of_nat i)) as [E'|E']; auto.
    exfalso. pose proof (share_at_back Hi) as Hb.
    rewrite share_at_eq in Hb by exact Hi.
    destruct (N.eqb_spec (key (shares_b_iter (state i))) (N.of_nat i)); [contradiction|].
    destruct (in_dec N.eq_dec (N.of_nat i) (map fst shares)) as [_|Hnin];
      [|contradiction].
    destruct (front_inv (i:=i) ltac:(lia)) as [Hlow Hup].
    apply (In_nth _ _ 0) in Hin. destruct Hin as (p & Hp & Ep).
    rewrite length_map in Hp. fold len in Hp. rewrite <- key_nth in Ep.
    destruct (Nat.lt_ge_cases p (shares_b_iter (state i))) as [Hlt|Hge].
    + specialize (Hlow p Hlt). lia.
    + destruct (Nat.eq_dec p (shares_b_iter (state i))) as [->|Hne]; [contradiction|].
      specialize (Hup (shares_b_iter (state i)) ltac:(lia)).
      pose proof (@key_lt (shares_b_iter (state i)) p ltac:(lia) Hp). lia.
Qed.

(** While all primary shares so far were supplied the reverse iterator
    has not moved. *)
Lemma e_iter_0 i :
  (i <= kn)%nat ->
  (forall j, (j < i)%nat -> In (N.of_nat j) (map fst shares)) ->
  shares_e_iter (state i) = 0%nat.
Proof.
  induction i as [|i IH]; intros Hi Hall; [reflexivity|].
  destruct (iterators_S i) as [_ ->]. cbv zeta.
  assert (E : key (shares_b_iter (state i)) = N.of_nat i)
    by (apply key_front_iff; [lia|apply Hall; lia]).
  rewrite E, N.eqb_refl. apply IH; [lia|]. intros j Hj. apply Hall. lia.
Qed.

Lemma state_lengths i :
  length (indexes (state i)) = kn /\ length (sharesv (state i)) = kn.
Proof.
  induction i as [|i [IH1 IH2]].
  - cbn. fold k kn. now rewrite !repeat_length.
  - rewrite selected_S.
    destruct (pick_share shares (N.of_nat i) (state i)) as [[sh b] e].
    cbn. now rewrite !upd_length.
Qed.

(** The vectors [indexes] and [sharesv] record the shares taken. *)
Lemma state_records i j :
  (i <= kn)%nat -> (j < i)%nat ->
  nth j (indexes (state i)) 0 = fst (share_at self shares share_size j) /\
  nth j (sharesv (state i)) [] = snd (share_at self shares share_size j).
Proof.
  induction i as [|i IH]; intros Hi Hj; [lia|].
  destruct (state_lengths i) as [L1 L2].
  rewrite selected_S. unfold share_at.
  destruct (Nat.eq_dec j i) as [->|Hne].
  - destruct (pick_share shares (N.of_nat i) (state i)) as [[sh b] e].
    cbn. rewrite Nat2N.id, !nth_upd_eq by lia. auto.
  - specialize (IH ltac:(lia) ltac:(lia)). unfold share_at in IH.
    destruct (pick_share shares (N.of_nat i) (state i)) as [[sh b] e].
    cbn. rewrite Nat2N.id, !nth_upd_neq by lia. exact IH.
Qed.

(** The callback has been invoked for the primary shares taken, in
    the order of the positions. *)
Lemma state_trace i :
  snd (selected self shares share_size i) =
  flat_map (passed_through self shares share_size) (seq 0 i).
Proof.
  induction i as [|i IH]; [reflexivity|].
  rewrite selected_S, seq_S, flat_map_app. cbn [flat_map Nat.add].
  rewrite <- IH. unfold passed_through, share_at. fold k.
  destruct (pick_share shares (N.of_nat i) (state i)) as [[sh b] e]. cbn [fst snd].
  destruct (fst sh <? k); [reflexivity|]. now rewrite !app_nil_r.
Qed.

Lemma step_result_ok i :
  step_result self shares share_size i (state i) = StepOk <->
  fst (share_at self shares share_size i) < n /\
  (fst (share_at self shares share_size i) < k ->
   share_size <= N.of_nat (length (snd (share_at self shares share_size i)))).
Proof.
  unfold step_result, share_at. fold k n.
  destruct (pick_share shares (N.of_nat i) (state i)) as [[sh b] e]. cbn [fst snd].
  destruct (N.leb_spec n (fst sh)).
  - split; [discriminate|lia].
  - destruct (N.ltb_spec (fst sh) k); cbn [andb].
    + destruct (N.ltb_spec (N.of_nat (length (snd sh))) share_size).
      * split; [discriminate|lia].
      * split; auto.
    + split; auto. intros _. split; auto. lia.
Qed.

Lemma step_result_invalid i :
  step_result self shares share_size i (state i) = StepInvalid <->
  n <= fst (share_at self shares share_size i).
Proof.
  unfold step_result, share_at. fold k n.
  destruct (pick_share shares (N.of_nat i) (state i)) as [[sh b] e]. cbn [fst snd].
  destruct (N.leb_spec n (fst sh)).
  - split; auto.
  - destruct (_ && _); split; try discriminate; lia.
Qed.
End SelectionFacts.

Lemma nth_blit (m row : list byte) a idx :
  (a + length row <= length m)%nat ->
  nth idx (firstn a m ++ row ++ skipn (a + length row) m) x00 =
  if Nat.ltb idx a then nth idx m x00
  else if Nat.ltb idx (a + length row) then nth (idx - a) row x00
       else nth idx m x00.
Proof.
  intros H.
  destruct (Nat.ltb_spec idx a) as [H1|H1].
  - rewrite app_nth1 by (rewrite length_firstn; lia).
    rewrite nth_firstn. destruct (Nat.ltb_spec idx a); [reflexivity|lia].
  - rewrite app_nth2 by (rewrite length_firstn; lia).
    rewrite length_firstn, Nat.min_l by lia.
    destruct (Nat.ltb_spec idx (a + length row)) as [H2|H2].
    + rewrite app_nth1 by lia. reflexivity.
    + rewrite app_nth2 by lia. rewrite nth_skipn. f_equal. lia.
Qed.

Section DecodingMatrix.
Variable self : fec_code.
Variable shares : share_map.
Variable share_size : size_t.

Let k := fec_k self.
Let n := fec_n self.
Let kn := N.to_nat k.

Hypothesis k_hi : k <= 256.
Hypothesis enc_length : length (enc_matrix self) = (N.to_nat n * kn)%nat.
Hypothesis enough : (kn <= length shares)%nat.

Local Abbreviation state i := (fst (selected self shares share_size i)).
Local Abbreviation taken i := (share_at self shares share_size i).

(** Row [j] of the decoding matrix is the unit row [j] for a primary
    share and the row of the encoding matrix otherwise; the rows not
    yet reached are zero. *)
Lemma state_rows i :
  (i <= kn)%nat -> all_ok self shares share_size i ->
  (forall j l, (j < i)%nat -> (l < kn)%nat ->
     mat kn (m_dec (state i)) j l =
     if fst (taken j) <? k then (if Nat.eqb j l then x01 else x00)
     else mat kn (enc_matrix self) (N.to_nat (fst (taken j))) l) /\
  (forall j l, (i <= j < kn)%nat -> (l < kn)%nat ->
     mat kn (m_dec (state i)) j l = x00).
Proof.
  induction i as [|i IH]; intros Hi Hok.
  - split; [intros; lia|]. intros j l Hj Hl. cbn. unfold mat.
    apply nth_repeat_x00.
  - assert (Hok' : all_ok self shares share_size i) by (intros j Hj; apply Hok; lia).
    destruct (IH ltac:(lia) Hok') as [Hdone Hzero].
    pose proof (@selected_shape self shares share_size k_hi enc_length enough i
                  ltac:(lia) Hok') as (Hm & _).
    pose proof (Hok i ltac:(lia)) as Hstep.
    unfold step_result in Hstep.
    assert (Etaken : taken i = fst (fst (pick_share shares (N.of_nat i) (state i))))
      by reflexivity.
    rewrite selected_S.
    destruct (pick_share shares (N.of_nat i) (state i)) as [[sh b] e].
    cbn [fst snd] in *.
    assert (Hn : fst sh < fec_n self).
    { destruct (N.leb_spec (fec_n self) (fst sh)); [discriminate|lia]. }
    pose proof (@row_bound i kn kn ltac:(lia)) as Hrow.
    unfold place_share. cbn [m_dec]. fold k.
    destruct (N.ltb_spec (fst sh) k) as [Hk|Hk].
    + (* a primary share *)
      assert (Eidx : N.to_nat (N.of_nat i * (k + 1)) = (i * kn + i)%nat) by lia.
      rewrite Eidx. split.
      * intros j l Hj Hl. unfold mat. rewrite nth_upd.
        destruct (Nat.eqb_spec (i * kn + i) (j * kn + l)) as [E|Hne].
        -- apply index_inj in E; try lia. destruct E as [<- <-].
           rewrite Etaken. destruct (N.ltb_spec (fst sh) k); [|lia].
           rewrite Nat.eqb_refl.
           destruct (Nat.ltb_spec (i * kn + i) (length (m_dec (state i))));
             [reflexivity|lia].
        -- cbn [andb]. fold (mat kn (m_dec (state i)) j l).
           destruct (Nat.eq_dec j i) as [->|Hji].
           ++ rewrite Hzero by lia. rewrite Etaken.
              destruct (N.ltb_spec (fst sh) k); [|lia].
              destruct (Nat.eqb_spec i l) as [->|]; [contradiction|reflexivity].
           ++ apply Hdone; lia.
      * intros j l Hj Hl. unfold mat. rewrite nth_upd_neq.
        -- apply Hzero; lia.
        -- intros E. apply index_inj in E; lia.
    + (* a share of index at least k: its row of the encoding matrix *)
      assert (Hrow' : (N.to_nat (fst sh) * kn + kn <= N.to_nat n * kn)%nat)
        by (apply row_bound; unfold n; lia).
      set (row := firstn (N.to_nat k) (skipn (N.to_nat (fst sh * k)) (enc_matrix self))).
      assert (Lrow : length row = kn) by (unfold row; rewrite length_slice; lia).
      replace (N.to_nat (N.of_nat i * k) + N.to_nat k)%nat
        with (N.to_nat (N.of_nat i * k) + length row)%nat by lia.
      replace (N.to_nat (N.of_nat i * k)) with (i * kn)%nat by lia.
      split.
      * intros j l Hj Hl. unfold mat. rewrite nth_blit by lia. rewrite Lrow.
        destruct (Nat.eq_dec j i) as [->|Hji].
        -- destruct (Nat.ltb_spec (i * kn + l) (i * kn)); [lia|].
           destruct (Nat.ltb_spec (i * kn + l) (i * kn + kn)); [|lia].
           rewrite Etaken. destruct (N.ltb_spec (fst sh) k); [lia|].
           unfold row. rewrite nth_slice by lia.
           f_equal. lia.
        -- assert (Hlt : (j < i)%nat) by lia.
           pose proof (@row_bound j i kn Hlt).
           destruct (Nat.ltb_spec (j * kn + l) (i * kn)); [|lia].
           fold (mat kn (m_dec (state i)) j l). apply Hdone; lia.
      * intros j l Hj Hl. unfold mat. rewrite nth_blit by lia. rewrite Lrow.
        assert (Hlt : (i < j)%nat) by lia.
        pose proof (@row_bound i j kn Hlt).
        destruct (Nat.ltb_spec (j * kn + l) (i * kn)); [lia|].
        destruct (Nat.ltb_spec (j * kn + l) (i * kn + kn)); [lia|].
        fold (mat kn (m_dec (state i)) j l). apply Hzero; lia.
Qed.
End DecodingMatrix.

(** * [encode] *)

Lemma nth_block bs input i t :
  (t < bs)%nat -> nth t (block bs input i) x00 = nth (i * bs + t) input x00.
Proof. intros H. unfold block. now apply nth_slice. Qed.

Lemma block_length bs input i :
  (i * bs + bs <= length input)%nat -> length (block bs input i) = bs.
Proof. intros H. unfold block. apply length_slice. lia. Qed.

Lemma nth_combination k bs input r t :
  (t < bs)%nat ->
  nth t (combination k bs input r) x00
  = gsum k (fun j => gmul (enc_entry k r j) (nth (j * bs + t) input x00)).
Proof. intros H. unfold combination. now rewrite nth_map_seq by lia. Qed.

Lemma combination_length k bs input r : length (combination k bs input r) = bs.
Proof. unfold combination. now rewrite length_map, length_seq. Qed.

(** A primary share is a combination as well: its row is a unit row. *)
Lemma nth_share_data k bs input r t :
  (t < bs)%nat ->
  nth t (share_data k bs input r) x00
  = gsum k (fun j => gmul (enc_entry k r j) (nth (j * bs + t) input x00)).
Proof.
  intros H. unfold share_data.
  destruct (Nat.ltb_spec r k) as [Hr|Hr].
  - rewrite nth_block by exact H.
    rewrite (@gsum_ext k _ (fun j => if Nat.eqb j r then nth (j * bs + t) input x00 else x00)).
    + now rewrite gsum_single.
    + intros j Hj. unfold enc_entry.
      destruct (Nat.ltb_spec r k); [|lia]. rewrite Nat.eqb_sym.
      destruct (Nat.eqb j r); ring.
  - now apply nth_combination.
Qed.

Lemma io_returns_lift_eq A (m : result A) (a : A) tr :
  m = Ok a -> io_returns (lift m) tr (fun x tr' => x = a /\ tr' = tr).
Proof. intros ->. exists a, tr. auto. Qed.

Section Encode.
Variable self : fec_code.
Variable input : list byte.

Let k := fec_k self.
Let n := fec_n self.
Let kn := N.to_nat k.
Let nn := N.to_nat n.
Let bs := (length input / kn)%nat.

Hypothesis valid : valid_code self.
Hypothesis multiple : (length input mod kn = 0)%nat.
Hypothesis fits_int : (Z.of_nat bs <= INT_MAX)%Z.
Hypothesis block_nonempty : (1 <= bs)%nat.

Lemma input_length : length input = (kn * bs)%nat.
Proof.
  unfold bs. destruct valid as (Hk & _).
  pose proof (Nat.div_mod_eq (length input) kn). lia.
Qed.

Lemma block_size_eq : N.of_nat (length input) / k = N.of_nat bs.
Proof.
  unfold bs, kn. rewrite Nat2N.inj_div, N2Nat.id. reflexivity.
Qed.

(** The redundant share of row [i], accumulated by [addmul]. *)
Lemma fec_buf_spec i :
  (kn <= i < nn)%nat ->
  returns
    (for_ne 0 k (fun j fec_buf =>
       c <- vget (enc_matrix self) (N.of_nat i * k + j) ;;
       addmul fec_buf 0 (Buffer input) (Z.of_N (j * N.of_nat bs))
              c (int_of_size_t (N.of_nat bs))) (repeat x00 bs))
    (fun buf => buf = combination kn bs input i).
Proof.
  intros Hi. pose proof SIZE_WIDTH_eq as W.
  destruct valid as (Hk1 & Hkn & Hn & Hlen & Hent). fold k n kn nn in Hk1, Hkn, Hn, Hlen, Hent.
  pose proof input_length as Hin.
  eapply returns_weaken.
  - apply for_ne_inv with
      (I := fun j buf =>
              length buf = bs /\
              forall t, (t < bs)%nat ->
                nth t buf x00 =
                gsum (N.to_nat j)
                     (fun j' => gmul (enc_entry kn i j') (nth (j' * bs + t) input x00)));
      try lia.
    + split; [apply repeat_length|]. intros t Ht. apply nth_repeat_x00.
    + intros j buf Hj (Hl & Hb).
      set (jn := N.to_nat j).
      pose proof (@row_bound i nn kn ltac:(lia)) as Hrow.
      pose proof (@row_bound jn kn bs ltac:(lia)) as Hjrow.
      rewrite (@vget_ok _ (enc_matrix self) _ x00) by lia. cbn [bind].
      replace (N.to_nat (N.of_nat i * k + j)) with (i * kn + jn)%nat by lia.
      fold (mat kn (enc_matrix self) i jn). rewrite Hent by lia.
      rewrite int_of_size_t_small
        by (unfold INT_MAX in fits_int; change (2 ^ 31) with 2147483648; lia).
      replace (Z.of_N (j * N.of_nat bs)) with (Z.of_nat (jn * bs)) by lia.
      replace (Z.of_N (N.of_nat bs)) with (Z.of_nat bs) by lia.
      change 0%Z with (Z.of_nat 0).
      rewrite addmul_spec; cbn [src_data]; try lia; try discriminate.
      apply returns_ok.
      split; [now rewrite (@addmul_result_length buf 0 (Buffer input))|].
      intros t Ht. rewrite (@nth_addmul_result buf 0 (Buffer input)). cbn [src_data].
      destruct (Nat.leb_spec 0 t); [|lia].
      destruct (Nat.ltb_spec t (0 + bs)); [|lia].
      destruct (Nat.ltb_spec t (length buf)); [|lia].
      cbn [andb]. replace (N.to_nat (j + 1)) with (S jn) by lia.
      cbn [gsum]. rewrite Hb by exact Ht.
      replace (jn * bs + (t - 0))%nat with (jn * bs + t)%nat by lia.
      reflexivity.
  - intros buf (Hl & Hb).
    apply (@list_ext_nth _ _ _ x00).
    + now rewrite combination_length.
    + intros t Ht. rewrite Hb, nth_combination by lia. reflexivity.
Qed.

(** [encode] succeeds and emits the [n] shares in increasing order. *)
Theorem encode_spec : run (encode self input) = (encoded self input, Ok tt).
Proof.
  pose proof SIZE_WIDTH_eq as W.
  pose proof valid as (Hk1 & Hkn & Hn & Hlen & Hent).
  fold k n kn nn in Hk1, Hkn, Hn, Hlen, Hent.
  pose proof input_length as Hin.
  unfold run, encode. fold k n.
  destruct (N.eqb_spec k 0); [lia|].
  assert (Emod : N.of_nat (length input) mod k = 0).
  { replace k with (N.of_nat kn) by lia. rewrite <- Nat2N.inj_mod. lia. }
  rewrite Emod. cbn [N.eqb negb]. rewrite block_size_eq.
  assert (R : io_returns
    (io_bind
       (io_for_ne 0 k (fun i (_ : unit) =>
          data <~ lift (vslice input (i * N.of_nat bs) (N.of_nat bs)) ;;
          output i n data (N.of_nat bs)) tt)
       (fun _ =>
          io_for_ne k n (fun i (_ : unit) =>
            let fec_buf := repeat x00 (N.to_nat (N.of_nat bs)) in
            fec_buf <~ lift (for_ne 0 k (fun j fec_buf =>
                         c <- vget (enc_matrix self) (i * k + j) ;;
                         addmul fec_buf 0 (Buffer input) (Z.of_N (j * N.of_nat bs))
                                c (int_of_size_t (N.of_nat bs))) fec_buf) ;;
            output i n fec_buf (N.of_nat (length fec_buf))) tt))
    [] (fun _ tr => tr = encoded self input)).
  { eapply io_returns_bind.
    - apply io_for_ne_inv with
        (I := fun i (_ : unit) tr =>
                tr = map (fun i => Emit (N.of_nat i) n (share_data kn bs input i)
                                        (N.of_nat bs)) (seq 0 (N.to_nat i))); try lia.
      + reflexivity.
      + intros i [] tr Hi ->.
        set (im := N.to_nat i).
        pose proof (@row_bound im kn bs ltac:(lia)) as Hrow.
        eapply io_returns_bind.
        * apply (@io_returns_lift_eq _ _ (block bs input im)).
          rewrite vslice_ok by lia.
          unfold block. rewrite Nat2N.id. do 3 f_equal. lia.
        * intros d tr' [-> ->]. apply io_returns_output.
          replace (N.to_nat (i + 1)) with (S im) by lia.
          rewrite seq_S, map_app. cbn [map Nat.add]. f_equal. f_equal.
          unfold share_data. destruct (Nat.ltb_spec im kn); [|lia].
          f_equal. lia.
    - intros [] tr Htr.
      apply io_for_ne_inv with
        (I := fun i (_ : unit) tr =>
                tr = map (fun i => Emit (N.of_nat i) n (share_data kn bs input i)
                                        (N.of_nat bs)) (seq 0 (N.to_nat i))); try lia.
      + exact Htr.
      + intros i [] tr' Hi ->.
        set (im := N.to_nat i).
        cbv zeta. rewrite Nat2N.id.
        eapply io_returns_bind.
        * apply (@io_returns_lift_eq _ _ (combination kn bs input im)).
          replace i with (N.of_nat im) by lia.
          destruct (@fec_buf_spec im ltac:(lia)) as (buf & E & ->). exact E.
        * intros d tr'' [-> ->]. apply io_returns_output.
          replace (N.to_nat (i + 1)) with (S im) by lia.
          rewrite seq_S, map_app. cbn [map Nat.add]. f_equal. f_equal.
          rewrite combination_length.
          unfold share_data. destruct (Nat.ltb_spec im kn); [lia|].
          f_equal. lia. }
  destruct R as ([] & tr & E & ->). exact E.
Qed.
End Encode.

(** * [decode] *)

Lemma flat_map_filter A B (c : A -> bool) (f : A -> B) l :
  flat_map (fun x => if c x then [f x] else []) l = map f (filter c l).
Proof.
  induction l as [|a l IH]; simpl; auto.
  destruct (c a); simpl; now rewrite IH.
Qed.

Lemma flat_map_ext_in A B (f g : A -> list B) l :
  (forall x, In x l -> f x = g x) -> flat_map f l = flat_map g l.
Proof.
  induction l as [|a l IH]; intros H; simpl; auto.
  rewrite H by now left. rewrite IH; auto. intros x Hx. apply H. now right.
Qed.

Lemma supplied_In shares i :
  supplied shares i = true <-> In (N.of_nat i) (map fst shares).
Proof.
  unfold supplied. rewrite existsb_exists. split.
  - intros (x & Hx & E). apply N.eqb_eq in E. now subst.
  - intros H. exists (N.of_nat i). split; auto. apply N.eqb_refl.
Qed.

Section Decode.
Variable self : fec_code.
Variable shares : share_map.
Variable input : list byte.
Variable bs : nat.

Let k := fec_k self.
Let n := fec_n self.
Let kn := N.to_nat k.
Let share_size := N.of_nat bs.

Hypothesis valid : valid_code self.
Hypothesis input_length : length input = (kn * bs)%nat.
Hypothesis fits_int : (Z.of_nat bs <= INT_MAX)%Z.
Hypothesis block_nonempty : (1 <= bs)%nat.
Hypothesis shares_map : is_map shares.
Hypothesis enough : (kn <= length shares)%nat.
Hypothesis genuine : shares_of self bs input shares.

Local Abbreviation state i := (fst (selected self shares share_size i)).
Local Abbreviation taken i := (share_at self shares share_size i).
Local Abbreviation idx i := (N.to_nat (fst (share_at self shares share_size i))).

Let k_hi : k <= 256.
Proof. destruct valid as (H1 & H2 & H3 & _). unfold k. lia. Qed.

Let enc_length : length (enc_matrix self) = (N.to_nat n * kn)%nat.
Proof. now destruct valid as (? & ? & ? & ? & _). Qed.

Lemma taken_genuine i :
  (i < kn)%nat ->
  fst (taken i) < n /\ snd (taken i) = share_data kn bs input (idx i).
Proof.
  intros Hi. pose proof (@share_at_In self shares share_size enough i Hi) as Hin.
  destruct (taken i) as [id data] eqn:E. cbn [fst snd].
  now apply genuine.
Qed.

Lemma share_data_length r :
  length (share_data kn bs input r) = bs.
Proof.
  unfold share_data. destruct (Nat.ltb_spec r kn) as [Hr|Hr].
  - apply block_length. pose proof (@row_bound r kn bs Hr). lia.
  - apply combination_length.
Qed.

Lemma selection_all_ok : all_ok self shares share_size kn.
Proof.
  intros j Hj. apply step_result_ok; [exact enough|].
  destruct (taken_genuine Hj) as [Hn Hd]. split; auto.
  intros _. rewrite Hd, share_data_length. unfold share_size. lia.
Qed.

Lemma select_shares_ok :
  select_shares self shares share_size [] =
  (snd (selected self shares share_size kn), Ok (state kn)).
Proof.
  destruct (@select_shares_outcome self shares share_size k_hi enc_length enough)
    as [[_ E]|(j & Hj & _ & Hbad & _)]; auto.
  exfalso. apply Hbad. now apply selection_all_ok.
Qed.

(** The decoding matrix: row [i] is row [idx i] of the encoding matrix. *)
Lemma m_dec_rows i l :
  (i < kn)%nat -> (l < kn)%nat ->
  mat kn (m_dec (state kn)) i l = enc_entry kn (idx i) l.
Proof.
  intros Hi Hl.
  destruct (@state_rows self shares share_size k_hi enc_length enough kn
              ltac:(lia) selection_all_ok) as [Hrows _].
  rewrite Hrows by auto. fold k.
  destruct (taken_genuine Hi) as [Hn _].
  destruct valid as (_ & _ & _ & _ & Hent).
  destruct (N.ltb_spec (fst (taken i)) k) as [Hk|Hk].
  - destruct (@share_at_cases self shares share_size shares_map enough i Hi)
      as [[E _]|[E _]]; [|fold k in E; lia].
    rewrite E, Nat2N.id. unfold enc_entry.
    destruct (Nat.ltb_spec i kn); [reflexivity|lia].
  - apply Hent; fold n; lia.
Qed.

Lemma idx_bound i : (i < kn)%nat -> (idx i < 256)%nat.
Proof.
  intros Hi. destruct (taken_genuine Hi) as [Hn _].
  destruct valid as (_ & _ & Hn256 & _). fold n in Hn256. lia.
Qed.

Lemma idx_primary i : (i < kn)%nat -> (idx i < kn)%nat -> idx i = i.
Proof.
  intros Hi Hlt.
  destruct (@share_at_cases self shares share_size shares_map enough i Hi)
    as [[E _]|[E _]]; [|fold k in E; lia].
  rewrite E. apply Nat2N.id.
Qed.

Lemma idx_distinct i j : (i < kn)%nat -> (j < kn)%nat -> i <> j -> idx i <> idx j.
Proof.
  intros Hi Hj Hne E.
  destruct (Nat.lt_gt_cases i j) as [H _]. specialize (H Hne).
  destruct H as [H|H].
  - apply (@share_at_distinct self shares share_size shares_map enough i j H Hj). lia.
  - apply (@share_at_distinct self shares share_size shares_map enough j i H Hi). lia.
Qed.

(** Each row of the decoding matrix is independent of the rows before
    it: the polynomial vanishing at the points of the rows before and
    of the positions after is not zero at the point of the row. *)
Lemma m_dec_independent c :
  (c < kn)%nat -> independent kn (mat kn (m_dec (state kn))) c.
Proof.
  intros Hc.
  destruct valid as (Hk1 & _). fold k in Hk1.
  set (roots := map (fun j => point (idx j)) (seq 0 c)
                ++ map point (seq (S c) (kn - S c))).
  set (f := roots_poly roots).
  assert (Lf : length f = kn).
  { unfold f. rewrite roots_poly_length. unfold roots.
    rewrite length_app, !length_map, !length_seq. lia. }
  assert (Hmul : forall j, (j < kn)%nat ->
            mulv kn (mat kn (m_dec (state kn))) (fun l => peval f (point l)) j
            = peval f (point (idx j))).
  { intros j Hj. unfold mulv.
    rewrite (@gsum_ext kn _ (fun l => gmul (enc_entry kn (idx j) l) (peval f (point l))))
      by (intros l Hl; now rewrite m_dec_rows).
    apply enc_entry_interpolates; auto; lia. }
  exists (fun l => peval f (point l)). split; [|split].
  - intros j Hj. apply peval_roots_poly_root. unfold roots.
    apply in_or_app. right. apply in_map, in_seq. lia.
  - intros j Hj. rewrite Hmul by lia. apply peval_roots_poly_root. unfold roots.
    apply in_or_app. left. apply in_map_iff. exists j. split; auto.
    apply in_seq. lia.
  - rewrite Hmul by lia. apply peval_roots_poly_nonroot. unfold roots.
    intros Hin. apply in_app_or in Hin. destruct Hin as [Hin|Hin].
    + apply in_map_iff in Hin. destruct Hin as (j & E & Hj). apply in_seq in Hj.
      apply point_inj in E; try (apply idx_bound; lia).
      apply (@idx_distinct j c); auto; lia.
    + apply in_map_iff in Hin. destruct Hin as (j & E & Hj). apply in_seq in Hj.
      apply point_inj in E; try (apply idx_bound; lia); [|lia].
      assert (idx c < kn)%nat by lia.
      pose proof (idx_primary Hc ltac:(lia)). lia.
Qed.

Lemma taken_supplied i :
  (i < kn)%nat ->
  (supplied shares i = true /\ fst (taken i) = N.of_nat i)
  \/ (supplied shares i = false /\ k <= fst (taken i)).
Proof.
  intros Hi.
  destruct (@share_at_cases self shares share_size shares_map enough i Hi)
    as [[E Hin]|[E Hnin]].
  - left. split; auto. now apply supplied_In.
  - right. split; auto.
    destruct (supplied shares i) eqn:Es; auto.
    apply supplied_In in Es. contradiction.
Qed.

(** The blocks passed through by the selection loop. *)
Lemma passed_through_blocks :
  snd (selected self shares share_size kn) =
  map (fun i => Emit (N.of_nat i) k (block bs input i) share_size)
      (filter (supplied shares) (seq 0 kn)).
Proof.
  rewrite state_trace. rewrite <- flat_map_filter.
  apply flat_map_ext_in. intros i Hi. apply in_seq in Hi.
  unfold passed_through. fold k. cbv zeta.
  destruct (taken_genuine (i:=i) ltac:(lia)) as [_ Hd].
  destruct (@taken_supplied i ltac:(lia)) as [[Es E]|[Es E]]; rewrite Es.
  - destruct (N.ltb_spec (fst (taken i)) k); [|lia].
    rewrite Hd, E, Nat2N.id. unfold share_data.
    destruct (Nat.ltb_spec i kn); [|lia].
    unfold share_size. rewrite Nat2N.id.
    rewrite firstn_all2; auto.
    rewrite block_length; auto.
    pose proof (@row_bound i kn bs ltac:(lia)). lia.
  - destruct (N.ltb_spec (fst (taken i)) k); [lia|reflexivity].
Qed.

Variable m' : list byte.
Hypothesis m'_length : length m' = (kn * kn)%nat.
Hypothesis m'_inverse : forall x i, (i < kn)%nat ->
  x i = gsum kn (fun j => gmul (mat kn m' i j)
                               (mulv kn (mat kn (m_dec (state kn))) x j)).

(** The block of position [i], accumulated by [addmul] from the shares
    taken and row [i] of the inverted matrix. *)
Lemma recover_block i :
  (i < kn)%nat ->
  for_lt 0 k (fun col buf =>
    src <- vget (sharesv (state kn)) col ;;
    c <- vget m' (N.of_nat i * k + col) ;;
    addmul buf 0 (Buffer src) 0 c (int_of_size_t share_size))
    (repeat x00 (N.to_nat share_size))
  = Ok (block bs input i).
Proof.
  intros Hi. pose proof SIZE_WIDTH_eq as W.
  destruct (@state_lengths self shares share_size kn) as [_ Lsv].
  fold k kn in Lsv.
  assert (R : returns
    (for_lt 0 k (fun col buf =>
       src <- vget (sharesv (state kn)) col ;;
       c <- vget m' (N.of_nat i * k + col) ;;
       addmul buf 0 (Buffer src) 0 c (int_of_size_t share_size))
       (repeat x00 (N.to_nat share_size)))
    (fun buf => buf = block bs input i)).
  { eapply returns_weaken.
    - apply for_lt_inv with
        (I := fun col buf =>
                length buf = bs /\
                forall t, (t < bs)%nat ->
                  nth t buf x00 =
                  gsum (N.to_nat col)
                       (fun j => gmul (mat kn m' i j) (nth t (snd (taken j)) x00)));
        try lia.
      + unfold share_size. rewrite Nat2N.id. split; [apply repeat_length|].
        intros t Ht. apply nth_repeat_x00.
      + intros col buf Hcol (Hl & Hb).
        set (cn := N.to_nat col).
        assert (Hcn : (cn < kn)%nat) by lia.
        pose proof (@cell_index i cn kn Hi Hcn) as Hcell.
        rewrite (@vget_ok _ (sharesv (state kn)) col []) by lia. cbn [bind].
        rewrite (@vget_ok _ m' _ x00) by lia. cbn [bind].
        assert (Esv : nth cn (sharesv (state kn)) [] = snd (taken cn))
          by (apply state_records; auto; lia).
        fold cn. rewrite Esv.
        destruct (taken_genuine Hcn) as [_ Hd].
        replace (N.to_nat (N.of_nat i * k + col)) with (i * kn + cn)%nat by lia.
        fold (mat kn m' i cn).
        unfold share_size.
        rewrite int_of_size_t_small
          by (unfold INT_MAX in fits_int; change (2 ^ 31) with 2147483648; lia).
        replace (Z.of_N (N.of_nat bs)) with (Z.of_nat bs) by lia.
        change 0%Z with (Z.of_nat 0).
        rewrite addmul_spec; cbn [src_data]; try lia; try discriminate.
        2:{ unfold share_size in Hd. rewrite Hd, share_data_length. lia. }
        apply returns_ok.
        split; [now rewrite (@addmul_result_length buf 0 (Buffer (snd (taken cn))))|].
        intros t Ht.
        rewrite (@nth_addmul_result buf 0 (Buffer (snd (taken cn)))). cbn [src_data].
        destruct (Nat.leb_spec 0 t); [|lia].
        destruct (Nat.ltb_spec t (0 + bs)); [|lia].
        destruct (Nat.ltb_spec t (length buf)); [|lia].
        cbn [andb]. replace (N.to_nat (col + 1)) with (S cn) by lia.
        cbn [gsum]. rewrite Hb by exact Ht.
        replace (0 + (t - 0))%nat with t by lia. reflexivity.
    - intros buf (Hl & Hb).
      apply (@list_ext_nth _ _ _ x00).
      + rewrite block_length; auto.
        pose proof (@row_bound i kn bs Hi). lia.
      + intros t Ht. rewrite Hb, nth_block by lia.
        replace (N.to_nat k) with kn by reflexivity.
        rewrite (m'_inverse (fun l => nth (l * bs + t) input x00) Hi).
        apply gsum_ext. intros j Hj. f_equal.
        destruct (taken_genuine Hj) as [_ Hd].
        rewrite Hd, nth_share_data by lia.
        unfold mulv. apply gsum_ext. intros l Hl'.
        now rewrite m_dec_rows. }
  destruct R as (buf & E & ->). exact E.
Qed.

(** The loop after the inversion emits the blocks whose primary share
    was not supplied. *)
Lemma recover_blocks_spec tr :
  recover_blocks self share_size m' (state kn) tr =
  (tr ++ map (fun i => Emit (N.of_nat i) k (block bs input i) share_size)
             (filter (fun i => negb (supplied shares i)) (seq 0 kn)),
   Ok tt).
Proof.
  pose proof SIZE_WIDTH_eq as W.
  destruct (@state_lengths self shares share_size kn) as [Lix _].
  fold k kn in Lix.
  unfold recover_blocks. fold k. rewrite Lix.
  assert (R : io_returns
    (io_for_ne 0 (N.of_nat kn) (fun i (_ : unit) =>
       ix <~ lift (vget (indexes (state kn)) i) ;;
       if k <=? ix then
         let buf := repeat x00 (N.to_nat share_size) in
         buf <~ lift (for_lt 0 k (fun col buf =>
                  src <- vget (sharesv (state kn)) col ;;
                  c <- vget m' (i * k + col) ;;
                  addmul buf 0 (Buffer src) 0 c (int_of_size_t share_size)) buf) ;;
         data <~ lift (vslice buf 0 share_size) ;;
         output i k data share_size
       else io_ret tt) tt) tr
    (fun _ tr' =>
       tr' = tr ++ map (fun i => Emit (N.of_nat i) k (block bs input i) share_size)
                       (filter (fun i => negb (supplied shares i)) (seq 0 kn)))).
  { eapply io_returns_weaken.
    - apply io_for_ne_inv with
        (I := fun i (_ : unit) tr' =>
                tr' = tr ++ map (fun i => Emit (N.of_nat i) k (block bs input i) share_size)
                                (filter (fun i => negb (supplied shares i))
                                        (seq 0 (N.to_nat i)))); try lia.
      + cbn. now rewrite app_nil_r.
      + intros i [] tr' Hi ->.
        set (im := N.to_nat i).
        assert (Him : (im < kn)%nat) by lia.
        assert (Eix : nth im (indexes (state kn)) 0 = fst (taken im))
          by (apply state_records; auto; lia).
        eapply io_returns_bind.
        * apply (@io_returns_lift_eq _ _ (fst (taken im))).
          rewrite (@vget_ok _ (indexes (state kn)) i 0) by lia.
          fold im. now rewrite Eix.
        * intros ix tr'' [-> ->].
          replace (N.to_nat (i + 1)) with (S im) by lia.
          rewrite seq_S, filter_app, map_app, app_assoc. cbn [filter Nat.add].
          destruct (@taken_supplied im Him) as [[Es E]|[Es E]]; rewrite Es; cbn [negb].
          -- destruct (N.leb_spec k (fst (taken im))); [lia|].
             apply io_returns_ret. cbn [map]. now rewrite app_nil_r.
          -- destruct (N.leb_spec k (fst (taken im))); [|lia].
             cbv zeta.
             eapply io_returns_bind.
             ++ apply (@io_returns_lift_eq _ _ (block bs input im)).
                replace i with (N.of_nat im) by lia. now apply recover_block.
             ++ intros buf tr3 [-> ->].
                eapply io_returns_bind.
                ** apply (@io_returns_lift_eq _ _ (block bs input im)).
                   pose proof (@row_bound im kn bs Him).
                   rewrite vslice_ok
                     by (rewrite block_length by lia; unfold share_size; lia).
                   unfold share_size. rewrite Nat2N.id.
                   change (N.to_nat 0) with 0%nat. cbn [skipn].
                   rewrite firstn_all2; auto. rewrite block_length; lia.
                ** intros d tr4 [-> ->]. apply io_returns_output.
                   cbn [map]. do 4 f_equal. lia.
    - intros [] tr' ->. now rewrite Nat2N.id. }
  destruct R as ([] & tr' & E & ->). exact E.
Qed.
End Decode.

(** From at least [k] genuine shares [decode] succeeds and emits every
    block of the input: those whose primary share was supplied during
    the selection, the others after the inversion. *)
Theorem decode_spec (self : fec_code) (shares : share_map) (input : list byte) (bs : nat) :
  valid_code self ->
  length input = (N.to_nat (fec_k self) * bs)%nat ->
  (Z.of_nat bs <= INT_MAX)%Z ->
  (1 <= bs)%nat ->
  is_map shares ->
  (N.to_nat (fec_k self) <= length shares)%nat ->
  shares_of self bs input shares ->
  run (decode self shares (N.of_nat bs)) = (decoded self shares bs input, Ok tt).
Proof.
  intros Hvalid Hlen Hint Hne Hmap Henough Hgen.
  pose proof Hvalid as (Hk1 & Hkn & Hn & Hel & Hent).
  unfold run, decode.
  destruct (N.ltb_spec (N.of_nat (length shares)) (fec_k self)); [lia|].
  unfold io_bind at 1.
  rewrite (@select_shares_ok self shares input bs) by auto.
  set (st := fst (selected self shares (N.of_nat bs) (N.to_nat (fec_k self)))).
  destruct (@invert_matrix_spec (m_dec st) (fec_k self)) as (m' & Einv & Lm' & Hinv).
  - lia.
  - assert (Hshape : shape self (N.to_nat (fec_k self)) st).
    { apply selected_shape; auto; try lia.
      apply (@selection_all_ok self shares input bs); auto. }
    apply Hshape.
  - intros c Hc. apply (@m_dec_independent self shares input bs); auto.
  - unfold io_bind, lift. rewrite Einv.
    rewrite (@recover_blocks_spec self shares input bs) by auto.
    rewrite (@passed_through_blocks self shares input bs) by auto.
    reflexivity.
Qed.

(** * The claims of the specification *)

Lemma code_3_5_ctor : fec_code_ctor 3 5 = Ok code_3_5.
Proof. vm_compute. reflexivity. Qed.

Lemma code_1_2_ctor : fec_code_ctor 1 2 = Ok code_1_2.
Proof. vm_compute. reflexivity. Qed.

Lemma code_3_5_valid : valid_code code_3_5.
Proof.
  destruct (@fec_code_ctor_spec 3 5) as (self & E & _ & _ & H); try lia.
  rewrite code_3_5_ctor in E. now injection E as <-.
Qed.

(** ** C8: too few shares *)

(** C8. A call of [decode] with fewer than [k] shares fails with the
    insufficient-shares condition, and the callback has not been invoked:
    the trace of the call is empty. *)
Theorem decode_insufficient_shares (self : fec_code) (shares : share_map)
        (share_size : size_t) :
  N.of_nat (length shares) < fec_k self ->
  run (decode self shares share_size)
  = ([], Throw (logic_error "Could not decode, less than k surviving shares")).
Proof.
  intros H. unfold run, decode.
  destruct (N.ltb_spec (N.of_nat (length shares)) (fec_k self)); [reflexivity | lia].
Qed.

Lemma decode_insufficient_shares_witness :
  N.of_nat (length [(0, [x01; x02]); (4, [x03; x04])]) < fec_k code_3_5 /\
  run (decode code_3_5 [(0, [x01; x02]); (4, [x03; x04])] 2)
  = ([], Throw (logic_error "Could not decode, less than k surviving shares")).
Proof.
  split; [reflexivity | apply decode_insufficient_shares; reflexivity].
Defined.

(** ** C6: the field of the tables *)

(** C6. [init_fec] fills the multiplication table; with [mul a b] the
    entry [GF_MUL_TABLE[a][b]] and [inv a] the entry [GF_INVERSE[a]]:
    a nonzero byte times its inverse is 1, a byte XOR itself is 0,
    multiplication is commutative and distributes over XOR, a product
    with a zero operand is zero, and a product of nonzero operands is
    the antilogarithm of the sum of their logarithms modulo 255. *)
Theorem field_correctness :
  init_fec initial_globals
  = Ok {| fec_initialized := true; MUL_TABLE := GF_MUL_TABLE |} /\
  (forall a b, (row <- vget GF_MUL_TABLE (Byte.to_N a) ;; vget row (Byte.to_N b))
               = Ok (gmul a b)) /\
  (forall a, vget GF_INVERSE (Byte.to_N a) = Ok (ginv a)) /\
  (forall a, a <> x00 -> gmul a (ginv a) = x01) /\
  (forall a, bxor a a = x00) /\
  (forall a b, gmul a b = gmul b a) /\
  (forall a b c, gmul a (bxor b c) = bxor (gmul a b) (gmul a c)) /\
  (forall a, gmul x00 a = x00 /\ gmul a x00 = x00) /\
  (forall a b, gmul a b = if Byte.eqb a x00 || Byte.eqb b x00 then x00
                          else gexp ((glog a + glog b) mod 255)).
Proof.
  split; [apply init_fec_initial|].
  split. { intros a b. rewrite GF_MUL_TABLE_row. cbn [bind]. apply mul_row_get. }
  split; [apply GF_INVERSE_get|].
  split; [apply gmul_inv|].
  split; [apply bxor_nilpotent|].
  split; [apply gmul_comm|].
  split; [apply gmul_distr_l|].
  split; [|apply gmul_spec].
  intros a. split; [apply gmul_0_l | apply gmul_0_r].
Qed.

(** ** C5: [addmul] *)

(** C5. [addmul(dst, src, c, len)], with [dst] at offset [d] of a
    non-empty buffer and [src] at offset [s] of another buffer or of a
    part of the same buffer that does not overlap, both with [len] bytes
    from there on: the call returns, byte [j] of [dst] has become
    [dst[j] XOR mul(c, src[j])] for every [j < len], and every other byte
    of the buffer is as before; this for every [len], also below 16.
    With [c = 0] the buffer is returned as it is, whatever the pointers
    and the length.  With [dst] the data pointer of an empty vector,
    which is null, and [c] not 0, the call is undefined for every
    [len], also for 0: [lim] does not lie below [dst], a loop is entered
    and writes through the null pointer. *)
Theorem addmul_postcondition :
  (forall (buf : list byte) (d : nat) (src : srcbuf) (s : nat) (c : byte) (len : nat),
     (0 < length buf)%nat ->
     (d + len <= length buf)%nat ->
     (s + len <= length (src_data src buf))%nat ->
     (src = SameBuffer -> (s + len <= d \/ d + len <= s)%nat) ->
     exists buf',
       addmul buf (Z.of_nat d) src (Z.of_nat s) c (Z.of_nat len) = Ok buf' /\
       length buf' = length buf /\
       (forall j, (j < len)%nat ->
          nth (d + j) buf' x00
          = bxor (nth (d + j) buf x00) (gmul c (nth (s + j) (src_data src buf) x00))) /\
       (forall j, (j < d \/ d + len <= j)%nat -> nth j buf' x00 = nth j buf x00)) /\
  (forall (buf : list byte) (dst : Z) (src : srcbuf) (srcp : Z) (len : Z),
     addmul buf dst src srcp x00 len = Ok buf) /\
  (forall (src : srcbuf) (srcp : Z) (c : byte) (len : Z),
     c <> x00 -> (0 <= len <= INT_MAX)%Z ->
     addmul [] 0 src srcp c len = Undefined).
Proof.
  split; [|split].
  - intros buf d src s c len Hne Hd Hs Hdis.
    exists (addmul_result buf d (src_data src buf) s c len).
    split; [now apply addmul_spec|].
    split; [apply addmul_result_length|].
    split.
    + intros j Hj. rewrite nth_addmul_result.
      destruct (Nat.leb_spec d (d + j)); [|lia].
      destruct (Nat.ltb_spec (d + j) (d + len)); [|lia].
      destruct (Nat.ltb_spec (d + j) (length buf)); [|lia].
      cbn [andb]. do 3 f_equal. lia.
    + intros j Hj. rewrite nth_addmul_result.
      destruct (Nat.leb_spec d j); destruct (Nat.ltb_spec j (d + len));
        cbn [andb]; auto; lia.
  - intros. reflexivity.
  - intros src srcp c len Hc Hlen. apply addmul_null; [exact Hc|].
    unfold INT_MIN. lia.
Qed.

Lemma addmul_postcondition_witness :
  exists buf',
    addmul [x01; x02; x03; x04; x05] 1%Z (Buffer [x10; x20; x30; x40]) 2%Z x03 2%Z
    = Ok buf' /\
    length buf' = 5%nat /\
    (forall j, (j < 2)%nat ->
       nth (1 + j) buf' x00
       = bxor (nth (1 + j) [x01; x02; x03; x04; x05] x00)
              (gmul x03 (nth (2 + j) [x10; x20; x30; x40] x00))) /\
    (forall j, (j < 1 \/ 1 + 2 <= j)%nat ->
       nth j buf' x00 = nth j [x01; x02; x03; x04; x05] x00).
Proof.
  apply (proj1 addmul_postcondition [x01; x02; x03; x04; x05] 1%nat
               (Buffer [x10; x20; x30; x40]) 2%nat x03 2%nat).
  - simpl. lia.
  - simpl. lia.
  - simpl. lia.
  - discriminate.
Defined.

(** ** C7: the constructor *)

(** The vector [enc_matrix(n * k)] comes first: beyond [max_size()]
    its constructor throws, whatever [k] and [n] are. *)
Lemma fec_code_ctor_too_large (k n : size_t) :
  max_size < size_mul n k ->
  fec_code_ctor k n
  = Throw (length_error "cannot create std::vector larger than max_size()").
Proof.
  intros H. unfold fec_code_ctor, vector_new. cbv zeta.
  destruct (N.ltb_spec max_size (size_mul n k)); [reflexivity | lia].
Qed.

(** After it, the body rejects the pairs with [k > 256], [n > 256] or
    [k > n]. *)
Lemma fec_code_ctor_invalid (k n : size_t) :
  size_mul n k <= max_size ->
  256 < k \/ 256 < n \/ n < k ->
  exists msg, fec_code_ctor k n = Throw (invalid_argument msg).
Proof.
  intros Hsize H. unfold fec_code_ctor. cbv zeta.
  rewrite vector_new_ok by exact Hsize. cbn [bind].
  destruct (N.ltb_spec 256 k); cbn [orb]; [eauto|].
  destruct (N.ltb_spec 256 n); [eauto|].
  destruct (N.ltb_spec n k); [eauto | lia].
Qed.

Lemma fec_code_ctor_rejects (k n : size_t) :
  256 < k \/ 256 < n \/ n < k ->
  exists e, fec_code_ctor k n = Throw e.
Proof.
  intros H. destruct (N.le_gt_cases (size_mul n k) max_size) as [Hs|Hs].
  - destruct (@fec_code_ctor_invalid k n Hs H) as [msg E]. eauto.
  - rewrite (@fec_code_ctor_too_large k n Hs). eauto.
Qed.

(** With [k = 0] the constructor passes both checks and
    [create_inverted_vdm] writes [c[k-1]], an element that the empty
    vector [c] does not have. *)
Lemma fec_code_ctor_zero (n : size_t) :
  n <= 256 -> fec_code_ctor 0 n = Undefined.
Proof.
  intros H. unfold fec_code_ctor. cbv zeta.
  unfold size_mul. rewrite N.mul_0_r.
  change (vector_new (0 mod SIZE_WIDTH)) with (Ok (@nil byte)). cbn [bind].
  change (256 <? 0) with false. cbn [orb].
  destruct (N.ltb_spec 256 n); [lia|].
  destruct (N.ltb_spec n 0); [lia|].
  reflexivity.
Qed.

(** C7. What [fec_code(k, n)] does for every pair.  The member
    [enc_matrix(n * k)] is built before the checks: if [n * k], as a
    [size_t], exceeds [max_size()], the call throws [length_error].
    Otherwise (the allocation being taken to succeed) it throws
    [invalid_argument] if and only if [k > 256],
    [n > 256] or [k > n]; for [1 <= k <= n <= 256] it returns the
    configuration [(k, n)] with the encoding matrix that [enc_entry]
    describes; for [k = 0] and [n <= 256] it neither throws nor returns
    a configuration: it accesses a vector out of its bounds. *)
Theorem fec_code_ctor_outcome (k n : size_t) :
  ((exists msg, fec_code_ctor k n = Throw (invalid_argument msg))
   <-> size_mul n k <= max_size /\ (256 < k \/ 256 < n \/ n < k)) /\
  (max_size < size_mul n k ->
   fec_code_ctor k n
   = Throw (length_error "cannot create std::vector larger than max_size()")) /\
  (1 <= k -> k <= n -> n <= 256 ->
   returns (fec_code_ctor k n)
           (fun self => fec_k self = k /\ fec_n self = n /\ valid_code self)) /\
  (k = 0 -> n <= 256 -> fec_code_ctor k n = Undefined) /\
  fec_code_ctor 4611686018427387904 2
  = Throw (length_error "cannot create std::vector larger than max_size()").
Proof.
  split; [split|split; [|split; [|split]]].
  - intros [msg E].
    destruct (N.le_gt_cases (size_mul n k) max_size) as [Hs|Hs].
    2: { rewrite (@fec_code_ctor_too_large k n Hs) in E. discriminate. }
    split; [exact Hs|].
    destruct (N.le_gt_cases n 256); [|lia].
    destruct (N.le_gt_cases k n); [|lia].
    destruct (N.eq_dec k 0) as [->|Hk].
    + rewrite fec_code_ctor_zero in E by lia. discriminate.
    + destruct (@fec_code_ctor_spec k n) as (self & E' & _); try lia.
      rewrite E' in E. discriminate.
  - intros [Hs H]. now apply fec_code_ctor_invalid.
  - apply fec_code_ctor_too_large.
  - apply fec_code_ctor_spec.
  - intros -> H. now apply fec_code_ctor_zero.
  - apply fec_code_ctor_too_large. vm_compute. reflexivity.
Qed.

Lemma fec_code_ctor_valid (k n : size_t) (self : fec_code) :
  fec_code_ctor k n = Ok self ->
  fec_k self = k /\ fec_n self = n /\ valid_code self.
Proof.
  intros E.
  destruct (N.le_gt_cases n 256) as [Hn|Hn].
  2: { destruct (@fec_code_ctor_rejects k n) as [e E']; [lia|]. congruence. }
  destruct (N.le_gt_cases k n) as [Hk|Hk].
  2: { destruct (@fec_code_ctor_rejects k n) as [e E']; [lia|]. congruence. }
  destruct (N.eq_dec k 0) as [->|Hk0].
  { rewrite fec_code_ctor_zero in E by lia. discriminate. }
  destruct (@fec_code_ctor_spec k n) as (self' & E' & H); try lia.
  rewrite E' in E. injection E as <-. exact H.
Qed.

Lemma code_1_2_valid : valid_code code_1_2.
Proof.
  destruct (@fec_code_ctor_valid 1 2 code_1_2 code_1_2_ctor) as (_ & _ & H). exact H.
Qed.

(** ** Calls that may fail: what holds of the trace in either case *)

Lemma io_yields_ret A (a : A) tr (Q : A -> list emission -> Prop) F :
  Q a tr -> io_yields (io_ret a) tr Q F.
Proof. intros H. exact H. Qed.

Lemma io_yields_lift A (m : result A) tr (Q : A -> list emission -> Prop)
      (F : list emission -> Prop) :
  F tr -> (forall a, m = Ok a -> Q a tr) -> io_yields (lift m) tr Q F.
Proof. intros HF HQ. unfold io_yields, lift. destruct m; auto. Qed.

Lemma io_yields_output i t d l tr (Q : unit -> list emission -> Prop) F :
  Q tt (tr ++ [Emit i t d l]) -> io_yields (output i t d l) tr Q F.
Proof. intros H. exact H. Qed.

Lemma io_yields_bind A B (m : io A) (f : A -> io B) tr P Q F :
  io_yields m tr P F ->
  (forall a tr', P a tr' -> io_yields (f a) tr' Q F) ->
  io_yields (io_bind m f) tr Q F.
Proof.
  unfold io_yields, io_bind. intros Hm Hf.
  destruct (m tr) as [tr' [a| | |]]; auto.
  now apply Hf.
Qed.

Lemma io_yields_ok A (m : io A) tr Q F tr' a :
  io_yields m tr Q F -> m tr = (tr', Ok a) -> Q a tr'.
Proof. unfold io_yields. intros H E. now rewrite E in H. Qed.

Lemma io_yields_trace A (m : io A) tr (Q : A -> list emission -> Prop)
      (F : list emission -> Prop) :
  io_yields m tr Q F -> (forall a tr', Q a tr' -> F tr') -> F (fst (m tr)).
Proof.
  unfold io_yields. intros H HQ.
  destruct (m tr) as [tr' [a| | |]]; cbn [fst]; eauto.
Qed.

Lemma io_loop_ne_yields S (I : size_t -> S -> list emission -> Prop)
      (F : list emission -> Prop) (body : size_t -> S -> io S) fuel :
  forall lo hi s tr,
    lo <= hi -> hi < SIZE_WIDTH ->
    I lo s tr ->
    (forall i s tr, I i s tr -> F tr) ->
    (forall i s tr, lo <= i < hi -> I i s tr -> io_yields (body i s) tr (I (i + 1)) F) ->
    io_yields (io_loop_ne fuel lo hi body s) tr (I hi) F.
Proof.
  induction fuel as [|fuel IH]; intros lo hi s tr Hle Hw H0 HF Hbody.
  - cbn [io_loop_ne]. destruct (N.eqb_spec lo hi) as [->|Hne].
    + now apply io_yields_ret.
    + unfold io_yields, lift. eauto.
  - cbn [io_loop_ne]. destruct (N.eqb_spec lo hi) as [->|Hne].
    + now apply io_yields_ret.
    + eapply io_yields_bind.
      * apply Hbody; auto. lia.
      * intros s' tr' Hs'. rewrite size_add_small by lia.
        apply IH; auto; try lia.
        intros i s0 tr0 Hi Hs0. apply Hbody; auto. lia.
Qed.

(** ** C2: the code is systematic *)

(** The first loop of [encode] passes the blocks of the input on. *)
Lemma encode_primary_loop (self : fec_code) (input : list byte) (bs : nat)
      (tr0 : list emission) :
  valid_code self ->
  length input = (N.to_nat (fec_k self) * bs)%nat ->
  io_for_ne 0 (fec_k self)
    (fun i (_ : unit) =>
       data <~ lift (vslice input (i * N.of_nat bs) (N.of_nat bs)) ;;
       output i (fec_n self) data (N.of_nat bs)) tt tr0
  = (tr0 ++ map (fun i => Emit (N.of_nat i) (fec_n self) (block bs input i) (N.of_nat bs))
                (seq 0 (N.to_nat (fec_k self))), Ok tt).
Proof.
  intros (Hk1 & Hkn & Hn & Hlen & Hent) Hin.
  pose proof SIZE_WIDTH_eq as W.
  assert (R : io_returns
    (io_for_ne 0 (fec_k self)
       (fun i (_ : unit) =>
          data <~ lift (vslice input (i * N.of_nat bs) (N.of_nat bs)) ;;
          output i (fec_n self) data (N.of_nat bs)) tt) tr0
    (fun _ tr =>
       tr = tr0 ++ map (fun i => Emit (N.of_nat i) (fec_n self) (block bs input i)
                                      (N.of_nat bs))
                       (seq 0 (N.to_nat (fec_k self))))).
  { apply io_for_ne_inv with
      (I := fun i (_ : unit) tr =>
              tr = tr0 ++ map (fun i => Emit (N.of_nat i) (fec_n self) (block bs input i)
                                             (N.of_nat bs)) (seq 0 (N.to_nat i))); try lia.
    - cbn [N.to_nat seq map]. now rewrite app_nil_r.
    - intros i [] tr Hi ->.
      set (im := N.to_nat i).
      pose proof (@row_bound im (N.to_nat (fec_k self)) bs ltac:(lia)) as Hrow.
      eapply io_returns_bind.
      + apply (@io_returns_lift_eq _ _ (block bs input im)).
        rewrite vslice_ok by lia.
        unfold block. rewrite Nat2N.id. do 3 f_equal. lia.
      + intros d tr' [-> ->]. apply io_returns_output.
        replace (N.to_nat (i + 1)) with (S im) by lia.
        rewrite seq_S, map_app, <- app_assoc. cbn [map Nat.add].
        replace (N.of_nat im) with i by lia. reflexivity. }
  destruct R as ([] & tr & E & ->). exact E.
Qed.

(** The second loop of [encode] only adds to the trace, also when it
    fails. *)
Lemma encode_parity_loop (self : fec_code) (input : list byte) (block_size : size_t)
      (tr0 : list emission) :
  fec_k self <= fec_n self -> fec_n self <= 256 ->
  exists more,
    fst (io_for_ne (fec_k self) (fec_n self)
           (fun i (_ : unit) =>
              let fec_buf := repeat x00 (N.to_nat block_size) in
              fec_buf <~ lift (for_ne 0 (fec_k self) (fun j fec_buf =>
                           c <- vget (enc_matrix self) (i * fec_k self + j) ;;
                           addmul fec_buf 0 (Buffer input) (Z.of_N (j * block_size))
                                  c (int_of_size_t block_size)) fec_buf) ;;
              output i (fec_n self) fec_buf (N.of_nat (length fec_buf))) tt tr0)
    = tr0 ++ more.
Proof.
  intros Hkn Hn. pose proof SIZE_WIDTH_eq as W.
  apply (@io_yields_trace _ _ tr0 (fun _ tr => exists more, tr = tr0 ++ more)
                          (fun tr => exists more, tr = tr0 ++ more)); [|auto].
  unfold io_for_ne.
  apply io_loop_ne_yields with
    (I := fun (_ : size_t) (_ : unit) tr => exists more, tr = tr0 ++ more); try lia.
  - exists []. now rewrite app_nil_r.
  - auto.
  - intros i [] tr Hi [more ->]. cbv zeta.
    eapply io_yields_bind.
    + apply io_yields_lift with (Q := fun _ tr => exists more, tr = tr0 ++ more); eauto.
    + intros buf tr' [more' ->]. apply io_yields_output.
      rewrite <- app_assoc. eauto.
Qed.

(** C2. In a configuration that the constructor returns, the first [k]
    rows of the encoding matrix are the identity matrix, and for an input
    of [k] blocks the first [k] invocations of the callback by [encode]
    pass share [i], for [i = 0, ..., k-1], with block [i] of the input
    as its bytes. *)
Theorem systematic_property (k n : size_t) (self : fec_code) :
  fec_code_ctor k n = Ok self ->
  (forall i j, (i < N.to_nat k)%nat -> (j < N.to_nat k)%nat ->
     mat (N.to_nat k) (enc_matrix self) i j = if Nat.eqb i j then x01 else x00) /\
  (forall input, (length input mod N.to_nat k = 0)%nat ->
     firstn (N.to_nat k) (fst (run (encode self input)))
     = map (fun i => Emit (N.of_nat i) n
                          (block (length input / N.to_nat k) input i)
                          (N.of_nat (length input / N.to_nat k)))
           (seq 0 (N.to_nat k))).
Proof.
  intros E. apply fec_code_ctor_valid in E. destruct E as (<- & <- & Hvalid).
  pose proof Hvalid as (Hk1 & Hkn & Hn & Hlen & Hent).
  split.
  - intros i j Hi Hj. rewrite Hent by lia. unfold enc_entry.
    destruct (Nat.ltb_spec i (N.to_nat (fec_k self))); [reflexivity | lia].
  - intros input Hmod.
    set (kn := N.to_nat (fec_k self)) in *.
    set (bs := (length input / kn)%nat).
    assert (Hin : length input = (kn * bs)%nat).
    { unfold bs. pose proof (Nat.div_mod_eq (length input) kn). lia. }
    unfold run, encode.
    destruct (N.eqb_spec (fec_k self) 0); [lia|].
    assert (Emod : N.of_nat (length input) mod fec_k self = 0).
    { replace (fec_k self) with (N.of_nat kn) by lia. rewrite <- Nat2N.inj_mod. lia. }
    rewrite Emod. cbn [N.eqb negb].
    assert (Ebs : N.of_nat (length input) / fec_k self = N.of_nat bs).
    { unfold bs, kn. rewrite Nat2N.inj_div, N2Nat.id. reflexivity. }
    rewrite Ebs. unfold io_bind at 1.
    rewrite (@encode_primary_loop self input bs []) by auto.
    cbv beta iota.
    destruct (@encode_parity_loop self input (N.of_nat bs)
                ([] ++ map (fun i => Emit (N.of_nat i) (fec_n self) (block bs input i)
                                          (N.of_nat bs))
                           (seq 0 (N.to_nat (fec_k self)))))
      as [more Hmore]; auto.
    cbv zeta in Hmore. rewrite Hmore. fold kn. cbn [app].
    rewrite firstn_app, length_map, length_seq, Nat.sub_diag. cbn [firstn].
    rewrite app_nil_r. apply firstn_all2. rewrite length_map, length_seq. lia.
Qed.

Lemma systematic_property_witness :
  fec_code_ctor 3 5 = Ok code_3_5 /\
  (forall i j, (i < N.to_nat 3)%nat -> (j < N.to_nat 3)%nat ->
     mat (N.to_nat 3) (enc_matrix code_3_5) i j = if Nat.eqb i j then x01 else x00) /\
  (forall input, (length input mod N.to_nat 3 = 0)%nat ->
     firstn (N.to_nat 3) (fst (run (encode code_3_5 input)))
     = map (fun i => Emit (N.of_nat i) 5
                          (block (length input / N.to_nat 3) input i)
                          (N.of_nat (length input / N.to_nat 3)))
           (seq 0 (N.to_nat 3))).
Proof.
  split; [vm_compute; reflexivity|].
  apply (@systematic_property 3 5 code_3_5). vm_compute. reflexivity.
Defined.

(** ** C4: the selection follows the rule of the specification *)

Lemma smallest_head sh pool :
  (forall y, In y pool -> fst sh < fst y) -> smallest sh pool = sh.
Proof.
  revert sh. induction pool as [|x r IH]; intros sh H; [reflexivity|].
  cbn [smallest].
  destruct (N.ltb_spec (fst x) (fst sh)) as [Hlt|_].
  - specialize (H x (or_introl eq_refl)). lia.
  - apply IH. intros y Hy. apply H. now right.
Qed.

Lemma last_cons A (x d : A) (r : list A) : last (x :: r) d = last r x.
Proof.
  revert x d. induction r as [|y r IH]; intros x d; [reflexivity|].
  change (last (x :: y :: r) d) with (last (y :: r) d).
  now rewrite !(IH y).
Qed.

Lemma last_In A (x : A) (r : list A) : In (last r x) (x :: r).
Proof.
  revert x. induction r as [|y r IH]; intros x; [now left|].
  right. rewrite last_cons. apply IH.
Qed.

Lemma largest_last sh pool :
  StronglySorted N.lt (map fst (sh :: pool)) -> largest sh pool = last pool sh.
Proof.
  revert sh. induction pool as [|x r IH]; intros sh H; [reflexivity|].
  cbn [largest]. cbn [map] in H. apply StronglySorted_inv in H. destruct H as [Hs Hall].
  apply Forall_inv in Hall.
  destruct (N.ltb_spec (fst sh) (fst x)) as [_|Hge]; [|lia].
  rewrite IH by exact Hs. now rewrite last_cons.
Qed.

Lemma consume_head x r :
  (forall y, In y r -> fst x < fst y) -> consume x (x :: r) = r.
Proof.
  intros H. unfold consume. cbn [filter]. rewrite N.eqb_refl. cbn [negb].
  apply forallb_filter_id. apply forallb_forall. intros y Hy.
  specialize (H y Hy). destruct (N.eqb_spec (fst y) (fst x)); [lia | reflexivity].
Qed.

Lemma consume_last x r :
  StronglySorted N.lt (map fst (x :: r)) ->
  consume (last r x) (x :: r) = removelast (x :: r).
Proof.
  revert x. induction r as [|y r IH]; intros x H.
  - unfold consume. cbn. now rewrite N.eqb_refl.
  - cbn [map] in H. apply StronglySorted_inv in H. destruct H as [Hs Hall].
    assert (Hlast : fst x < fst (last r y)).
    { rewrite Forall_forall in Hall. apply Hall.
      change (fst y :: map fst r) with (map fst (y :: r)).
      apply in_map, last_In. }
    rewrite last_cons.
    change (removelast (x :: y :: r)) with (x :: removelast (y :: r)).
    rewrite <- IH by exact Hs.
    unfold consume at 1. cbn [filter].
    destruct (N.eqb_spec (fst x) (fst (last r y))); [lia|]. reflexivity.
Qed.

Lemma skipn_cons_nth A (l : list A) (i : nat) (d : A) :
  (i < length l)%nat -> skipn i l = nth i l d :: skipn (S i) l.
Proof.
  revert i. induction l as [|a l IH]; intros [|i] H; cbn [length] in H;
    try lia; [reflexivity|].
  cbn [skipn nth]. apply IH. lia.
Qed.

Lemma last_nth A (l : list A) (d : A) :
  last l d = nth (length l - 1) l d.
Proof.
  induction l as [|a l IH]; [reflexivity|].
  destruct l as [|b l]; [reflexivity|].
  change (last (a :: b :: l) d) with (last (b :: l) d). rewrite IH.
  cbn [length]. replace (S (S (length l)) - 1)%nat with (S (S (length l) - 1)) by lia.
  reflexivity.
Qed.

Lemma sorted_firstn (l : list size_t) m :
  StronglySorted N.lt l -> StronglySorted N.lt (firstn m l).
Proof.
  intros H. revert m. induction H as [|a l Hs IH Hall]; intros [|m];
    cbn [firstn]; try constructor; auto.
  rewrite Forall_forall in *. intros x Hx. apply Hall.
  rewrite <- (firstn_skipn m l). apply in_or_app. now left.
Qed.

Lemma sorted_skipn (l : list size_t) b :
  StronglySorted N.lt l -> StronglySorted N.lt (skipn b l).
Proof.
  intros H. revert b. induction H as [|a l Hs IH Hall]; intros [|b];
    cbn [skipn]; try constructor; auto.
Qed.

Lemma pool_sorted (shares : share_map) b m :
  is_map shares -> is_map (firstn m (skipn b shares)).
Proof.
  unfold is_map. intros H. rewrite <- firstn_map, <- skipn_map.
  now apply sorted_firstn, sorted_skipn.
Qed.

Lemma sorted_head_least (x : size_t * list byte) (r : share_map) :
  is_map (x :: r) -> forall y, In y r -> fst x < fst y.
Proof.
  unfold is_map. cbn [map]. intros H y Hy.
  apply StronglySorted_inv in H. destruct H as [_ Hall].
  rewrite Forall_forall in Hall. apply Hall. now apply in_map.
Qed.

Section Rule.
Variable self : fec_code.
Variable shares : share_map.
Variable share_size : size_t.

Hypothesis sorted : is_map shares.
Hypothesis enough : (N.to_nat (fec_k self) <= length shares)%nat.

Local Abbreviation st i := (fst (selected self shares share_size i)).

(** After [i] positions the rule has taken what the loop has taken, and
    its pool is what lies between the two iterators. *)
Lemma rule_fold i :
  (i <= N.to_nat (fec_k self))%nat ->
  fold_left (fun acc i => rule_step i acc) (seq 0 i) ([], shares)
  = (map (share_at self shares share_size) (seq 0 i),
     firstn (length shares - i) (skipn (shares_b_iter (st i)) shares)).
Proof.
  induction i as [|i IH]; intros Hi.
  - cbn [seq fold_left map selected fst shares_b_iter skipn].
    now rewrite Nat.sub_0_r, firstn_all.
  - rewrite seq_S, fold_left_app, IH by lia. cbn [Nat.add fold_left].
    pose proof (@iterators_sum self shares share_size enough i) as Hsum.
    pose proof (@iterators_S self shares share_size i) as HS. cbv zeta in HS.
    destruct HS as [Hb _].
    pose proof (@share_at_eq self shares share_size enough i ltac:(lia)) as Hat.
    set (b := shares_b_iter (st i)) in *.
    set (e := shares_e_iter (st i)) in *.
    set (m := (length shares - S i)%nat).
    replace (length shares - i)%nat with (S m) by (unfold m; lia).
    assert (Hsorted : is_map (firstn (S m) (skipn b shares))) by now apply pool_sorted.
    assert (Hlast : last (firstn (S m) (skipn b shares)) (0, [])
                    = nth (length shares - 1 - e) shares (0, [])).
    { rewrite last_nth, length_slice by (unfold m; lia).
      rewrite nth_slice by lia. f_equal. unfold m. lia. }
    assert (Hrem : removelast (firstn (S m) (skipn b shares))
                   = firstn m (skipn b shares)).
    { apply removelast_firstn. rewrite length_skipn. unfold m. lia. }
    rewrite (@skipn_cons_nth _ shares b (0, [])) in * by lia.
    cbn [firstn] in *.
    set (x := nth b shares (0, [])) in *.
    set (r := firstn m (skipn (S b) shares)) in *.
    unfold rule_step. cbv zeta.
    rewrite smallest_head by now apply sorted_head_least.
    rewrite largest_last by exact Hsorted.
    rewrite last_cons in Hlast.
    rewrite map_app. cbn [map]. rewrite Hat, Hb.
    destruct (N.eqb_spec (fst x) (N.of_nat i)) as [E|E].
    + rewrite consume_head by now apply sorted_head_least. reflexivity.
    + rewrite consume_last by exact Hsorted. rewrite Hrem, Hlast.
      rewrite (@skipn_cons_nth _ shares b (0, [])) by lia. reflexivity.
Qed.

Lemma selection_rule_eq :
  selection_rule (N.to_nat (fec_k self)) shares
  = map (share_at self shares share_size) (seq 0 (N.to_nat (fec_k self))).
Proof. unfold selection_rule. now rewrite rule_fold. Qed.
End Rule.

(** What the selection loop returns, when it returns. *)
Lemma select_shares_returns (self : fec_code) (shares : share_map) (share_size : size_t)
      (tr : list emission) (st : selection) :
  valid_code self ->
  (N.to_nat (fec_k self) <= length shares)%nat ->
  select_shares self shares share_size [] = (tr, Ok st) ->
  all_ok self shares share_size (N.to_nat (fec_k self)) /\
  st = fst (selected self shares share_size (N.to_nat (fec_k self))) /\
  tr = snd (selected self shares share_size (N.to_nat (fec_k self))).
Proof.
  intros (Hk1 & Hkn & Hn & Hlen & _) Henough E.
  destruct (@select_shares_outcome self shares share_size) as [[Hok E']|(j & _ & _ & _ & E')];
    try lia.
  - rewrite E' in E. injection E as <- <-. auto.
  - rewrite E' in E. injection E as _ E.
    destruct (step_result _ _ _ _ _); discriminate.
Qed.

(** The selection loop throws only at a share whose identifier is not
    below [n]. *)
Lemma select_shares_throws (self : fec_code) (shares : share_map) (share_size : size_t)
      (tr : list emission) (e : exception) :
  valid_code self ->
  (N.to_nat (fec_k self) <= length shares)%nat ->
  select_shares self shares share_size [] = (tr, Throw e) ->
  exists j, (j < N.to_nat (fec_k self))%nat /\
            fec_n self <= fst (share_at self shares share_size j) /\
            e = logic_error "Invalid share identifier detected during decode".
Proof.
  intros (Hk1 & Hkn & Hn & Hlen & _) Henough E.
  destruct (@select_shares_outcome self shares share_size)
    as [[Hok E']|(j & Hj & _ & Hne & E')]; try lia.
  - rewrite E' in E. discriminate.
  - rewrite E' in E. injection E as _ E. exists j.
    pose proof (@step_result_invalid self shares share_size Henough j) as Hinv.
    destruct (step_result _ _ _ _ _); try discriminate.
    split; [exact Hj|]. split; [now apply Hinv|]. now injection E as <-.
Qed.

(** The selection loop returns when the shares it takes are in range
    and the primary ones hold [share_size] bytes. *)
Lemma select_shares_total (self : fec_code) (shares : share_map) (share_size : size_t) :
  valid_code self ->
  (N.to_nat (fec_k self) <= length shares)%nat ->
  (forall j, (j < N.to_nat (fec_k self))%nat ->
     fst (share_at self shares share_size j) < fec_n self /\
     (fst (share_at self shares share_size j) < fec_k self ->
      share_size <= N.of_nat (length (snd (share_at self shares share_size j))))) ->
  select_shares self shares share_size []
  = (snd (selected self shares share_size (N.to_nat (fec_k self))),
     Ok (fst (selected self shares share_size (N.to_nat (fec_k self))))).
Proof.
  intros (Hk1 & Hkn & Hn & Hlen & _) Henough Hall.
  destruct (@select_shares_outcome self shares share_size)
    as [[Hok E']|(j & Hj & _ & Hne & E')]; try lia; auto.
  exfalso. apply Hne. apply step_result_ok; auto.
Qed.

(** C4. The selection loop of [decode], called with at least [k] shares
    of distinct indices, against the rule of the specification
    ([selection_rule]: for position [i] the smallest index not yet
    consumed if it is [i], the largest index not yet consumed otherwise).
    The rule takes [k] shares, one per position.  When the loop returns,
    the identifiers and the buffers it has recorded for the positions
    [0 .. k) are those of the rule.  It returns whenever the shares of
    the rule have identifiers below [n] and the primary ones among them
    hold [share_size] bytes, and when it throws, a share of the rule has
    an identifier that is not below [n]. *)
Theorem selection_protocol (self : fec_code) (shares : share_map) (share_size : size_t) :
  valid_code self ->
  is_map shares ->
  (N.to_nat (fec_k self) <= length shares)%nat ->
  length (selection_rule (N.to_nat (fec_k self)) shares) = N.to_nat (fec_k self) /\
  (forall tr st,
     select_shares self shares share_size [] = (tr, Ok st) ->
     indexes st = map fst (selection_rule (N.to_nat (fec_k self)) shares) /\
     sharesv st = map snd (selection_rule (N.to_nat (fec_k self)) shares)) /\
  ((forall sh, In sh (selection_rule (N.to_nat (fec_k self)) shares) ->
      fst sh < fec_n self /\
      (fst sh < fec_k self -> share_size <= N.of_nat (length (snd sh)))) ->
   exists tr st, select_shares self shares share_size [] = (tr, Ok st)) /\
  (forall tr e,
     select_shares self shares share_size [] = (tr, Throw e) ->
     exists sh, In sh (selection_rule (N.to_nat (fec_k self)) shares) /\
                fec_n self <= fst sh).
Proof.
  intros Hvalid Hmap Henough.
  rewrite (@selection_rule_eq self shares share_size Hmap Henough).
  assert (Hin : forall j, (j < N.to_nat (fec_k self))%nat ->
            In (share_at self shares share_size j)
               (map (share_at self shares share_size) (seq 0 (N.to_nat (fec_k self))))).
  { intros j Hj. apply in_map, in_seq. lia. }
  split; [now rewrite length_map, length_seq|].
  split; [|split].
  - intros tr st E.
    apply select_shares_returns in E; auto. destruct E as (_ & -> & _).
    pose proof (@state_lengths self shares share_size (N.to_nat (fec_k self))) as [Li Ls].
    split.
    + apply (@list_ext_nth _ _ _ 0).
      * now rewrite !length_map, length_seq.
      * intros j Hj. rewrite Li in Hj.
        rewrite (@nth_indep _ (map fst _) j 0 (fst (0, @nil byte)))
          by now rewrite !length_map, length_seq.
        rewrite map_nth, (@nth_map_seq _ _ (N.to_nat (fec_k self)) 0 j) by exact Hj.
        apply state_records; auto.
    + apply (@list_ext_nth _ _ _ []).
      * now rewrite !length_map, length_seq.
      * intros j Hj. rewrite Ls in Hj.
        rewrite (@nth_indep _ (map snd _) j [] (snd (0, @nil byte)))
          by now rewrite !length_map, length_seq.
        rewrite map_nth, (@nth_map_seq _ _ (N.to_nat (fec_k self)) 0 j) by exact Hj.
        apply state_records; auto.
  - intros Hall. do 2 eexists.
    apply select_shares_total; auto.
  - intros tr e E.
    apply select_shares_throws in E; auto. destruct E as (j & Hj & Hge & _).
    exists (share_at self shares share_size j). auto.
Qed.

Lemma selection_protocol_witness :
  valid_code code_3_5 /\
  is_map [(1, [x0a; x0b]); (3, [x0c; x0d]); (4, [x0e; x0f])] /\
  (N.to_nat (fec_k code_3_5)
   <= length [(1, [x0a; x0b]); (3, [x0c; x0d]); (4, [x0e; x0f])])%nat /\
  selection_rule 3 [(1, [x0a; x0b]); (3, [x0c; x0d]); (4, [x0e; x0f])]
  = [(4, [x0e; x0f]); (1, [x0a; x0b]); (3, [x0c; x0d])] /\
  exists tr st,
    select_shares code_3_5 [(1, [x0a; x0b]); (3, [x0c; x0d]); (4, [x0e; x0f])] 2 []
    = (tr, Ok st) /\
    indexes st = [4; 1; 3].
Proof.
  assert (Hmap : is_map [(1, [x0a; x0b]); (3, [x0c; x0d]); (4, [x0e; x0f])]).
  { unfold is_map. cbn [map fst].
    repeat (constructor; [|repeat constructor; reflexivity]). constructor. }
  assert (Hlen : (N.to_nat (fec_k code_3_5)
                  <= length [(1, [x0a; x0b]); (3, [x0c; x0d]); (4, [x0e; x0f])])%nat).
  { vm_compute. lia. }
  split; [exact code_3_5_valid|]. split; [exact Hmap|]. split; [exact Hlen|].
  split; [vm_compute; reflexivity|].
  destruct (@selection_protocol code_3_5
              [(1, [x0a; x0b]); (3, [x0c; x0d]); (4, [x0e; x0f])] 2
              code_3_5_valid Hmap Hlen) as (_ & Hrec & Htot & _).
  destruct Htot as (tr & st & E).
  { intros sh Hsh. vm_compute in Hsh.
    destruct Hsh as [<-|[<-|[<-|[]]]]; vm_compute; split; congruence. }
  exists tr, st. split; [exact E|].
  destruct (Hrec tr st E) as [-> _]. vm_compute. reflexivity.
Defined.

(** ** C10: the invariant of the selection *)

Lemma peval_repeat_zero m x : peval (repeat x00 m) x = x00.
Proof.
  induction m as [|m IH]; [reflexivity|].
  cbn [repeat peval]. now rewrite IH, gmul_0_r, bxor_0_l.
Qed.

(** For [k >= 2] no row of the redundant part of the encoding matrix is
    a standard basis row: such a row evaluates the polynomial [X] at
    its own point, a basis row at one of the first [k] points. *)
Lemma redundant_row_not_unit (k r i : nat) :
  (2 <= k)%nat -> (k <= r)%nat -> (r < 256)%nat -> (i < k)%nat ->
  ~ (forall l, (l < k)%nat -> enc_entry k r l = if Nat.eqb i l then x01 else x00).
Proof.
  intros Hk Hr Hr' Hi Hrow.
  pose proof (@enc_entry_interpolates k ltac:(lia) ltac:(lia)
                ([x00; x01] ++ repeat x00 (k - 2)) r) as H.
  rewrite length_app, repeat_length in H. cbn [length] in H.
  specialize (H ltac:(lia)).
  assert (HX : forall x, peval ([x00; x01] ++ repeat x00 (k - 2)) x = x).
  { intros x. cbn [app peval]. rewrite peval_repeat_zero.
    now rewrite gmul_0_r, bxor_0_r, gmul_1_r, bxor_0_l. }
  rewrite HX in H.
  rewrite (@gsum_ext k _ (fun l => if Nat.eqb l i then point l else x00)) in H.
  2: { intros l Hl. rewrite HX, Hrow by exact Hl.
       rewrite (Nat.eqb_sym i l).
       destruct (Nat.eqb l i); [apply gmul_1_l | apply gmul_0_l]. }
  rewrite gsum_single in H by exact Hi.
  apply point_inj in H; lia.
Qed.

(** C10. The selection loop of [decode], called with at least [k]
    shares of distinct indices below [n], the primary ones with buffers
    of [share_size] bytes, returns, and in the state it returns: a position whose share
    came from the fallback branch (the forward iterator was not at a
    share of index [i]) has an index that is at least [k]; an index below
    [k] stands at the position equal to it; no index stands at two
    positions; row [i] of the decoding matrix is the [i]-th standard
    basis row if the index of position [i] is below [k], and row
    [indexes[i]] of the encoding matrix otherwise, which for [k >= 2] is
    not the [i]-th standard basis row. *)
Theorem selection_invariant (self : fec_code) (shares : share_map) (share_size : size_t) :
  valid_code self ->
  is_map shares ->
  (N.to_nat (fec_k self) <= length shares)%nat ->
  (forall id data, In (id, data) shares ->
     id < fec_n self /\
     (id < fec_k self -> share_size <= N.of_nat (length data))) ->
  exists tr st,
    select_shares self shares share_size [] = (tr, Ok st) /\
    (forall i, (i < N.to_nat (fec_k self))%nat ->
       fst (nth (shares_b_iter (fst (selected self shares share_size i))) shares (0, []))
       <> N.of_nat i ->
       fec_k self <= nth i (indexes st) 0) /\
    (forall i, (i < N.to_nat (fec_k self))%nat ->
       nth i (indexes st) 0 < fec_k self -> nth i (indexes st) 0 = N.of_nat i) /\
    NoDup (indexes st) /\
    (forall i l, (i < N.to_nat (fec_k self))%nat -> (l < N.to_nat (fec_k self))%nat ->
       mat (N.to_nat (fec_k self)) (m_dec st) i l
       = if nth i (indexes st) 0 <? fec_k self
         then (if Nat.eqb i l then x01 else x00)
         else mat (N.to_nat (fec_k self)) (enc_matrix self)
                  (N.to_nat (nth i (indexes st) 0)) l) /\
    (2 <= fec_k self ->
     forall i, (i < N.to_nat (fec_k self))%nat ->
       fec_k self <= nth i (indexes st) 0 ->
       ~ (forall l, (l < N.to_nat (fec_k self))%nat ->
            mat (N.to_nat (fec_k self)) (m_dec st) i l
            = if Nat.eqb i l then x01 else x00)).
Proof.
  intros Hvalid Hmap Henough Hshares.
  pose proof Hvalid as (Hk1 & Hkn & Hn & Hlen & Hent).
  assert (Hat : forall j, (j < N.to_nat (fec_k self))%nat ->
            fst (share_at self shares share_size j) < fec_n self /\
            (fst (share_at self shares share_size j) < fec_k self ->
             share_size <= N.of_nat (length (snd (share_at self shares share_size j))))).
  { intros j Hj. pose proof (@share_at_In self shares share_size Henough j Hj) as Hin.
    destruct (share_at self shares share_size j) as [id data].
    apply Hshares in Hin. cbn [fst snd]. tauto. }
  assert (Hok : all_ok self shares share_size (N.to_nat (fec_k self))).
  { intros j Hj. apply step_result_ok; auto. }
  exists (snd (selected self shares share_size (N.to_nat (fec_k self)))),
         (fst (selected self shares share_size (N.to_nat (fec_k self)))).
  split; [now apply select_shares_total|].
  assert (Hrec : forall i, (i < N.to_nat (fec_k self))%nat ->
            nth i (indexes (fst (selected self shares share_size (N.to_nat (fec_k self))))) 0
            = fst (share_at self shares share_size i)).
  { intros i Hi. now apply state_records. }
  assert (Hrows : forall i l, (i < N.to_nat (fec_k self))%nat ->
            (l < N.to_nat (fec_k self))%nat ->
            mat (N.to_nat (fec_k self))
                (m_dec (fst (selected self shares share_size (N.to_nat (fec_k self))))) i l
            = if nth i (indexes (fst (selected self shares share_size
                                               (N.to_nat (fec_k self))))) 0 <? fec_k self
              then (if Nat.eqb i l then x01 else x00)
              else mat (N.to_nat (fec_k self)) (enc_matrix self)
                       (N.to_nat (nth i (indexes (fst (selected self shares share_size
                                                     (N.to_nat (fec_k self))))) 0)) l).
  { intros i l Hi Hl. rewrite Hrec by exact Hi.
    apply state_rows; auto; lia. }
  split; [|split; [|split; [|split]]].
  - intros i Hi Hfront. rewrite Hrec by exact Hi.
    apply share_at_back; auto.
    intros Hin. apply Hfront. now apply key_front_iff.
  - intros i Hi Hlt. rewrite Hrec in * by exact Hi.
    destruct (@share_at_cases self shares share_size Hmap Henough i Hi) as [[E _]|[Hge _]];
      [exact E | lia].
  - apply (NoDup_nth _ 0). intros i j Hi Hj E.
    pose proof (@state_lengths self shares share_size (N.to_nat (fec_k self))) as [Li _].
    rewrite Li in Hi, Hj. rewrite !Hrec in E by assumption.
    destruct (Nat.lt_trichotomy i j) as [Hlt|[Heq|Hgt]]; [|exact Heq|].
    + exfalso. now apply (@share_at_distinct self shares share_size Hmap Henough i j).
    + exfalso. now apply (@share_at_distinct self shares share_size Hmap Henough j i).
  - exact Hrows.
  - intros Hk2 i Hi Hge Hunit.
    assert (Hr : nth i (indexes (fst (selected self shares share_size
                                          (N.to_nat (fec_k self))))) 0 < fec_n self).
    { rewrite Hrec by exact Hi. now apply Hat. }
    apply (@redundant_row_not_unit (N.to_nat (fec_k self))
             (N.to_nat (nth i (indexes (fst (selected self shares share_size
                                                (N.to_nat (fec_k self))))) 0)) i);
      try lia.
    intros l Hl. rewrite <- Hunit by exact Hl. rewrite Hrows by assumption.
    destruct (N.ltb_spec (nth i (indexes (fst (selected self shares share_size
                                                  (N.to_nat (fec_k self))))) 0)
                         (fec_k self)); [lia|].
    symmetry. apply Hent; lia.
Qed.

Lemma selection_invariant_witness :
  exists tr st,
    select_shares code_3_5 [(1, [x0a; x0b]); (3, [x0c; x0d]); (4, [x0e; x0f])] 2 []
    = (tr, Ok st) /\
    NoDup (indexes st) /\
    (forall i, (i < 3)%nat -> nth i (indexes st) 0 < 3 -> nth i (indexes st) 0 = N.of_nat i).
Proof.
  destruct (@selection_invariant code_3_5
              [(1, [x0a; x0b]); (3, [x0c; x0d]); (4, [x0e; x0f])] 2)
    as (tr & st & E & _ & Hown & Hnodup & _).
  - exact code_3_5_valid.
  - unfold is_map. cbn [map fst].
    repeat (constructor; [|repeat constructor; reflexivity]). constructor.
  - vm_compute. lia.
  - intros id data Hin.
    destruct Hin as [E|[E|[E|[]]]]; injection E as <- <-; vm_compute;
      split; congruence.
  - exists tr, st. auto.
Defined.

(** C10, as the claim has it, fails for [k = 1], where every row of the
    encoding matrix is [1]: with the code [(1, 2)] and the share 1 alone,
    position 0 takes the share of index 1, which is not below [k], and
    row 0 of the decoding matrix, the copy of row 1 of the encoding
    matrix, is the standard basis row all the same. *)
Lemma selection_row_of_repetition_code :
  fec_code_ctor 1 2 = Ok code_1_2 /\
  select_shares code_1_2 [(1, [x05])] 1 []
  = ([], Ok {| m_dec := [x01]; indexes := [1]; sharesv := [[x05]];
               shares_b_iter := 0; shares_e_iter := 1 |}) /\
  ~ ((forall l, (l < N.to_nat (fec_k code_1_2))%nat ->
        mat (N.to_nat (fec_k code_1_2)) [x01] 0 l = if Nat.eqb 0 l then x01 else x00)
     <-> nth 0 [1] 0 < fec_k code_1_2).
Proof.
  split; [exact code_1_2_ctor|].
  split; [vm_compute; reflexivity|].
  intros [H _].
  assert (Hlt : nth 0 [1] 0 < fec_k code_1_2).
  { apply H. intros l Hl. change (N.to_nat (fec_k code_1_2)) with 1%nat in *.
    assert (l = 0%nat) by lia. subst l. reflexivity. }
  vm_compute in Hlt. discriminate.
Qed.

(** ** C3: identifiers that are not below [n] *)

(** The first position without a primary share. *)
Lemma missing_dec (keys : list size_t) (k : nat) :
  (forall j, (j < k)%nat -> In (N.of_nat j) keys) \/
  exists i, (i < k)%nat /\ ~ In (N.of_nat i) keys /\
            forall j, (j < i)%nat -> In (N.of_nat j) keys.
Proof.
  induction k as [|k [IH|(i & Hi & H)]].
  - left. intros j Hj. lia.
  - destruct (in_dec N.eq_dec (N.of_nat k) keys) as [Hk|Hk].
    + left. intros j Hj. destruct (Nat.eq_dec j k) as [->|]; [exact Hk|]. apply IH. lia.
    + right. exists k. split; [lia|]. split; [exact Hk | exact IH].
  - right. exists i. split; [lia | exact H].
Qed.

Lemma first_missing (keys : list size_t) (k : nat) :
  (exists i, (i < k)%nat /\ ~ In (N.of_nat i) keys) ->
  exists i, (i < k)%nat /\ ~ In (N.of_nat i) keys /\
            forall j, (j < i)%nat -> In (N.of_nat j) keys.
Proof.
  intros (i & Hi & Hni).
  destruct (missing_dec keys k) as [Hall|H]; [|exact H].
  exfalso. apply Hni. now apply Hall.
Qed.

(** In a map the last entry has the largest key. *)
Lemma last_key_max (shares : share_map) (id : size_t) (data : list byte) :
  is_map shares -> In (id, data) shares ->
  id <= fst (nth (length shares - 1) shares (0, [])).
Proof.
  intros Hmap Hin.
  destruct (In_nth _ _ (0, []) Hin) as (p & Hp & E).
  destruct (Nat.eq_dec p (length shares - 1)) as [->|Hne].
  - rewrite E. cbn [fst]. lia.
  - pose proof (@key_lt shares Hmap p (length shares - 1) ltac:(lia) ltac:(lia)) as H.
    rewrite E in H. cbn [fst] in H. lia.
Qed.

(** When the shares of all positions are supplied, every position takes
    its own share, from the forward iterator. *)
Lemma share_at_primary (self : fec_code) (shares : share_map) (share_size : size_t)
      (i : nat) :
  is_map shares ->
  (N.to_nat (fec_k self) <= length shares)%nat ->
  (forall j, (j < N.to_nat (fec_k self))%nat -> In (N.of_nat j) (map fst shares)) ->
  (i < N.to_nat (fec_k self))%nat ->
  share_at self shares share_size i = nth i shares (0, []) /\
  fst (nth i shares (0, [])) = N.of_nat i.
Proof.
  intros Hmap Henough Hall Hi.
  pose proof (@iterators_sum self shares share_size Henough i) as Hsum.
  rewrite (@e_iter_0 self shares share_size Hmap Henough i) in Hsum
    by (try lia; intros j Hj; apply Hall; lia).
  rewrite Nat.add_0_r in Hsum.
  pose proof (@share_at_eq self shares share_size Henough i Hi) as Hat.
  pose proof (proj2 (@key_front_iff self shares share_size Hmap Henough i Hi) (Hall i Hi))
    as Hkey.
  rewrite Hsum in Hat, Hkey. rewrite Hkey, N.eqb_refl in Hat. auto.
Qed.

(** The same at a position up to which the primary shares are there. *)
Lemma share_at_prefix (self : fec_code) (shares : share_map) (share_size : size_t)
      (i : nat) :
  is_map shares ->
  (N.to_nat (fec_k self) <= length shares)%nat ->
  (i < N.to_nat (fec_k self))%nat ->
  (forall j, (j <= i)%nat -> In (N.of_nat j) (map fst shares)) ->
  share_at self shares share_size i = nth i shares (0, []) /\
  fst (nth i shares (0, [])) = N.of_nat i.
Proof.
  intros Hmap Henough Hi Hall.
  pose proof (@iterators_sum self shares share_size Henough i) as Hsum.
  rewrite (@e_iter_0 self shares share_size Hmap Henough i) in Hsum
    by (try lia; intros j Hj; apply Hall; lia).
  rewrite Nat.add_0_r in Hsum.
  pose proof (@share_at_eq self shares share_size Henough i Hi) as Hat.
  pose proof (proj2 (@key_front_iff self shares share_size Hmap Henough i Hi)
                    (Hall i (Nat.le_refl i))) as Hkey.
  rewrite Hsum in Hat, Hkey. rewrite Hkey, N.eqb_refl in Hat. auto.
Qed.

(** The identity matrix passes through [invert_matrix]. *)
Lemma identity_independent (kn : nat) (A : nat -> nat -> byte) (c : nat) :
  (forall i l, (i < kn)%nat -> (l < kn)%nat -> A i l = if Nat.eqb i l then x01 else x00) ->
  (c < kn)%nat -> independent kn A c.
Proof.
  intros HA Hc.
  assert (Hmul : forall x j, (j < kn)%nat -> mulv kn A x j = x j).
  { intros x j Hj. unfold mulv.
    rewrite (@gsum_ext kn _ (fun l => if Nat.eqb l j then x l else x00)).
    - now apply gsum_single.
    - intros l Hl. rewrite HA by assumption. rewrite (Nat.eqb_sym j l).
      destruct (Nat.eqb l j); [apply gmul_1_l | apply gmul_0_l]. }
  exists (fun l => if Nat.eqb l c then x01 else x00). split; [|split].
  - intros j Hj. destruct (Nat.eqb_spec j c); [lia | reflexivity].
  - intros j Hj. rewrite Hmul by lia. destruct (Nat.eqb_spec j c); [lia | reflexivity].
  - rewrite Hmul by exact Hc. rewrite Nat.eqb_refl. discriminate.
Qed.

(** The loop after the inversion does nothing when every position holds
    a primary share. *)
Lemma recover_blocks_none (self : fec_code) (share_size : size_t) (m : list byte)
      (st : selection) (tr : list emission) :
  (length (indexes st) <= 256)%nat ->
  (forall i, (i < length (indexes st))%nat -> nth i (indexes st) 0 < fec_k self) ->
  recover_blocks self share_size m st tr = (tr, Ok tt).
Proof.
  intros Hlen Hprim. pose proof SIZE_WIDTH_eq as W.
  destruct (@io_for_ne_inv unit (fun _ _ tr' => tr' = tr)
              (fun i (_ : unit) =>
                 ix <~ lift (vget (indexes st) i) ;;
                 if fec_k self <=? ix then
                   let buf := repeat x00 (N.to_nat share_size) in
                   buf <~ lift (for_lt 0 (fec_k self) (fun col buf =>
                            src <- vget (sharesv st) col ;;
                            c <- vget m (i * fec_k self + col) ;;
                            addmul buf 0 (Buffer src) 0 c (int_of_size_t share_size)) buf) ;;
                   data <~ lift (vslice buf 0 share_size) ;;
                   output i (fec_k self) data share_size
                 else io_ret tt)
              0 (N.of_nat (length (indexes st))) tt tr) as ([] & tr' & E & ->);
    try lia; auto.
  intros i [] tr' Hi ->.
  eapply io_returns_bind.
  - apply (@io_returns_lift_eq _ _ (nth (N.to_nat i) (indexes st) 0)).
    apply vget_ok. lia.
  - intros ix tr' [-> ->].
    specialize (Hprim (N.to_nat i) ltac:(lia)).
    destruct (N.leb_spec (fec_k self) (nth (N.to_nat i) (indexes st) 0)); [lia|].
    now apply io_returns_ret.
Qed.

(** With the shares of all positions [0 .. k) supplied, [decode] passes
    them on and returns; what else the map holds is not looked at. *)
Lemma decode_all_primary (self : fec_code) (shares : share_map) (share_size : size_t) :
  valid_code self ->
  is_map shares ->
  (N.to_nat (fec_k self) <= length shares)%nat ->
  (forall id data, In (id, data) shares -> id < fec_k self ->
     share_size <= N.of_nat (length data)) ->
  (forall j, (j < N.to_nat (fec_k self))%nat -> In (N.of_nat j) (map fst shares)) ->
  run (decode self shares share_size)
  = (map (fun i => Emit (N.of_nat i) (fec_k self)
                        (firstn (N.to_nat share_size) (snd (nth i shares (0, []))))
                        share_size)
         (seq 0 (N.to_nat (fec_k self))), Ok tt).
Proof.
  intros Hvalid Hmap Henough Hsize Hall.
  pose proof Hvalid as (Hk1 & Hkn & Hn & Hlen & _).
  assert (Hat : forall j, (j < N.to_nat (fec_k self))%nat ->
            share_at self shares share_size j = nth j shares (0, []) /\
            fst (nth j shares (0, [])) = N.of_nat j).
  { intros j Hj. now apply share_at_primary. }
  assert (Hok : forall j, (j < N.to_nat (fec_k self))%nat ->
            fst (share_at self shares share_size j) < fec_n self /\
            (fst (share_at self shares share_size j) < fec_k self ->
             share_size <= N.of_nat (length (snd (share_at self shares share_size j))))).
  { intros j Hj. destruct (Hat j Hj) as [E Hkey]. rewrite E, Hkey.
    split; [lia|]. intros _.
    apply (Hsize (fst (nth j shares (0, []))) (snd (nth j shares (0, [])))).
    - rewrite <- surjective_pairing. apply nth_In. lia.
    - rewrite Hkey. lia. }
  assert (Hallok : all_ok self shares share_size (N.to_nat (fec_k self))).
  { intros j Hj. apply step_result_ok; auto. }
  unfold run, decode.
  destruct (N.ltb_spec (N.of_nat (length shares)) (fec_k self)); [lia|].
  unfold io_bind at 1. rewrite select_shares_total by assumption.
  set (st := fst (selected self shares share_size (N.to_nat (fec_k self)))).
  assert (Hidx : forall i, (i < N.to_nat (fec_k self))%nat ->
            nth i (indexes st) 0 = N.of_nat i).
  { intros i Hi. unfold st.
    destruct (@state_records self shares share_size Henough (N.to_nat (fec_k self)) i
                ltac:(lia) Hi) as [-> _].
    destruct (Hat i Hi) as [-> Hkey]. exact Hkey. }
  pose proof (@state_lengths self shares share_size (N.to_nat (fec_k self))) as [Li _].
  fold st in Li.
  destruct (@invert_matrix_spec (m_dec st) (fec_k self)) as (m' & Einv & _).
  - lia.
  - apply (@selected_shape self shares share_size); auto; lia.
  - intros c Hc. apply identity_independent; [|exact Hc].
    intros i l Hi Hl.
    destruct (@state_rows self shares share_size ltac:(lia) Hlen Henough
                (N.to_nat (fec_k self)) ltac:(lia) Hallok) as [Hrows _].
    fold st in Hrows. rewrite Hrows by assumption.
    destruct (Hat i Hi) as [-> Hkey]. rewrite Hkey.
    destruct (N.ltb_spec (N.of_nat i) (fec_k self)); [reflexivity | lia].
  - unfold io_bind, lift. rewrite Einv.
    rewrite recover_blocks_none.
    + f_equal. rewrite state_trace.
      rewrite (@flat_map_ext_in _ _ _
                 (fun i => [Emit (N.of_nat i) (fec_k self)
                                 (firstn (N.to_nat share_size) (snd (nth i shares (0, []))))
                                 share_size])).
      * clear. induction (seq 0 (N.to_nat (fec_k self))) as [|a l IH]; [reflexivity|].
        cbn [flat_map map app]. now rewrite IH.
      * intros i Hi. apply in_seq in Hi. unfold passed_through.
        destruct (Hat i ltac:(lia)) as [-> Hkey]. rewrite Hkey.
        destruct (N.ltb_spec (N.of_nat i) (fec_k self)); [reflexivity | lia].
    + lia.
    + intros i Hi. rewrite Hidx by lia. lia.
Qed.

(** The first position without a share takes the share of the largest
    identifier, and [decode] throws if that identifier is not below [n];
    the callback has by then received the primary shares of the
    positions before, and nothing else. *)
Lemma decode_rejects_selected (self : fec_code) (shares : share_map) (share_size : size_t) :
  valid_code self ->
  is_map shares ->
  (N.to_nat (fec_k self) <= length shares)%nat ->
  (forall id data, In (id, data) shares -> id < fec_k self ->
     share_size <= N.of_nat (length data)) ->
  (exists id data, In (id, data) shares /\ fec_n self <= id) ->
  (exists i, (i < N.to_nat (fec_k self))%nat /\ ~ In (N.of_nat i) (map fst shares)) ->
  exists i0,
    (i0 < N.to_nat (fec_k self))%nat /\
    ~ In (N.of_nat i0) (map fst shares) /\
    (forall j, (j < i0)%nat -> In (N.of_nat j) (map fst shares)) /\
    run (decode self shares share_size)
    = (map (fun j => Emit (N.of_nat j) (fec_k self)
                          (firstn (N.to_nat share_size) (snd (nth j shares (0, []))))
                          share_size)
           (seq 0 i0),
       Throw (logic_error "Invalid share identifier detected during decode")).
Proof.
  intros Hvalid Hmap Henough Hsize (id & data & Hin & Hid) Hmiss.
  pose proof Hvalid as (Hk1 & Hkn & Hn & Hlen & _).
  apply first_missing in Hmiss. destruct Hmiss as (i0 & Hi0 & Hnot & Hbelow).
  assert (Hbad : fec_n self <= fst (share_at self shares share_size i0)).
  { rewrite share_at_eq by auto.
    rewrite (@e_iter_0 self shares share_size Hmap Henough i0) by (auto; lia).
    destruct (N.eqb_spec
                (fst (nth (shares_b_iter (fst (selected self shares share_size i0)))
                          shares (0, []))) (N.of_nat i0)) as [E|_].
    - exfalso. apply Hnot. now apply (@key_front_iff self shares share_size Hmap Henough i0).
    - rewrite Nat.sub_0_r.
      pose proof (@last_key_max shares id data Hmap Hin). lia. }
  assert (Hok : all_ok self shares share_size i0).
  { intros j Hj. apply step_result_ok; auto.
    pose proof (@share_at_front self shares share_size Hmap Henough j ltac:(lia)
                  (Hbelow j Hj)) as Hfst.
    pose proof (@share_at_In self shares share_size Henough j ltac:(lia)) as Hj_in.
    destruct (share_at self shares share_size j) as [idj dj]. cbn [fst snd] in *.
    split; [lia|]. intros Hlt. now apply (Hsize idj dj). }
  destruct (@select_shares_outcome self shares share_size)
    as [[Hall _]|(j & Hj & Hokj & Hne & E)]; try lia.
  { exfalso. specialize (Hall i0 Hi0).
    apply step_result_ok in Hall; auto. lia. }
  assert (j = i0).
  { destruct (Nat.lt_trichotomy j i0) as [Hlt|[Heq|Hgt]]; [|exact Heq|].
    - exfalso. apply Hne. now apply Hok.
    - exfalso. specialize (Hokj i0 Hgt). apply step_result_ok in Hokj; auto. lia. }
  subst j.
  apply (@step_result_invalid self shares share_size Henough i0) in Hbad.
  rewrite Hbad in E. cbn [failure] in E.
  exists i0. split; [exact Hi0|]. split; [exact Hnot|]. split; [exact Hbelow|].
  unfold run, decode.
  destruct (N.ltb_spec (N.of_nat (length shares)) (fec_k self)); [lia|].
  unfold io_bind at 1. rewrite E. f_equal.
  rewrite state_trace.
  rewrite (@flat_map_ext_in _ _ _
             (fun i => [Emit (N.of_nat i) (fec_k self)
                             (firstn (N.to_nat share_size) (snd (nth i shares (0, []))))
                             share_size])).
  - clear. induction (seq 0 i0) as [|a l IH]; [reflexivity|].
    cbn [flat_map map app]. now rewrite IH.
  - intros i Hi. apply in_seq in Hi. unfold passed_through.
    destruct (@share_at_prefix self shares share_size i Hmap Henough ltac:(lia))
      as [-> Hkey].
    { intros j' Hj'. apply Hbelow. lia. }
    rewrite Hkey.
    destruct (N.ltb_spec (N.of_nat i) (fec_k self)); [reflexivity | lia].
Qed.

(** C3, as the code has it.  [decode] checks the identifier of a share
    when it takes the share for a position.  Called with at least [k]
    shares, of which one has an identifier that is not below [n]:
    if the share of some position [i < k] is missing, the first such
    position [i0] takes the share of the largest identifier and the call
    fails with the invalid-index condition, after the callback has
    received exactly the primary blocks of the positions [0 .. i0), in
    this order; if the shares of all positions [0 .. k) are supplied, it
    passes them to the callback and returns, and the other shares are
    not looked at. *)
Theorem decode_invalid_index (self : fec_code) (shares : share_map) (share_size : size_t) :
  valid_code self ->
  is_map shares ->
  (N.to_nat (fec_k self) <= length shares)%nat ->
  (forall id data, In (id, data) shares -> id < fec_k self ->
     share_size <= N.of_nat (length data)) ->
  (exists id data, In (id, data) shares /\ fec_n self <= id) ->
  ((exists i, (i < N.to_nat (fec_k self))%nat /\ ~ In (N.of_nat i) (map fst shares)) ->
   exists i0,
     (i0 < N.to_nat (fec_k self))%nat /\
     ~ In (N.of_nat i0) (map fst shares) /\
     (forall j, (j < i0)%nat -> In (N.of_nat j) (map fst shares)) /\
     run (decode self shares share_size)
     = (map (fun j => Emit (N.of_nat j) (fec_k self)
                           (firstn (N.to_nat share_size) (snd (nth j shares (0, []))))
                           share_size)
            (seq 0 i0),
        Throw (logic_error "Invalid share identifier detected during decode"))) /\
  ((forall i, (i < N.to_nat (fec_k self))%nat -> In (N.of_nat i) (map fst shares)) ->
   run (decode self shares share_size)
   = (map (fun i => Emit (N.of_nat i) (fec_k self)
                         (firstn (N.to_nat share_size) (snd (nth i shares (0, []))))
                         share_size)
          (seq 0 (N.to_nat (fec_k self))), Ok tt)).
Proof.
  intros Hvalid Hmap Henough Hsize Hbad. split.
  - intros Hmiss. now apply decode_rejects_selected.
  - intros Hall. now apply decode_all_primary.
Qed.

Lemma decode_invalid_index_witness :
  run (decode code_3_5 [(0, [x01; x02]); (1, [x03; x04]); (7, [x05; x06])] 2)
  = ([Emit 0 3 [x01; x02] 2; Emit 1 3 [x03; x04] 2],
     Throw (logic_error "Invalid share identifier detected during decode")).
Proof.
  destruct (fun H1 H2 H3 H4 H5 H6 =>
              proj1 (@decode_invalid_index code_3_5
                       [(0, [x01; x02]); (1, [x03; x04]); (7, [x05; x06])] 2
                       H1 H2 H3 H4 H5) H6) as (i0 & Hi0 & Hnot & Hbelow & E).
  - exact code_3_5_valid.
  - unfold is_map. cbn [map fst].
    repeat (constructor; [|repeat constructor; reflexivity]). constructor.
  - vm_compute. lia.
  - intros id data Hin _.
    destruct Hin as [E|[E|[E|[]]]]; injection E as <- <-; vm_compute; congruence.
  - exists 7, [x05; x06]. split; [right; right; left; reflexivity | vm_compute; congruence].
  - exists 2%nat. split; [vm_compute; lia|].
    cbn [map fst]. intros [H|[H|[H|[]]]]; discriminate.
  - change (N.to_nat (fec_k code_3_5)) with 3%nat in Hi0. cbn [map fst] in Hnot.
    destruct i0 as [|[|[|i0]]]; [| | |lia].
    + exfalso. apply Hnot. left. reflexivity.
    + exfalso. apply Hnot. right. left. reflexivity.
    + exact E.
Defined.

(** C3, as the claim has it, fails: with the shares 0, 1 and 2 of a code
    with [k = 3] and [n = 5] and a fourth share of identifier 7, which is
    not below [n], [decode] takes the first three shares, never looks at
    the fourth, and returns after passing the three blocks on. *)
Lemma decode_ignores_surplus_identifier :
  fec_code_ctor 3 5 = Ok code_3_5 /\
  In (7, [x07; x08]) [(0, [x01; x02]); (1, [x03; x04]); (2, [x05; x06]); (7, [x07; x08])] /\
  fec_n code_3_5 <= 7 /\
  run (decode code_3_5
         [(0, [x01; x02]); (1, [x03; x04]); (2, [x05; x06]); (7, [x07; x08])] 2)
  = ([Emit 0 3 [x01; x02] 2; Emit 1 3 [x03; x04] 2; Emit 2 3 [x05; x06] 2], Ok tt).
Proof.
  split; [exact code_3_5_ctor|].
  split; [right; right; right; left; reflexivity|].
  split; [vm_compute; congruence|].
  vm_compute. reflexivity.
Qed.

(** ** C9: the order of the invocations of the callback *)

Lemma filter_split_perm A (p : A -> bool) (l : list A) :
  Permutation (filter p l ++ filter (fun x => negb (p x)) l) l.
Proof.
  induction l as [|a l IH]; [constructor|].
  cbn [filter]. destruct (p a); cbn [negb app].
  - now constructor.
  - symmetry. apply Permutation_cons_app. now symmetry.
Qed.

Lemma filter_seq_sorted (p : nat -> bool) (n : nat) : forall a,
  StronglySorted N.lt (map N.of_nat (filter p (seq a n))) /\
  Forall (fun x => N.of_nat a <= x) (map N.of_nat (filter p (seq a n))).
Proof.
  induction n as [|n IH]; intros a; cbn [seq filter map]; [split; constructor|].
  destruct (IH (S a)) as [Hs Hall].
  assert (Hall' : Forall (fun x => N.of_nat a < x) (map N.of_nat (filter p (seq (S a) n)))).
  { eapply Forall_impl; [|exact Hall]. cbv beta. intros x Hx. lia. }
  destruct (p a); cbn [map].
  - split; constructor; auto; try lia.
    eapply Forall_impl; [|exact Hall']. cbv beta. intros x Hx. lia.
  - split; [exact Hs|]. eapply Forall_impl; [|exact Hall']. cbv beta. intros x Hx. lia.
Qed.

(** The loop after the inversion, when it returns, has invoked the
    callback once for each position whose share is not a primary one, in
    the order of the positions. *)
Lemma recover_blocks_trace (self : fec_code) (share_size : size_t) (m : list byte)
      (st : selection) (tr0 tr : list emission) :
  (length (indexes st) <= 256)%nat ->
  recover_blocks self share_size m st tr0 = (tr, Ok tt) ->
  exists recovered,
    tr = tr0 ++ recovered /\
    map em_index recovered
    = map N.of_nat (filter (fun i => fec_k self <=? nth i (indexes st) 0)
                           (seq 0 (length (indexes st)))).
Proof.
  intros Hlen E. pose proof SIZE_WIDTH_eq as W.
  pose (Inv := fun (i : size_t) (_ : unit) (tr : list emission) =>
          exists recovered,
            tr = tr0 ++ recovered /\
            map em_index recovered
            = map N.of_nat (filter (fun i => fec_k self <=? nth i (indexes st) 0)
                                   (seq 0 (N.to_nat i)))).
  assert (HY : io_yields (recover_blocks self share_size m st) tr0
                         (Inv (N.of_nat (length (indexes st)))) (fun _ => True)).
  2: { pose proof (@io_yields_ok _ _ _ _ _ _ _ HY E) as H. unfold Inv in H.
       now rewrite Nat2N.id in H. }
  unfold recover_blocks, io_for_ne.
  apply io_loop_ne_yields; try lia; unfold Inv; auto.
  - exists []. split; [now rewrite app_nil_r | reflexivity].
  - intros i [] tr1 Hi (recovered & -> & Hrec).
    replace (N.to_nat (i + 1)) with (S (N.to_nat i)) by lia.
    rewrite seq_S, filter_app. cbn [Nat.add filter].
    eapply io_yields_bind.
    + apply io_yields_lift with
        (Q := fun ix tr' => tr' = tr0 ++ recovered /\ ix = nth (N.to_nat i) (indexes st) 0);
        [exact I|].
      intros ix Eix. rewrite (@vget_ok _ (indexes st) i 0) in Eix by lia.
      injection Eix as <-. auto.
    + intros ix tr' [-> ->].
      destruct (fec_k self <=? nth (N.to_nat i) (indexes st) 0).
      * eapply io_yields_bind;
          [apply io_yields_lift with (Q := fun _ tr' => tr' = tr0 ++ recovered);
           [exact I | reflexivity]|].
        intros buf tr' ->.
        eapply io_yields_bind;
          [apply io_yields_lift with (Q := fun _ tr' => tr' = tr0 ++ recovered);
           [exact I | reflexivity]|].
        intros data tr' ->.
        apply io_yields_output. exists (recovered ++ [Emit i (fec_k self) data share_size]).
        split; [now rewrite app_assoc|].
        rewrite !map_app, Hrec. cbn [map em_index]. now rewrite N2Nat.id.
      * apply io_yields_ret. exists recovered. split; [reflexivity|].
        now rewrite app_nil_r.
Qed.

(** The invocations of the selection loop: one for each position whose
    share is a primary one, under the number of the position. *)
Lemma passed_through_indices (self : fec_code) (shares : share_map) (share_size : size_t)
      (l : list nat) :
  is_map shares ->
  (N.to_nat (fec_k self) <= length shares)%nat ->
  Forall (fun i => (i < N.to_nat (fec_k self))%nat) l ->
  map em_index (flat_map (passed_through self shares share_size) l)
  = map N.of_nat
        (filter (fun i => nth i (indexes (fst (selected self shares share_size
                                                 (N.to_nat (fec_k self))))) 0 <? fec_k self) l)
  /\ Forall (fun e => exists data, In (em_index e, data) shares /\
                                   em_data e = firstn (N.to_nat share_size) data)
            (flat_map (passed_through self shares share_size) l).
Proof.
  intros Hmap Henough Hl. induction Hl as [|i l Hi Hl [IH1 IH2]];
    [split; [reflexivity | constructor]|].
  cbn [flat_map filter].
  destruct (@state_records self shares share_size Henough (N.to_nat (fec_k self)) i
              ltac:(lia) Hi) as [-> _].
  unfold passed_through at 1 3.
  pose proof (@share_at_In self shares share_size Henough i Hi) as Hin.
  destruct (N.ltb_spec (fst (share_at self shares share_size i)) (fec_k self)) as [Hlt|Hge].
  - destruct (@share_at_cases self shares share_size Hmap Henough i Hi) as [[E _]|[Hge _]];
      [|lia].
    cbn [app map em_index]. split.
    + now rewrite IH1, E.
    + constructor; [|exact IH2]. cbn [em_index em_data].
      exists (snd (share_at self shares share_size i)). split; [|reflexivity].
      now rewrite <- surjective_pairing.
  - cbn [app]. auto.
Qed.

(** C9. A call of [decode] that returns has gone through the selection
    loop, the inversion and the recovery loop, in this order, and the
    callback was invoked [direct] in the first and [recovered] in the
    last.  [direct] holds one invocation for each position whose share
    is a primary one, under the number of the position and with the
    bytes of the supplied share; [recovered] holds one invocation for
    each other position, in increasing order of the positions.  Together
    they hold each position [0 .. k) once. *)
Theorem decode_emission_contract (self : fec_code) (shares : share_map)
        (share_size : size_t) (tr : list emission) :
  valid_code self ->
  is_map shares ->
  run (decode self shares share_size) = (tr, Ok tt) ->
  exists st m direct recovered,
    select_shares self shares share_size [] = (direct, Ok st) /\
    invert_matrix (m_dec st) (fec_k self) = Ok m /\
    recover_blocks self share_size m st direct = (direct ++ recovered, Ok tt) /\
    tr = direct ++ recovered /\
    map em_index direct
    = map N.of_nat (filter (fun i => nth i (indexes st) 0 <? fec_k self)
                           (seq 0 (N.to_nat (fec_k self)))) /\
    Forall (fun e => exists data, In (em_index e, data) shares /\
                                  em_data e = firstn (N.to_nat share_size) data) direct /\
    map em_index recovered
    = map N.of_nat (filter (fun i => fec_k self <=? nth i (indexes st) 0)
                           (seq 0 (N.to_nat (fec_k self)))) /\
    StronglySorted N.lt (map em_index recovered) /\
    Permutation (map em_index tr) (map N.of_nat (seq 0 (N.to_nat (fec_k self)))).
Proof.
  intros Hvalid Hmap E.
  pose proof Hvalid as (Hk1 & Hkn & Hn & Hlen & _).
  unfold run, decode in E.
  destruct (N.ltb_spec (N.of_nat (length shares)) (fec_k self)) as [|Henough];
    [discriminate|].
  assert (Henough' : (N.to_nat (fec_k self) <= length shares)%nat) by lia.
  unfold io_bind at 1 in E.
  destruct (select_shares self shares share_size []) as [direct [st| | |]] eqn:Es;
    try discriminate.
  unfold io_bind at 1, lift in E.
  destruct (invert_matrix (m_dec st) (fec_k self)) as [m| | |] eqn:Einv; try discriminate.
  destruct (@select_shares_returns self shares share_size direct st Hvalid Henough' Es)
    as (Hok & Hst & Hdirect).
  pose proof (@state_lengths self shares share_size (N.to_nat (fec_k self))) as [Li _].
  rewrite <- Hst in Li.
  destruct (@recover_blocks_trace self share_size m st direct tr ltac:(lia) E)
    as (recovered & -> & Hrec).
  rewrite Li in Hrec.
  destruct (@passed_through_indices self shares share_size (seq 0 (N.to_nat (fec_k self)))
              Hmap Henough') as [Hd1 Hd2].
  { apply Forall_forall. intros i Hi. apply in_seq in Hi. lia. }
  rewrite <- state_trace, <- Hdirect, <- Hst in Hd1.
  rewrite <- state_trace, <- Hdirect in Hd2.
  exists st, m, direct, recovered.
  repeat (split; [first [reflexivity | assumption]|]).
  split.
  - rewrite Hrec. apply filter_seq_sorted.
  - rewrite map_app, Hd1, Hrec, <- map_app. apply Permutation_map.
    rewrite (@filter_ext _ (fun i => fec_k self <=? nth i (indexes st) 0)
                         (fun i => negb (nth i (indexes st) 0 <? fec_k self))).
    + apply filter_split_perm.
    + intros i. apply N.leb_antisym.
Qed.

Lemma decode_emission_contract_witness :
  exists st m direct recovered,
    select_shares code_3_5 [(1, [x0a; x0b]); (3, [x0c; x0d]); (4, [x0e; x0f])] 2 []
    = (direct, Ok st) /\
    invert_matrix (m_dec st) 3 = Ok m /\
    map em_index direct = [1] /\
    map em_index recovered = [0; 2] /\
    run (decode code_3_5 [(1, [x0a; x0b]); (3, [x0c; x0d]); (4, [x0e; x0f])] 2)
    = (direct ++ recovered, Ok tt).
Proof.
  destruct (@decode_emission_contract code_3_5
              [(1, [x0a; x0b]); (3, [x0c; x0d]); (4, [x0e; x0f])] 2
              (fst (run (decode code_3_5
                           [(1, [x0a; x0b]); (3, [x0c; x0d]); (4, [x0e; x0f])] 2))))
    as (st & m & direct & recovered & Es & Em & _ & Etr & Hd & _ & Hr & _).
  - exact code_3_5_valid.
  - unfold is_map. cbn [map fst].
    repeat (constructor; [|repeat constructor; reflexivity]). constructor.
  - vm_compute. reflexivity.
  - exists st, m, direct, recovered.
    split; [exact Es|]. split; [exact Em|].
    assert (Est : st = fst (selected code_3_5
                              [(1, [x0a; x0b]); (3, [x0c; x0d]); (4, [x0e; x0f])] 2 3)).
    { eapply select_shares_returns; [exact code_3_5_valid | vm_compute; lia | exact Es]. }
    split; [rewrite Hd, Est; vm_compute; reflexivity|].
    split; [rewrite Hr, Est; vm_compute; reflexivity|].
    rewrite <- Etr. vm_compute. reflexivity.
Defined.

(** ** C1: the round trip *)

Lemma nth_place (buf : list byte) (e : emission) (p : nat) :
  (N.to_nat (em_index e) * N.to_nat (em_length e) + length (em_data e) <= length buf)%nat ->
  nth p (place buf e) x00
  = if Nat.leb (N.to_nat (em_index e) * N.to_nat (em_length e)) p
       && Nat.ltb p (N.to_nat (em_index e) * N.to_nat (em_length e) + length (em_data e))
    then nth (p - N.to_nat (em_index e) * N.to_nat (em_length e)) (em_data e) x00
    else nth p buf x00.
Proof.
  intros H. unfold place. cbv zeta. rewrite nth_blit by exact H.
  destruct (Nat.ltb_spec p (N.to_nat (em_index e) * N.to_nat (em_length e)));
    destruct (Nat.leb_spec (N.to_nat (em_index e) * N.to_nat (em_length e)) p);
    try lia; reflexivity.
Qed.

Lemma place_length (buf : list byte) (e : emission) :
  (N.to_nat (em_index e) * N.to_nat (em_length e) + length (em_data e) <= length buf)%nat ->
  length (place buf e) = length buf.
Proof.
  intros H. unfold place. cbv zeta.
  rewrite !length_app, length_firstn, length_skipn. lia.
Qed.

(** Storing the blocks of the positions [l] of [input] leaves a buffer
    that agrees with [input] on these blocks. *)
Lemma place_blocks (total : size_t) (k bs : nat) (input : list byte) (l : list nat) :
  length input = (k * bs)%nat ->
  Forall (fun i => (i < k)%nat) l ->
  forall buf, length buf = (k * bs)%nat ->
    length (fold_left place
              (map (fun i => Emit (N.of_nat i) total (block bs input i) (N.of_nat bs)) l)
              buf) = (k * bs)%nat /\
    forall p, (p < k * bs)%nat ->
      nth p (fold_left place
               (map (fun i => Emit (N.of_nat i) total (block bs input i) (N.of_nat bs)) l)
               buf) x00
      = if existsb (Nat.eqb (p / bs)) l then nth p input x00 else nth p buf x00.
Proof.
  intros Hin Hl. induction Hl as [|i l Hi Hl IH]; intros buf Hbuf.
  - cbn [map fold_left existsb]. auto.
  - cbn [map fold_left existsb].
    pose proof (@row_bound i k bs Hi) as Hrow.
    assert (Hb : length (block bs input i) = bs) by (apply block_length; lia).
    assert (Hfit : (N.to_nat (em_index (Emit (N.of_nat i) total (block bs input i)
                                             (N.of_nat bs)))
                    * N.to_nat (em_length (Emit (N.of_nat i) total (block bs input i)
                                                (N.of_nat bs)))
                    + length (em_data (Emit (N.of_nat i) total (block bs input i)
                                            (N.of_nat bs))) <= length buf)%nat).
    { cbn [em_index em_length em_data]. rewrite !Nat2N.id, Hb. lia. }
    destruct (IH (place buf (Emit (N.of_nat i) total (block bs input i) (N.of_nat bs))))
      as [IHl IHn].
    { rewrite place_length by exact Hfit. exact Hbuf. }
    split; [exact IHl|].
    intros p Hp. rewrite IHn by exact Hp.
    rewrite nth_place by exact Hfit.
    cbn [em_index em_length em_data]. rewrite !Nat2N.id, Hb.
    assert (Hbs : (0 < bs)%nat) by (destruct bs; [lia | lia]).
    destruct (existsb (Nat.eqb (p / bs)) l); [now rewrite orb_true_r|].
    rewrite orb_false_r.
    pose proof (Nat.div_mod_eq p bs) as Hdm.
    pose proof (Nat.mod_upper_bound p bs ltac:(lia)) as Hmod.
    destruct (Nat.eqb_spec (p / bs) i) as [E|E].
    + destruct (Nat.leb_spec (i * bs) p); [|nia].
      destruct (Nat.ltb_spec p (i * bs + bs)); [|nia].
      cbn [andb]. rewrite nth_block by lia. f_equal. lia.
    + destruct (Nat.leb_spec (i * bs) p); destruct (Nat.ltb_spec p (i * bs + bs));
        cbn [andb]; try reflexivity.
      exfalso. apply E.
      replace p with (i * bs + (p - i * bs))%nat by lia.
      apply div_mod_index. lia.
Qed.

Lemma sorted_map_of_nat (l : list nat) :
  StronglySorted lt l -> StronglySorted N.lt (map N.of_nat l).
Proof.
  induction 1 as [|a l Hs IH Hall]; cbn [map]; constructor; auto.
  rewrite Forall_forall in *. intros x Hx.
  apply in_map_iff in Hx. destruct Hx as (y & <- & Hy).
  specialize (Hall y Hy). lia.
Qed.

(** The shares taken from the trace of [encode]. *)
Lemma shares_from_encoded (self : fec_code) (input : list byte) (idxs : list nat) :
  Forall (fun i => (i < N.to_nat (fec_n self))%nat) idxs ->
  shares_from (encoded self input) idxs
  = map (fun i => (N.of_nat i,
                   share_data (N.to_nat (fec_k self))
                              (length input / N.to_nat (fec_k self)) input i)) idxs.
Proof.
  intros H. unfold shares_from. apply map_ext_in. intros i Hi.
  rewrite Forall_forall in H. specialize (H i Hi).
  unfold encoded. cbv zeta.
  rewrite (@nth_map_seq _ _ (N.to_nat (fec_n self)) 0 i) by exact H. reflexivity.
Qed.

(** The round trip for blocks of 1 to [INT_MAX] bytes: [encode]
    returns after [n] invocations of the callback, and [decode], given
    any [k] of the emitted shares under their indices, returns after [k]
    invocations that, each stored at the place of its index, make up the
    input. *)
Theorem round_trip (k n : size_t) (self : fec_code) (input : list byte)
        (idxs : list nat) :
  fec_code_ctor k n = Ok self ->
  (length input mod N.to_nat k = 0)%nat ->
  (Z.of_nat (length input / N.to_nat k) <= INT_MAX)%Z ->
  (1 <= length input / N.to_nat k)%nat ->
  StronglySorted lt idxs ->
  Forall (fun i => (i < N.to_nat n)%nat) idxs ->
  length idxs = N.to_nat k ->
  exists emitted out,
    run (encode self input) = (emitted, Ok tt) /\
    length emitted = N.to_nat n /\
    run (decode self (shares_from emitted idxs) (N.of_nat (length input / N.to_nat k)))
    = (out, Ok tt) /\
    length out = N.to_nat k /\
    reassemble (length input) out = input.
Proof.
  intros E Hmod Hint Hne Hsorted Hidx Hcount.
  apply fec_code_ctor_valid in E. destruct E as (<- & <- & Hvalid).
  pose proof Hvalid as (Hk1 & Hkn & Hn & Hlen & Hent).
  set (kn := N.to_nat (fec_k self)) in *.
  set (bs := (length input / kn)%nat) in *.
  assert (Hin : length input = (kn * bs)%nat).
  { unfold bs. pose proof (Nat.div_mod_eq (length input) kn). lia. }
  set (shares := shares_from (encoded self input) idxs).
  assert (Eshares : shares = map (fun i => (N.of_nat i, share_data kn bs input i)) idxs).
  { unfold shares. now rewrite shares_from_encoded. }
  assert (Hmap : is_map shares).
  { unfold is_map. rewrite Eshares, map_map. cbn [fst].
    now apply sorted_map_of_nat. }
  assert (Henough : (kn <= length shares)%nat).
  { rewrite Eshares, length_map. lia. }
  assert (Hgen : shares_of self bs input shares).
  { intros id data Hid. rewrite Eshares in Hid. apply in_map_iff in Hid.
    destruct Hid as (i & Ei & Hi). injection Ei as <- <-.
    rewrite Forall_forall in Hidx. specialize (Hidx i Hi).
    split; [lia|]. now rewrite Nat2N.id. }
  exists (encoded self input), (decoded self shares bs input).
  split; [now apply encode_spec|].
  split; [unfold encoded; cbv zeta; now rewrite length_map, length_seq|].
  split; [now apply decode_spec|].
  assert (Hperm : Permutation
            (filter (supplied shares) (seq 0 kn)
             ++ filter (fun i => negb (supplied shares i)) (seq 0 kn)) (seq 0 kn))
    by apply filter_split_perm.
  unfold decoded. cbv zeta. fold kn. rewrite <- map_app.
  split.
  - rewrite length_map. rewrite (Permutation_length Hperm). apply length_seq.
  - unfold reassemble.
    destruct (@place_blocks (fec_k self) kn bs input
                (filter (supplied shares) (seq 0 kn)
                 ++ filter (fun i => negb (supplied shares i)) (seq 0 kn)) Hin)
      with (buf := repeat x00 (length input)) as [Hl Hnth].
    + apply Forall_forall. intros i Hi.
      apply (Permutation_in _ Hperm), in_seq in Hi. lia.
    + rewrite repeat_length. exact Hin.
    + apply (@list_ext_nth _ _ _ x00); [lia|].
      intros p Hp. rewrite Hl in Hp. rewrite Hnth by exact Hp.
      assert (Hbs : (0 < bs)%nat) by (destruct bs; lia).
      assert (Hq : (p / bs < kn)%nat).
      { apply Nat.Div0.div_lt_upper_bound. lia. }
      assert (Hex : existsb (Nat.eqb (p / bs))
                      (filter (supplied shares) (seq 0 kn)
                       ++ filter (fun i => negb (supplied shares i)) (seq 0 kn)) = true).
      { apply existsb_exists. exists (p / bs)%nat. split; [|apply Nat.eqb_refl].
        apply (Permutation_in _ (Permutation_sym Hperm)), in_seq. lia. }
      now rewrite Hex.
Qed.

(** The round trip of six bytes through the shares 1, 3 and 4 of the
    code with [k = 3] and [n = 5]. *)
Example round_trip_3_5 :
  exists emitted out,
    run (encode code_3_5 [x01; x02; x03; x04; x05; x06]) = (emitted, Ok tt) /\
    run (decode code_3_5 (shares_from emitted [1; 3; 4]%nat) 2) = (out, Ok tt) /\
    reassemble 6 out = [x01; x02; x03; x04; x05; x06].
Proof.
  destruct (@round_trip 3 5 code_3_5 [x01; x02; x03; x04; x05; x06] [1; 3; 4]%nat)
    as (emitted & out & Ee & _ & Ed & _ & Er).
  - exact code_3_5_ctor.
  - reflexivity.
  - vm_compute. discriminate.
  - vm_compute. lia.
  - repeat (constructor; [|repeat constructor]). constructor.
  - repeat constructor.
  - reflexivity.
  - exists emitted, out. auto.
Qed.

(** ** C1: blocks of more than [INT_MAX] bytes *)

(** [addmul] with the length 0 does nothing to a buffer that is not
    empty. *)
Lemma addmul_zero_size (buf : list byte) (src : list byte) (c : byte) :
  (0 < length buf)%nat ->
  addmul buf 0 (Buffer src) 0 c 0 = Ok buf.
Proof.
  intros Hne. change 0%Z with (Z.of_nat 0).
  rewrite addmul_spec; try (cbn [src_data]; lia); try discriminate.
  f_equal. apply (@addmul_result_0 buf 0 (Buffer src)).
Qed.

(** [encode] with one block whose length is a multiple of [2^32]: the
    conversion of [block_size] to the [int] parameter of [addmul] gives
    0, and the redundant share stays as it was allocated. *)
Lemma encode_wide_block (input : list byte) :
  (0 < length input)%nat ->
  int_of_size_t (N.of_nat (length input)) = 0%Z ->
  run (encode code_1_2 input)
  = ([Emit 0 2 input (N.of_nat (length input));
      Emit 1 2 (repeat x00 (length input)) (N.of_nat (length input))], Ok tt).
Proof.
  intros Hne Hz. unfold run, encode.
  change (fec_k code_1_2 =? 0) with false. cbv iota.
  change (N.of_nat (length input) mod fec_k code_1_2)
    with (N.of_nat (length input) mod 1).
  change (N.of_nat (length input) / fec_k code_1_2)
    with (N.of_nat (length input) / 1).
  rewrite N.mod_1_r, N.div_1_r. cbn [N.eqb negb].
  unfold io_bind at 1.
  rewrite (@encode_primary_loop code_1_2 input (length input) [])
    by (try exact code_1_2_valid; change (N.to_nat (fec_k code_1_2)) with 1%nat; lia).
  cbv beta iota.
  change (N.to_nat (fec_k code_1_2)) with 1%nat. cbn [seq map app].
  unfold block. cbn [Nat.mul skipn]. rewrite firstn_all.
  unfold io_for_ne.
  change (N.to_nat (size_sub (fec_n code_1_2) (fec_k code_1_2))) with 1%nat.
  cbn [io_loop_ne].
  change (fec_k code_1_2 =? fec_n code_1_2) with false. cbv iota.
  change (size_add (fec_k code_1_2) 1 =? fec_n code_1_2) with true. cbv iota.
  unfold for_ne.
  change (N.to_nat (size_sub (fec_k code_1_2) 0)) with 1%nat.
  cbn [loop_ne].
  change (0 =? fec_k code_1_2) with false. cbv iota.
  change (size_add 0 1 =? fec_k code_1_2) with true. cbv iota.
  change (vget (enc_matrix code_1_2) (fec_k code_1_2 * fec_k code_1_2 + 0)) with (Ok x01).
  cbn [bind]. rewrite Hz.
  change (Z.of_N (0 * N.of_nat (length input))) with 0%Z.
  rewrite addmul_zero_size by (rewrite repeat_length; lia). cbn [bind].
  unfold io_bind, lift, output, io_ret. cbn [app].
  now rewrite repeat_length, Nat2N.id.
Qed.

(** [decode] of the redundant share alone, for such a block: [addmul]
    is called with the length 0 again, and the block that the callback
    receives is the buffer as it was allocated. *)
Lemma decode_wide_block (data : list byte) (share_size : size_t) :
  (0 < N.to_nat share_size)%nat ->
  int_of_size_t share_size = 0%Z ->
  run (decode code_1_2 [(1, data)] share_size)
  = ([Emit 0 1 (repeat x00 (N.to_nat share_size)) share_size], Ok tt).
Proof.
  intros Hne Hz. unfold run, decode.
  change (N.of_nat (length [(1, data)]) <? fec_k code_1_2) with false. cbv iota.
  unfold io_bind at 1.
  rewrite select_shares_total.
  2: exact code_1_2_valid.
  2: { change (N.to_nat (fec_k code_1_2)) with 1%nat. cbn [length]. lia. }
  2: { change (N.to_nat (fec_k code_1_2)) with 1%nat. intros j Hj.
       assert (j = 0%nat) by lia. subst j.
       change (share_at code_1_2 [(1, data)] share_size 0) with (1, data).
       cbn [fst snd]. change (fec_n code_1_2) with 2. change (fec_k code_1_2) with 1.
       split; lia. }
  change (N.to_nat (fec_k code_1_2)) with 1%nat.
  change (selected code_1_2 [(1, data)] share_size 1)
    with ({| m_dec := [x01]; indexes := [1]; sharesv := [data];
             shares_b_iter := 0; shares_e_iter := 1 |}, @nil emission).
  cbn [fst snd m_dec].
  unfold io_bind at 1, lift at 1.
  replace (invert_matrix [x01] (fec_k code_1_2)) with (Ok [x01])
    by (vm_compute; reflexivity).
  unfold recover_blocks, io_for_ne. cbn [indexes length sharesv].
  change (N.to_nat (size_sub (N.of_nat 1) 0)) with 1%nat.
  cbn [io_loop_ne].
  change (0 =? N.of_nat 1) with false. cbv iota.
  change (size_add 0 1 =? N.of_nat 1) with true. cbv iota.
  change (vget [1] 0) with (Ok 1).
  unfold io_bind at 1 2, lift at 1.
  change (fec_k code_1_2 <=? 1) with true. cbv iota.
  unfold for_lt.
  change (N.to_nat (fec_k code_1_2 - 0)) with 1%nat.
  cbn [loop_lt].
  change (0 <? fec_k code_1_2) with true. cbv iota.
  change (size_add 0 1 <? fec_k code_1_2) with false. cbv iota.
  change (vget [data] 0) with (Ok data).
  change (vget [x01] (0 * fec_k code_1_2 + 0)) with (Ok x01).
  cbn [bind]. rewrite Hz, addmul_zero_size by (rewrite repeat_length; exact Hne).
  cbn [bind].
  unfold io_bind at 1, lift at 1.
  rewrite vslice_ok by (rewrite repeat_length; lia).
  unfold io_bind, lift, output, io_ret. cbn [app skipn N.to_nat].
  rewrite firstn_all2 by (rewrite repeat_length; lia).
  reflexivity.
Qed.

Lemma wide_input_length : N.of_nat (length wide_input) = 4294967296.
Proof. unfold wide_input. now rewrite repeat_length, N2Nat.id. Qed.

Lemma wide_size_pos : (0 < N.to_nat 4294967296)%nat.
Proof.
  destruct (N.to_nat 4294967296) eqn:E; [|lia].
  apply (f_equal N.of_nat) in E. rewrite N2Nat.id in E. discriminate.
Qed.

Lemma encode_wide_input :
  run (encode code_1_2 wide_input)
  = ([Emit 0 2 wide_input 4294967296;
      Emit 1 2 (repeat x00 (N.to_nat 4294967296)) 4294967296], Ok tt).
Proof.
  rewrite encode_wide_block.
  2: { unfold wide_input. rewrite repeat_length. exact wide_size_pos. }
  2: { rewrite wide_input_length. reflexivity. }
  rewrite wide_input_length.
  replace (length wide_input) with (N.to_nat 4294967296)
    by (unfold wide_input; now rewrite repeat_length).
  reflexivity.
Qed.

Lemma shares_from_second (e : emission) (i t l : size_t) (d : list byte) :
  shares_from [e; Emit i t d l] [1%nat] = [(i, d)].
Proof. reflexivity. Qed.

Lemma decode_wide_share :
  run (decode code_1_2
         (shares_from [Emit 0 2 wide_input 4294967296;
                       Emit 1 2 (repeat x00 (N.to_nat 4294967296)) 4294967296]
                      [1%nat])
         4294967296)
  = ([Emit 0 1 (repeat x00 (N.to_nat 4294967296)) 4294967296], Ok tt).
Proof.
  rewrite shares_from_second.
  apply decode_wide_block; [exact wide_size_pos | reflexivity].
Qed.

(** A block of zero bytes stored at the start of the buffer. *)
Lemma reassemble_zeros (size n : nat) (total len : size_t) :
  (0 < n)%nat ->
  nth 0 (reassemble size [Emit 0 total (repeat x00 n) len]) x00 = x00.
Proof.
  intros H. unfold reassemble, fold_left, place.
  cbn [em_index em_length em_data]. rewrite Nat.mul_0_l. cbn [firstn app].
  rewrite app_nth1 by (rewrite repeat_length; exact H).
  apply nth_repeat_x00.
Qed.

Lemma wide_input_first : nth 0 wide_input x00 = x01.
Proof. apply nth_repeat_lt. exact wide_size_pos. Qed.

Lemma reassemble_wide_block :
  reassemble (length wide_input)
             [Emit 0 1 (repeat x00 (N.to_nat 4294967296)) 4294967296]
  <> wide_input.
Proof.
  intros E. apply (f_equal (fun l => nth 0 l x00)) in E.
  rewrite reassemble_zeros in E by exact wide_size_pos.
  rewrite wide_input_first in E. discriminate.
Qed.

(** C1 at a block of [2^32] bytes, with [k = 1] and [n = 2].  Both
    shares should be copies of the input.  [encode] emits the second
    share as [2^32] zero bytes, and [decode], given that share under its
    index, emits [2^32] zero bytes as the block: stored at its place,
    they are not the input. *)
Theorem round_trip_wide_block :
  fec_code_ctor 1 2 = Ok code_1_2 /\
  (length wide_input mod N.to_nat 1 = 0)%nat /\
  run (encode code_1_2 wide_input)
  = ([Emit 0 2 wide_input 4294967296;
      Emit 1 2 (repeat x00 (N.to_nat 4294967296)) 4294967296], Ok tt) /\
  run (decode code_1_2
         (shares_from [Emit 0 2 wide_input 4294967296;
                       Emit 1 2 (repeat x00 (N.to_nat 4294967296)) 4294967296]
                      [1%nat])
         4294967296)
  = ([Emit 0 1 (repeat x00 (N.to_nat 4294967296)) 4294967296], Ok tt) /\
  reassemble (length wide_input)
             [Emit 0 1 (repeat x00 (N.to_nat 4294967296)) 4294967296]
  <> wide_input.
Proof.
  split; [exact code_1_2_ctor|].
  split; [apply Nat.mod_1_r|].
  split; [exact encode_wide_input|].
  split; [exact decode_wide_share | exact reassemble_wide_block].
Qed.

(** * More properties of the code *)

(** ** The field and its tables *)

(** X1. The multiplication of the table that [init_fec] builds, with XOR
    as the addition, has the remaining properties of a field: it is
    associative, 1 is its unit, a product is zero only if a factor is,
    and a nonzero factor can be cancelled; XOR is associative and
    commutative with 0 as its unit. *)
Theorem field_structure :
  (forall a b c, gmul a (gmul b c) = gmul (gmul a b) c) /\
  (forall a, gmul x01 a = a /\ gmul a x01 = a) /\
  (forall a b, gmul a b = x00 -> a = x00 \/ b = x00) /\
  (forall a b c, a <> x00 -> gmul a b = gmul a c -> b = c) /\
  (forall a b c, gmul (bxor a b) c = bxor (gmul a c) (gmul b c)) /\
  (forall a b c, bxor a (bxor b c) = bxor (bxor a b) c) /\
  (forall a b, bxor a b = bxor b a) /\
  (forall a, bxor x00 a = a /\ bxor a x00 = a).
Proof.
  split; [apply gmul_assoc|].
  split; [intros a; split; [apply gmul_1_l | apply gmul_1_r]|].
  split; [apply gmul_eq_0|].
  split; [intros a b c; apply gmul_cancel_l|].
  split; [apply gmul_distr_r|].
  split; [apply bxor_assoc|].
  split; [apply bxor_comm|].
  intros a; split; [apply bxor_0_l | apply bxor_0_r].
Qed.

Lemma ginv_exp a : a <> x00 -> ginv a = gexp ((255 - glog a) mod 255).
Proof. destruct a; intros H; try reflexivity. congruence. Qed.

Lemma ginv_involutive a : ginv (ginv a) = a.
Proof. destruct a; reflexivity. Qed.

(** X2. The tables [GF_EXP], [GF_LOG] and [GF_INVERSE] agree with each
    other: the antilogarithm of the logarithm of a nonzero byte is the
    byte; the logarithm of [GF_EXP[i]] is [i] for [i < 255], where
    [GF_EXP[i]] is not zero and [GF_EXP[i + 255]] repeats it; the
    inverse of a nonzero byte [a] is [GF_EXP[(255 - GF_LOG[a]) mod 255]];
    the inverse of an inverse is the byte itself, and the entry for 0
    is 0. *)
Theorem tables_consistent :
  (forall a, a <> x00 -> gexp (glog a) = a /\ (glog a < 255)%nat) /\
  (forall i, (i < 255)%nat ->
     gexp i <> x00 /\ glog (gexp i) = i /\ gexp (i + 255) = gexp i) /\
  (forall a, a <> x00 -> ginv a = gexp ((255 - glog a) mod 255)) /\
  (forall a, ginv (ginv a) = a) /\
  ginv x00 = x00 /\
  gexp 0 = x01 /\ gexp 1 = x02.
Proof.
  split; [intros a Ha; split; [now apply gexp_glog | now apply glog_lt]|].
  split; [apply gexp_facts|].
  split; [apply ginv_exp|].
  split; [apply ginv_involutive|].
  repeat split.
Qed.

(** ** [addmul] and [addmul_k] *)



(** The inner loop of [addmul_k] does what [addmul] does. *)
Lemma addmul_k_row (buf : list byte) (d : nat) (src : srcbuf) (s : nat) (c : byte)
      (sz : nat) :
  (d + sz <= length buf)%nat ->
  (s + sz <= length (src_data src buf))%nat ->
  (src = SameBuffer -> (s + sz <= d \/ d + sz <= s)%nat) ->
  N.of_nat sz < SIZE_WIDTH ->
  for_ne 0 (N.of_nat sz)
    (fun j b => xor_mul (nth (Byte.to_nat c) GF_MUL_TABLE []) src
                        (Z.of_nat d) (Z.of_nat s) (Z.of_N j) b) buf
  = Ok (addmul_result buf d (src_data src buf) s c sz).
Proof.
  intros Hd Hs Hdis Hw.
  destruct (@for_ne_inv _ (fun j b => b = addmul_result buf d (src_data src buf) s c
                                                        (N.to_nat j))
              (fun j b => xor_mul (nth (Byte.to_nat c) GF_MUL_TABLE []) src
                                  (Z.of_nat d) (Z.of_nat s) (Z.of_N j) b)
              0 (N.of_nat sz) buf) as (b & E & ->); try lia.
  - symmetry. apply addmul_result_0.
  - intros j b Hj ->.
    rewrite (@xor_mul_step buf d src s c sz Hd Hs Hdis (N.to_nat j)) by lia.
    apply returns_ok. f_equal. lia.
  - rewrite E. now rewrite Nat2N.id.
Qed.

Lemma addmul_each_snoc (srcs : list (srcbuf * Z)) : forall buf dst cs src srcp c sz,
  length cs = length srcs ->
  addmul_each buf dst (srcs ++ [(src, srcp)]) (cs ++ [c]) sz
  = (b <- addmul_each buf dst srcs cs sz ;; addmul b dst src srcp c sz).
Proof.
  induction srcs as [|[src0 p0] srcs IH]; intros buf dst cs src srcp c sz Hl.
  - destruct cs; [|discriminate]. cbn [app addmul_each bind].
    destruct (addmul buf dst src srcp c sz); reflexivity.
  - destruct cs as [|c0 cs]; [discriminate|]. cbn [app addmul_each].
    destruct (addmul buf dst src0 p0 c0 sz) as [b| | |]; cbn [bind]; auto.
Qed.

Lemma firstn_snoc A (l : list A) (i : nat) (d : A) :
  (i < length l)%nat -> firstn (S i) l = firstn i l ++ [nth i l d].
Proof.
  revert i. induction l as [|a l IH]; intros [|i] H; cbn [length] in H; try lia;
    [reflexivity|].
  cbn [firstn nth app]. f_equal. apply IH. lia.
Qed.

Lemma nth_map_in A B (f : A -> B) (l : list A) (t : nat) (d : A) (d' : B) :
  (t < length l)%nat -> nth t (map f l) d' = f (nth t l d).
Proof.
  intros H. rewrite (@nth_indep _ _ t d' (f d)) by (rewrite length_map; exact H).
  apply map_nth.
Qed.

(** X4. [addmul_k(dst, srcs, cs, size, k)], with [size] bytes at [dst]
    and at each of the [k] sources, none of them overlapping [dst]:
    the call returns, byte [j] of [dst] has become
    [dst[j] XOR (cs[0] * srcs[0][j]) XOR ... XOR (cs[k-1] * srcs[k-1][j])]
    for every [j < size], every other byte of the buffer is as before,
    and for a buffer that is not empty and a [size] that fits the [int]
    of [addmul] the result is that of the calls
    [addmul(dst, srcs[i], cs[i], size)] for [i = 0 .. k-1]. *)
Theorem addmul_k_spec (buf : list byte) (d : nat) (srcs : list (srcbuf * nat))
        (cs : list byte) (size : nat) :
  length cs = length srcs ->
  N.of_nat (length srcs) < SIZE_WIDTH ->
  N.of_nat size < SIZE_WIDTH ->
  (d + size <= length buf)%nat ->
  (forall t, (t < length srcs)%nat ->
     (snd (nth t srcs (SameBuffer, O)) + size
      <= length (src_data (fst (nth t srcs (SameBuffer, O))) buf))%nat /\
     (fst (nth t srcs (SameBuffer, O)) = SameBuffer ->
      (snd (nth t srcs (SameBuffer, O)) + size <= d
       \/ d + size <= snd (nth t srcs (SameBuffer, O)))%nat)) ->
  exists buf',
    addmul_k buf (Z.of_nat d) (map (fun p => (fst p, Z.of_nat (snd p))) srcs) cs
             (N.of_nat size) (N.of_nat (length srcs)) = Ok buf' /\
    length buf' = length buf /\
    (forall j, (j < size)%nat ->
       nth (d + j) buf' x00
       = bxor (nth (d + j) buf x00)
              (gsum (length srcs)
                 (fun t => gmul (nth t cs x00)
                                (nth (snd (nth t srcs (SameBuffer, O)) + j)
                                     (src_data (fst (nth t srcs (SameBuffer, O))) buf)
                                     x00)))) /\
    (forall j, (j < d \/ d + size <= j)%nat -> nth j buf' x00 = nth j buf x00) /\
    ((0 < length buf)%nat -> (Z.of_nat size <= INT_MAX)%Z ->
     addmul_each buf (Z.of_nat d) (map (fun p => (fst p, Z.of_nat (snd p))) srcs) cs
                 (int_of_size_t (N.of_nat size)) = Ok buf').
Proof.
  intros Hcs Hk Hsize Hd Hsrc.
  set (srcz := map (fun p : srcbuf * nat => (fst p, Z.of_nat (snd p))) srcs).
  assert (Lz : length srcz = length srcs) by (unfold srcz; apply length_map).
  pose (Inv := fun (i : size_t) (cur : list byte) =>
          length cur = length buf /\
          (forall j, (j < size)%nat ->
             nth (d + j) cur x00
             = bxor (nth (d + j) buf x00)
                    (gsum (N.to_nat i)
                       (fun t => gmul (nth t cs x00)
                                      (nth (snd (nth t srcs (SameBuffer, O)) + j)
                                           (src_data (fst (nth t srcs (SameBuffer, O))) buf)
                                           x00)))) /\
          (forall j, (j < d \/ d + size <= j)%nat -> nth j cur x00 = nth j buf x00) /\
          ((0 < length buf)%nat ->
           addmul_each buf (Z.of_nat d) (firstn (N.to_nat i) srcz) (firstn (N.to_nat i) cs)
                       (Z.of_nat size) = Ok cur)).
  assert (R : returns (addmul_k buf (Z.of_nat d) srcz cs (N.of_nat size)
                                (N.of_nat (length srcs)))
                      (Inv (N.of_nat (length srcs)))).
  { unfold addmul_k. apply for_ne_inv; try lia.
    - unfold Inv. change (N.to_nat 0) with O. cbn [firstn gsum addmul_each].
      split; [reflexivity|]. split; [|split; [reflexivity | reflexivity]].
      intros j Hj. now rewrite bxor_0_r.
    - intros i cur Hi (Hl & Hsum & Hframe & Heach).
      set (t := N.to_nat i).
      assert (Ht : (t < length srcs)%nat) by (unfold t; lia).
      destruct (Hsrc t Ht) as [Hs Hdis].
      set (src := fst (nth t srcs (SameBuffer, O))) in *.
      set (s := snd (nth t srcs (SameBuffer, O))) in *.
      set (c := nth t cs x00).
      assert (Hdata : forall j, (j < size)%nat ->
                nth (s + j) (src_data src cur) x00 = nth (s + j) (src_data src buf) x00).
      { intros j Hj. destruct src eqn:Esrc; cbn [src_data]; [|reflexivity].
        apply Hframe. destruct (Hdis eq_refl); lia. }
      assert (Hs' : (s + size <= length (src_data src cur))%nat).
      { destruct src; cbn [src_data] in *; lia. }
      assert (Hstep : (0 < length buf)%nat ->
                      addmul cur (Z.of_nat d) src (Z.of_nat s) c (Z.of_nat size)
                      = Ok (addmul_result cur d (src_data src cur) s c size)).
      { intros Hne. apply addmul_spec; auto; lia. }
      assert (Hnext : Inv (i + 1) (addmul_result cur d (src_data src cur) s c size)).
      { unfold Inv. replace (N.to_nat (i + 1)) with (S t) by (unfold t; lia).
        split; [now rewrite addmul_result_length|].
        split; [|split].
        - intros j Hj. rewrite nth_addmul_result.
          destruct (Nat.leb_spec d (d + j)); [|lia].
          destruct (Nat.ltb_spec (d + j) (d + size)); [|lia].
          destruct (Nat.ltb_spec (d + j) (length cur)); [|lia].
          cbn [andb gsum]. rewrite Hsum by exact Hj.
          replace (d + j - d)%nat with j by lia.
          rewrite Hdata by exact Hj. fold src s c. now rewrite <- bxor_assoc.
        - intros j Hj. rewrite nth_addmul_result.
          destruct (Nat.leb_spec d j); destruct (Nat.ltb_spec j (d + size));
            cbn [andb]; try (now apply Hframe); lia.
        - intros Hne.
          rewrite (@firstn_snoc _ srcz t (src, Z.of_nat s)) by lia.
          rewrite (@firstn_snoc _ cs t x00) by lia.
          replace (nth t srcz (src, Z.of_nat s)) with (src, Z.of_nat s)
            by (unfold srcz; now rewrite (@nth_map_in _ _ _ srcs t (SameBuffer, O))).
          rewrite addmul_each_snoc
            by (rewrite !length_firstn; lia).
          fold t in Heach. rewrite (Heach Hne). cbn [bind]. exact (Hstep Hne). }
      rewrite (@vget_ok _ cs i x00) by lia. cbn [bind]. fold t c.
      destruct (Byte.eqb c x00) eqn:Ec.
      + apply returns_ok.
        assert (E0 : addmul_result cur d (src_data src cur) s c size = cur).
        { apply byte_eqb_eq in Ec. apply (@list_ext_nth _ _ _ x00).
          - apply addmul_result_length.
          - intros j Hj. rewrite nth_addmul_result, Ec, gmul_0_l, bxor_0_r.
            now destruct (_ && _). }
        now rewrite E0 in Hnext.
      + rewrite GF_MUL_TABLE_row. cbn [bind].
        rewrite (@vget_ok _ srcz i (src, Z.of_nat s)) by lia. fold t.
        replace (nth t srcz (src, Z.of_nat s)) with (src, Z.of_nat s)
          by (unfold srcz; now rewrite (@nth_map_in _ _ _ srcs t (SameBuffer, O))).
        cbn [bind]. rewrite addmul_k_row; auto; try lia.
        now apply returns_ok. }
  destruct R as (buf' & E & Hl & Hsum & Hframe & Heach).
  rewrite Nat2N.id in Hsum, Heach.
  exists buf'. split; [exact E|]. split; [exact Hl|]. split; [exact Hsum|].
  split; [exact Hframe|].
  intros Hne Hint. specialize (Heach Hne).
  rewrite int_of_size_t_small
    by (unfold INT_MAX in Hint; change (2 ^ 31) with 2147483648; lia).
  rewrite nat_N_Z.
  rewrite <- Lz, firstn_all in Heach. rewrite Lz, <- Hcs, firstn_all in Heach.
  exact Heach.
Qed.

Lemma addmul_k_spec_witness :
  exists buf',
    addmul_k [x01; x02; x03; x04; x05; x06] 0
             [(Buffer [x10; x20; x30], 1%Z); (SameBuffer, 3%Z)] [x03; x02] 2 2
    = Ok buf' /\
    length buf' = 6%nat /\
    addmul_each [x01; x02; x03; x04; x05; x06] 0
                [(Buffer [x10; x20; x30], 1%Z); (SameBuffer, 3%Z)] [x03; x02] 2
    = Ok buf'.
Proof.
  destruct (@addmul_k_spec [x01; x02; x03; x04; x05; x06] 0
              [(Buffer [x10; x20; x30], 1%nat); (SameBuffer, 3%nat)] [x03; x02] 2)
    as (buf' & E & Hl & _ & _ & Heach).
  - reflexivity.
  - reflexivity.
  - reflexivity.
  - cbn [length]. lia.
  - intros t Ht. destruct t as [|[|t]]; cbn [nth fst snd src_data length] in *.
    + split; [lia | discriminate].
    + split; [lia | intros _; lia].
    + lia.
  - exists buf'. split; [exact E|]. split; [exact Hl|].
    apply Heach; [cbn [length]; lia | unfold INT_MAX; lia].
Defined.

(** ** [create_inverted_vdm] *)

(** The polynomial [X^m], as a list of [k] coefficients. *)
Lemma peval_monomial (k m : nat) (x : byte) :
  (m < k)%nat ->
  length (repeat x00 m ++ [x01] ++ repeat x00 (k - S m)) = k /\
  peval (repeat x00 m ++ [x01] ++ repeat x00 (k - S m)) x = gpow x m /\
  forall i, nth i (repeat x00 m ++ [x01] ++ repeat x00 (k - S m)) x00
            = if Nat.eqb i m then x01 else x00.
Proof.
  intros H. split; [|split].
  - rewrite !length_app, !repeat_length. cbn [length]. lia.
  - rewrite peval_app, repeat_length, peval_repeat_zero, bxor_0_l.
    cbn [app peval]. now rewrite peval_repeat_zero, gmul_0_r, bxor_0_r, gmul_1_r.
  - intros i. destruct (Nat.eqb_spec i m) as [->|Hne].
    + rewrite app_nth2 by (rewrite repeat_length; lia).
      rewrite repeat_length, Nat.sub_diag. reflexivity.
    + destruct (Nat.lt_ge_cases i m).
      * rewrite app_nth1 by (rewrite repeat_length; lia). apply nth_repeat_x00.
      * rewrite app_nth2 by (rewrite repeat_length; lia). rewrite repeat_length.
        destruct (i - m)%nat as [|q] eqn:E; [lia|]. cbn [app nth].
        apply nth_repeat_x00.
Qed.

(** X5. [create_inverted_vdm(vdm, k)] for [1 <= k <= 256] and a buffer
    of at least [k * k] bytes returns, and the [k]x[k] matrix it has
    written is the inverse, on both sides, of the Vandermonde matrix of
    the points [0, GF_EXP[1], ..., GF_EXP[k-1]], whose entry [(j, i)] is
    the [i]-th power of point [j].  With [k = 0] it writes [c[k-1]]
    into an empty vector. *)
Theorem create_inverted_vdm_inverse :
  (forall vdm, create_inverted_vdm vdm 0 = Undefined) /\
  (forall (vdm : list byte) (k : size_t),
     1 <= k <= 256 ->
     (N.to_nat k * N.to_nat k <= length vdm)%nat ->
     exists v,
       create_inverted_vdm vdm k = Ok v /\
       length v = length vdm /\
       (forall j l, (j < N.to_nat k)%nat -> (l < N.to_nat k)%nat ->
          gsum (N.to_nat k) (fun i => gmul (gpow (point j) i) (mat (N.to_nat k) v i l))
          = if Nat.eqb j l then x01 else x00) /\
       (forall i m, (i < N.to_nat k)%nat -> (m < N.to_nat k)%nat ->
          gsum (N.to_nat k) (fun l => gmul (mat (N.to_nat k) v i l) (gpow (point l) m))
          = if Nat.eqb i m then x01 else x00)).
Proof.
  split; [reflexivity|].
  intros vdm k Hk Hlen.
  destruct (@create_inverted_vdm_spec vdm k Hk Hlen) as (v & E & Hl & Hent).
  exists v. split; [exact E|]. split; [exact Hl|]. split.
  - intros j l Hj Hl'.
    rewrite (@gsum_ext (N.to_nat k) _
               (fun i => gmul (gpow (point j) i) (vdm_entry (N.to_nat k) i l)))
      by (intros i Hi; unfold mat; now rewrite Hent).
    apply vdm_entry_inverse; lia.
  - intros i m Hi Hm.
    destruct (@peval_monomial (N.to_nat k) m x00 Hm) as (Lc & _ & Hnth).
    rewrite (@gsum_ext (N.to_nat k) _
               (fun l => gmul (vdm_entry (N.to_nat k) i l)
                              (peval (repeat x00 m ++ [x01] ++ repeat x00 (N.to_nat k - S m))
                                     (point l)))).
    + rewrite vdm_entry_coefficients by (auto; lia). apply Hnth.
    + intros l Hl'. unfold mat. rewrite Hent by assumption.
      f_equal. symmetry. now apply peval_monomial.
Qed.

Lemma create_inverted_vdm_inverse_witness :
  exists v,
    create_inverted_vdm (repeat x00 9) 3 = Ok v /\
    length v = 9%nat /\
    (forall j l, (j < 3)%nat -> (l < 3)%nat ->
       gsum 3 (fun i => gmul (gpow (point j) i) (mat 3 v i l))
       = if Nat.eqb j l then x01 else x00).
Proof.
  destruct (proj2 create_inverted_vdm_inverse (repeat x00 9) 3)
    as (v & E & Hl & Hleft & _).
  - lia.
  - cbn [length repeat]. vm_compute. lia.
  - exists v. split; [exact E|]. split; [exact Hl | exact Hleft].
Defined.

(** ** [invert_matrix] *)

(** X6. [invert_matrix(src, k)] on a [k]x[k] matrix each of whose rows
    is independent of the rows before it and of the unit vectors after
    it returns, and the matrix it leaves in [src] is a left inverse of
    the matrix it was given: the product of the two is the identity. *)
Theorem invert_matrix_left_inverse (m : list byte) (k : size_t) :
  k <= 256 ->
  length m = (N.to_nat k * N.to_nat k)%nat ->
  (forall c, (c < N.to_nat k)%nat -> independent (N.to_nat k) (mat (N.to_nat k) m) c) ->
  exists m',
    invert_matrix m k = Ok m' /\
    length m' = length m /\
    forall i l, (i < N.to_nat k)%nat -> (l < N.to_nat k)%nat ->
      gsum (N.to_nat k) (fun j => gmul (mat (N.to_nat k) m' i j) (mat (N.to_nat k) m j l))
      = if Nat.eqb i l then x01 else x00.
Proof.
  intros Hk Hlen Hind.
  destruct (@invert_matrix_spec m k Hk Hlen Hind) as (m' & E & Hl & Hinv).
  exists m'. split; [exact E|]. split; [congruence|].
  intros i l Hi Hl'.
  rewrite (Hinv (fun j => if Nat.eqb j l then x01 else x00) i Hi).
  apply gsum_ext. intros j Hj. f_equal. unfold mulv.
  rewrite (@gsum_ext (N.to_nat k) _
             (fun q => if Nat.eqb q l then mat (N.to_nat k) m j q else x00)).
  - now rewrite gsum_single.
  - intros q Hq. destruct (Nat.eqb q l); [apply gmul_1_r | apply gmul_0_r].
Qed.

Lemma invert_matrix_left_inverse_witness :
  exists m',
    invert_matrix [x01; x01; x01; x00] 2 = Ok m' /\
    length m' = 4%nat /\
    forall i l, (i < 2)%nat -> (l < 2)%nat ->
      gsum 2 (fun j => gmul (mat 2 m' i j) (mat 2 [x01; x01; x01; x00] j l))
      = if Nat.eqb i l then x01 else x00.
Proof.
  apply (@invert_matrix_left_inverse [x01; x01; x01; x00] 2).
  - lia.
  - reflexivity.
  - intros c Hc. change (N.to_nat 2) with 2%nat in *.
    destruct c as [|[|c]]; [| |lia].
    + exists (fun j => if Nat.eqb j 0 then x01 else x00).
      split; [|split].
      * intros j Hj. destruct j as [|j]; [lia | reflexivity].
      * intros j Hj. lia.
      * vm_compute. discriminate.
    + exists (fun _ => x01).
      split; [|split].
      * intros j Hj. lia.
      * intros j Hj. destruct j as [|j]; [reflexivity | lia].
      * vm_compute. discriminate.
Defined.

(** The search for the first pivot: the diagonal entry is zero, the
    entry found is [a], in row 0 and column 1. *)
Lemma pivot_first (a b : byte) :
  a <> x00 ->
  pivot_search [false; false] 0 [x00; a; b; x00] = Ok ([false; true], (0, 1)).
Proof.
  intros Ha. apply byte_eqb_neq in Ha.
  unfold pivot_search. cbv -[Byte.eqb].
  change (Byte.eqb x00 x00) with true. cbv -[Byte.eqb].
  rewrite Ha. reflexivity.
Qed.

(** The search for the second pivot: column 1 is marked, the entry
    found is in row 0 and column 0 again. *)
Lemma pivot_second (x a : byte) :
  x <> x00 ->
  pivot_search [false; true] 1 [x; x00; x00; a] = Ok ([true; true], (0, 0)).
Proof.
  intros Ha. apply byte_eqb_neq in Ha.
  unfold pivot_search. cbv -[Byte.eqb]. rewrite Ha. reflexivity.
Qed.

(** Scaling row 0 by the inverse of its pivot. *)
Lemma normalize_first (c y z : byte) :
  normalize_row 2 0 0 c [c; x00; y; z] = Ok [ginv c; x00; y; z].
Proof.
  unfold normalize_row. rewrite GF_INVERSE_get. cbn [bind].
  change (vset [c; x00; y; z] (0 + 0) x01) with (Ok [x01; x00; y; z]). cbn [bind].
  rewrite GF_MUL_TABLE_row. cbn [bind].
  unfold for_ne. change (N.to_nat (size_sub 2 0)) with 2%nat.
  cbn [loop_ne]. change (0 =? 2) with false. cbv iota.
  change (vget [x01; x00; y; z] (0 + 0)) with (Ok x01). cbn [bind].
  rewrite mul_row_get. cbn [bind].
  change (vset [x01; x00; y; z] (0 + 0) (gmul (ginv c) x01)) with (Ok [gmul (ginv c) x01; x00; y; z]).
  cbn [bind]. change (size_add 0 1 =? 2) with false. cbv iota.
  change (size_add 0 1) with 1.
  change (vget [gmul (ginv c) x01; x00; y; z] (0 + 1)) with (Ok x00). cbn [bind].
  rewrite mul_row_get. cbn [bind].
  change (vset [gmul (ginv c) x01; x00; y; z] (0 + 1) (gmul (ginv c) x00))
    with (Ok [gmul (ginv c) x01; gmul (ginv c) x00; y; z]).
  cbn [bind]. change (size_add 1 1 =? 2) with true. cbv iota.
  now rewrite gmul_1_r, gmul_0_r.
Qed.

Lemma addmul_zero_coeff buf d src s sz : addmul buf d src s x00 sz = Ok buf.
Proof. reflexivity. Qed.

(** The other row has 0 in the pivot column: nothing is removed. *)
Lemma eliminate_noop (x a : byte) :
  eliminate 2 0 0 [x; x00; x00; a] = Ok [x; x00; x00; a].
Proof.
  unfold eliminate. cbv -[addmul]. rewrite addmul_zero_coeff. reflexivity.
Qed.

(** The rest of an iteration of [invert_column] once the pivot [c] is
    at the head of row 0. *)
Lemma pivot_tail (c a : byte) (indxc indxr : list Z) (ipiv : list bool) :
  c <> x00 ->
  (c0 <- vget [c; x00; x00; a] (0 * 2 + 0) ;;
   if Byte.eqb c0 x00 then Throw (invalid_argument "singlar matrix")
   else
     src <- (if negb (Byte.eqb c0 x01) then normalize_row 2 (0 * 2) 0 c0 [c; x00; x00; a]
             else Ok [c; x00; x00; a]) ;;
     id_row <- vset [x00; x00] 0 x01 ;;
     differs <- memcmp_ne src (0 * 2) id_row 0 2 ;;
     src <- (if differs then eliminate 2 (0 * 2) 0 src else Ok src) ;;
     id_row <- vset id_row 0 x00 ;;
     Ok {| gj_src := src; gj_indxc := indxc; gj_indxr := indxr;
           gj_id_row := id_row; gj_ipiv := ipiv |})
  = Ok {| gj_src := [ginv c; x00; x00; a]; gj_indxc := indxc; gj_indxr := indxr;
          gj_id_row := [x00; x00]; gj_ipiv := ipiv |}.
Proof.
  intros Hc. apply byte_eqb_neq in Hc.
  change (vget [c; x00; x00; a] (0 * 2 + 0)) with (Ok c). cbn [bind].
  rewrite Hc. change (0 * 2) with 0.
  assert (E : (if negb (Byte.eqb c x01) then normalize_row 2 0 0 c [c; x00; x00; a]
               else Ok [c; x00; x00; a]) = Ok [ginv c; x00; x00; a]).
  { destruct (Byte.eqb c x01) eqn:E1; cbn [negb].
    - apply byte_eqb_eq in E1. subst c. reflexivity.
    - apply normalize_first. }
  rewrite E. cbn [bind].
  change (vset [x00; x00] 0 x01) with (Ok [x01; x00]). cbn [bind].
  change (memcmp_ne [ginv c; x00; x00; a] 0 [x01; x00] 0 2)
    with (Ok (negb (Byte.eqb (ginv c) x01 && true))).
  cbn [bind].
  destruct (negb (Byte.eqb (ginv c) x01 && true)).
  - rewrite eliminate_noop. reflexivity.
  - reflexivity.
Qed.

(** The two iterations and the exchange of the columns afterwards. *)
Lemma invert_matrix_2x2_off_diagonal (a b : byte) :
  a <> x00 -> b <> x00 ->
  invert_matrix [x00; a; b; x00] 2 = Ok [x00; b; a; x00].
Proof.
  intros Ha Hb.
  unfold invert_matrix. change (N.to_nat 2) with 2%nat. cbn [repeat].
  unfold for_ne at 1. change (N.to_nat (size_sub 2 0)) with 2%nat.
  cbn [loop_ne]. change (0 =? 2) with false. cbv iota.
  unfold invert_column at 1. cbn [gj_src gj_ipiv gj_indxc gj_indxr gj_id_row].
  rewrite (pivot_first b Ha). cbn [bind fst snd].
  change (negb (1 =? 0)) with true. cbv iota.
  change (swap_rows 2 1 0 [x00; a; b; x00]) with (Ok [b; x00; x00; a]). cbn [bind].
  change (vset [0%Z; 0%Z] 0 (int_of_size_t 1)) with (Ok [1%Z; 0%Z]). cbn [bind].
  change (vset [0%Z; 0%Z] 0 (int_of_size_t 0)) with (Ok [0%Z; 0%Z]). cbn [bind].
  rewrite (pivot_tail a [0%Z; 0%Z] [1%Z; 0%Z] [false; true] Hb). cbn [bind].
  change (size_add 0 1) with 1. change (1 =? 2) with false. cbv iota.
  unfold invert_column at 1. cbn [gj_src gj_ipiv gj_indxc gj_indxr gj_id_row].
  rewrite (pivot_second a (ginv_nonzero Hb)). cbn [bind fst snd].
  change (negb (0 =? 0)) with false. cbv iota. cbn [bind].
  change (vset [1%Z; 0%Z] 1 (int_of_size_t 0)) with (Ok [1%Z; 0%Z]). cbn [bind].
  change (vset [0%Z; 0%Z] 1 (int_of_size_t 0)) with (Ok [0%Z; 0%Z]). cbn [bind].
  rewrite (pivot_tail a [0%Z; 0%Z] [1%Z; 0%Z] [true; true] (ginv_nonzero Hb)). cbn [bind].
  change (size_add 1 1) with 2. change (2 =? 2) with true. cbv iota.
  rewrite ginv_involutive.
  reflexivity.
Qed.

(** X7. When no pivot is found on the diagonal, [pivot_search] returns
    the pair [(row, i)], which [invert_matrix] reads as [(icol, irow)]:
    for the matrix with the non-zero entries [a] and [b] off the
    diagonal, it returns the transposed matrix, which is the inverse
    only if [a = b = 1]. *)
Theorem invert_matrix_off_diagonal (a b : byte) :
  a <> x00 -> b <> x00 ->
  invert_matrix [x00; a; b; x00] 2 = Ok [x00; b; a; x00] /\
  ((forall i l, (i < 2)%nat -> (l < 2)%nat ->
      gsum 2 (fun j => gmul (mat 2 [x00; b; a; x00] i j) (mat 2 [x00; a; b; x00] j l))
      = if Nat.eqb i l then x01 else x00)
   <-> a = x01 /\ b = x01).
Proof.
  intros Ha Hb.
  assert (Hsq : forallb (fun a => implb (Byte.eqb (gmul a a) x01) (Byte.eqb a x01)) all_bytes
                = true) by (vm_compute; reflexivity).
  split; [now apply invert_matrix_2x2_off_diagonal|].
  split.
  - intros H.
    pose proof (H 0 0 ltac:(lia) ltac:(lia))%nat as H0.
    pose proof (H 1 1 ltac:(lia) ltac:(lia))%nat as H1.
    cbn [gsum mat nth Nat.mul Nat.add Nat.eqb] in H0, H1.
    rewrite gmul_0_l, bxor_0_l in H0.
    rewrite gmul_0_l, bxor_0_r, bxor_0_l in H1.
    rewrite forallb_forall in Hsq.
    pose proof (Hsq a (all_bytes_In a)) as Sa.
    pose proof (Hsq b (all_bytes_In b)) as Sb.
    rewrite H1 in Sa. rewrite H0 in Sb.
    change (Byte.eqb x01 x01) with true in Sa, Sb.
    cbn [implb] in Sa, Sb.
    apply byte_eqb_eq in Sa, Sb. auto.
  - intros [-> ->] i l Hi Hl.
    destruct i as [|[|i]]; [| |lia]; (destruct l as [|[|l]]; [| |lia]); reflexivity.
Qed.

Lemma invert_matrix_off_diagonal_witness :
  invert_matrix [x00; x02; x03; x00] 2 = Ok [x00; x03; x02; x00].
Proof.
  apply (proj1 (@invert_matrix_off_diagonal x02 x03 ltac:(discriminate) ltac:(discriminate))).
Defined.

(** ** [fec_code::encode] *)

(** A loop whose iterations leave the state or are undefined, and one
    of which is undefined. *)
Lemma loop_ne_undefined S (body : size_t -> S -> result S) (s : S) (hi : size_t)
      (fuel : nat) : forall lo,
  lo <= hi -> hi < SIZE_WIDTH -> (N.to_nat (hi - lo) <= fuel)%nat ->
  (forall i, lo <= i < hi -> body i s = Ok s \/ body i s = Undefined) ->
  (exists j, lo <= j < hi /\ body j s = Undefined) ->
  loop_ne fuel lo hi 1 body s = Undefined.
Proof.
  induction fuel as [|fuel IH]; intros lo Hle Hw Hf Hsteps (j & Hj & Ej).
  - lia.
  - cbn [loop_ne]. destruct (N.eqb_spec lo hi) as [E|Hne]; [lia|].
    destruct (Hsteps lo ltac:(lia)) as [E|E]; rewrite E; [|reflexivity].
    cbn [bind]. rewrite size_add_small by lia.
    apply IH; try lia.
    + intros i Hi. apply Hsteps. lia.
    + exists j. split; [|exact Ej].
      destruct (N.eq_dec j lo) as [->|]; [congruence | lia].
Qed.

(** A sum that is not zero has a term that is not zero. *)
Lemma gsum_nonzero_term (n : nat) (f : nat -> byte) :
  gsum n f <> x00 -> exists j, (j < n)%nat /\ f j <> x00.
Proof.
  induction n as [|n IH]; cbn [gsum]; intros H; [congruence|].
  destruct (Byte.byte_eq_dec (f n) x00) as [E|E].
  - rewrite E, bxor_0_r in H. destruct (IH H) as (j & Hj & Hf).
    exists j. split; [lia | exact Hf].
  - exists n. split; [lia | exact E].
Qed.

(** Every row of the encoding matrix has an entry that is not zero. *)
Lemma enc_row_nonzero (k r : nat) :
  (1 <= k)%nat -> (k <= 256)%nat ->
  exists j, (j < k)%nat /\ enc_entry k r j <> x00.
Proof.
  intros Hk1 Hk.
  destruct (@peval_monomial k 0 x00 ltac:(lia)) as (Lc & _ & _).
  pose proof (@enc_entry_interpolates k Hk1 Hk _ r Lc) as H.
  assert (Hone : forall x, peval (repeat x00 0 ++ [x01] ++ repeat x00 (k - 1)) x = x01).
  { intros x. now destruct (@peval_monomial k 0 x ltac:(lia)) as (_ & -> & _). }
  rewrite Hone in H.
  destruct (@gsum_nonzero_term k
              (fun l => gmul (enc_entry k r l)
                             (peval (repeat x00 0 ++ [x01] ++ repeat x00 (k - 1)) (point l))))
    as (j & Hj & Hf).
  { rewrite H. discriminate. }
  exists j. split; [exact Hj|]. intros E. apply Hf. rewrite E. apply gmul_0_l.
Qed.

(** [encode] of the empty input with a redundant share to compute:
    after the [k] primary blocks, [addmul] is given the data pointer of
    the empty [fec_buf] with a coefficient that is not 0. *)
Lemma encode_empty (self : fec_code) :
  valid_code self ->
  fec_k self < fec_n self ->
  run (encode self [])
  = (map (fun i => Emit (N.of_nat i) (fec_n self) [] 0) (seq 0 (N.to_nat (fec_k self))),
     Undefined).
Proof.
  intros Hvalid Hlt. pose proof Hvalid as (Hk1 & Hkn & Hn & Hlen & Hent).
  pose proof SIZE_WIDTH_eq as W.
  set (kn := N.to_nat (fec_k self)) in *.
  unfold run, encode. cbv zeta. cbn [length N.of_nat].
  destruct (N.eqb_spec (fec_k self) 0); [lia|].
  rewrite N.Div0.mod_0_l, N.Div0.div_0_l. cbn [N.eqb negb].
  unfold io_bind at 1.
  pose proof (@encode_primary_loop self [] 0 [] Hvalid ltac:(cbn [length]; lia)) as Hp.
  cbn [N.of_nat] in Hp. rewrite Hp. clear Hp.
  cbv beta iota. cbn [app]. fold kn.
  unfold io_for_ne.
  destruct (N.to_nat (size_sub (fec_n self) (fec_k self))) as [|fuel] eqn:Ef.
  { rewrite size_sub_small in Ef by lia. lia. }
  cbn [io_loop_ne]. destruct (N.eqb_spec (fec_k self) (fec_n self)); [lia|].
  change (N.to_nat 0) with 0%nat. cbn [repeat].
  assert (E : for_ne 0 (fec_k self) (fun j fec_buf =>
                c <- vget (enc_matrix self) (fec_k self * fec_k self + j) ;;
                addmul fec_buf 0 (Buffer []) (Z.of_N (j * 0)) c (int_of_size_t 0)) []
              = Undefined).
  { unfold for_ne. apply loop_ne_undefined; try lia.
    - rewrite size_sub_small by lia. lia.
    - intros j Hj.
      pose proof (@row_bound kn (N.to_nat (fec_n self)) kn ltac:(lia)) as Hrow.
      rewrite (@vget_ok _ (enc_matrix self) _ x00) by (unfold kn in *; lia).
      cbn [bind].
      destruct (Byte.byte_eq_dec
                  (nth (N.to_nat (fec_k self * fec_k self + j)) (enc_matrix self) x00) x00)
        as [->|Hc]; [now left | right].
      apply addmul_null; [exact Hc | vm_compute; split; discriminate].
    - destruct (@enc_row_nonzero kn kn ltac:(lia) ltac:(lia)) as (j & Hj & Hc).
      exists (N.of_nat j). split; [lia|].
      pose proof (@row_bound kn (N.to_nat (fec_n self)) kn ltac:(lia)) as Hrow.
      rewrite (@vget_ok _ (enc_matrix self) _ x00) by (unfold kn in *; lia).
      cbn [bind].
      replace (N.to_nat (fec_k self * fec_k self + N.of_nat j)) with (kn * kn + j)%nat
        by (unfold kn; lia).
      fold (mat kn (enc_matrix self) kn j). rewrite Hent by lia.
      apply addmul_null; [exact Hc | vm_compute; split; discriminate]. }
  unfold io_bind, lift. rewrite E. cbv beta iota.
  reflexivity.
Qed.

(** X8. [encode] of a constructed code: an input whose length is no
    multiple of [k] is rejected before the callback is invoked; an
    input of [k] blocks of 1 to [INT_MAX] bytes gives [n] invocations,
    the [r]-th with index [r], total [n] and the block size as length,
    and byte [t] of its data is the combination of the bytes [t] of the
    [k] blocks with the coefficients of row [r] of the encoding matrix;
    the empty input with [k < n] gives the [k] invocations for the empty
    primary blocks and then undefined behaviour: [addmul] is handed
    [&fec_buf[0]] of an empty vector. *)
Theorem encode_outcome (k n : size_t) (self : fec_code) (input : list byte) :
  fec_code_ctor k n = Ok self ->
  ((length input mod N.to_nat k <> 0)%nat ->
   run (encode self input)
   = ([], Throw (invalid_argument "encode: input must be multiple of k bytes"))) /\
  ((length input mod N.to_nat k = 0)%nat ->
   (1 <= length input / N.to_nat k)%nat ->
   (Z.of_nat (length input / N.to_nat k) <= INT_MAX)%Z ->
   exists tr,
     run (encode self input) = (tr, Ok tt) /\
     length tr = N.to_nat n /\
     forall r, (r < N.to_nat n)%nat ->
       exists data,
         nth r tr (Emit 0 0 [] 0)
         = Emit (N.of_nat r) n data (N.of_nat (length input / N.to_nat k)) /\
         length data = (length input / N.to_nat k)%nat /\
         forall t, (t < length input / N.to_nat k)%nat ->
           nth t data x00
           = gsum (N.to_nat k)
               (fun j => gmul (mat (N.to_nat k) (enc_matrix self) r j)
                              (nth (j * (length input / N.to_nat k) + t) input x00))) /\
  (input = [] -> k < n ->
   run (encode self input)
   = (map (fun i => Emit (N.of_nat i) n [] 0) (seq 0 (N.to_nat k)), Undefined)).
Proof.
  intros E. apply fec_code_ctor_valid in E. destruct E as (<- & <- & Hvalid).
  pose proof Hvalid as (Hk1 & Hkn & Hn & Hlen & Hent).
  set (kn := N.to_nat (fec_k self)) in *.
  split; [|split].
  - intros Hmod. unfold encode. cbv zeta.
    destruct (N.eqb_spec (fec_k self) 0) as [E0|_]; [lia|].
    destruct (N.eqb_spec (N.of_nat (length input) mod fec_k self) 0) as [Em|_];
      [|reflexivity].
    exfalso. apply Hmod.
    replace (fec_k self) with (N.of_nat kn) in Em by lia.
    rewrite <- Nat2N.inj_mod in Em. lia.
  - intros Hmod Hne Hint. set (bs := (length input / kn)%nat) in *.
    exists (encoded self input).
    split; [now apply encode_spec|].
    unfold encoded. cbv zeta. fold kn. fold bs.
    split; [now rewrite length_map, length_seq|].
    intros r Hr. exists (share_data kn bs input r).
    split; [now rewrite nth_map_seq|].
    split.
    + unfold share_data. destruct (Nat.ltb_spec r kn) as [Hrk|Hrk].
      * apply block_length. pose proof (@row_bound r kn bs Hrk).
        pose proof (Nat.div_mod_eq (length input) kn). fold bs in H0. lia.
      * apply combination_length.
    + intros t Ht. rewrite nth_share_data by exact Ht.
      apply gsum_ext. intros j Hj. now rewrite Hent.
  - intros -> Hlt. now apply encode_empty.
Qed.

Lemma encode_outcome_witness :
  run (encode code_3_5 [])
  = (map (fun i => Emit (N.of_nat i) 5 [] 0) (seq 0 (N.to_nat 3)), Undefined).
Proof.
  apply (proj2 (proj2 (@encode_outcome 3 5 code_3_5 [] code_3_5_ctor))).
  - reflexivity.
  - reflexivity.
Defined.

(** ** [fec_code::encode] followed by [fec_code::decode] *)

(** The blocks that [decode] emits, stored at the places of their
    indices, make up the input. *)
Lemma reassemble_decoded (self : fec_code) (shares : share_map) (bs : nat)
      (input : list byte) :
  length input = (N.to_nat (fec_k self) * bs)%nat ->
  reassemble (length input) (decoded self shares bs input) = input.
Proof.
  intros Hin. set (kn := N.to_nat (fec_k self)) in *.
  set (order := filter (supplied shares) (seq 0 kn)
                ++ filter (fun i => negb (supplied shares i)) (seq 0 kn)).
  assert (Hperm : Permutation order (seq 0 kn)) by apply filter_split_perm.
  assert (Eout : decoded self shares bs input
                 = map (fun i => Emit (N.of_nat i) (fec_k self) (block bs input i)
                                      (N.of_nat bs)) order).
  { unfold decoded, order. cbv zeta. fold kn. now rewrite map_app. }
  rewrite Eout. unfold reassemble.
  destruct (@place_blocks (fec_k self) kn bs input order Hin)
    with (buf := repeat x00 (length input)) as [Hl Hnth].
  - apply Forall_forall. intros i Hi.
    apply (Permutation_in _ Hperm), in_seq in Hi. lia.
  - rewrite repeat_length. exact Hin.
  - apply (@list_ext_nth _ _ _ x00); [lia|].
    intros p Hp. rewrite Hl in Hp. rewrite Hnth by exact Hp.
    assert (Hbs : (0 < bs)%nat) by (destruct bs; lia).
    assert (Hq : (p / bs < kn)%nat) by (apply Nat.Div0.div_lt_upper_bound; lia).
    assert (Hex : existsb (Nat.eqb (p / bs)) order = true).
    { apply existsb_exists. exists (p / bs)%nat. split; [|apply Nat.eqb_refl].
      apply (Permutation_in _ (Permutation_sym Hperm)), in_seq. lia. }
    now rewrite Hex.
Qed.

(** X9. The round trip with any number of shares from [k] on, for
    blocks of 1 to [INT_MAX] bytes: [decode], given the shares of
    any set of at least [k] positions of what [encode] emitted, each
    under its index, returns after exactly [k] invocations of the
    callback, one for each block of the input, with the block's number
    as index and [k] as total; stored at the places of their indices
    they make up the input. *)
Theorem round_trip_surplus (k n : size_t) (self : fec_code) (input : list byte)
        (idxs : list nat) :
  fec_code_ctor k n = Ok self ->
  (length input mod N.to_nat k = 0)%nat ->
  (Z.of_nat (length input / N.to_nat k) <= INT_MAX)%Z ->
  (1 <= length input / N.to_nat k)%nat ->
  StronglySorted lt idxs ->
  Forall (fun i => (i < N.to_nat n)%nat) idxs ->
  (N.to_nat k <= length idxs)%nat ->
  exists emitted out,
    run (encode self input) = (emitted, Ok tt) /\
    run (decode self (shares_from emitted idxs) (N.of_nat (length input / N.to_nat k)))
    = (out, Ok tt) /\
    Permutation out
      (map (fun i => Emit (N.of_nat i) k
                          (block (length input / N.to_nat k) input i)
                          (N.of_nat (length input / N.to_nat k)))
           (seq 0 (N.to_nat k))) /\
    reassemble (length input) out = input.
Proof.
  intros E Hmod Hint Hne Hsorted Hidx Hcount.
  apply fec_code_ctor_valid in E. destruct E as (<- & <- & Hvalid).
  pose proof Hvalid as (Hk1 & Hkn & Hn & Hlen & Hent).
  set (kn := N.to_nat (fec_k self)) in *.
  set (bs := (length input / kn)%nat) in *.
  assert (Hin : length input = (kn * bs)%nat).
  { unfold bs. pose proof (Nat.div_mod_eq (length input) kn). lia. }
  set (shares := shares_from (encoded self input) idxs).
  assert (Eshares : shares = map (fun i => (N.of_nat i, share_data kn bs input i)) idxs).
  { unfold shares. now rewrite shares_from_encoded. }
  assert (Hmap : is_map shares).
  { unfold is_map. rewrite Eshares, map_map. cbn [fst].
    now apply sorted_map_of_nat. }
  assert (Henough : (kn <= length shares)%nat).
  { now rewrite Eshares, length_map. }
  assert (Hgen : shares_of self bs input shares).
  { intros id data Hid. rewrite Eshares in Hid. apply in_map_iff in Hid.
    destruct Hid as (i & Ei & Hi). injection Ei as <- <-.
    rewrite Forall_forall in Hidx. specialize (Hidx i Hi).
    split; [lia|]. now rewrite Nat2N.id. }
  exists (encoded self input), (decoded self shares bs input).
  split; [now apply encode_spec|].
  split; [now apply decode_spec|].
  split; [|now apply reassemble_decoded].
  unfold decoded. cbv zeta. fold kn. fold bs. rewrite <- map_app.
  apply Permutation_map, filter_split_perm.
Qed.

Lemma round_trip_surplus_witness :
  exists emitted out,
    run (encode code_3_5 [x01; x02; x03; x04; x05; x06]) = (emitted, Ok tt) /\
    run (decode code_3_5 (shares_from emitted [0; 2; 3; 4]%nat) 2) = (out, Ok tt) /\
    reassemble 6 out = [x01; x02; x03; x04; x05; x06].
Proof.
  destruct (@round_trip_surplus 3 5 code_3_5 [x01; x02; x03; x04; x05; x06]
              [0; 2; 3; 4]%nat)
    as (emitted & out & Ee & Ed & _ & Er).
  - exact code_3_5_ctor.
  - reflexivity.
  - vm_compute. discriminate.
  - vm_compute. lia.
  - repeat (constructor; [|repeat constructor]). constructor.
  - repeat constructor.
  - cbn [length N.to_nat]. vm_compute. lia.
  - exists emitted, out. auto.
Defined.

(** ** The encoding matrix of [fec_code::fec_code] *)

(** Any [k] values are the values of a polynomial of degree less than
    [k] at the first [k] points. *)
Lemma interpolation (k : nat) (x : nat -> byte) :
  (1 <= k)%nat -> (k <= 256)%nat ->
  exists cs, length cs = k /\ forall j, (j < k)%nat -> peval cs (point j) = x j.
Proof.
  intros Hk1 Hk.
  exists (map (fun i => gsum k (fun l => gmul (vdm_entry k i l) (x l))) (seq 0 k)).
  split; [now rewrite length_map, length_seq|].
  intros j Hj. rewrite peval_gsum, length_map, length_seq.
  rewrite (@gsum_ext k _
             (fun i => gsum k (fun l => gmul (x l)
                                             (gmul (gpow (point j) i) (vdm_entry k i l))))).
  2: { intros i Hi. rewrite nth_map_seq by exact Hi. cbn [Nat.add].
       rewrite <- gsum_scale_r. apply gsum_ext. intros l Hl. ring. }
  rewrite gsum_exchange.
  rewrite (@gsum_ext k _ (fun l => if Nat.eqb l j then x l else x00)).
  - now apply gsum_single.
  - intros l Hl. rewrite gsum_scale, vdm_entry_inverse by lia.
    rewrite (Nat.eqb_sym j l). destruct (Nat.eqb l j); ring.
Qed.

(** X10. Any [k] distinct rows of the encoding matrix of a constructed
    code are linearly independent: a vector that each of them maps to
    zero is zero.  This is what lets [decode] work from any [k]
    shares. *)
Theorem encoding_rows_independent (k n : size_t) (self : fec_code)
        (rows : list nat) (x : nat -> byte) :
  fec_code_ctor k n = Ok self ->
  NoDup rows ->
  length rows = N.to_nat k ->
  Forall (fun r => (r < N.to_nat n)%nat) rows ->
  (forall r, In r rows ->
     gsum (N.to_nat k)
       (fun j => gmul (mat (N.to_nat k) (enc_matrix self) r j) (x j)) = x00) ->
  forall j, (j < N.to_nat k)%nat -> x j = x00.
Proof.
  intros E Hnd Hcount Hrows Hzero.
  apply fec_code_ctor_valid in E. destruct E as (<- & <- & Hvalid).
  destruct Hvalid as (Hk1 & Hkn & Hn & Hlen & Hent).
  set (kn := N.to_nat (fec_k self)) in *.
  rewrite Forall_forall in Hrows.
  destruct (@interpolation kn x) as (cs & Lcs & Hcs); [lia | lia |].
  assert (Hall : Forall (fun c => c = x00) cs).
  { apply (@roots_bound (map point rows)).
    - apply NoDup_map_NoDup_ForallPairs; [|exact Hnd].
      intros a b Ha Hb Eab. apply point_inj; auto.
      + specialize (Hrows a Ha). lia.
      + specialize (Hrows b Hb). lia.
    - rewrite length_map. lia.
    - intros p Hp. apply in_map_iff in Hp. destruct Hp as (r & <- & Hr).
      rewrite <- (@enc_entry_interpolates kn ltac:(lia) ltac:(lia) cs r Lcs).
      rewrite <- (Hzero r Hr). apply gsum_ext. intros l Hl.
      rewrite Hcs by exact Hl. rewrite Hent; auto. }
  intros j Hj. rewrite <- Hcs by exact Hj. now apply peval_zeros.
Qed.

Lemma encoding_rows_independent_witness :
  (fun _ : nat => x00) 2%nat = x00.
Proof.
  refine (@encoding_rows_independent 3 5 code_3_5 [1; 3; 4]%nat (fun _ => x00)
            _ _ _ _ _ 2%nat _).
  - exact code_3_5_ctor.
  - repeat constructor; cbn [In]; lia.
  - reflexivity.
  - repeat constructor.
  - intros r Hr. apply gsum_all_zero. intros i Hi. apply gmul_0_r.
  - vm_compute. lia.
Defined.

(** X11. The code is a Reed-Solomon code: for an input of [k] blocks
    of at most [INT_MAX] bytes, the bytes [t] of the [n] shares that
    [encode] emits are the values, at the points [0, GF_EXP[1], ...,
    GF_EXP[n-1]], of one polynomial of degree less than [k]. *)
Theorem encode_evaluates_polynomial (k n : size_t) (self : fec_code)
        (input : list byte) (t : nat) :
  fec_code_ctor k n = Ok self ->
  (length input mod N.to_nat k = 0)%nat ->
  (Z.of_nat (length input / N.to_nat k) <= INT_MAX)%Z ->
  (t < length input / N.to_nat k)%nat ->
  exists tr cs,
    run (encode self input) = (tr, Ok tt) /\
    length cs = N.to_nat k /\
    forall r, (r < N.to_nat n)%nat ->
      nth t (em_data (nth r tr (Emit 0 0 [] 0))) x00 = peval cs (point r).
Proof.
  intros E Hmod Hint Ht.
  apply fec_code_ctor_valid in E. destruct E as (<- & <- & Hvalid).
  pose proof Hvalid as (Hk1 & Hkn & Hn & Hlen & Hent).
  set (kn := N.to_nat (fec_k self)) in *.
  set (bs := (length input / kn)%nat) in *.
  assert (Hne : (1 <= bs)%nat) by lia.
  destruct (@interpolation kn (fun j => nth (j * bs + t) input x00))
    as (cs & Lcs & Hcs); [lia | lia |].
  exists (encoded self input), cs.
  split; [now apply encode_spec|].
  split; [exact Lcs|].
  intros r Hr. unfold encoded. cbv zeta. fold kn. fold bs.
  rewrite nth_map_seq by exact Hr. cbn [em_data Nat.add].
  rewrite nth_share_data by exact Ht.
  rewrite <- (@enc_entry_interpolates kn ltac:(lia) ltac:(lia) cs r Lcs).
  apply gsum_ext. intros l Hl. now rewrite Hcs.
Qed.

Lemma encode_evaluates_polynomial_witness :
  exists tr cs,
    run (encode code_3_5 [x01; x02; x03; x04; x05; x06]) = (tr, Ok tt) /\
    length cs = 3%nat /\
    forall r, (r < 5)%nat ->
      nth 1 (em_data (nth r tr (Emit 0 0 [] 0))) x00 = peval cs (point r).
Proof.
  apply (@encode_evaluates_polynomial 3 5 code_3_5 [x01; x02; x03; x04; x05; x06] 1).
  - exact code_3_5_ctor.
  - reflexivity.
  - vm_compute. discriminate.
  - vm_compute. lia.
Defined.

(** X12. The shares do not depend on [n]: the encoding matrix of the
    code [(k, n)] is the first [n] rows of that of a code [(k, n')]
    with [n <= n'], and [encode] under the two codes, given blocks of 1
    to [INT_MAX] bytes, passes the same data for every share below [n]. *)
Theorem shares_independent_of_n (k n n' : size_t) (a b : fec_code) (input : list byte) :
  fec_code_ctor k n = Ok a ->
  fec_code_ctor k n' = Ok b ->
  n <= n' ->
  enc_matrix a = firstn (N.to_nat n * N.to_nat k) (enc_matrix b) /\
  ((length input mod N.to_nat k = 0)%nat ->
   (1 <= length input / N.to_nat k)%nat ->
   (Z.of_nat (length input / N.to_nat k) <= INT_MAX)%Z ->
   exists tra trb,
     run (encode a input) = (tra, Ok tt) /\
     run (encode b input) = (trb, Ok tt) /\
     forall r, (r < N.to_nat n)%nat ->
       em_index (nth r tra (Emit 0 0 [] 0)) = em_index (nth r trb (Emit 0 0 [] 0)) /\
       em_data (nth r tra (Emit 0 0 [] 0)) = em_data (nth r trb (Emit 0 0 [] 0))).
Proof.
  intros Ea Eb Hnn.
  apply fec_code_ctor_valid in Ea. destruct Ea as (Ka & Na & Va).
  apply fec_code_ctor_valid in Eb. destruct Eb as (Kb & Nb & Vb).
  pose proof Va as (Hk1 & _ & _ & La & Hea).
  pose proof Vb as (_ & _ & _ & Lb & Heb).
  rewrite Ka, Na in *. rewrite Kb, Nb in *.
  set (kn := N.to_nat k) in *.
  assert (Hle : (N.to_nat n * kn <= N.to_nat n' * kn)%nat)
    by (apply Nat.mul_le_mono_r; lia).
  split.
  - apply (@list_ext_nth _ _ _ x00).
    + rewrite length_firstn. lia.
    + intros p Hp. rewrite La in Hp. rewrite nth_firstn.
      destruct (Nat.ltb_spec p (N.to_nat n * kn)); [|lia].
      assert (Hr : (p / kn < N.to_nat n)%nat)
        by (apply Nat.Div0.div_lt_upper_bound; lia).
      assert (Hl : (p mod kn < kn)%nat) by (apply Nat.mod_upper_bound; lia).
      rewrite (@index_decompose p kn) by lia.
      change (mat kn (enc_matrix a) (p / kn) (p mod kn)
              = mat kn (enc_matrix b) (p / kn) (p mod kn)).
      rewrite Hea, Heb by (auto; lia). reflexivity.
  - intros Hmod Hne Hint.
    exists (encoded a input), (encoded b input).
    split; [apply encode_spec; auto; rewrite Ka; auto|].
    split; [apply encode_spec; auto; rewrite Kb; auto|].
    intros r Hr. unfold encoded. cbv zeta. rewrite Ka, Na, Kb, Nb.
    rewrite !nth_map_seq by lia. split; reflexivity.
Qed.

Lemma shares_independent_of_n_witness :
  enc_matrix code_3_4 = firstn (N.to_nat 4 * N.to_nat 3) (enc_matrix code_3_5).
Proof.
  assert (E : fec_code_ctor 3 4 = Ok code_3_4) by (vm_compute; reflexivity).
  apply (proj1 (@shares_independent_of_n 3 4 5 code_3_4 code_3_5 []
                  E code_3_5_ctor ltac:(lia))).
Defined.

(** The bytes of the exclusive or of two buffers of one length. *)
Lemma nth_xor_bytes (a b : list byte) (p : nat) :
  length a = length b ->
  nth p (xor_bytes a b) x00 = bxor (nth p a x00) (nth p b x00).
Proof.
  revert b p. induction a as [|x a IH]; intros [|y b] p H; try discriminate.
  - destruct p; reflexivity.
  - destruct p as [|p]; [reflexivity|].
    cbn [xor_bytes combine map nth]. apply IH. now injection H.
Qed.

Lemma xor_bytes_length (a b : list byte) :
  length a = length b -> length (xor_bytes a b) = length a.
Proof.
  intros H. unfold xor_bytes. rewrite length_map, length_combine. lia.
Qed.

(** X13. [encode] is linear: for two inputs of one length, of [k]
    blocks of 1 to [INT_MAX] bytes, every share of their exclusive or
    is the exclusive or of their shares. *)
Theorem encode_linear (k n : size_t) (self : fec_code) (a b : list byte) :
  fec_code_ctor k n = Ok self ->
  length a = length b ->
  (length a mod N.to_nat k = 0)%nat ->
  (1 <= length a / N.to_nat k)%nat ->
  (Z.of_nat (length a / N.to_nat k) <= INT_MAX)%Z ->
  exists tra trb trx,
    run (encode self a) = (tra, Ok tt) /\
    run (encode self b) = (trb, Ok tt) /\
    run (encode self (xor_bytes a b)) = (trx, Ok tt) /\
    forall r, (r < N.to_nat n)%nat ->
      em_data (nth r trx (Emit 0 0 [] 0))
      = xor_bytes (em_data (nth r tra (Emit 0 0 [] 0)))
                  (em_data (nth r trb (Emit 0 0 [] 0))).
Proof.
  intros E Hab Hmod Hne Hint.
  apply fec_code_ctor_valid in E. destruct E as (<- & <- & Hvalid).
  pose proof Hvalid as (Hk1 & Hkn & Hn & Hlen & Hent).
  pose proof (xor_bytes_length a b Hab) as Hx.
  set (kn := N.to_nat (fec_k self)) in *.
  set (bs := (length a / kn)%nat) in *.
  assert (Hin : length a = (kn * bs)%nat).
  { unfold bs. pose proof (Nat.div_mod_eq (length a) kn). lia. }
  assert (Hlen_sd : forall input r, length input = (kn * bs)%nat -> (r < N.to_nat (fec_n self))%nat ->
            length (share_data kn bs input r) = bs).
  { intros input r Hi Hr. unfold share_data.
    destruct (Nat.ltb_spec r kn) as [Hrk|Hrk].
    - apply block_length. pose proof (@row_bound r kn bs Hrk). lia.
    - apply combination_length. }
  exists (encoded self a), (encoded self b), (encoded self (xor_bytes a b)).
  split; [now apply encode_spec|].
  split; [apply encode_spec; auto; rewrite <- Hab; auto|].
  split; [apply encode_spec; auto; rewrite Hx; auto|].
  intros r Hr. unfold encoded. cbv zeta. fold kn.
  rewrite Hx, <- Hab. fold bs.
  rewrite !nth_map_seq by exact Hr. cbn [em_data Nat.add].
  apply (@list_ext_nth _ _ _ x00).
  - rewrite xor_bytes_length; rewrite !Hlen_sd; auto; lia.
  - intros t Ht. rewrite Hlen_sd in Ht by (auto; lia).
    rewrite nth_xor_bytes by (rewrite !Hlen_sd; auto; lia).
    rewrite !nth_share_data by exact Ht.
    rewrite <- gsum_add. apply gsum_ext. intros j Hj.
    rewrite nth_xor_bytes by exact Hab. ring.
Qed.

Lemma encode_linear_witness :
  exists tra trb trx,
    run (encode code_3_5 [x01; x02; x03]) = (tra, Ok tt) /\
    run (encode code_3_5 [x04; x05; x06]) = (trb, Ok tt) /\
    run (encode code_3_5 (xor_bytes [x01; x02; x03] [x04; x05; x06])) = (trx, Ok tt) /\
    forall r, (r < 5)%nat ->
      em_data (nth r trx (Emit 0 0 [] 0))
      = xor_bytes (em_data (nth r tra (Emit 0 0 [] 0)))
                  (em_data (nth r trb (Emit 0 0 [] 0))).
Proof.
  apply (@encode_linear 3 5 code_3_5 [x01; x02; x03] [x04; x05; x06]).
  - exact code_3_5_ctor.
  - reflexivity.
  - reflexivity.
  - vm_compute. lia.
  - vm_compute. discriminate.
Defined.

(** X14. With [k = 1] the code is a repetition code: [encode], given
    an input of 1 to [INT_MAX] bytes, passes the whole input as the data
    of each of the [n] shares. *)
Theorem encode_repetition (n : size_t) (self : fec_code) (input : list byte) :
  fec_code_ctor 1 n = Ok self ->
  (1 <= length input)%nat ->
  (Z.of_nat (length input) <= INT_MAX)%Z ->
  run (encode self input)
  = (map (fun r => Emit (N.of_nat r) n input (N.of_nat (length input)))
         (seq 0 (N.to_nat n)), Ok tt).
Proof.
  intros E Hne Hint.
  apply fec_code_ctor_valid in E. destruct E as (Ek & <- & Hvalid).
  assert (Hdiv : (length input / N.to_nat (fec_k self))%nat = length input)
    by (rewrite Ek; apply Nat.div_1_r).
  rewrite encode_spec; auto.
  2: { rewrite Ek. apply Nat.mod_1_r. }
  2: { now rewrite Hdiv. }
  2: { now rewrite Hdiv. }
  f_equal. unfold encoded. cbv zeta. rewrite Hdiv, Ek.
  apply map_ext. intros r. f_equal.
  change (N.to_nat 1) with 1%nat.
  unfold share_data. destruct (Nat.ltb_spec r 1) as [Hr|Hr].
  - replace r with 0%nat by lia. unfold block. cbn [Nat.mul skipn].
    apply firstn_all.
  - unfold combination. apply (@list_ext_nth _ _ _ x00).
    + now rewrite length_map, length_seq.
    + intros t Ht. rewrite length_map, length_seq in Ht.
      rewrite nth_map_seq by exact Ht. cbn [gsum Nat.mul Nat.add].
      unfold enc_entry. destruct (Nat.ltb_spec r 1); [lia|].
      cbn [gsum gpow].
      change (vdm_entry 1 0 0) with x01. ring.
Qed.

Lemma encode_repetition_witness :
  run (encode code_1_2 [x05; x06; x07])
  = (map (fun r => Emit (N.of_nat r) 2 [x05; x06; x07] (N.of_nat 3)) (seq 0 (N.to_nat 2)),
     Ok tt).
Proof.
  apply (@encode_repetition 2 code_1_2 [x05; x06; x07] code_1_2_ctor).
  - cbn [length]. lia.
  - vm_compute. discriminate.
Defined.

(** ** [fec_code::decode] followed by [fec_code::encode] *)

Lemma peval_padd (a b : list byte) (x : byte) :
  peval (padd a b) x = bxor (peval a x) (peval b x).
Proof.
  revert b. induction a as [|c a IH]; intros [|d b]; cbn [padd peval].
  - now rewrite bxor_0_l.
  - now rewrite bxor_0_l.
  - now rewrite bxor_0_r.
  - rewrite IH. ring.
Qed.

Lemma padd_length (a b : list byte) :
  length (padd a b) = Nat.max (length a) (length b).
Proof.
  revert b. induction a as [|c a IH]; intros [|d b]; cbn [padd length]; auto.
  now rewrite IH.
Qed.

Lemma peval_scaled (c : byte) (a : list byte) (x : byte) :
  peval (map (gmul c) a) x = gmul c (peval a x).
Proof.
  induction a as [|d a IH]; cbn [map peval].
  - now rewrite gmul_0_r.
  - rewrite IH. ring.
Qed.

(** [interpolate ps ys] has the values [ys] at the distinct points [ps]. *)
Lemma interpolate_spec (ps : list byte) :
  NoDup ps ->
  forall ys : list byte, length ys = length ps ->
    length (interpolate ps ys) = length ps /\
    forall i, (i < length ps)%nat ->
      peval (interpolate ps ys) (nth i ps x00) = nth i ys x00.
Proof.
  induction 1 as [|p ps Hp Hnd IH]; intros ys Hys.
  - split; [reflexivity|]. cbn [length]. intros i Hi. lia.
  - destruct ys as [|y ys]; [discriminate|]. cbn [length] in Hys.
    destruct (IH ys ltac:(lia)) as [Lg Hg].
    cbn [interpolate]. cbv zeta.
    set (g := interpolate ps ys) in *.
    split.
    + rewrite padd_length, length_map, roots_poly_length, Lg. cbn [length]. lia.
    + intros i Hi. rewrite peval_padd, peval_scaled.
      destruct i as [|i]; cbn [nth].
      * pose proof (@peval_roots_poly_nonroot ps p Hp) as Hr.
        rewrite <- gmul_assoc, (gmul_inv_l Hr), gmul_1_r.
        rewrite (bxor_comm y). apply bxor_cancel_l.
      * cbn [length] in Hi.
        rewrite (@peval_roots_poly_root ps (nth i ps x00)) by (apply nth_In; lia).
        rewrite Hg by lia. now rewrite gmul_0_r, bxor_0_r.
Qed.

(** Any [k] shares of [bs] bytes with distinct indices below [n] are the
    shares of [interpolated_input]. *)
Lemma shares_of_interpolated (self : fec_code) (shares : share_map) (bs : nat) :
  valid_code self ->
  is_map shares ->
  length shares = N.to_nat (fec_k self) ->
  (forall id data, In (id, data) shares -> id < fec_n self /\ length data = bs) ->
  shares_of self bs (interpolated_input (N.to_nat (fec_k self)) bs shares) shares.
Proof.
  intros Hvalid Hmap Hcount Hwf.
  pose proof Hvalid as (Hk1 & Hkn & Hn & Hlen & Hent).
  set (kn := N.to_nat (fec_k self)) in *.
  set (pts := map (fun sh : size_t * list byte => point (N.to_nat (fst sh))) shares).
  assert (Lpts : length pts = kn) by (unfold pts; now rewrite length_map).
  assert (Hnd : NoDup pts).
  { unfold pts. rewrite <- (map_map fst (fun id => point (N.to_nat id))).
    apply NoDup_map_NoDup_ForallPairs; [|now apply sorted_NoDup].
    assert (Hlt : forall id, In id (map fst shares) -> id < fec_n self).
    { intros id Hid. apply in_map_iff in Hid. destruct Hid as ([id' data] & <- & Hin).
      now apply (Hwf id' data). }
    intros a b Ha Hb E. apply Hlt in Ha, Hb.
    apply point_inj in E; lia. }
  intros id data Hin. destruct (Hwf id data Hin) as [Hid Hdata].
  split; [exact Hid|].
  destruct (In_nth _ _ (0, []) Hin) as (i & Hi & Ei).
  apply (@list_ext_nth _ _ _ x00).
  - rewrite Hdata. fold kn. unfold share_data.
    destruct (Nat.ltb_spec (N.to_nat id) kn) as [Hrk|Hrk].
    + symmetry. apply block_length. unfold interpolated_input.
      rewrite length_map, length_seq. pose proof (@row_bound (N.to_nat id) kn bs Hrk). lia.
    + symmetry. apply combination_length.
  - intros t Ht. rewrite Hdata in Ht. fold kn.
    rewrite nth_share_data by exact Ht.
    set (ys := map (fun sh : size_t * list byte => nth t (snd sh) x00) shares).
    assert (Lys : length ys = length pts) by (unfold ys, pts; now rewrite !length_map).
    destruct (@interpolate_spec pts Hnd ys Lys) as [Lf Hf].
    rewrite (@gsum_ext kn _
               (fun j => gmul (enc_entry kn (N.to_nat id) j)
                              (peval (interpolate pts ys) (point j)))).
    2: { intros j Hj. f_equal. unfold interpolated_input.
         assert (Hp : (j * bs + t < kn * bs)%nat)
           by (pose proof (@row_bound j kn bs Hj); lia).
         rewrite nth_map_seq by exact Hp. cbn [Nat.add].
         destruct (@div_mod_index j t bs Ht) as [-> ->]. reflexivity. }
    rewrite enc_entry_interpolates by lia.
    specialize (Hf i ltac:(lia)).
    assert (Epi : nth i pts x00 = point (N.to_nat id)).
    { unfold pts. rewrite (@nth_map_in _ _ _ shares i (0, []) x00) by exact Hi.
      now rewrite Ei. }
    assert (Eyi : nth i ys x00 = nth t data x00).
    { unfold ys. rewrite (@nth_map_in _ _ _ shares i (0, []) x00) by exact Hi.
      now rewrite Ei. }
    rewrite Epi, Eyi in Hf. now rewrite Hf.
Qed.

(** X15. [decode] followed by [encode]: given exactly [k] shares with
    distinct indices below [n], each of [1 <= bs <= INT_MAX] bytes, whatever
    the bytes are, [decode] returns; the blocks it emits, stored at the
    places of their indices, form an input for which [encode] emits the
    given data under each of the given indices. *)
Theorem decode_then_encode (k n : size_t) (self : fec_code) (shares : share_map)
        (bs : nat) :
  fec_code_ctor k n = Ok self ->
  is_map shares ->
  length shares = N.to_nat k ->
  (forall id data, In (id, data) shares -> id < n /\ length data = bs) ->
  (1 <= bs)%nat ->
  (Z.of_nat bs <= INT_MAX)%Z ->
  exists out input tr,
    run (decode self shares (N.of_nat bs)) = (out, Ok tt) /\
    length input = (N.to_nat k * bs)%nat /\
    reassemble (N.to_nat k * bs) out = input /\
    run (encode self input) = (tr, Ok tt) /\
    forall id data, In (id, data) shares ->
      em_data (nth (N.to_nat id) tr (Emit 0 0 [] 0)) = data.
Proof.
  intros E Hmap Hcount Hwf Hne Hint.
  apply fec_code_ctor_valid in E. destruct E as (<- & <- & Hvalid).
  pose proof Hvalid as (Hk1 & Hkn & Hn & Hlen & Hent).
  set (kn := N.to_nat (fec_k self)) in *.
  set (input := interpolated_input kn bs shares).
  assert (Lin : length input = (kn * bs)%nat)
    by (unfold input, interpolated_input; now rewrite length_map, length_seq).
  assert (Hgen : shares_of self bs input shares)
    by now apply shares_of_interpolated.
  assert (Hdiv : (length input / kn = bs)%nat)
    by (rewrite Lin, Nat.mul_comm; apply Nat.div_mul; lia).
  exists (decoded self shares bs input), input, (encoded self input).
  split; [apply decode_spec; auto; fold kn; lia|].
  split; [exact Lin|].
  split; [rewrite <- Lin; now apply reassemble_decoded|].
  split.
  - apply encode_spec; auto; fold kn.
    + rewrite Lin, Nat.mul_comm. apply Nat.Div0.mod_mul.
    + now rewrite Hdiv.
    + now rewrite Hdiv.
  - intros id data Hin. destruct (Hgen id data Hin) as [Hid ->].
    unfold encoded. cbv zeta. fold kn. rewrite Hdiv.
    rewrite nth_map_seq by lia. reflexivity.
Qed.

Lemma decode_then_encode_witness :
  exists out input tr,
    run (decode code_3_5 [(1, [x07]); (3, [x09]); (4, [x0b])] (N.of_nat 1))
    = (out, Ok tt) /\
    length input = (N.to_nat 3 * 1)%nat /\
    reassemble (N.to_nat 3 * 1) out = input /\
    run (encode code_3_5 input) = (tr, Ok tt) /\
    forall id data, In (id, data) [(1, [x07]); (3, [x09]); (4, [x0b])] ->
      em_data (nth (N.to_nat id) tr (Emit 0 0 [] 0)) = data.
Proof.
  apply (@decode_then_encode 3 5 code_3_5 [(1, [x07]); (3, [x09]); (4, [x0b])] 1).
  - exact code_3_5_ctor.
  - unfold is_map. cbn [map fst].
    repeat (constructor; [|repeat constructor; lia]). constructor.
  - reflexivity.
  - intros id data [H|[H|[H|[]]]]; injection H as <- <-; split; (lia || reflexivity).
  - lia.
  - vm_compute. discriminate.
Defined.

(** ** [fec_code::encode] with blocks of any size *)

(** [addmul] on a buffer that is not empty, with any length from
    [INT_MIN + 16] on: a length that is not positive is a length of 0. *)
Lemma addmul_any_length (buf : list byte) (d : nat) (src : srcbuf) (s : nat) (c : byte)
      (sz : Z) :
  (0 < length buf)%nat ->
  (INT_MIN + 16 <= sz)%Z ->
  (d + Z.to_nat sz <= length buf)%nat ->
  (s + Z.to_nat sz <= length (src_data src buf))%nat ->
  (src = SameBuffer -> (s + Z.to_nat sz <= d \/ d + Z.to_nat sz <= s)%nat) ->
  addmul buf (Z.of_nat d) src (Z.of_nat s) c sz
  = Ok (addmul_result buf d (src_data src buf) s c (Z.to_nat sz)).
Proof.
  intros Hne Hmin Hd Hs Hdis.
  destruct (Z.le_gt_cases sz 0) as [Hneg|Hpos].
  - replace (Z.to_nat sz) with 0%nat by lia. rewrite addmul_result_0.
    unfold addmul. destruct (Byte.eqb c x00); [reflexivity|].
    rewrite GF_MUL_TABLE_row. cbn [bind].
    destruct (Z.ltb_spec (sz - 16) INT_MIN) as [H|_]; [lia|].
    rewrite !ptr_add_object by exact Hne.
    cbn [addmul_unrolled].
    destruct (Z.ltb_spec (Z.of_nat d) (Z.of_nat d + (sz - 16 + 1))) as [H|_]; [lia|].
    cbn [bind addmul_tail].
    destruct (Z.ltb_spec (Z.of_nat d) (Z.of_nat d + (sz - 16 + 1) + (16 - 1))) as [H|_];
      [lia | reflexivity].
  - rewrite <- (Z2Nat.id sz) at 1 by lia. now apply addmul_spec.
Qed.

(** The [int] that a [size_t] is converted to is no larger. *)
Lemma int_of_size_t_le (x : size_t) : (int_of_size_t x <= Z.of_N x)%Z.
Proof.
  unfold int_of_size_t. cbv zeta.
  pose proof (N.Div0.mod_le x (2 ^ 32)) as H.
  destruct (Z.leb_spec (Z.of_N (x mod 2 ^ 32)) INT_MAX); lia.
Qed.

(** The redundant share of row [i] as [encode] accumulates it: [addmul]
    is given the block size as an [int]. *)
Lemma fec_buf_any_size (self : fec_code) (input : list byte) (bs i : nat) :
  valid_code self ->
  length input = (N.to_nat (fec_k self) * bs)%nat ->
  (1 <= bs)%nat ->
  (INT_MIN + 16 <= int_of_size_t (N.of_nat bs))%Z ->
  (N.to_nat (fec_k self) <= i < N.to_nat (fec_n self))%nat ->
  returns
    (for_ne 0 (fec_k self) (fun j fec_buf =>
       c <- vget (enc_matrix self) (N.of_nat i * fec_k self + j) ;;
       addmul fec_buf 0 (Buffer input) (Z.of_N (j * N.of_nat bs))
              c (int_of_size_t (N.of_nat bs))) (repeat x00 bs))
    (fun buf =>
       buf = map (fun t =>
                    if (Z.of_nat t <? int_of_size_t (N.of_nat bs))%Z
                    then gsum (N.to_nat (fec_k self))
                           (fun j => gmul (enc_entry (N.to_nat (fec_k self)) i j)
                                          (nth (j * bs + t) input x00))
                    else x00)
                 (seq 0 bs)).
Proof.
  intros (Hk1 & Hkn & Hn & Hlen & Hent) Hin Hne Hmin Hi.
  pose proof SIZE_WIDTH_eq as W.
  pose proof (int_of_size_t_le (N.of_nat bs)) as Hle.
  set (kn := N.to_nat (fec_k self)) in *.
  set (sz := int_of_size_t (N.of_nat bs)) in *.
  eapply returns_weaken.
  - apply for_ne_inv with
      (I := fun j buf =>
              length buf = bs /\
              forall t, (t < bs)%nat ->
                nth t buf x00 =
                if (Z.of_nat t <? sz)%Z
                then gsum (N.to_nat j)
                       (fun j' => gmul (enc_entry kn i j') (nth (j' * bs + t) input x00))
                else x00);
      try lia.
    + split; [apply repeat_length|]. intros t Ht. rewrite nth_repeat_x00.
      now destruct (Z.of_nat t <? sz)%Z.
    + intros j buf Hj (Hl & Hb).
      set (jn := N.to_nat j).
      pose proof (@row_bound i (N.to_nat (fec_n self)) kn ltac:(lia)) as Hrow.
      pose proof (@row_bound jn kn bs ltac:(lia)) as Hjrow.
      rewrite (@vget_ok _ (enc_matrix self) _ x00) by lia. cbn [bind].
      replace (N.to_nat (N.of_nat i * fec_k self + j)) with (i * kn + jn)%nat by lia.
      fold (mat kn (enc_matrix self) i jn). rewrite Hent by lia.
      replace (Z.of_N (j * N.of_nat bs)) with (Z.of_nat (jn * bs)) by lia.
      change 0%Z with (Z.of_nat 0).
      rewrite addmul_any_length; cbn [src_data]; try lia; try discriminate.
      apply returns_ok.
      split; [now rewrite (@addmul_result_length buf 0 (Buffer input))|].
      intros t Ht. rewrite (@nth_addmul_result buf 0 (Buffer input)). cbn [src_data].
      destruct (Nat.leb_spec 0 t); [|lia].
      destruct (Nat.ltb_spec t (length buf)); [|lia].
      rewrite Hb by exact Ht.
      replace (N.to_nat (j + 1)) with (S jn) by lia.
      destruct (Z.ltb_spec (Z.of_nat t) sz);
        (destruct (Nat.ltb_spec t (0 + Z.to_nat sz)); [|]); try lia; cbn [andb gsum].
      * replace (jn * bs + (t - 0))%nat with (jn * bs + t)%nat by lia. reflexivity.
      * reflexivity.
  - intros buf (Hl & Hb).
    apply (@list_ext_nth _ _ _ x00).
    + now rewrite length_map, length_seq.
    + intros t Ht. rewrite Hb by lia. rewrite nth_map_seq by lia. reflexivity.
Qed.

(** X16. [encode] of a constructed code with blocks of any size from 1
    on: when the block size, converted to the [int] that [addmul] takes,
    is at least [INT_MIN + 16], [encode] returns after [n] invocations; the
    first [k] pass the blocks of the input, and of each redundant share
    only the bytes below that [int] are the combination of the blocks,
    the others are zero as allocated, which from [2^31] bytes on are
    some bytes of every redundant share. *)
Theorem encode_any_size (k n : size_t) (self : fec_code) (input : list byte) :
  fec_code_ctor k n = Ok self ->
  (length input mod N.to_nat k = 0)%nat ->
  (1 <= length input / N.to_nat k)%nat ->
  (INT_MIN + 16 <= int_of_size_t (N.of_nat (length input / N.to_nat k)))%Z ->
  exists tr,
    run (encode self input) = (tr, Ok tt) /\
    length tr = N.to_nat n /\
    forall r, (r < N.to_nat n)%nat ->
      exists data,
        nth r tr (Emit 0 0 [] 0)
        = Emit (N.of_nat r) n data (N.of_nat (length input / N.to_nat k)) /\
        length data = (length input / N.to_nat k)%nat /\
        forall t, (t < length input / N.to_nat k)%nat ->
          nth t data x00
          = if (r <? N.to_nat k)%nat
               || (Z.of_nat t <? int_of_size_t (N.of_nat (length input / N.to_nat k)))%Z
            then gsum (N.to_nat k)
                   (fun j => gmul (mat (N.to_nat k) (enc_matrix self) r j)
                                  (nth (j * (length input / N.to_nat k) + t) input x00))
            else x00.
Proof.
  intros E Hmod Hne Hmin.
  apply fec_code_ctor_valid in E. destruct E as (<- & <- & Hvalid).
  pose proof Hvalid as (Hk1 & Hkn & Hn & Hlen & Hent).
  pose proof SIZE_WIDTH_eq as W.
  set (kn := N.to_nat (fec_k self)) in *.
  set (bs := (length input / kn)%nat) in *.
  set (sz := int_of_size_t (N.of_nat bs)) in *.
  assert (Hin : length input = (kn * bs)%nat).
  { unfold bs. pose proof (Nat.div_mod_eq (length input) kn). lia. }
  set (share := fun r =>
         if (r <? kn)%nat then block bs input r
         else map (fun t =>
                     if (Z.of_nat t <? sz)%Z
                     then gsum kn (fun j => gmul (enc_entry kn r j)
                                                 (nth (j * bs + t) input x00))
                     else x00) (seq 0 bs)).
  set (emit := fun r => Emit (N.of_nat r) (fec_n self) (share r) (N.of_nat bs)).
  assert (Hrun : run (encode self input) = (map emit (seq 0 (N.to_nat (fec_n self))), Ok tt)).
  { unfold run, encode. cbv zeta.
    destruct (N.eqb_spec (fec_k self) 0); [lia|].
    assert (Emod : N.of_nat (length input) mod fec_k self = 0).
    { replace (fec_k self) with (N.of_nat kn) by lia. rewrite <- Nat2N.inj_mod. lia. }
    rewrite Emod. cbn [N.eqb negb].
    assert (Ediv : N.of_nat (length input) / fec_k self = N.of_nat bs).
    { unfold bs, kn. rewrite Nat2N.inj_div, N2Nat.id. reflexivity. }
    rewrite Ediv. unfold io_bind at 1.
    rewrite (@encode_primary_loop self input bs []) by assumption.
    cbv beta iota. cbn [app]. fold kn.
    assert (R : io_returns
      (io_for_ne (fec_k self) (fec_n self) (fun i (_ : unit) =>
         let fec_buf := repeat x00 (N.to_nat (N.of_nat bs)) in
         fec_buf <~ lift (for_ne 0 (fec_k self) (fun j fec_buf =>
                      c <- vget (enc_matrix self) (i * fec_k self + j) ;;
                      addmul fec_buf 0 (Buffer input) (Z.of_N (j * N.of_nat bs))
                             c (int_of_size_t (N.of_nat bs))) fec_buf) ;;
         output i (fec_n self) fec_buf (N.of_nat (length fec_buf))) tt)
      (map (fun i => Emit (N.of_nat i) (fec_n self) (block bs input i) (N.of_nat bs))
           (seq 0 kn))
      (fun _ tr => tr = map emit (seq 0 (N.to_nat (fec_n self))))).
    { apply io_for_ne_inv with
        (I := fun i (_ : unit) tr => tr = map emit (seq 0 (N.to_nat i))); try lia.
      - fold kn. apply map_ext_in. intros i Hi. apply in_seq in Hi.
        unfold emit, share. destruct (Nat.ltb_spec i kn); [reflexivity | lia].
      - intros i [] tr' Hi ->.
        set (im := N.to_nat i).
        cbv zeta. rewrite Nat2N.id.
        eapply io_returns_bind.
        + apply (@io_returns_lift_eq _ _ (share im)).
          replace i with (N.of_nat im) by lia.
          destruct (@fec_buf_any_size self input bs im Hvalid Hin Hne Hmin
                      ltac:(fold kn; lia))
            as (buf & Ebuf & ->).
          rewrite Ebuf. f_equal. unfold share. fold kn. fold sz.
          destruct (Nat.ltb_spec im kn); [lia | reflexivity].
        + intros d tr'' [-> ->]. apply io_returns_output.
          replace (N.to_nat (i + 1)) with (S im) by lia.
          rewrite seq_S, map_app. cbn [map Nat.add]. f_equal. f_equal.
          unfold emit. f_equal.
          * lia.
          * unfold share. destruct (Nat.ltb_spec im kn); [lia|].
            now rewrite length_map, length_seq. }
    destruct R as ([] & tr & E & ->). exact E. }
  exists (map emit (seq 0 (N.to_nat (fec_n self)))).
  split; [exact Hrun|].
  split; [now rewrite length_map, length_seq|].
  intros r Hr. exists (share r).
  split; [now rewrite nth_map_seq|].
  unfold share. destruct (Nat.ltb_spec r kn) as [Hrk|Hrk]; cbn [orb].
  - pose proof (@row_bound r kn bs Hrk) as Hrow.
    split; [apply block_length; lia|].
    intros t Ht. rewrite nth_block by exact Ht.
    rewrite (@gsum_ext kn _ (fun j => if Nat.eqb j r then nth (j * bs + t) input x00 else x00)).
    + now rewrite gsum_single.
    + intros j Hj. rewrite Hent by lia. unfold enc_entry.
      destruct (Nat.ltb_spec r kn); [|lia]. rewrite Nat.eqb_sym.
      destruct (Nat.eqb j r); ring.
  - split; [now rewrite length_map, length_seq|].
    intros t Ht. rewrite nth_map_seq by exact Ht. cbn [Nat.add].
    destruct (Z.of_nat t <? sz)%Z; [|reflexivity].
    apply gsum_ext. intros j Hj. now rewrite Hent.
Qed.

Lemma encode_any_size_witness :
  exists tr,
    run (encode code_3_5 [x01; x02; x03; x04; x05; x06]) = (tr, Ok tt) /\
    length tr = N.to_nat 5.
Proof.
  destruct (@encode_any_size 3 5 code_3_5 [x01; x02; x03; x04; x05; x06])
    as (tr & E & Hl & _).
  - exact code_3_5_ctor.
  - reflexivity.
  - vm_compute. lia.
  - vm_compute. discriminate.
  - exists tr. split; [exact E | exact Hl].
Defined.
